(** * Orthogonal edge routing and grid placement (veschin/d2 fork)

    A shallow embedding of the corridor router (package [d2gridrouter]) and of
    the standalone grid engine (package [d2wueortho]).

    Conventions of the embedding
    - Go [float64] is Rocq's primitive binary64 [float]; [+], [-], [*], [/],
      [abs] and the comparisons are the IEEE operations the Go code executes
      (no fused multiply-add, as on amd64).
    - Go [int] is [Z]; the integers of these functions are indices, counters
      and grid coordinates, far from the 64-bit range.
    - A slice is a [list]; [s[i]] is a lookup that fails (a Go panic) out of
      range, so a function that indexes is an [option].
    - A [[]*geo.Point] built by the router holds pairwise distinct pointers
      (every point is allocated by [routeAllEdges]); a route is therefore a
      list of point values and an in-place write to [pts[i]] is a list
      update at [i]. *)

From Stdlib Require Import ZArith List Bool Floats Uint63 Permutation Sorted.
From stdpp Require Import base option list gmap strings.

Set Warnings "-inexact-float".

Local Open Scope Z_scope.

(** A [for ... range] loop whose body may panic: the body [f] runs on the
    elements of [l] in turn and the loop stops at the first [None]. *)
Fixpoint foldM {A B : Type} (f : A -> B -> option A) (a : A) (l : list B) : option A :=
  match l with
  | [] => Some a
  | x :: rest => a' ← f a x; foldM f a' rest
  end.

(** ** Package [geo] *)

Module geo.

Record Point : Type := mkPoint { X : float; Y : float }.

Definition setX (p : Point) (x : float) : Point := mkPoint x (Y p).
Definition setY (p : Point) (y : float) : Point := mkPoint (X p) y.

End geo.

(** ** Packages [d2graph] and [label]: the external view of nodes and edges

    Objects are referred to by pointer in the Go code; a pointer is an
    [ObjId] and the graph is the store that maps it to the object. *)

Module d2graph.
Import geo.

Abbreviation ObjId := nat.

Record Object : Type := mkObject {
  ObjParent : option ObjId;
  ChildrenArray : list ObjId;
  TopLeft : Point;
  Width : float;
  Height : float
}.

Record Edge : Type := mkEdgeG {
  Src : ObjId;
  Dst : ObjId;
  LabelValue : string;
  LabelPosition : option string;
  Route : list Point
}.

Abbreviation Store := (gmap ObjId Object).

(** Modelled from the spec: [Object.Center] of package [d2graph] is not among
    the sources; the spec places "the node center" at the middle of the box. *)
Definition Center (o : Object) : Point :=
  mkPoint (X (TopLeft o) + Width o / 2)%float (Y (TopLeft o) + Height o / 2)%float.

Definition setRoute (e : Edge) (r : list Point) : Edge :=
  mkEdgeG (Src e) (Dst e) (LabelValue e) (LabelPosition e) r.

Definition setLabelPosition (e : Edge) (p : option string) : Edge :=
  mkEdgeG (Src e) (Dst e) (LabelValue e) p (Route e).

End d2graph.

Module label.
(** [label.InsideMiddleCenter.String()] and [label.OutsideTopCenter.String()]. *)
Definition InsideMiddleCenter : string := "INSIDE_MIDDLE_CENTER".
Definition OutsideTopCenter : string := "OUTSIDE_TOP_CENTER".
End label.

(** ** Package [sort] of the Go library

    [sort.Slice] is called with a [less] closure; its documentation promises a
    sorted rearrangement and no stability.  The functions that call it take
    the sort as a parameter [sortSlice]; [sortContract] is what they may
    rely on.  [insertionSort] is a sort that meets the contract, on which
    the functions are run; [Slice] is the sort as the library runs it. *)

Module gosort.

(** The inner loop of [insertionSort]: [x] moves left past the elements it is
    less than; [racc] is the sorted prefix, last element first. *)
Fixpoint insertLeft {A : Type} (less : A -> A -> bool) (x : A) (racc : list A) : list A :=
  match racc with
  | [] => [x]
  | y :: r => if less x y then y :: insertLeft less x r else x :: racc
  end.

Definition insertionSort (A : Type) (less : A -> A -> bool) (l : list A) : list A :=
  rev (foldl (fun racc x => insertLeft less x racc) [] l).

(** No element is less than one that stands before it. *)
Definition sortedBy {A : Type} (less : A -> A -> bool) (l : list A) : Prop :=
  StronglySorted (fun a b => less b a = false) l.

(** [less] is a strict weak order on the elements of [l]. *)
Definition strictWeakOn {A : Type} (less : A -> A -> bool) (l : list A) : Prop :=
  (forall a, a ∈ l -> less a a = false) /\
  (forall a b c, a ∈ l -> b ∈ l -> c ∈ l ->
     less a b = true -> less b c = true -> less a c = true) /\
  (forall a b c, a ∈ l -> b ∈ l -> c ∈ l ->
     less a b = false -> less b c = false -> less a c = false).

Definition sortContract (sortSlice : forall A : Type, (A -> A -> bool) -> list A -> list A) : Prop :=
  forall (A : Type) (less : A -> A -> bool) (l : list A),
    Permutation l (sortSlice A less l) /\
    (strictWeakOn less l -> sortedBy less (sortSlice A less l)).

(** *** [sort.Slice] as the library runs it

    The pattern-defeating quicksort of [sort/zsortfunc.go] (Go 1.19 and
    later).  [data] is the slice, [Less(i, j)] is the [less] closure on the
    elements that stand at [i] and [j], [Swap] exchanges them.  Loops that
    are not bounded by a range carry a [fuel] that their callers set to a
    bound on the rounds. *)

Section Pdqsort.

Context {A : Type} (less : A -> A -> bool).

Definition elemAt (data : list A) (i : Z) : option A :=
  if i <? 0 then None else data !! Z.to_nat i.

Definition dataLess (data : list A) (i j : Z) : bool :=
  match elemAt data i, elemAt data j with
  | Some x, Some y => less x y
  | _, _ => false
  end.

Definition dataSwap (data : list A) (i j : Z) : list A :=
  match elemAt data i, elemAt data j with
  | Some x, Some y => <[Z.to_nat j := x]> (<[Z.to_nat i := y]> data)
  | _, _ => data
  end.

(** [for j := i; j > a && data.Less(j, j-1); j--]. *)
Fixpoint insertionInner (fuel : nat) (data : list A) (a j : Z) : list A :=
  match fuel with
  | O => data
  | S fuel' =>
      if (a <? j) && dataLess data j (j - 1)
      then insertionInner fuel' (dataSwap data j (j - 1)) a (j - 1)
      else data
  end.

Definition insertionSort_func (data : list A) (a b : Z) : list A :=
  foldl (fun data i => insertionInner (Z.to_nat (i - a)) data a i) data
        (seqZ (a + 1) (b - (a + 1))).

Fixpoint siftDownLoop (fuel : nat) (data : list A) (root hi first : Z) : list A :=
  match fuel with
  | O => data
  | S fuel' =>
      let child := 2 * root + 1 in
      if hi <=? child then data
      else
        let child :=
          if (child + 1 <? hi) && dataLess data (first + child) (first + child + 1)
          then child + 1 else child in
        if negb (dataLess data (first + root) (first + child)) then data
        else siftDownLoop fuel' (dataSwap data (first + root) (first + child)) child hi first
  end.

Definition siftDown_func (data : list A) (lo hi first : Z) : list A :=
  siftDownLoop (Z.to_nat hi) data lo hi first.

(** [for i := n; i >= 0; i--]. *)
Definition downFrom (n : Z) : list Z := reverse (seqZ 0 (n + 1)).

Definition heapSort_func (data : list A) (a b : Z) : list A :=
  let first := a in
  let lo := 0 in
  let hi := b - a in
  let data := foldl (fun data i => siftDown_func data i hi first) data
                    (downFrom ((hi - 1) ÷ 2)) in
  foldl (fun data i => siftDown_func (dataSwap data first (first + i)) lo i first) data
        (downFrom (hi - 1)).

(** The two scans of [partition_func]: [for i <= j && data.Less(i, a)] and
    [for i <= j && !data.Less(j, a)]. *)
Fixpoint scanUp (fuel : nat) (data : list A) (a i j : Z) : Z :=
  match fuel with
  | O => i
  | S fuel' => if (i <=? j) && dataLess data i a then scanUp fuel' data a (i + 1) j else i
  end.

Fixpoint scanDown (fuel : nat) (data : list A) (a i j : Z) : Z :=
  match fuel with
  | O => j
  | S fuel' =>
      if (i <=? j) && negb (dataLess data j a) then scanDown fuel' data a i (j - 1) else j
  end.

(** The closing loop of [partition_func]. *)
Fixpoint partitionLoop (fuel : nat) (data : list A) (a i j : Z) : list A * Z :=
  match fuel with
  | O => (data, j)
  | S fuel' =>
      let i := scanUp (S fuel') data a i j in
      let j := scanDown (S fuel') data a i j in
      if j <? i then (data, j)
      else partitionLoop fuel' (dataSwap data i j) a (i + 1) (j - 1)
  end.

Definition partition_func (data : list A) (a b pivot : Z) : list A * Z * bool :=
  let n := Z.to_nat (b - a) in
  let data := dataSwap data a pivot in
  let i := scanUp n data a (a + 1) (b - 1) in
  let j := scanDown n data a i (b - 1) in
  if j <? i then (dataSwap data j a, j, true)
  else
    let data := dataSwap data i j in
    let '(data, j) := partitionLoop n data a (i + 1) (j - 1) in
    (dataSwap data j a, j, false).

(** The scans of [partitionEqual_func]: [for i <= j && !data.Less(a, i)] and
    [for i <= j && data.Less(a, j)]. *)
Fixpoint scanUpEqual (fuel : nat) (data : list A) (a i j : Z) : Z :=
  match fuel with
  | O => i
  | S fuel' =>
      if (i <=? j) && negb (dataLess data a i) then scanUpEqual fuel' data a (i + 1) j else i
  end.

Fixpoint scanDownEqual (fuel : nat) (data : list A) (a i j : Z) : Z :=
  match fuel with
  | O => j
  | S fuel' =>
      if (i <=? j) && dataLess data a j then scanDownEqual fuel' data a i (j - 1) else j
  end.

Fixpoint partitionEqualLoop (fuel : nat) (data : list A) (a i j : Z) : list A * Z :=
  match fuel with
  | O => (data, i)
  | S fuel' =>
      let i := scanUpEqual (S fuel') data a i j in
      let j := scanDownEqual (S fuel') data a i j in
      if j <? i then (data, i)
      else partitionEqualLoop fuel' (dataSwap data i j) a (i + 1) (j - 1)
  end.

Definition partitionEqual_func (data : list A) (a b pivot : Z) : list A * Z :=
  partitionEqualLoop (S (Z.to_nat (b - a))) (dataSwap data a pivot) a (a + 1) (b - 1).

(** [for i < b && !data.Less(i, i-1)]. *)
Fixpoint scanSorted (fuel : nat) (data : list A) (i b : Z) : Z :=
  match fuel with
  | O => i
  | S fuel' =>
      if (i <? b) && negb (dataLess data i (i - 1)) then scanSorted fuel' data (i + 1) b else i
  end.

(** [for j := i - 1; j >= 1; j--] and [for j := i + 1; j < b; j++], each
    left at the first pair that is in order. *)
Fixpoint shiftLeft (fuel : nat) (data : list A) (j : Z) : list A :=
  match fuel with
  | O => data
  | S fuel' =>
      if (1 <=? j) && dataLess data j (j - 1)
      then shiftLeft fuel' (dataSwap data j (j - 1)) (j - 1)
      else data
  end.

Fixpoint shiftRight (fuel : nat) (data : list A) (j b : Z) : list A :=
  match fuel with
  | O => data
  | S fuel' =>
      if (j <? b) && dataLess data j (j - 1)
      then shiftRight fuel' (dataSwap data j (j - 1)) (j + 1) b
      else data
  end.

(** [maxSteps = 5], [shortestShifting = 50]; [steps] counts the rounds
    that are left. *)
Fixpoint partialInsertionLoop (steps : nat) (data : list A) (a b i : Z) : list A * bool :=
  match steps with
  | O => (data, false)
  | S steps' =>
      let i := scanSorted (Z.to_nat (b - a)) data i b in
      if i =? b then (data, true)
      else if b - a <? 50 then (data, false)
      else
        let data := dataSwap data i (i - 1) in
        let data := if 2 <=? i - a then shiftLeft (Z.to_nat i) data (i - 1) else data in
        let data := if 2 <=? b - i then shiftRight (Z.to_nat b) data (i + 1) b else data in
        partialInsertionLoop steps' data a b i
  end.

Definition partialInsertionSort_func (data : list A) (a b : Z) : list A * bool :=
  partialInsertionLoop 5 data a b (a + 1).

(** [bits.Len]. *)
Definition bitsLen (x : Z) : Z := if x <=? 0 then 0 else Z.log2 x + 1.

(** [xorshift.Next] on a [uint64]. *)
Definition xorshiftNext (r : Z) : Z :=
  let r := Z.lxor r (Z.shiftl r 13 mod 2 ^ 64) in
  let r := Z.lxor r (Z.shiftr r 7) in
  Z.lxor r (Z.shiftl r 17 mod 2 ^ 64).

Definition nextPowerOfTwo (length : Z) : Z := Z.shiftl 1 (bitsLen length).

Definition breakPatterns_func (data : list A) (a b : Z) : list A :=
  let length := b - a in
  if 8 <=? length then
    let modulus := nextPowerOfTwo length in
    let idx := a + (length ÷ 4) * 2 - 1 in
    (foldl (fun '(data, random) i =>
              let random := xorshiftNext random in
              let other := Z.land random (modulus - 1) in
              let other := if length <=? other then other - length else other in
              (dataSwap data (idx - 1 + i) (a + other), random))
           (data, length) [0; 1; 2]).1
  else data.

Inductive sortedHint : Type := unknownHint | increasingHint | decreasingHint.

(** [order2_func], [median_func] and [medianAdjacent_func]; [swaps] is the
    counter they share. *)
Definition order2_func (data : list A) (a b swaps : Z) : Z * Z * Z :=
  if dataLess data b a then (b, a, swaps + 1) else (a, b, swaps).

Definition median_func (data : list A) (a b c swaps : Z) : Z * Z :=
  let '(a, b, swaps) := order2_func data a b swaps in
  let '(b, c, swaps) := order2_func data b c swaps in
  let '(a, b, swaps) := order2_func data a b swaps in
  (b, swaps).

Definition medianAdjacent_func (data : list A) (a swaps : Z) : Z * Z :=
  median_func data (a - 1) a (a + 1) swaps.

(** [shortestNinther = 50], [maxSwaps = 4 * 3]. *)
Definition choosePivot_func (data : list A) (a b : Z) : Z * sortedHint :=
  let l := b - a in
  let swaps := 0 in
  let i := a + l ÷ 4 * 1 in
  let j := a + l ÷ 4 * 2 in
  let k := a + l ÷ 4 * 3 in
  let '(j, swaps) :=
    if 8 <=? l then
      let '(i, j, k, swaps) :=
        if 50 <=? l then
          let '(i, swaps) := medianAdjacent_func data i swaps in
          let '(j, swaps) := medianAdjacent_func data j swaps in
          let '(k, swaps) := medianAdjacent_func data k swaps in
          (i, j, k, swaps)
        else (i, j, k, swaps) in
      median_func data i j k swaps
    else (j, swaps) in
  if swaps =? 0 then (j, increasingHint)
  else if swaps =? 12 then (j, decreasingHint)
  else (j, unknownHint).

Fixpoint reverseLoop (fuel : nat) (data : list A) (i j : Z) : list A :=
  match fuel with
  | O => data
  | S fuel' => if i <? j then reverseLoop fuel' (dataSwap data i j) (i + 1) (j - 1) else data
  end.

Definition reverseRange_func (data : list A) (a b : Z) : list A :=
  reverseLoop (Z.to_nat (b - a)) data a (b - 1).

(** [pdqsort_func], with [maxInsertion = 12]: a round of its loop, the
    recursive call on the shorter side and the next round on the other
    side.  Every round leaves out the pivot at least, so [fuel] above
    [b - a] is never used up. *)
Fixpoint pdqsort_func (fuel : nat) (data : list A) (a b limit : Z)
    (wasBalanced wasPartitioned : bool) : list A :=
  match fuel with
  | O => data
  | S fuel' =>
      let length := b - a in
      if length <=? 12 then insertionSort_func data a b
      else if limit =? 0 then heapSort_func data a b
      else
        let '(data, limit) :=
          if negb wasBalanced then (breakPatterns_func data a b, limit - 1)
          else (data, limit) in
        let '(pivot, hint) := choosePivot_func data a b in
        let '(data, pivot, hint) :=
          match hint with
          | decreasingHint => (reverseRange_func data a b, (b - 1) - (pivot - a), increasingHint)
          | _ => (data, pivot, hint)
          end in
        let '(data, sorted) :=
          match hint with
          | increasingHint =>
              if wasBalanced && wasPartitioned then partialInsertionSort_func data a b
              else (data, false)
          | _ => (data, false)
          end in
        if sorted then data
        else if (0 <? a) && negb (dataLess data (a - 1) pivot) then
          let '(data, mid) := partitionEqual_func data a b pivot in
          pdqsort_func fuel' data mid b limit wasBalanced wasPartitioned
        else
          let '(data, mid, alreadyPartitioned) := partition_func data a b pivot in
          let leftLen := mid - a in
          let rightLen := b - mid in
          let balanceThreshold := length ÷ 8 in
          if leftLen <? rightLen then
            let data := pdqsort_func fuel' data a mid limit true true in
            pdqsort_func fuel' data (mid + 1) b limit
                         (balanceThreshold <=? leftLen) alreadyPartitioned
          else
            let data := pdqsort_func fuel' data (mid + 1) b limit true true in
            pdqsort_func fuel' data a mid limit
                         (balanceThreshold <=? rightLen) alreadyPartitioned
  end.

End Pdqsort.

(** [sort.Slice(x, less)]. *)
Definition Slice (A : Type) (less : A -> A -> bool) (x : list A) : list A :=
  let length := Z.of_nat (length x) in
  pdqsort_func less (S (List.length x)) x 0 length (bitsLen length) true true.

End gosort.

(** ** Package [d2gridrouter] *)

Module d2gridrouter.
Import geo d2graph.

Local Open Scope float_scope.

(** [nearEq] of [simplifyRoute], with [tol = 0.5]. *)
Definition nearEq (a b : float) : bool := abs (a - b) <? 0.5.

(** First pass of [simplifyRoute]: [prev] is [deduped[len(deduped)-1]]. *)
Fixpoint dedupe (prev : Point) (points : list Point) : list Point :=
  match points with
  | [] => []
  | p :: rest =>
      if negb (nearEq (X p) (X prev)) || negb (nearEq (Y p) (Y prev))
      then p :: dedupe p rest
      else dedupe prev rest
  end.

(** The two snapping steps applied to a kept bend. *)
Definition snapToPrev (prev curr : Point) : Point :=
  if nearEq (X prev) (X curr) then setX curr (X prev)
  else if nearEq (Y prev) (Y curr) then setY curr (Y prev)
  else curr.

Definition snapToNext (curr next : Point) : Point :=
  if nearEq (X curr) (X next) then setX curr (X next)
  else if nearEq (Y curr) (Y next) then setY curr (Y next)
  else curr.

Definition collinear (prev curr next : Point) : bool :=
  let sameX := nearEq (X prev) (X curr) && nearEq (X curr) (X next) in
  let sameY := nearEq (Y prev) (Y curr) && nearEq (Y curr) (Y next) in
  sameX || sameY.

(** Second pass: [prev] is [result[len(result)-1]], the list is
    [deduped[i:]].  The last element is snapped to [prev] and appended. *)
Fixpoint secondPass (prev : Point) (l : list Point) : list Point :=
  match l with
  | [] => []
  | curr :: tl =>
      match tl with
      | [] => [snapToPrev prev curr]
      | next :: _ =>
          if collinear prev curr next then secondPass prev tl
          else
            let curr' := snapToNext (snapToPrev prev curr) next in
            curr' :: secondPass curr' tl
      end
  end.

Definition deduped (points : list Point) : list Point :=
  match points with
  | [] => []
  | p0 :: rest => p0 :: dedupe p0 rest
  end.

Definition simplifyRoute (points : list Point) : list Point :=
  match points with
  | [] => []
  | [p] => [p]
  | p0 :: rest =>
      let d := p0 :: dedupe p0 rest in
      if (length d <=? 2)%nat then d
      else p0 :: secondPass p0 (dedupe p0 rest)
  end.


(** *** types.go *)

Inductive Direction : Type := DirTop | DirRight | DirBottom | DirLeft.
Inductive Orientation : Type := Horizontal | Vertical.

Global Instance Direction_eq_dec : EqDecision Direction.
Proof. solve_decision. Defined.
Global Instance Orientation_eq_dec : EqDecision Orientation.
Proof. solve_decision. Defined.
Global Instance Orientation_countable : Countable Orientation.
Proof.
  refine (inj_countable' (fun o => match o with Horizontal => false | Vertical => true end)
                         (fun b : bool => if b then Vertical else Horizontal) _).
  intros []; reflexivity.
Defined.

Record Rect : Type := mkRect { RX : float; RY : float; RW : float; RH : float }.

Definition Left (r : Rect) : float := RX r.
Definition Right (r : Rect) : float := RX r + RW r.
Definition Top (r : Rect) : float := RY r.
Definition Bottom (r : Rect) : float := RY r + RH r.
Definition CenterX (r : Rect) : float := RX r + RW r / 2.
Definition CenterY (r : Rect) : float := RY r + RH r / 2.

Record Port : Type := mkPort {
  NodeIdx : Z;
  PEdgeIdx : Z;
  Side : Direction;
  Pos : Point;
  IsSrc : bool
}.

Record RoutingGraphNode : Type := mkNode { ID : Z; NPos : Point }.

Record RoutingGraphEdge : Type := mkEdge {
  From : Z;
  To : Z;
  Weight : float;
  EOrientation : Orientation
}.

Record RoutingGraph : Type := mkGraph {
  Nodes : list RoutingGraphNode;
  Adj : gmap Z (list RoutingGraphEdge)
}.

Record Channel : Type := mkChannel { CRect : Rect; COrientation : Orientation }.

Record EdgeRoute : Type := mkRoute { EdgeIdx : Z; Points : list Point }.

Record PortAssignment : Type := mkPA { SrcPorts : list Port; DstPorts : list Port }.

Record DijkstraState : Type := mkState {
  NodeID : Z;
  Length : float;
  Bends : Z;
  SDirection : Orientation;
  Parent : Z
}.

(** [DijkstraState.Less]: lexicographic on (length, bends), [eps = 1e-9]. *)
Definition Less (a b : DijkstraState) : bool :=
  if 1e-9 <? abs (Length a - Length b) then Length a <? Length b
  else (Bends a <? Bends b)%Z.

(** [s[i]] for a Go [int] index: fails when [i] is out of range. *)
Definition index {A : Type} (s : list A) (i : Z) : option A :=
  if (i <? 0)%Z then None else s !! Z.to_nat i.

(** *** [math.Max] and [math.Min] of the Go runtime (special cases first). *)

Definition goMax (x y : float) : float :=
  if (x =? infinity) || (y =? infinity) then infinity
  else if is_nan x || is_nan y then nan
  else if (x =? 0) && (x =? y) then (if get_sign x then y else x)
  else if y <? x then x else y.

Definition goMin (x y : float) : float :=
  if (x =? neg_infinity) || (y =? neg_infinity) then neg_infinity
  else if is_nan x || is_nan y then nan
  else if (x =? 0) && (x =? y) then (if get_sign x then x else y)
  else if x <? y then x else y.

(** *** router.go: crossing penalties *)

Record routedSeg : Type := mkSeg { seg_from : Z; seg_to : Z }.

Definition crossingPenalty : float := 500.

Definition segmentsCross (a1 a2 b1 b2 : Point) : bool :=
  let aHoriz := abs (Y a1 - Y a2) <? 0.5 in
  let bHoriz := abs (Y b1 - Y b2) <? 0.5 in
  if Bool.eqb aHoriz bHoriz then false
  else
    let '(hStart, hEnd, vStart, vEnd) :=
      if aHoriz then (a1, a2, b1, b2) else (b1, b2, a1, a2) in
    let hMinX := goMin (X hStart) (X hEnd) in
    let hMaxX := goMax (X hStart) (X hEnd) in
    let vMinY := goMin (Y vStart) (Y vEnd) in
    let vMaxY := goMax (Y vStart) (Y vEnd) in
    (hMinX <? X vStart) && (X vStart <? hMaxX) &&
    (vMinY <? Y hStart) && (Y hStart <? vMaxY).

(** The inner [for _, rs := range routed] loop: [Some true] when a routed
    segment crosses (the loop then breaks), [None] when a node lookup
    panics before that. *)
Fixpoint crossesRouted (nodes : list RoutingGraphNode) (fromPos toPos : Point)
    (routed : list routedSeg) : option bool :=
  match routed with
  | [] => Some false
  | rs :: rest =>
      rsFrom ← index nodes (seg_from rs);
      rsTo ← index nodes (seg_to rs);
      if segmentsCross fromPos toPos (NPos rsFrom) (NPos rsTo) then Some true
      else crossesRouted nodes fromPos toPos rest
  end.

Definition setWeight (e : RoutingGraphEdge) (w : float) : RoutingGraphEdge :=
  mkEdge (From e) (To e) w (EOrientation e).

(** [rg.Adj[n][i].Weight = delta(rg.Adj[n][i].Weight)], in place. *)
Definition bump (delta : float -> float) (adj : gmap Z (list RoutingGraphEdge))
    (n : Z) (i : nat) : gmap Z (list RoutingGraphEdge) :=
  alter (alter (fun e => setWeight e (delta (Weight e))) i) n adj.

(** Index of the first edge of [l] that is the reverse of [from -> to]. *)
Fixpoint findRev (l : list RoutingGraphEdge) (from to : Z) : option nat :=
  match l with
  | [] => None
  | rev :: rest =>
      if (From rev =? to)%Z && (To rev =? from)%Z then Some 0%nat
      else S <$> findRev rest from to
  end.

(** Body of the loop over [ei] for one cell [rg.Adj[nodeID][ei]]. *)
Definition penaliseCell (delta : float -> float) (nodes : list RoutingGraphNode)
    (routed : list routedSeg) (adj : gmap Z (list RoutingGraphEdge))
    (nodeID : Z) (ei : nat) : option (gmap Z (list RoutingGraphEdge)) :=
  edge ← (adj !! nodeID) ≫= (fun edges => edges !! ei);
  if negb (From edge =? nodeID)%Z then Some adj
  else
    fromN ← index nodes (From edge);
    toN ← index nodes (To edge);
    cross ← crossesRouted nodes (NPos fromN) (NPos toN) routed;
    if (cross : bool) then
      let adj1 := bump delta adj nodeID ei in
      match findRev (default [] (adj1 !! To edge)) (From edge) (To edge) with
      | Some ri => Some (bump delta adj1 (To edge) ri)
      | None => Some adj1
      end
    else Some adj.

Definition penaliseCells (delta : float -> float) (nodes : list RoutingGraphNode)
    (routed : list routedSeg) (adj : gmap Z (list RoutingGraphEdge))
    (cells : list (Z * nat)) : option (gmap Z (list RoutingGraphEdge)) :=
  foldM (fun adj c => penaliseCell delta nodes routed adj c.1 c.2) adj cells.

(** The cells visited by [for nodeID, edges := range rg.Adj { for ei := range
    edges }] when the map is walked in the key order [keys]. *)
Definition cellsOf (adj : gmap Z (list RoutingGraphEdge)) (keys : list Z) : list (Z * nat) :=
  n ← keys; (fun ei => (n, ei)) <$> seq 0 (length (default [] (adj !! n))).

(** Go leaves the iteration order of a map unspecified; the passes take the
    order as the list [keys] (a permutation of the keys of [rg.Adj]). *)
Definition penalise (delta : float -> float) (keys : list Z) (rg : RoutingGraph)
    (routed : list routedSeg) : option RoutingGraph :=
  match routed with
  | [] => Some rg
  | _ => mkGraph (Nodes rg) <$> penaliseCells delta (Nodes rg) routed (Adj rg) (cellsOf (Adj rg) keys)
  end.

Definition addCrossingPenaltiesIn (keys : list Z) : RoutingGraph -> list routedSeg -> option RoutingGraph :=
  penalise (fun w => w + crossingPenalty) keys.

Definition removeCrossingPenaltiesIn (keys : list Z) : RoutingGraph -> list routedSeg -> option RoutingGraph :=
  penalise (fun w => w - crossingPenalty) keys.

(** The passes with the keys in ascending order. *)
Definition keysOf (rg : RoutingGraph) : list Z := (map_to_list (Adj rg)).*1.

Definition addCrossingPenalties (rg : RoutingGraph) (routed : list routedSeg) : option RoutingGraph :=
  addCrossingPenaltiesIn (keysOf rg) rg routed.

Definition removeCrossingPenalties (rg : RoutingGraph) (routed : list routedSeg) : option RoutingGraph :=
  removeCrossingPenaltiesIn (keysOf rg) rg routed.

(** *** dijkstra.go *)

(** [stateKey]: a node and the orientation of entry. *)
Abbreviation stateKey := (Z * Orientation)%type.

(** [container/heap] on the slice [dijkstraPQ] (binary min-heap under
    [Less]); [up] and [down] are the sift loops of the Go library. *)
Definition pqLess (pq : list DijkstraState) (i j : nat) : bool :=
  match pq !! i, pq !! j with
  | Some a, Some b => Less a b
  | _, _ => false
  end.

Definition pqSwap (pq : list DijkstraState) (i j : nat) : list DijkstraState :=
  match pq !! i, pq !! j with
  | Some a, Some b => <[j:=a]> (<[i:=b]> pq)
  | _, _ => pq
  end.

Fixpoint up (fuel : nat) (pq : list DijkstraState) (j : nat) : list DijkstraState :=
  match fuel with
  | O => pq
  | S fuel' =>
      let i := ((j - 1) / 2)%nat in
      if (i =? j)%nat || negb (pqLess pq j i) then pq
      else up fuel' (pqSwap pq i j) i
  end.

Fixpoint down (fuel : nat) (pq : list DijkstraState) (i n : nat) : list DijkstraState :=
  match fuel with
  | O => pq
  | S fuel' =>
      let j1 := (2 * i + 1)%nat in
      if (n <=? j1)%nat then pq
      else
        let j2 := (j1 + 1)%nat in
        let j := if (j2 <? n)%nat && pqLess pq j2 j1 then j2 else j1 in
        if negb (pqLess pq j i) then pq
        else down fuel' (pqSwap pq i j) j n
  end.

Definition heapPush (pq : list DijkstraState) (x : DijkstraState) : list DijkstraState :=
  up (S (length pq)) (pq ++ [x]) (length pq).

Definition heapPop (pq : list DijkstraState) : option (DijkstraState * list DijkstraState) :=
  let n := (length pq - 1)%nat in
  let pq1 := down (length pq) (pqSwap pq 0 n) 0 n in
  item ← pq1 !! n;
  Some (item, take n pq1).

Record Search : Type := mkSearch {
  best : gmap stateKey DijkstraState;
  parent : gmap stateKey stateKey;
  visited : gset stateKey;
  pq : list DijkstraState
}.

(** One iteration of [for _, dir := range []Orientation{Horizontal, Vertical}]. *)
Definition seedState (srcNode : Z) (dir : Orientation) : DijkstraState :=
  mkState srcNode 0 0 dir (-1).

Definition seedOne (srcNode : Z) (st : Search) (dir : Orientation) : Search :=
  let s := seedState srcNode dir in
  mkSearch (<[(srcNode, dir) := s]> (best st)) (parent st) (visited st) (heapPush (pq st) s).

Definition seed (srcNode : Z) : Search :=
  foldl (seedOne srcNode) (mkSearch ∅ ∅ ∅ []) [Horizontal; Vertical].

(** The state built for one adjacent edge of the popped state [cur]. *)
Definition newState (srcNode : Z) (cur : DijkstraState) (edge : RoutingGraphEdge) : DijkstraState :=
  let newBends :=
    if negb (NodeID cur =? srcNode)%Z && negb (bool_decide (EOrientation edge = SDirection cur))
    then (Bends cur + 1)%Z else Bends cur in
  mkState (To edge) (Length cur + Weight edge) newBends (EOrientation edge) (NodeID cur).

(** Body of [for _, edge := range rg.Adj[cur.NodeID]]. *)
Definition relax (srcNode : Z) (cur : DijkstraState) (st : Search) (edge : RoutingGraphEdge) : Search :=
  let ns := newState srcNode cur edge in
  let newKey := (To edge, EOrientation edge) in
  if bool_decide (newKey ∈ visited st) then st
  else
    match best st !! newKey with
    | Some b => if negb (Less ns b) then st
                else mkSearch (<[newKey := ns]> (best st))
                              (<[newKey := (NodeID cur, SDirection cur)]> (parent st))
                              (visited st) (heapPush (pq st) ns)
    | None => mkSearch (<[newKey := ns]> (best st))
                       (<[newKey := (NodeID cur, SDirection cur)]> (parent st))
                       (visited st) (heapPush (pq st) ns)
    end.

(** [reconstructPath]; the path is accumulated already reversed.  [None]
    when [fuel] steps do not reach the source. *)
Fixpoint reconstructPath (fuel : nat) (parent : gmap stateKey stateKey) (cur : stateKey)
    (srcNode : Z) (path : list Z) : option (list Z) :=
  if (cur.1 =? srcNode)%Z then Some path
  else
    match fuel with
    | O => None
    | S fuel' =>
        match parent !! cur with
        | None => Some (cur.1 :: path)
        | Some prev => reconstructPath fuel' parent prev srcNode (cur.1 :: path)
        end
    end.

(** The loop [for pq.Len() > 0]; [Some []] is the [nil] of "no path",
    [None] is an exhausted [fuel]. *)
Fixpoint dijkstraLoop (fuel : nat) (rg : RoutingGraph) (srcNode dstNode : Z) (st : Search)
    : option (list Z) :=
  match fuel with
  | O => None
  | S fuel' =>
      match heapPop (pq st) with
      | None => Some []
      | Some (cur, pq') =>
          let curKey := (NodeID cur, SDirection cur) in
          if bool_decide (curKey ∈ visited st)
          then dijkstraLoop fuel' rg srcNode dstNode (mkSearch (best st) (parent st) (visited st) pq')
          else
            let st1 := mkSearch (best st) (parent st) ({[curKey]} ∪ visited st) pq' in
            if (NodeID cur =? dstNode)%Z
            then reconstructPath fuel (parent st1) curKey srcNode []
            else dijkstraLoop fuel' rg srcNode dstNode
                   (foldl (relax srcNode cur) st1 (default [] (Adj rg !! NodeID cur)))
      end
  end.

Definition dijkstraRoute (fuel : nat) (rg : RoutingGraph) (srcNode dstNode : Z) : option (list Z) :=
  if (srcNode =? dstNode)%Z then Some [srcNode]
  else dijkstraLoop fuel rg srcNode dstNode (seed srcNode).

(** *** router.go: routing order *)

Record edgePriority : Type := mkPrio { idx : Z; priority : Z; dist : float }.

Definition sameAxis (src dst : Port) : bool :=
  bool_decide (Side src = DirBottom /\ Side dst = DirTop) ||
  bool_decide (Side src = DirTop /\ Side dst = DirBottom) ||
  bool_decide (Side src = DirRight /\ Side dst = DirLeft) ||
  bool_decide (Side src = DirLeft /\ Side dst = DirRight).

Definition edgePriorityOf (ports : PortAssignment) (i : nat) : option edgePriority :=
  src ← SrcPorts ports !! i;
  dst ← DstPorts ports !! i;
  let dx := abs (X (Pos src) - X (Pos dst)) in
  let dy := abs (Y (Pos src) - Y (Pos dst)) in
  Some (mkPrio (Z.of_nat i) (if sameAxis src dst then 0 else 1)%Z (dx + dy)).

(** The slice [priorities] before it is sorted. *)
Definition prioritiesOf (ports : PortAssignment) (edges : list Edge) : option (list edgePriority) :=
  mapM (edgePriorityOf ports) (seq 0 (length edges)).

(** The [less] closure handed to [sort.Slice]. *)
Definition prioLess (a b : edgePriority) : bool :=
  if negb (priority a =? priority b)%Z then (priority a <? priority b)%Z
  else dist b <? dist a.

(** *** portassign.go *)

Definition determineSides (src dst : Rect) : Direction * Direction :=
  let dx := CenterX dst - CenterX src in
  let dy := CenterY dst - CenterY src in
  let absDx := abs dx in
  let absDy := abs dy in
  if absDy <? absDx then
    let srcSide := if 0 <? dx then DirRight else DirLeft in
    let dstSide := if 0 <? dx then DirLeft else DirRight in
    let dstSide := if absDx * 0.25 <? absDy
                   then (if 0 <? dy then DirTop else DirBottom) else dstSide in
    (srcSide, dstSide)
  else if absDx <? absDy then
    let srcSide := if 0 <? dy then DirBottom else DirTop in
    let dstSide := if 0 <? dy then DirTop else DirBottom in
    let dstSide := if absDy * 0.25 <? absDx
                   then (if 0 <? dx then DirLeft else DirRight) else dstSide in
    (srcSide, dstSide)
  else
    (if 0 <? dx then DirRight else DirLeft, if 0 <? dy then DirTop else DirBottom).

(** [sideCount]: ports per (node, side); sides are keyed by their [iota]. *)
Definition sideNum (d : Direction) : Z :=
  match d with DirTop => 0 | DirRight => 1 | DirBottom => 2 | DirLeft => 3 end.

Abbreviation nodeSideKey := (Z * Z)%type.

Definition countOf (sideCount : gmap nodeSideKey Z) (n : Z) (s : Direction) : Z :=
  default 0%Z (sideCount !! (n, sideNum s)).

Definition incr (sideCount : gmap nodeSideKey Z) (n : Z) (s : Direction) : gmap nodeSideKey Z :=
  <[(n, sideNum s) := (countOf sideCount n s + 1)%Z]> sideCount.

Definition nextSide (d : Direction) : Direction :=
  match d with
  | DirTop => DirRight | DirRight => DirBottom | DirBottom => DirLeft | DirLeft => DirTop
  end.

Definition MaxInt : Z := 9223372036854775807.

Definition selfLoopSides (nodeIdx : Z) (sideCount : gmap nodeSideKey Z) : Direction * Direction :=
  let step (acc : Direction * Z) (s : Direction) :=
    let c := countOf sideCount nodeIdx s in
    if (c <? acc.2)%Z then (s, c) else acc in
  let bestSide := (foldl step (DirRight, MaxInt) [DirTop; DirRight; DirBottom; DirLeft]).1 in
  (bestSide, nextSide bestSide).

(** [alignNearlyAlignedPorts], body of the loop for one edge: the source and
    destination ports of the edge, with the boxes of their nodes. *)
Definition alignPair (srcBox dstBox : Rect) (src dst : Port) : Port * Port :=
  let isVertical :=
    bool_decide (Side src = DirBottom /\ Side dst = DirTop) ||
    bool_decide (Side src = DirTop /\ Side dst = DirBottom) in
  let '(src, dst) :=
    if isVertical then
      let overlapLeft := goMax (Left srcBox) (Left dstBox) in
      let overlapRight := goMin (Right srcBox) (Right dstBox) in
      if overlapLeft <? overlapRight then
        let targetX := (overlapLeft + overlapRight) / 2 in
        let srcMinX := Left srcBox + RW srcBox * 0.1 in
        let srcMaxX := Left srcBox + RW srcBox * 0.9 in
        let dstMinX := Left dstBox + RW dstBox * 0.1 in
        let dstMaxX := Left dstBox + RW dstBox * 0.9 in
        if (srcMinX <=? targetX) && (targetX <=? srcMaxX) &&
           (dstMinX <=? targetX) && (targetX <=? dstMaxX)
        then (mkPort (NodeIdx src) (PEdgeIdx src) (Side src) (setX (Pos src) targetX) (IsSrc src),
              mkPort (NodeIdx dst) (PEdgeIdx dst) (Side dst) (setX (Pos dst) targetX) (IsSrc dst))
        else (src, dst)
      else (src, dst)
    else (src, dst) in
  let isHorizontal :=
    bool_decide (Side src = DirRight /\ Side dst = DirLeft) ||
    bool_decide (Side src = DirLeft /\ Side dst = DirRight) in
  if isHorizontal then
    let overlapTop := goMax (Top srcBox) (Top dstBox) in
    let overlapBottom := goMin (Bottom srcBox) (Bottom dstBox) in
    if overlapTop <? overlapBottom then
      let targetY := (overlapTop + overlapBottom) / 2 in
      let srcMinY := Top srcBox + RH srcBox * 0.1 in
      let srcMaxY := Top srcBox + RH srcBox * 0.9 in
      let dstMinY := Top dstBox + RH dstBox * 0.1 in
      let dstMaxY := Top dstBox + RH dstBox * 0.9 in
      if (srcMinY <=? targetY) && (targetY <=? srcMaxY) &&
         (dstMinY <=? targetY) && (targetY <=? dstMaxY)
      then (mkPort (NodeIdx src) (PEdgeIdx src) (Side src) (setY (Pos src) targetY) (IsSrc src),
            mkPort (NodeIdx dst) (PEdgeIdx dst) (Side dst) (setY (Pos dst) targetY) (IsSrc dst))
      else (src, dst)
    else (src, dst)
  else (src, dst).

(** The loop [for i := range pa.SrcPorts]; [None] is an index panic. *)
Fixpoint alignLoop (boxes : list Rect) (srcs dsts : list Port) : option (list Port * list Port) :=
  match srcs with
  | [] => Some ([], dsts)
  | src :: srcs' =>
      match dsts with
      | [] => None
      | dst :: dsts' =>
          srcBox ← index boxes (NodeIdx src);
          dstBox ← index boxes (NodeIdx dst);
          rest ← alignLoop boxes srcs' dsts';
          let '(s, d) := alignPair srcBox dstBox src dst in
          Some (s :: rest.1, d :: rest.2)
      end
  end.

Definition alignNearlyAlignedPorts (boxes : list Rect) (pa : PortAssignment) : option PortAssignment :=
  r ← alignLoop boxes (SrcPorts pa) (DstPorts pa);
  Some (mkPA r.1 r.2).

(** [float64(i)] for a slice index. *)
Definition floatOfNat (i : nat) : float := of_uint63 (Uint63.of_Z (Z.of_nat i)).

(** A [*Port] into [pa.SrcPorts] or [pa.DstPorts]. *)
Inductive portRef : Type := SrcRef (i : nat) | DstRef (i : nat).

Definition getPort (pa : PortAssignment) (r : portRef) : option Port :=
  match r with
  | SrcRef i => SrcPorts pa !! i
  | DstRef i => DstPorts pa !! i
  end.

Definition setPortPos (pa : PortAssignment) (r : portRef) (pos : Point) : PortAssignment :=
  let upd (p : Port) := mkPort (NodeIdx p) (PEdgeIdx p) (Side p) pos (IsSrc p) in
  match r with
  | SrcRef i => mkPA (alter upd i (SrcPorts pa)) (DstPorts pa)
  | DstRef i => mkPA (SrcPorts pa) (alter upd i (DstPorts pa))
  end.

(** [distributeAlongSide]: the [i]-th of [n] ports of a side. *)
Definition sidePoint (box : Rect) (side : Direction) (i n : nat) : Point :=
  let t := (floatOfNat i + 1) / (floatOfNat n + 1) in
  match side with
  | DirTop => mkPoint (Left box + t * RW box) (Top box)
  | DirBottom => mkPoint (Left box + t * RW box) (Bottom box)
  | DirLeft => mkPoint (Left box) (Top box + t * RH box)
  | DirRight => mkPoint (Right box) (Top box + t * RH box)
  end.

Definition distributeAlongSide (pa : PortAssignment) (ports : list portRef) (box : Rect)
    (side : Direction) : PortAssignment :=
  foldl (fun pa ir => setPortPos pa ir.2 (sidePoint box side ir.1 (length ports)))
        pa (imap (fun i r => (i, r)) ports).

(** The coordinate of the neighbour's center that [sortPortsByNeighborAngle]
    compares for a port of side [side]. *)
Definition neighborKey (boxes : list Rect) (pa : PortAssignment) (side : Direction)
    (r : portRef) : option float :=
  p ← getPort pa r;
  other ← (if IsSrc p then index (DstPorts pa) (PEdgeIdx p) else index (SrcPorts pa) (PEdgeIdx p));
  neighbor ← index boxes (NodeIdx other);
  Some (match side with
        | DirTop | DirBottom => CenterX neighbor
        | DirLeft | DirRight => CenterY neighbor
        end).

Definition sideOfNum (s : Z) : Direction :=
  if (s =? 0)%Z then DirTop else if (s =? 1)%Z then DirRight
  else if (s =? 2)%Z then DirBottom else DirLeft.

Section Router.

(** [sort.Slice] of the Go library: some rearrangement of the slice, sorted
    when [less] is a strict weak order; stability is not promised. *)
Variable sortSlice : forall A : Type, (A -> A -> bool) -> list A -> list A.

(** Stages of the package that are not embedded: the router is verified for
    every such stage. *)
Variable findChannels : list Rect -> Rect -> list Channel.
Variable buildRoutingGraph : list Channel -> PortAssignment -> list Rect -> Rect -> RoutingGraph.
(** [nudgeRoutes] moves route points in place; it yields the new points of
    every route. *)
Variable nudgeRoutes : list EdgeRoute -> list Channel -> list Rect -> list (list Point).
(** [Edge.TraceToShape] of [d2graph] clips the two points of a fallback route. *)
Variable traceToShape : Store -> Edge -> list Point -> list Point.
(** Bound on the iterations of the Dijkstra loop. *)
Variable fuel : nat.

Definition sortPortsByNeighborAngle (boxes : list Rect) (pa : PortAssignment)
    (side : Direction) (ports : list portRef) : option (list portRef) :=
  keyed ← mapM (fun r => k ← neighborKey boxes pa side r; Some (k, r)) ports;
  Some ((sortSlice _ (fun a b => a.1 <? b.1) keyed).*2).

Definition groupPorts (pa : PortAssignment) (allPorts : list portRef)
    : option (gmap nodeSideKey (list portRef)) :=
  foldM (fun m r =>
           p ← getPort pa r;
           let key := (NodeIdx p, sideNum (Side p)) in
           Some (<[key := default [] (m !! key) ++ [r]]> m))
        ∅ allPorts.

(** The groups are disjoint, so the order in which the map
    [portsByNodeSide] is walked does not show in the result. *)
Definition distributePortsOnSides (boxes : list Rect) (pa : PortAssignment) : option PortAssignment :=
  let allPorts := (SrcRef <$> seq 0 (length (SrcPorts pa))) ++
                  (DstRef <$> seq 0 (length (DstPorts pa))) in
  groups ← groupPorts pa allPorts;
  foldM (fun pa kv =>
           let '((nodeIdx, s), ports) := kv in
           box ← index boxes nodeIdx;
           sorted ← sortPortsByNeighborAngle boxes pa (sideOfNum s) ports;
           Some (distributeAlongSide pa sorted box (sideOfNum s)))
        pa (map_to_list groups).

Definition zeroPoint : Point := mkPoint 0 0.

(** Step 1 of [assignPorts] for edge [i]. *)
Definition assignSides (boxes : list Rect) (nodeIndex : gmap ObjId Z)
    (acc : list Port * list Port * gmap nodeSideKey Z) (ie : nat * Edge)
    : option (list Port * list Port * gmap nodeSideKey Z) :=
  let '(srcs, dsts, sideCount) := acc in
  let '(i, edge) := ie in
  let srcIdx := default 0%Z (nodeIndex !! Src edge) in
  let dstIdx := default 0%Z (nodeIndex !! Dst edge) in
  srcBox ← index boxes srcIdx;
  dstBox ← index boxes dstIdx;
  if bool_decide (Src edge = Dst edge) then
    let '(srcSide, dstSide) := selfLoopSides srcIdx sideCount in
    Some (srcs ++ [mkPort srcIdx (Z.of_nat i) srcSide zeroPoint true],
          dsts ++ [mkPort srcIdx (Z.of_nat i) dstSide zeroPoint false],
          incr (incr sideCount srcIdx srcSide) srcIdx dstSide)
  else
    let '(srcSide, dstSide) := determineSides srcBox dstBox in
    Some (srcs ++ [mkPort srcIdx (Z.of_nat i) srcSide zeroPoint true],
          dsts ++ [mkPort dstIdx (Z.of_nat i) dstSide zeroPoint false],
          incr (incr sideCount srcIdx srcSide) dstIdx dstSide).

Definition assignPorts (boxes : list Rect) (edges : list Edge) (nodeIndex : gmap ObjId Z)
    : option PortAssignment :=
  r ← foldM (assignSides boxes nodeIndex) ([], [], ∅) (imap (fun i e => (i, e)) edges);
  pa ← distributePortsOnSides boxes (mkPA r.1.1 r.1.2);
  alignNearlyAlignedPorts boxes pa.

(** *** router.go: [routeAllEdges] *)

Definition edgeRoutingOrder (ports : PortAssignment) (edges : list Edge) : option (list Z) :=
  priorities ← prioritiesOf ports edges;
  Some (idx <$> sortSlice _ prioLess priorities).

Definition distSq (a b : Point) : float :=
  let dx := X a - X b in
  let dy := Y a - Y b in
  dx * dx + dy * dy.

Definition FindNearest (rg : RoutingGraph) (p : Point) : Z :=
  match Nodes rg with
  | [] => (-1)%Z
  | n0 :: rest =>
      (foldl (fun (acc : Z * float * Z) n =>
                let '(bestID, bestDist, i) := acc in
                let d := distSq (NPos n) p in
                if d <? bestDist then (i, d, (i + 1)%Z) else (bestID, bestDist, (i + 1)%Z))
             (0%Z, distSq (NPos n0) p, 1%Z) rest).1.1
  end.

Record RouteState : Type := mkRS {
  rs_rg : RoutingGraph;
  rs_routes : list EdgeRoute;
  rs_routed : list routedSeg
}.

Definition straightRoute (srcPort dstPort : Port) : list Point :=
  [mkPoint (X (Pos srcPort)) (Y (Pos srcPort)); mkPoint (X (Pos dstPort)) (Y (Pos dstPort))].

(** [routes[i] = r]. *)
Definition setRouteAt (routes : list EdgeRoute) (i : Z) (r : EdgeRoute) : option (list EdgeRoute) :=
  if (i <? 0)%Z || (Z.of_nat (length routes) <=? i)%Z then None
  else Some (<[Z.to_nat i := r]> routes).

Fixpoint pathSegments (path : list Z) : list routedSeg :=
  match path with
  | a :: ((b :: _) as rest) => mkSeg a b :: pathSegments rest
  | _ => []
  end.

(** Body of [for _, i := range order]. *)
Definition routeOne (ports : PortAssignment) (st : RouteState) (i : Z) : option RouteState :=
  srcPort ← index (SrcPorts ports) i;
  dstPort ← index (DstPorts ports) i;
  let rg := rs_rg st in
  let srcNodeID := FindNearest rg (Pos srcPort) in
  let dstNodeID := FindNearest rg (Pos dstPort) in
  if (srcNodeID <? 0)%Z || (dstNodeID <? 0)%Z || (srcNodeID =? dstNodeID)%Z then
    routes ← setRouteAt (rs_routes st) i (mkRoute i (straightRoute srcPort dstPort));
    Some (mkRS rg routes (rs_routed st))
  else
    rg1 ← addCrossingPenalties rg (rs_routed st);
    path ← dijkstraRoute fuel rg1 srcNodeID dstNodeID;
    rg2 ← removeCrossingPenalties rg1 (rs_routed st);
    match path with
    | [] =>
        routes ← setRouteAt (rs_routes st) i (mkRoute i (straightRoute srcPort dstPort));
        Some (mkRS rg2 routes (rs_routed st))
    | _ =>
        inner ← mapM (fun nodeID => NPos <$> index (Nodes rg2) nodeID) path;
        let points := [mkPoint (X (Pos srcPort)) (Y (Pos srcPort))] ++ inner ++
                      [mkPoint (X (Pos dstPort)) (Y (Pos dstPort))] in
        routes ← setRouteAt (rs_routes st) i (mkRoute i (simplifyRoute points));
        Some (mkRS rg2 routes (rs_routed st ++ pathSegments path))
    end.

Definition routeAllEdges (rg : RoutingGraph) (ports : PortAssignment) (edges : list Edge)
    : option (list EdgeRoute) :=
  order ← edgeRoutingOrder ports edges;
  st ← foldM (routeOne ports) (mkRS rg (replicate (length edges) (mkRoute 0 [])) []) order;
  Some (rs_routes st).

(** *** router.go: [RouteEdges] *)

Definition computeBoundingBox (boxes : list Rect) : Rect :=
  match boxes with
  | [] => mkRect 0 0 0 0
  | b0 :: rest =>
      let '(minX, minY, maxX, maxY) :=
        foldl (fun (acc : float * float * float * float) b =>
                 let '(minX, minY, maxX, maxY) := acc in
                 (if RX b <? minX then RX b else minX,
                  if RY b <? minY then RY b else minY,
                  if maxX <? Right b then Right b else maxX,
                  if maxY <? Bottom b then Bottom b else maxY))
              (RX b0, RY b0, Right b0, Bottom b0) rest in
      let margin := 40 in
      mkRect (minX - margin) (minY - margin)
             ((maxX - minX) + 2 * margin) ((maxY - minY) + 2 * margin)
  end.

(** [findCommonParent]: [Some None] is the [nil] parent, [None] a nil
    dereference. *)
Definition findCommonParent (g : Store) (edges : list Edge) : option (option ObjId) :=
  match edges with
  | [] => Some None
  | e0 :: _ =>
      src0 ← g !! Src e0;
      let parent := ObjParent src0 in
      foldr (fun e k =>
               s ← g !! Src e;
               d ← g !! Dst e;
               if negb (bool_decide (ObjParent s = parent)) || negb (bool_decide (ObjParent d = parent))
               then Some None else k)
            (Some parent) edges
  end.

(** The objects gathered as obstacle boxes ([allObjects]). *)
Definition endpoints (edges : list Edge) : list ObjId :=
  (foldl (fun (acc : list ObjId * gset ObjId) e =>
            let '(objs, seen) := acc in
            let '(objs, seen) :=
              if bool_decide (Src e ∈ seen) then (objs, seen)
              else (objs ++ [Src e], {[Src e]} ∪ seen) in
            if bool_decide (Dst e ∈ seen) then (objs, seen)
            else (objs ++ [Dst e], {[Dst e]} ∪ seen))
         ([], ∅) edges).1.

Definition collectObjects (g : Store) (edges : list Edge) : option (list ObjId) :=
  parent ← findCommonParent g edges;
  match parent with
  | Some p =>
      po ← g !! p;
      if (0 <? length (ChildrenArray po))%nat then Some (ChildrenArray po)
      else Some (endpoints edges)
  | None => Some (endpoints edges)
  end.

Definition boxOf (o : Object) : Rect :=
  mkRect (X (TopLeft o)) (Y (TopLeft o)) (Width o) (Height o).

Definition buildNodeIndex (allObjects : list ObjId) : gmap ObjId Z :=
  foldl (fun m io => <[io.2 := Z.of_nat io.1]> m) ∅ (imap (fun i o => (i, o)) allObjects).

Inductive outcome : Type :=
  | Ok (edges : list Edge)
  | Err (msg : string).

(** Body of the final loop [for _, route := range routes]. *)
Definition applyRoute (g : Store) (edges : list Edge) (route : EdgeRoute) : option (list Edge) :=
  edge ← index edges (EdgeIdx route);
  r ← (if (2 <=? length (Points route))%nat then Some (simplifyRoute (Points route))
       else
         s ← g !! Src edge;
         d ← g !! Dst edge;
         Some (traceToShape g edge [Center s; Center d]));
  let edge1 := setRoute edge r in
  let edge2 := if negb (String.eqb (LabelValue edge1) "")
               then setLabelPosition edge1 (Some label.InsideMiddleCenter)
               else edge1 in
  Some (<[Z.to_nat (EdgeIdx route) := edge2]> edges).

Definition RouteEdges (g : Store) (edges : list Edge) : option outcome :=
  match edges with
  | [] => Some (Ok edges)
  | _ =>
      allObjects ← collectObjects g edges;
      match allObjects with
      | [] => Some (Err "grid router: no objects found")
      | _ =>
          let nodeIndex := buildNodeIndex allObjects in
          boxes ← mapM (fun o => boxOf <$> g !! o) allObjects;
          let bbox := computeBoundingBox boxes in
          ports ← assignPorts boxes edges nodeIndex;
          let channels := findChannels boxes bbox in
          let rg := buildRoutingGraph channels ports boxes bbox in
          routes ← routeAllEdges rg ports edges;
          let moved := nudgeRoutes routes channels boxes in
          let nudged := imap (fun i r => mkRoute (EdgeIdx r) (default (Points r) (moved !! i)))
                             routes in
          Ok <$> foldM (applyRoute g) edges nudged
      end
  end.

End Router.

(** *** router.go: [sortedUniqueFloats] *)

Section Bounds.

Local Open Scope float_scope.

Variable sortSlice : forall A : Type, (A -> A -> bool) -> list A -> list A.

(** [Float64Slice.Less] of the Go library, the order of [sort.Float64s]:
    NaN stands before the numbers. *)
Definition float64Less (x y : float) : bool :=
  (x <? y) || (is_nan x && negb (is_nan y)).

(** The loop [for i := 1; i < len(vals); i++]; [prev] is [vals[i-1]]. *)
Fixpoint uniqueFrom (prev : float) (vals : list float) : list float :=
  match vals with
  | [] => []
  | v :: rest =>
      if negb (v =? prev) then v :: uniqueFrom v rest else uniqueFrom v rest
  end.

(** [nil] and the empty slice are both [[]]; the sorted slice is as long as
    [vals], so [vals[0]] is there. *)
Definition sortedUniqueFloats (vals : list float) : list float :=
  match vals with
  | [] => []
  | _ =>
      match sortSlice _ float64Less vals with
      | [] => []
      | v0 :: rest => v0 :: uniqueFrom v0 rest
      end
  end.

End Bounds.

End d2gridrouter.

(** ** Package [d2wueortho]

    The package declares the same geometry and route types as
    [d2gridrouter]; they are shared here. *)

Module d2wueortho.
Import geo d2graph d2gridrouter.

Local Open Scope float_scope.

(** *** nudging.go *)

Record edgeSegment : Type := mkSegment {
  edgeIdx : Z;
  segIdx : Z;
  orientation : Orientation;
  fixedCoord : float;
  rangeMin : float;
  rangeMax : float
}.

Record segmentBundle : Type := mkBundle {
  b_orientation : Orientation;
  b_fixedCoord : float;
  segments : list edgeSegment
}.

(** [pts[i].Y += offset] and [pts[i].X += offset]. *)
Definition addAt (o : Orientation) (pts : list Point) (i : Z) (offset : float) : option (list Point) :=
  p ← index pts i;
  Some (<[Z.to_nat i := match o with
                        | Horizontal => setY p (Y p + offset)
                        | Vertical => setX p (X p + offset)
                        end]> pts).

(** Body of [for _, seg := range bundle.segments]. *)
Definition nudgeSegment (o : Orientation) (offsets : gmap Z float) (routes : list EdgeRoute)
    (seg : edgeSegment) : option (list EdgeRoute) :=
  let offset := default 0 (offsets !! edgeIdx seg) in
  if PrimFloat.abs offset <? 0.1 then Some routes
  else
    route ← index routes (edgeIdx seg);
    let pts := Points route in
    if (Z.of_nat (length pts) - 1 <=? segIdx seg)%Z then Some routes
    else
      let isFirstPt := (segIdx seg =? 0)%Z in
      let isLastPt := (segIdx seg + 1 =? Z.of_nat (length pts) - 1)%Z in
      pts1 ← (if negb isFirstPt then addAt o pts (segIdx seg) offset else Some pts);
      pts2 ← (if negb isLastPt then addAt o pts1 (segIdx seg + 1) offset else Some pts1);
      Some (<[Z.to_nat (edgeIdx seg) := mkRoute (EdgeIdx route) pts2]> routes).

Definition applyNudgeOffsets (routes : list EdgeRoute) (bundle : segmentBundle)
    (offsets : gmap Z float) : option (list EdgeRoute) :=
  foldM (nudgeSegment (b_orientation bundle) offsets) routes (segments bundle).

(** *** gridroute.go: port spreading *)

Inductive face : Type := faceRight | faceLeft | faceTop | faceBottom.

Record portInfo : Type := mkPortInfo {
  p_edge : Edge;
  p_obj : ObjId;
  p_face : face;
  p_pos : option Point;
  isSource : bool
}.

Definition facePoint (obj : Object) (f : face) (t cornerGap minClearance : float)
    (numPorts : nat) : Point :=
  let left := X (TopLeft obj) in
  let top := Y (TopLeft obj) in
  let right := left + Width obj in
  let bottom := top + Height obj in
  match f with
  | faceTop =>
      let usable := Width obj - 2 * cornerGap in
      let '(usable, cornerGap) := if usable <? 0 then (Width obj, 0) else (usable, cornerGap) in
      mkPoint (left + cornerGap + usable * t) top
  | faceBottom =>
      let usable := Width obj - 2 * cornerGap in
      let '(usable, cornerGap) := if usable <? 0 then (Width obj, 0) else (usable, cornerGap) in
      mkPoint (left + cornerGap + usable * t) bottom
  | faceLeft =>
      let usable := Height obj - 2 * cornerGap in
      let '(usable, cornerGap) := if usable <? 0 then (Height obj, 0) else (usable, cornerGap) in
      mkPoint left (top + cornerGap + usable * t)
  | faceRight =>
      let usable := Height obj - 2 * cornerGap in
      let '(usable, cornerGap) := if usable <? 0 then (Height obj, 0) else (usable, cornerGap) in
      mkPoint right (top + cornerGap + usable * t)
  end.

Definition neighborObj (p : portInfo) : ObjId :=
  if isSource p then Dst (p_edge p) else Src (p_edge p).

(** The coordinate of the neighbour's center compared by the [less] closure
    of [sortAndSpreadPorts]. *)
Definition spreadKey (g : Store) (f : face) (p : portInfo) : option float :=
  n ← g !! neighborObj p;
  Some (match f with
        | faceTop | faceBottom => X (Center n)
        | faceLeft | faceRight => Y (Center n)
        end).

Definition minClearance : float := 8.
Definition cornerGap : float := 12.

Section Spread.

Variable sortSlice : forall A : Type, (A -> A -> bool) -> list A -> list A.

Definition sortAndSpreadPorts (g : Store) (ports : list portInfo) (f : face)
    : option (list portInfo) :=
  match ports with
  | [] => Some []
  | _ =>
      keyed ← mapM (fun p => k ← spreadKey g f p; Some (k, p)) ports;
      let sorted := (sortSlice _ (fun a b => a.1 <? b.1) keyed).*2 in
      p0 ← sorted !! 0%nat;
      obj ← g !! p_obj p0;
      let n := length ports in
      Some (imap (fun i p =>
                    let t := (floatOfNat i + 1) / (floatOfNat n + 1) in
                    mkPortInfo (p_edge p) (p_obj p) (p_face p)
                               (Some (facePoint obj f t cornerGap minClearance n))
                               (isSource p))
                 sorted)
  end.

End Spread.

(** *** layout.go: grid placement *)

Record gridCell : Type := mkCell { row : Z; col : Z }.

Global Instance gridCell_eq_dec : EqDecision gridCell.
Proof. solve_decision. Defined.
Global Instance gridCell_countable : Countable gridCell.
Proof.
  refine (inj_countable' (fun c => (row c, col c)) (fun p => mkCell p.1 p.2) _).
  intros []; reflexivity.
Defined.

(** The fields of [gridInfo] that record the placement.  The pixel fields
    ([colWidth], [rowHeight], [colX], [rowY]) and the node boxes are derived
    from the placement afterwards and do not feed back into it. *)
Record gridInfo : Type := mkInfo {
  placement : gmap nat gridCell;
  occupied : gmap gridCell nat
}.

Definition abs (x : Z) : Z := if (x <? 0)%Z then (- x)%Z else x.

Definition addCell (a d : gridCell) : gridCell := mkCell (row a + row d) (col a + col d).

Definition bfsDirs (dir : string) : list gridCell :=
  if String.eqb dir "down" then [mkCell 1 0; mkCell 0 1; mkCell (-1) 0; mkCell 0 (-1)]
  else if String.eqb dir "up" then [mkCell (-1) 0; mkCell 0 1; mkCell 1 0; mkCell 0 (-1)]
  else if String.eqb dir "left" then [mkCell 0 (-1); mkCell 1 0; mkCell 0 1; mkCell (-1) 0]
  else [mkCell 0 1; mkCell 1 0; mkCell 0 (-1); mkCell (-1) 0].

Definition reverseDirs (dirs : list gridCell) : list gridCell :=
  match dirs with
  | [] => dirs
  | d :: rest => mkCell (- row d) (- col d) :: rest
  end.

(** The first element of [l] on which [f] answers. *)
Fixpoint firstSome {A B : Type} (f : A -> option B) (l : list A) : option B :=
  match l with
  | [] => None
  | a :: rest => match f a with Some b => Some b | None => firstSome f rest end
  end.

(** The double loop over [dr] and [dc] of one [radius] of the spiral. *)
Definition scanRing (center : gridCell) (ok : gridCell -> bool) (radius : Z) : option gridCell :=
  firstSome (fun dr =>
    firstSome (fun dc =>
      if negb (abs dr =? radius)%Z && negb (abs dc =? radius)%Z then None
      else
        let candidate := mkCell (row center + dr) (col center + dc) in
        if ok candidate then Some candidate else None)
      (seqZ (- radius) (2 * radius + 1)))
    (seqZ (- radius) (2 * radius + 1)).

Definition findBestCell (center : gridCell) (occupied : gset gridCell) (dirs : list gridCell)
    (maxCols : Z) : gridCell :=
  let free c := negb (bool_decide (c ∈ occupied)) in
  let bounded c := free c && (abs (col c) <? maxCols)%Z in
  match firstSome (fun d => let c := addCell center d in if bounded c then Some c else None) dirs with
  | Some c => c
  | None =>
  match firstSome (fun d => let c := addCell center d in if free c then Some c else None) dirs with
  | Some c => c
  | None =>
  match firstSome (scanRing center bounded) (seqZ 2 19) with
  | Some c => c
  | None =>
  match firstSome (scanRing center free) (seqZ 2 19) with
  | Some c => c
  | None => mkCell (row center) (col center + 100)
  end end end end.

Definition findFirstFree (occupied : gset gridCell) : gridCell :=
  let free c := negb (bool_decide (c ∈ occupied)) in
  match firstSome (fun radius =>
          firstSome (fun r =>
            firstSome (fun c => if free (mkCell r c) then Some (mkCell r c) else None)
                      (seqZ (- radius) (2 * radius + 1)))
            (seqZ (- radius) (2 * radius + 1)))
          (seqZ 0 51) with
  | Some c => c
  | None => mkCell 0 (Z.of_nat (size occupied))
  end.

Definition cellOf (placement : gmap nat gridCell) (i : nat) : gridCell :=
  default (mkCell 0 0) (placement !! i).

(** *** [localImprove] *)

Definition crossingPenaltyCells : Z := 4.

Definition minmax (a b : Z) : Z * Z := if (b <? a)%Z then (b, a) else (a, b).

(** The cells strictly between [lo] and [hi]. *)
Definition between (lo hi : Z) : list Z := seqZ (lo + 1) (hi - lo - 1).

Definition costForEdge (occupied : gset gridCell) (ci cj : gridCell) : Z :=
  let occ c := bool_decide (c ∈ occupied) in
  let dist := (abs (row ci - row cj) + abs (col ci - col cj))%Z in
  if (dist <=? 1)%Z then dist
  else
    let '(minC, maxC) := minmax (col ci) (col cj) in
    let '(minR, maxR) := minmax (row ci) (row cj) in
    let penalty :=
      if (row ci =? row cj)%Z then
        (crossingPenaltyCells *
         Z.of_nat (length (filter (fun c => occ (mkCell (row ci) c) = true) (between minC maxC))))%Z
      else if (col ci =? col cj)%Z then
        (crossingPenaltyCells *
         Z.of_nat (length (filter (fun r => occ (mkCell r (col ci)) = true) (between minR maxR))))%Z
      else
        let corner1blocked :=
          existsb (fun c => occ (mkCell (row ci) c)) (between minC maxC) ||
          existsb (fun r => occ (mkCell r (col cj))) (between minR maxR) in
        let corner2blocked :=
          existsb (fun r => occ (mkCell r (col ci))) (between minR maxR) ||
          existsb (fun c => occ (mkCell (row cj) c)) (between minC maxC) in
        if corner1blocked && corner2blocked then crossingPenaltyCells else 0%Z in
    (dist + penalty)%Z.

Definition totalCost (adj : list (list nat)) (placement : gmap nat gridCell)
    (occupied : gset gridCell) : Z :=
  foldl (fun sum il =>
           foldl (fun sum nb =>
                    if (il.1 <? nb)%nat
                    then (sum + costForEdge occupied (cellOf placement il.1) (cellOf placement nb))%Z
                    else sum)
                 sum il.2)
        0%Z (imap (fun i l => (i, l)) adj).

Record Improve : Type := mkImprove {
  i_placement : gmap nat gridCell;
  i_occupied : gset gridCell;
  baseline : Z;
  improved : bool
}.

(** The loop over [dirs] for node [i]: the first move that lowers the cost is
    kept, every other one is reverted. *)
Fixpoint tryMoves (adj : list (list nat)) (i : nat) (origCell : gridCell) (st : Improve)
    (dirs : list gridCell) : Improve :=
  match dirs with
  | [] => st
  | d :: rest =>
      let candidate := addCell origCell d in
      if bool_decide (candidate ∈ i_occupied st) then tryMoves adj i origCell st rest
      else
        let occ1 := {[candidate]} ∪ (i_occupied st ∖ {[origCell]}) in
        let pl1 := <[i := candidate]> (i_placement st) in
        let newCost := totalCost adj pl1 occ1 in
        if (newCost <? baseline st)%Z then mkImprove pl1 occ1 newCost true
        else
          let occ2 := {[origCell]} ∪ (occ1 ∖ {[candidate]}) in
          let pl2 := <[i := origCell]> pl1 in
          tryMoves adj i origCell (mkImprove pl2 occ2 (baseline st) (improved st)) rest
  end.

Definition unitDirs : list gridCell := [mkCell 0 1; mkCell 1 0; mkCell 0 (-1); mkCell (-1) 0].

Definition movePass (adj : list (list nat)) (n : nat) (st : Improve) : Improve :=
  foldl (fun st i => tryMoves adj i (cellOf (i_placement st) i) st unitDirs) st (seq 0 n).

Definition trySwap (adj : list (list nat)) (st : Improve) (ij : nat * nat) : Improve :=
  let '(i, j) := ij in
  let ci := cellOf (i_placement st) i in
  let cj := cellOf (i_placement st) j in
  if bool_decide (ci = cj) then st
  else
    let pl1 := <[j := ci]> (<[i := cj]> (i_placement st)) in
    let newCost := totalCost adj pl1 (i_occupied st) in
    if (newCost <? baseline st)%Z then mkImprove pl1 (i_occupied st) newCost true
    else mkImprove (<[j := cj]> (<[i := ci]> pl1)) (i_occupied st) (baseline st) (improved st).

Definition swapPass (adj : list (list nat)) (n : nat) (st : Improve) : Improve :=
  let m := Nat.min n 30 in
  foldl (trySwap adj) st (i ← seq 0 m; (fun j => (i, j)) <$> seq (S i) (m - S i)).

Fixpoint improveLoop (iters : nat) (adj : list (list nat)) (n : nat)
    (placement : gmap nat gridCell) (occupied : gset gridCell)
    : gmap nat gridCell * gset gridCell :=
  match iters with
  | O => (placement, occupied)
  | S iters' =>
      let st0 := mkImprove placement occupied (totalCost adj placement occupied) false in
      let st := swapPass adj n (movePass adj n st0) in
      if improved st then improveLoop iters' adj n (i_placement st) (i_occupied st)
      else (i_placement st, i_occupied st)
  end.

Definition localImprove (placement : gmap nat gridCell) (occupied : gset gridCell)
    (adj : list (list nat)) (n : nat) (maxIters : nat) : gmap nat gridCell * gset gridCell :=
  if (n <=? 2)%nat then (placement, occupied)
  else improveLoop maxIters adj n placement occupied.

(** *** [gridPlacement] *)

(** [int(math.Ceil(math.Sqrt(float64(n))))]; the integer square root gives
    the same value for every [n] below 2^52. *)
Definition ceilSqrt (n : Z) : Z :=
  let s := Z.sqrt n in if (s * s =? n)%Z then s else (s + 1)%Z.

Definition dedupeAdj (l : list nat) : list nat :=
  (foldl (fun (acc : list nat * gset nat) nb =>
            if bool_decide (nb ∈ acc.2) then acc else (acc.1 ++ [nb], {[nb]} ∪ acc.2))
         ([], ∅) l).1.

Definition buildAdj (n : nat) (objIndex : gmap ObjId nat) (edges : list Edge)
    : list (list nat) * gset (nat * nat) :=
  foldl (fun (acc : list (list nat) * gset (nat * nat)) e =>
           match objIndex !! Src e, objIndex !! Dst e with
           | Some si, Some di =>
               if bool_decide (si = di) then acc
               else (alter (fun l => l ++ [si]) di (alter (fun l => l ++ [di]) si acc.1),
                     {[(si, di)]} ∪ acc.2)
           | _, _ => acc
           end)
        (replicate n [], ∅) edges.

Definition pickStart (degree : list nat) : nat :=
  (foldl (fun (acc : nat * nat * nat) d =>
            let '(start, best, i) := acc in
            if (best <? d)%nat then (i, d, S i) else (start, best, S i))
         (O, default O (degree !! O), 1%nat) (tail degree)).1.1.

Record Bfs : Type := mkBfs {
  b_placement : gmap nat gridCell;
  b_occupied : gset gridCell;
  b_visited : gset nat;
  b_queue : list nat
}.

Section Placement.

Variable sortSlice : forall A : Type, (A -> A -> bool) -> list A -> list A.

Definition neighborLess (degree : list nat) (outgoing : gset (nat * nat)) (cur : nat)
    (a b : nat) : bool :=
  let da := default O (degree !! a) in
  let db := default O (degree !! b) in
  if negb (da =? db)%nat then (db <? da)%nat
  else
    let fa := bool_decide ((cur, a) ∈ outgoing) in
    let fb := bool_decide ((cur, b) ∈ outgoing) in
    if negb (Bool.eqb fa fb) then fa
    else (a <? b)%nat.

(** Body of [for _, nb := range neighbors]. *)
Definition placeNeighbor (outgoing : gset (nat * nat)) (dirs : list gridCell) (maxCols : Z)
    (cur : nat) (curCell : gridCell) (st : Bfs) (nb : nat) : Bfs :=
  if bool_decide (nb ∈ b_visited st) then st
  else
    let preferredDirs :=
      if bool_decide ((cur, nb) ∈ outgoing) then dirs else reverseDirs dirs in
    let cell := findBestCell curCell (b_occupied st) preferredDirs maxCols in
    mkBfs (<[nb := cell]> (b_placement st)) ({[cell]} ∪ b_occupied st)
          ({[nb]} ∪ b_visited st) (b_queue st ++ [nb]).

(** The loop [for len(queue) > 0]; every node enters the queue at most once,
    so [fuel = n] iterations empty it. *)
Fixpoint bfsLoop (fuel : nat) (adj : list (list nat)) (degree : list nat)
    (outgoing : gset (nat * nat)) (dirs : list gridCell) (maxCols : Z) (st : Bfs) : option Bfs :=
  match b_queue st with
  | [] => Some st
  | cur :: queue =>
      match fuel with
      | O => None
      | S fuel' =>
          let curCell := cellOf (b_placement st) cur in
          let neighbors :=
            List.filter (fun nb => negb (bool_decide (nb ∈ b_visited st)))
                        (default [] (adj !! cur)) in
          let sorted := sortSlice _ (neighborLess degree outgoing cur) neighbors in
          let st1 := mkBfs (b_placement st) (b_occupied st) (b_visited st) queue in
          bfsLoop fuel' adj degree outgoing dirs maxCols
                  (foldl (placeNeighbor outgoing dirs maxCols cur curCell) st1 sorted)
      end
  end.

(** Body of the loop that places the nodes the search did not reach. *)
Definition placeDisconnected (st : Bfs) (i : nat) : Bfs :=
  if bool_decide (i ∈ b_visited st) then st
  else
    let cell := findFirstFree (b_occupied st) in
    mkBfs (<[i := cell]> (b_placement st)) ({[cell]} ∪ b_occupied st)
          ({[i]} ∪ b_visited st) (b_queue st).

Definition minOver (f : gridCell -> Z) (placement : gmap nat gridCell) : Z :=
  map_fold (fun _ c m => if (f c <? m)%Z then f c else m) 2147483647%Z placement.

(** [objects] is [g.Root.ChildrenArray], [dir] the direction attribute of
    the root. *)
Definition gridPlacement (objects : list ObjId) (edges : list Edge) (dir : string)
    : option gridInfo :=
  match objects with
  | [] => Some (mkInfo ∅ ∅)
  | _ =>
      let n := length objects in
      let objIndex : gmap ObjId nat :=
        foldl (fun m io => <[io.2 := io.1]> m) ∅ (imap (fun i o => (i, o)) objects) in
      let '(adj0, outgoing) := buildAdj n objIndex edges in
      let adj := dedupeAdj <$> adj0 in
      let degree := length <$> adj in
      let start := pickStart degree in
      let dirs := bfsDirs dir in
      let maxCols := Z.max 2 (ceilSqrt (Z.of_nat n)) in
      let st0 := mkBfs {[start := mkCell 0 0]} {[mkCell 0 0]} {[start]} [start] in
      st1 ← bfsLoop n adj degree outgoing dirs maxCols st0;
      let st2 := foldl placeDisconnected st1 (seq 0 n) in
      let '(pl, _) := localImprove (b_placement st2) (b_occupied st2) adj n 5 in
      let minRow := minOver row pl in
      let minCol := minOver col pl in
      let norm i := let c := cellOf pl i in mkCell (row c - minRow) (col c - minCol) in
      let occupiedIdx := foldl (fun m i => <[norm i := i]> m) ∅ (seq 0 n) in
      let normalizedPlacement := foldl (fun m i => <[i := norm i]> m) ∅ (seq 0 n) in
      Some (mkInfo normalizedPlacement occupiedIdx)
  end.

End Placement.

(** *** gridroute.go: faces and routes *)

Definition absInt (x : Z) : Z := if (x <? 0)%Z then (- x)%Z else x.

Definition selectFaces (srcCell dstCell : gridCell) : face * face :=
  let dc := (col dstCell - col srcCell)%Z in
  let dr := (row dstCell - row srcCell)%Z in
  if (dr =? 0)%Z && (dc =? 0)%Z then (faceRight, faceLeft)
  else if (dr =? 0)%Z then
    (if (0 <? dc)%Z then (faceRight, faceLeft) else (faceLeft, faceRight))
  else if (dc =? 0)%Z then
    (if (0 <? dr)%Z then (faceBottom, faceTop) else (faceTop, faceBottom))
  else if (absInt dr <? absInt dc)%Z then
    (if (0 <? dc)%Z then (faceRight, faceLeft) else (faceLeft, faceRight))
  else
    (if (0 <? dr)%Z then (faceBottom, faceTop) else (faceTop, faceBottom)).

Definition perpendicularFace (f : face) : face :=
  match f with
  | faceLeft | faceRight => faceTop
  | faceTop | faceBottom => faceRight
  end.

Definition oppositeFace (f : face) : face :=
  match f with
  | faceTop => faceBottom
  | faceBottom => faceTop
  | faceLeft => faceRight
  | faceRight => faceLeft
  end.

(** The pixel fields of [gridInfo] and its node list; a column or row that
    is not in a map reads as 0, as a Go map does. *)
Record gridPixels : Type := mkPixels {
  colWidth : gmap Z float;
  rowHeight : gmap Z float;
  colX : gmap Z float;
  rowY : gmap Z float;
  objects : list Object
}.

Definition pixelAt (m : gmap Z float) (i : Z) : float := default 0 (m !! i).

(** [[4]float64{left, top, right, bottom}]. *)
Record box4 : Type := mkBox { b_left : float; b_top : float; b_right : float; b_bottom : float }.

Definition nodeBox (obj : Object) (margin : float) : box4 :=
  mkBox (X (TopLeft obj) - margin) (Y (TopLeft obj) - margin)
        (X (TopLeft obj) + Width obj + margin) (Y (TopLeft obj) + Height obj + margin).

(** The closure [clip] of [segmentIntersectsBox]: [None] is its [false],
    otherwise the new [tMin] and [tMax]. *)
Definition clip (p q : float) (t : float * float) : option (float * float) :=
  let '(tMin, tMax) := t in
  if p =? 0 then (if 0 <=? q then Some t else None)
  else
    let r := q / p in
    if p <? 0 then
      if tMax <? r then None
      else Some (if tMin <? r then r else tMin, tMax)
    else
      if r <? tMin then None
      else Some (tMin, if r <? tMax then r else tMax).

Definition segmentIntersectsBox (p1 p2 : Point) (box : box4) : bool :=
  let minX := goMin (X p1) (X p2) in
  let maxX := goMax (X p1) (X p2) in
  let minY := goMin (Y p1) (Y p2) in
  let maxY := goMax (Y p1) (Y p2) in
  if (maxX <? b_left box) || (b_right box <? minX) || (maxY <? b_top box) || (b_bottom box <? minY)
  then false
  else if (PrimFloat.abs (X p1 - X p2) <? 0.5) || (PrimFloat.abs (Y p1 - Y p2) <? 0.5) then true
  else
    let dx := X p2 - X p1 in
    let dy := Y p2 - Y p1 in
    match (t1 ← clip (- dx) (X p1 - b_left box) (0, 1);
           t2 ← clip dx (b_right box - X p1) t1;
           t3 ← clip (- dy) (Y p1 - b_top box) t2;
           clip dy (b_bottom box - Y p1) t3) with
    | Some (tMin, tMax) => tMin <=? tMax
    | None => false
    end.

(** The loop [for i := 0; i < len(route)-1; i++] of [routeCrossesNode]. *)
Fixpoint anySegmentIntersects (route : list Point) (box : box4) : bool :=
  match route with
  | p :: ((q :: _) as rest) => segmentIntersectsBox p q box || anySegmentIntersects rest box
  | _ => false
  end.

(** [routeCrossesNode], the map [info.occupied] walked in the order
    [cells]; [None] is an index panic on [info.objects]. *)
Fixpoint routeCrossesNodeIn (cells : list (gridCell * nat)) (route : list Point)
    (px : gridPixels) (srcCell dstCell : gridCell) : option bool :=
  match cells with
  | [] => Some false
  | (cell, nodeIdx) :: rest =>
      if bool_decide (cell = srcCell) || bool_decide (cell = dstCell)
      then routeCrossesNodeIn rest route px srcCell dstCell
      else
        obj ← objects px !! nodeIdx;
        if anySegmentIntersects route (nodeBox obj 4)
        then Some true
        else routeCrossesNodeIn rest route px srcCell dstCell
  end.

Definition routeCrossesNode (route : list Point) (info : gridInfo) (px : gridPixels)
    (srcCell dstCell : gridCell) : option bool :=
  routeCrossesNodeIn (map_to_list (occupied info)) route px srcCell dstCell.

Definition findHorizontalChannel (srcY dstY : float) (srcCell dstCell : gridCell)
    (px : gridPixels) : float :=
  let '(minR, maxR) :=
    if (row dstCell <? row srcCell)%Z then (row dstCell, row srcCell)
    else (row srcCell, row dstCell) in
  if negb (minR =? maxR)%Z then pixelAt (rowY px) minR + pixelAt (rowHeight px) minR
  else
    let r := row srcCell in
    let aboveY := pixelAt (rowY px) r in
    let belowY := pixelAt (rowY px) r + pixelAt (rowHeight px) r in
    if PrimFloat.abs (srcY - aboveY) <? PrimFloat.abs (srcY - belowY) then aboveY else belowY.

Definition findVerticalChannel (srcX dstX : float) (srcCell dstCell : gridCell)
    (px : gridPixels) : float :=
  let '(minC, maxC) :=
    if (col dstCell <? col srcCell)%Z then (col dstCell, col srcCell)
    else (col srcCell, col dstCell) in
  if negb (minC =? maxC)%Z then pixelAt (colX px) minC + pixelAt (colWidth px) minC
  else
    let c := col srcCell in
    let leftX := pixelAt (colX px) c in
    let rightX := pixelAt (colX px) c + pixelAt (colWidth px) c in
    if PrimFloat.abs (srcX - leftX) <? PrimFloat.abs (srcX - rightX) then leftX else rightX.

Definition buildZRoute (src dst : Point) (dstFace : face) (srcCell dstCell : gridCell)
    (px : gridPixels) : list Point :=
  match dstFace with
  | faceTop | faceBottom =>
      let channelY := findHorizontalChannel (Y src) (Y dst) srcCell dstCell px in
      [src; mkPoint (X src) channelY; mkPoint (X dst) channelY; dst]
  | faceLeft | faceRight =>
      let channelX := findVerticalChannel (X src) (X dst) srcCell dstCell px in
      [src; mkPoint channelX (Y src); mkPoint channelX (Y dst); dst]
  end.

(** [None] is a panic of [routeCrossesNode]. *)
Definition constructRoute (srcPort dstPort : Point) (srcFace dstFace : face)
    (srcCell dstCell : gridCell) (info : gridInfo) (px : gridPixels) : option (list Point) :=
  let crossesNode route := routeCrossesNode route info px srcCell dstCell in
  let straight := [srcPort; dstPort] in
  straightClear ← (if (row srcCell =? row dstCell)%Z || (col srcCell =? col dstCell)%Z
                   then negb <$> crossesNode straight else Some false);
  if (straightClear : bool) then Some straight
  else
    let '(bendPrimary, bendAlt) :=
      match srcFace with
      | faceTop | faceBottom =>
          (mkPoint (X srcPort) (Y dstPort), mkPoint (X dstPort) (Y srcPort))
      | _ => (mkPoint (X dstPort) (Y srcPort), mkPoint (X srcPort) (Y dstPort))
      end in
    let lPrimary := [srcPort; bendPrimary; dstPort] in
    c1 ← crossesNode lPrimary;
    if negb c1 then Some lPrimary
    else
      let lAlt := [srcPort; bendAlt; dstPort] in
      c2 ← crossesNode lAlt;
      if negb c2 then Some lAlt
      else
        let zRoute := buildZRoute srcPort dstPort dstFace srcCell dstCell px in
        c3 ← crossesNode zRoute;
        if negb c3 then Some zRoute
        else
          let perpFace := perpendicularFace dstFace in
          let zRoutePerp := buildZRoute srcPort dstPort perpFace srcCell dstCell px in
          c4 ← crossesNode zRoutePerp;
          if negb c4 then Some zRoutePerp
          else
            let perpFace2 := oppositeFace perpFace in
            let zRoutePerp2 := buildZRoute srcPort dstPort perpFace2 srcCell dstCell px in
            c5 ← crossesNode zRoutePerp2;
            if negb c5 then Some zRoutePerp2
            else Some zRoute.

(** *** nudging.go: [findOverlappingSegments] *)

Section Overlap.

Variable sortSlice : forall A : Type, (A -> A -> bool) -> list A -> list A.

(** Body of the loop [for j := i + 1; j < len(segs); j++]: the group, the
    flags [used] and [groupMax].  The indices are those of [segs], so the
    two lookups answer; a set flag is the [continue]. *)
Definition joinGroup (segs : list edgeSegment)
    (st : list edgeSegment * list bool * float) (j : nat)
    : list edgeSegment * list bool * float :=
  let '(group, used, groupMax) := st in
  match used !! j, segs !! j with
  | Some false, Some s =>
      if rangeMin s <? groupMax - 0.5 then
        (group ++ [s], <[j := true]> used,
         if groupMax <? rangeMax s then rangeMax s else groupMax)
      else st
  | _, _ => st
  end.

(** Body of the loop [for i := 0; i < len(segs); i++]. *)
Definition startGroup (segs : list edgeSegment)
    (acc : list (list edgeSegment) * list bool) (i : nat)
    : list (list edgeSegment) * list bool :=
  let '(groups, used) := acc in
  match used !! i, segs !! i with
  | Some false, Some s =>
      let '(group, used', _) :=
        foldl (joinGroup segs) ([s], <[i := true]> used, rangeMax s)
              (seq (S i) (length segs - S i)) in
      (groups ++ [group], used')
  | _, _ => acc
  end.

Definition findOverlappingSegments (segs : list edgeSegment) : list (list edgeSegment) :=
  let segs := sortSlice _ (fun a b => rangeMin a <? rangeMin b) segs in
  (foldl (startGroup segs) ([], replicate (length segs) false) (seq 0 (length segs))).1.

End Overlap.

End d2wueortho.

(** * Properties *)

Import geo d2graph d2gridrouter.

(** ** Route simplification *)

Section Simplify.

Local Open Scope float_scope.

(** A bend whose x is within tolerance of both neighbours' x, the neighbours
    being 0.375 apart: the first run snaps the bend onto the last point, the
    second run then finds the three points collinear. *)
Definition jitterRoute : list Point := [mkPoint 0.375 0; mkPoint 0 10; mkPoint 0.75 20].

(** Two points within tolerance of each other on both axes. *)
Definition near2 (p q : Point) : bool := nearEq (X p) (X q) && nearEq (Y p) (Y q).

(** The route of an edge whose destination port is 0.25 off the column of
    its source port: port, port node, two channel nodes, port node, port. *)
Definition portRoute : list Point :=
  [mkPoint 100 0; mkPoint 100 0; mkPoint 100 50; mkPoint 100.25 50;
   mkPoint 100.25 100; mkPoint 100.25 100].

Example simplify_removes_collinear :
  simplifyRoute [mkPoint 0 0; mkPoint 50 0; mkPoint 100 0] = [mkPoint 0 0; mkPoint 100 0].
Proof. reflexivity. Qed.

Example simplify_preserves_bend :
  simplifyRoute [mkPoint 0 0; mkPoint 100 0; mkPoint 100 100]
  = [mkPoint 0 0; mkPoint 100 0; mkPoint 100 100].
Proof. reflexivity. Qed.

Example simplify_uturn :
  simplifyRoute [mkPoint 0 0; mkPoint 0 10; mkPoint 0 0] = [mkPoint 0 0; mkPoint 0 0]
  /\ simplifyRoute [mkPoint 0 0; mkPoint 0 0] = [mkPoint 0 0].
Proof. split; reflexivity. Qed.

Example simplify_jitter_once :
  simplifyRoute jitterRoute = [mkPoint 0.375 0; mkPoint 0.75 10; mkPoint 0.75 20].
Proof. reflexivity. Qed.

Example simplify_jitter_twice :
  simplifyRoute (simplifyRoute jitterRoute) = [mkPoint 0.375 0; mkPoint 0.375 20].
Proof. reflexivity. Qed.

Lemma simplifyRoute_not_idempotent :
  simplifyRoute (simplifyRoute jitterRoute) <> simplifyRoute jitterRoute.
Proof. vm_compute. discriminate. Qed.

Lemma setX_same (p : Point) : setX p (X p) = p.
Proof. by destruct p. Qed.

Lemma setY_same (p : Point) : setY p (Y p) = p.
Proof. by destruct p. Qed.

Lemma simplifyRoute_first r : head (simplifyRoute r) = head r.
Proof.
  destruct r as [|p0 [|p1 rest]]; [done|done|].
  unfold simplifyRoute. by destruct (length _ <=? 2)%nat.
Qed.

(** The route of [portRoute] ends 0.25 left of the destination port. *)
Lemma simplifyRoute_moves_last_point :
  last (simplifyRoute portRoute) = Some (mkPoint 100 100) /\
  last (simplifyRoute portRoute) <> last portRoute.
Proof. split; [reflexivity|]. vm_compute. intros [=]. Qed.

End Simplify.

(** ** Routes on which [simplifyRoute] is idempotent *)

(** [nearEq] does not depend on the order of its arguments. *)
Section NearSym.

Lemma SFabs_round prec emax s m e :
  SFabs (binary_round prec emax s m e) = SFabs (binary_round prec emax (negb s) m e).
Proof.
  unfold binary_round. destruct (shl_align _ _ _) as [mz ez].
  unfold binary_round_aux. destruct (shr_fexp _ _ _ _ _) as [mrs' e'].
  destruct (shr_fexp _ _ _ _ _) as [mrs'' e''].
  destruct (shr_m mrs''); [done| |done]. by destruct (_ <=? _)%Z.
Qed.

Lemma SFabs_normalize prec emax m e :
  SFabs (binary_normalize prec emax m e false) = SFabs (binary_normalize prec emax (- m) e false).
Proof. destruct m; simpl; [done| |]; apply (SFabs_round prec emax). Qed.

Lemma SFabs_sub prec emax x y : SFabs (SFsub prec emax x y) = SFabs (SFsub prec emax y x).
Proof.
  destruct x as [sx|sx| |sx mx ex], y as [sy|sy| |sy my ey];
    try destruct sx; try destruct sy; try done.
  all: unfold SFsub; rewrite (Z.min_comm ey ex); cbv zeta;
    rewrite SFabs_normalize; f_equal; f_equal; simpl; lia.
Qed.

Lemma nearEq_sym a b : nearEq a b = nearEq b a.
Proof.
  unfold nearEq. rewrite !FloatAxioms.ltb_spec, !FloatAxioms.abs_spec, !FloatAxioms.sub_spec.
  unfold SF64sub. by rewrite SFabs_sub.
Qed.

End NearSym.

Section Settled.

Local Open Scope float_scope.

(** Being within tolerance is transitive on the coordinates [cs]. *)
Definition nearTransitive (cs : list float) : Prop :=
  forall a b c, a ∈ cs -> b ∈ cs -> c ∈ cs ->
    nearEq a b = true -> nearEq b c = true -> nearEq a c = true.

(** No two points of the route are within tolerance on both axes. *)
Fixpoint pointsApart (r : list Point) : Prop :=
  match r with
  | [] => True
  | p :: rest => Forall (fun q => near2 p q = false) rest /\ pointsApart rest
  end.

(** A route that [simplifyRoute] cannot unsettle: its points are apart, and
    on each axis the coordinates fall into groups within tolerance. *)
Definition settled (r : list Point) : Prop :=
  pointsApart r /\ nearTransitive (X <$> r) /\ nearTransitive (Y <$> r).

Section Coordinates.

Variables CX CY : list float.
Hypothesis HX : nearTransitive CX.
Hypothesis HY : nearTransitive CY.

Definition inU (p : Point) : Prop := X p ∈ CX /\ Y p ∈ CY.

(** A coordinate that is [a] or within tolerance of it, and a point that is
    [p] with coordinates replaced by such. *)
Definition alikeC (a' a : float) : Prop := a' = a \/ nearEq a' a = true.

Definition alike (p' p : Point) : Prop := alikeC (X p') (X p) /\ alikeC (Y p') (Y p).

(** [q] needs no snapping towards [prev]. *)
Definition pairStable (prev q : Point) : Prop :=
  (nearEq (X prev) (X q) = true -> X q = X prev) /\
  (nearEq (X prev) (X q) = false -> nearEq (Y prev) (Y q) = true -> Y q = Y prev).

(** [q] follows the kept point [c] in the result, [n] followed it in the
    input: [q] is [n] snapped, or both lie on a line through [c]. *)
Definition follows (c n q : Point) : Prop :=
  alike q n \/ (nearEq (X c) (X n) = true /\ nearEq (X c) (X q) = true)
            \/ (nearEq (Y c) (Y n) = true /\ nearEq (Y c) (Y q) = true).

Ltac saturate :=
  repeat match goal with
  | H1 : nearEq ?a ?b = true |- _ =>
      lazymatch goal with
      | _ : nearEq b a = true |- _ => fail
      | _ => assert (nearEq b a = true) by (rewrite nearEq_sym; exact H1)
      end
  | H1 : nearEq ?a ?b = true, H2 : nearEq ?b ?c = true |- _ =>
      lazymatch goal with
      | _ : nearEq a c = true |- _ => fail
      | _ => assert (nearEq a c = true)
               by (first [solve [apply (HX a b c); assumption]
                         | solve [apply (HY a b c); assumption]])
      end
  end.

Ltac cases :=
  repeat (cbn [X Y setX setY] in *;
          match goal with
          | |- context [nearEq ?a ?b] =>
              lazymatch goal with
              | H : nearEq a b = _ |- _ => rewrite H
              | _ => destruct (nearEq a b) eqn:?
              end
          end);
  cbn [X Y setX setY andb orb negb] in *.

Ltac clash :=
  match goal with
  | H1 : nearEq ?a ?b = true, H2 : nearEq ?a ?b = false |- _ =>
      rewrite H1 in H2; discriminate H2
  end.

Ltac fin := intros; saturate; first [done | clash].

Ltac settle := cases; try done; fin.

Lemma near_alike_l_X a' a z :
  a' ∈ CX -> a ∈ CX -> z ∈ CX -> alikeC a' a -> nearEq a' z = nearEq a z.
Proof. intros ? ? ? [->|H]; [done|]. settle. Qed.

Lemma near_alike_l_Y a' a z :
  a' ∈ CY -> a ∈ CY -> z ∈ CY -> alikeC a' a -> nearEq a' z = nearEq a z.
Proof. intros ? ? ? [->|H]; [done|]. settle. Qed.

Lemma near2_alike_l p' p z : inU p' -> inU p -> inU z -> alike p' p -> near2 p' z = near2 p z.
Proof.
  intros [] [] [] []. unfold near2.
  by rewrite (near_alike_l_X (X p') (X p)), (near_alike_l_Y (Y p') (Y p)).
Qed.

Lemma near2_alike_r p' p z : inU p' -> inU p -> inU z -> alike p' p -> near2 z p' = near2 z p.
Proof.
  intros [] [] [] []. unfold near2.
  rewrite (nearEq_sym (X z)), (nearEq_sym (Y z)), (nearEq_sym (X z) (X p)),
    (nearEq_sym (Y z) (Y p)).
  by rewrite (near_alike_l_X (X p') (X p)), (near_alike_l_Y (Y p') (Y p)).
Qed.

Lemma near2_sym p q : near2 p q = near2 q p.
Proof. unfold near2. by rewrite (nearEq_sym (X p)), (nearEq_sym (Y p)). Qed.

Lemma snapToPrev_alike prev c :
  inU prev -> inU c -> inU (snapToPrev prev c) /\ alike (snapToPrev prev c) c /\
  pairStable prev (snapToPrev prev c).
Proof.
  destruct prev as [xp yp], c as [xc yc]. unfold inU; cbn [X Y]. intros [] [].
  unfold snapToPrev, alike, alikeC, pairStable. cbn [X Y].
  destruct (nearEq xp xc) eqn:Ex; cbn [setX setY X Y].
  - repeat split; auto; fin.
  - destruct (nearEq yp yc) eqn:Ey; cbn [setX setY X Y]; repeat split; auto; fin.
Qed.

Lemma snap_alike prev c n :
  inU prev -> inU c -> inU n -> collinear prev c n = false ->
  let c' := snapToNext (snapToPrev prev c) n in
  inU c' /\ alike c' c /\ pairStable prev c'.
Proof.
  destruct prev as [xp yp], c as [xc yc], n as [xn yn]. unfold inU; cbn [X Y].
  intros [] [] [] Hcol. cbv zeta.
  unfold snapToNext, snapToPrev, collinear, alike, alikeC, pairStable in *. cbn [X Y] in *.
  revert Hcol.
  destruct (nearEq xp xc) eqn:E1, (nearEq xc xn) eqn:E2, (nearEq yp yc) eqn:E3,
    (nearEq yc yn) eqn:E4; cbn [andb orb setX setY X Y]; try done; intros _.
  all: cases; repeat split; auto; fin.
Qed.

Lemma pairStable_prev prev q : pairStable prev q -> snapToPrev prev q = q.
Proof.
  intros [H1 H2]. unfold snapToPrev.
  destruct (nearEq (X prev) (X q)) eqn:Ex.
  - rewrite <- (H1 eq_refl). apply setX_same.
  - destruct (nearEq (Y prev) (Y q)) eqn:Ey; [|done].
    rewrite <- (H2 eq_refl eq_refl). apply setY_same.
Qed.

Lemma pairStable_next c q : pairStable c q -> snapToNext c q = c.
Proof.
  intros [H1 H2]. unfold snapToNext.
  destruct (nearEq (X c) (X q)) eqn:Ex.
  - rewrite (H1 eq_refl). apply setX_same.
  - destruct (nearEq (Y c) (Y q)) eqn:Ey; [|done].
    rewrite (H2 eq_refl eq_refl). apply setY_same.
Qed.

Lemma collinear_alike prev c' c n :
  inU prev -> inU c' -> inU c -> inU n -> alike c' c ->
  collinear prev c' n = collinear prev c n.
Proof.
  intros [] [] [] [] []. unfold collinear. cbv zeta.
  rewrite (nearEq_sym (X prev) (X c')), (nearEq_sym (Y prev) (Y c')),
    (nearEq_sym (X prev) (X c)), (nearEq_sym (Y prev) (Y c)).
  by rewrite !(near_alike_l_X (X c') (X c)), !(near_alike_l_Y (Y c') (Y c)).
Qed.

(** A kept point is not collinear with the point kept before it and the one
    kept after it. *)
Lemma collinear_follows prev c next q :
  inU prev -> inU c -> inU next -> inU q ->
  collinear prev c next = false -> follows c next q -> near2 c q = false ->
  collinear prev c q = false.
Proof.
  destruct prev as [xp yp], c as [xc yc], next as [xn yn], q as [xq yq].
  unfold inU, collinear, follows, alike, alikeC, near2. cbn [X Y].
  intros [] [] [] [] Hcol Hf Hq. revert Hcol Hq.
  destruct Hf as [[[->|Kx] [->|Ky]]|[[K1 K2]|[K1 K2]]]; settle.
Qed.

(** The point that follows [prev] when the bend [n] is skipped. *)
Lemma follows_skip prev n m q :
  inU prev -> inU n -> inU m -> inU q ->
  collinear prev n m = true -> near2 prev m = false ->
  follows prev m q -> follows prev n q.
Proof.
  destruct prev as [xp yp], n as [xn yn], m as [xm ym], q as [xq yq].
  unfold inU, collinear, follows, alike, alikeC, near2. cbn [X Y].
  intros [] [] [] [] Hcol Hm Hf. revert Hcol Hm.
  destruct Hf as [[Kx Ky]|[[K1 K2]|[K1 K2]]].
  - destruct (nearEq xp xn) eqn:E1, (nearEq xn xm) eqn:E2; cbn [andb orb].
    + intros _ _. right. left. split; [done|].
      destruct Kx as [->|Kx]; fin.
    + destruct (nearEq yp yn) eqn:E3, (nearEq yn ym) eqn:E4; cbn [andb]; try done.
      intros _ _. right. right. split; [done|].
      destruct Ky as [->|Ky]; fin.
    + destruct (nearEq yp yn) eqn:E3, (nearEq yn ym) eqn:E4; cbn [andb]; try done.
      intros _ _. right. right. split; [done|].
      destruct Ky as [->|Ky]; fin.
    + destruct (nearEq yp yn) eqn:E3, (nearEq yn ym) eqn:E4; cbn [andb]; try done.
      intros _ _. right. right. split; [done|].
      destruct Ky as [->|Ky]; fin.
  - destruct (nearEq xp xn) eqn:E1, (nearEq xn xm) eqn:E2; cbn [andb orb];
      try (intros _ _; right; left; split; [done|]; fin).
    all: destruct (nearEq yp yn) eqn:E3, (nearEq yn ym) eqn:E4; cbn [andb]; try done.
    all: rewrite K1; cbn [andb]; fin.
  - destruct (nearEq yp yn) eqn:E3, (nearEq yn ym) eqn:E4; cbn [andb orb];
      try (intros _ _; right; right; split; [done|]; fin).
    all: destruct (nearEq xp xn) eqn:E1, (nearEq xn xm) eqn:E2; cbn [andb orb]; try done.
    all: intros _ Hm; saturate;
      repeat match goal with H : nearEq _ _ = true |- _ => rewrite H in Hm end; done.
Qed.

Lemma pointsApart_near2 prev l b : pointsApart (prev :: l) -> b ∈ l -> near2 prev b = false.
Proof. intros [H _] Hb. rewrite Forall_forall in H. by apply H. Qed.

Lemma pointsApart_skip p q l : pointsApart (p :: q :: l) -> pointsApart (p :: l).
Proof. intros [Hp [_ Hl]]. split; [|done]. by inversion Hp. Qed.

Lemma pointsApart_alike prev c' c l :
  inU c' -> inU c -> Forall inU l -> alike c' c ->
  pointsApart (prev :: c :: l) -> pointsApart (c' :: l).
Proof.
  intros Hc' Hc Hl Ha [_ [Hcl Hap]]. split; [|done].
  rewrite Forall_forall in Hcl, Hl |- *. intros b Hb.
  rewrite (near2_alike_l c' c) by auto. by apply Hcl.
Qed.

Lemma secondPass_settled l : forall prev,
  inU prev -> Forall inU l -> pointsApart (prev :: l) ->
  secondPass prev (secondPass prev l) = secondPass prev l /\
  dedupe prev (secondPass prev l) = secondPass prev l /\
  forall n tl, l = n :: tl ->
    exists q Q b,
      secondPass prev l = q :: Q /\ b ∈ l /\ alike q b /\ inU q /\
      pairStable prev q /\ follows prev n q.
Proof.
  induction l as [|curr tl IH]; intros prev Hp Hl Hap; [done|].
  inversion Hl as [|? ? Hcurr Htl]; subst.
  assert (near2 prev curr = false) as Hpc by (apply (pointsApart_near2 _ _ _ Hap); by left).
  destruct tl as [|next tl'].
  - destruct (snapToPrev_alike prev curr Hp Hcurr) as (Hq1 & Hq2 & Hq3).
    cbn [secondPass]. rewrite (pairStable_prev _ _ Hq3). split; [done|]. split.
    + cbn [dedupe]. rewrite (near2_sym) in Hpc.
      rewrite <- (near2_alike_l _ _ prev Hq1 Hcurr Hp Hq2) in Hpc. unfold near2 in Hpc.
      apply andb_false_iff in Hpc as [-> | ->]; cbn [negb orb]; [done|].
      by rewrite orb_true_r.
    + intros n tl [= <- <-]. exists (snapToPrev prev curr), [], curr.
      split; [done|]. split; [by left|]. split; [done|]. split; [done|]. split; [done|].
      by left.
  - inversion Htl as [|? ? Hnext Htl']; subst.
    change (secondPass prev (curr :: next :: tl')) with
      (if collinear prev curr next then secondPass prev (next :: tl')
       else let curr' := snapToNext (snapToPrev prev curr) next in
            curr' :: secondPass curr' (next :: tl')).
    destruct (collinear prev curr next) eqn:Hcol.
    + destruct (IH prev Hp Htl (pointsApart_skip _ _ _ Hap)) as (I1 & I2 & I3).
      split; [done|]. split; [done|].
      intros n tl [= <- <-].
      destruct (I3 next tl' eq_refl) as (q & Q & b & Hout & Hb & Hqb & Hq & Hps & Hf).
      exists q, Q, b. split; [done|]. split; [by right|]. split; [done|]. split; [done|].
      split; [done|]. apply (follows_skip prev curr next q); auto.
      apply (pointsApart_near2 _ _ _ Hap). right. by left.
    + cbv zeta. set (curr' := snapToNext (snapToPrev prev curr) next).
      destruct (snap_alike prev curr next Hp Hcurr Hnext Hcol) as (Hc1 & Hc2 & Hc3).
      fold curr' in Hc1, Hc2, Hc3.
      assert (pointsApart (curr' :: next :: tl')) as Hap' by (by apply (pointsApart_alike prev curr' curr)).
      destruct (IH curr' Hc1 Htl Hap') as (I1 & I2 & I3).
      destruct (I3 next tl' eq_refl) as (q & Q & b & Hout & Hb & Hqb & Hq & Hps & Hf).
      assert (near2 curr' prev = false) as Hcp.
      { rewrite (near2_alike_l curr' curr) by auto. by rewrite near2_sym. }
      assert (dedupe prev (curr' :: secondPass curr' (next :: tl'))
              = curr' :: secondPass curr' (next :: tl')) as Hd.
      { cbn [dedupe]. unfold near2 in Hcp.
        replace (negb (nearEq (X curr') (X prev)) || negb (nearEq (Y curr') (Y prev)))
          with true by (destruct (nearEq (X curr') (X prev)), (nearEq (Y curr') (Y prev)); done).
        by rewrite I2. }
      split; [|split; [done|]].
      * rewrite Hout.
        change (secondPass prev (curr' :: q :: Q)) with
          (if collinear prev curr' q then secondPass prev (q :: Q)
           else let c2 := snapToNext (snapToPrev prev curr') q in
                c2 :: secondPass c2 (q :: Q)).
        assert (collinear prev curr' q = false) as ->.
        { apply (collinear_follows prev curr' next q); auto.
          - by rewrite (collinear_alike prev curr' curr).
          - rewrite Forall_forall in Htl.
            rewrite (near2_alike_r q b) by auto. by apply (pointsApart_near2 _ _ _ Hap'). }
        cbv zeta. rewrite (pairStable_prev _ _ Hc3), (pairStable_next _ _ Hps).
        by rewrite <- Hout, I1.
      * intros n tl [= <- <-]. exists curr', (secondPass curr' (next :: tl')), curr.
        split; [done|]. split; [by left|]. split; [done|]. split; [done|]. split; [done|].
        by left.
Qed.

End Coordinates.

Lemma dedupe_idem l : forall prev, dedupe prev (dedupe prev l) = dedupe prev l.
Proof.
  induction l as [|p l IH]; intros prev; [done|]. cbn [dedupe].
  destruct (negb (nearEq (X p) (X prev)) || negb (nearEq (Y p) (Y prev))) eqn:E; [|apply IH].
  cbn [dedupe]. by rewrite E, IH.
Qed.

Lemma settled_inU p0 l :
  settled (p0 :: l) ->
  inU (X <$> p0 :: l) (Y <$> p0 :: l) p0 /\ Forall (inU (X <$> p0 :: l) (Y <$> p0 :: l)) l.
Proof.
  intros _. split.
  - split; rewrite fmap_cons; by left.
  - rewrite Forall_forall. intros q Hq.
    split; rewrite fmap_cons; right; apply list_elem_of_fmap; by exists q.
Qed.

(** C4, amended: [simplifyRoute] is idempotent on every route that is
    settled once its repeated points are removed: no two of the points that
    the first pass keeps are within tolerance on both axes, and on each axis
    being within tolerance is transitive among their coordinates. *)
Theorem simplifyRoute_idempotent_settled (r : list Point) :
  settled (deduped r) -> simplifyRoute (simplifyRoute r) = simplifyRoute r.
Proof.
  destruct r as [|p0 [|p1 rest]]; [done|done|].
  unfold deduped. intros Hs. unfold simplifyRoute at 2 3. cbv zeta.
  pose proof (dedupe_idem (p1 :: rest) p0) as Hd0.
  remember (dedupe p0 (p1 :: rest)) as d eqn:Ed0. clear Ed0.
  destruct (Nat.leb_spec (length (p0 :: d)) 2) as [Hle|Hgt].
  - destruct d as [|x [|y d']]; [done| |simpl in Hle; lia].
    unfold simplifyRoute. by rewrite Hd0.
  - destruct (settled_inU _ _ Hs) as [Hp0 Hd]. destruct Hs as (Hap & HX & HY).
    destruct (secondPass_settled _ _ HX HY d p0 Hp0 Hd Hap) as (H1 & H2 & H3).
    destruct d as [|n tl]; [simpl in Hgt; lia|].
    destruct (H3 n tl eq_refl) as (q & Q & _ & Hout & _).
    rewrite Hout in *. unfold simplifyRoute. rewrite H2.
    destruct (length (p0 :: q :: Q) <=? 2)%nat; [done|]. by rewrite H1.
Qed.

Ltac elems :=
  repeat match goal with
         | H : _ ∈ _ :: _ |- _ => apply elem_of_cons in H as [->|H]
         | H : _ ∈ [] |- _ => by apply elem_of_nil in H
         end.

Lemma simplifyRoute_idempotent_settled_witness :
  settled (deduped portRoute) /\
  simplifyRoute (simplifyRoute portRoute) = simplifyRoute portRoute.
Proof.
  assert (settled (deduped portRoute)) as Hs.
  { assert (deduped portRoute = [mkPoint 100 0; mkPoint 100 50; mkPoint 100.25 100]) as ->
      by reflexivity.
    split; [|split].
    - repeat first [split | constructor]; reflexivity.
    - intros a b c Ha Hb Hc. cbn [fmap list_fmap X] in Ha, Hb, Hc. elems; reflexivity.
    - intros a b c Ha Hb Hc. cbn [fmap list_fmap Y] in Ha, Hb, Hc.
      elems; vm_compute; first [reflexivity | discriminate]. }
  split; [exact Hs|]. exact (simplifyRoute_idempotent_settled portRoute Hs).
Defined.

(** A spur: the route leaves the corner (0, 10) and comes back to it.  Both
    runs skip points, and the result of the first run is settled although
    the points that the first pass keeps are not. *)
Definition spurRoute : list Point :=
  [mkPoint 0 0; mkPoint 0 10; mkPoint 0.6 10; mkPoint 0 10; mkPoint 0 20].

Example simplify_spur :
  deduped spurRoute = spurRoute /\
  simplifyRoute spurRoute = [mkPoint 0 0; mkPoint 0 10; mkPoint 0 20] /\
  simplifyRoute (simplifyRoute spurRoute) = [mkPoint 0 0; mkPoint 0 20].
Proof. repeat split; reflexivity. Qed.

End Settled.

(** ** Nudging leaves the ports in place *)

Section Nudging.

Import d2wueortho.
Local Open Scope float_scope.

(** Two states of a route with the same edge, as many points, and the same
    first and last point. *)
Definition sameEnds (r r' : EdgeRoute) : Prop :=
  EdgeIdx r' = EdgeIdx r /\ length (Points r') = length (Points r) /\
  head (Points r') = head (Points r) /\ last (Points r') = last (Points r).

(** Two routes through one vertical corridor at x = 50, and the bundle of
    their middle segments. *)
Definition corridorRoutes : list EdgeRoute :=
  [mkRoute 0 [mkPoint 0 0; mkPoint 50 0; mkPoint 50 100; mkPoint 100 100];
   mkRoute 1 [mkPoint 0 10; mkPoint 50 10; mkPoint 50 90; mkPoint 100 90]].

Definition corridorBundle : segmentBundle :=
  mkBundle Vertical 50 [mkSegment 0 1 Vertical 50 0 100; mkSegment 1 1 Vertical 50 10 90].

Definition corridorOffsets : gmap Z float := {[ 0%Z := -5; 1%Z := 5 ]}.

Lemma sameEnds_refl r : sameEnds r r.
Proof. done. Qed.

Lemma sameEnds_trans r1 r2 r3 : sameEnds r1 r2 -> sameEnds r2 r3 -> sameEnds r1 r3.
Proof. intros (?&?&?&?) (?&?&?&?). repeat split; congruence. Qed.

Lemma index_Some {A} (s : list A) i x :
  index s i = Some x -> (0 <= i)%Z /\ s !! Z.to_nat i = Some x.
Proof. unfold index. destruct (i <? 0)%Z eqn:E; [done|]. intros. split; [lia|done]. Qed.

Lemma addAt_frame o pts i offset pts' :
  addAt o pts i offset = Some pts' ->
  (0 <= i)%Z /\ length pts' = length pts /\
  (i <> 0%Z -> head pts' = head pts) /\
  (i <> (Z.of_nat (length pts) - 1)%Z -> last pts' = last pts).
Proof.
  unfold addAt. intros H. apply bind_Some in H as (p & Hp & [= <-]).
  apply index_Some in Hp as [Hi Hp].
  split; [done|]. split; [apply length_insert|]. split; intros Hne.
  - rewrite !head_lookup. apply list_lookup_insert_ne. lia.
  - apply lookup_lt_Some in Hp.
    rewrite !last_lookup, length_insert. apply list_lookup_insert_ne. lia.
Qed.

Lemma nudgeSegment_frame o offsets routes seg routes' :
  nudgeSegment o offsets routes seg = Some routes' -> Forall2 sameEnds routes routes'.
Proof.
  assert (Forall2 sameEnds routes routes) as Hrefl
    by (apply Forall_Forall2_diag, Forall_forall; intros; apply sameEnds_refl).
  unfold nudgeSegment.
  destruct (PrimFloat.abs _ <? 0.1); [by intros [= <-]|].
  intros H. apply bind_Some in H as (route & Hr & H).
  apply index_Some in Hr as [_ Hr].
  destruct (Z.of_nat (length (Points route)) - 1 <=? segIdx seg)%Z eqn:Hlen;
    [by injection H as <-|].
  apply Z.leb_gt in Hlen.
  apply bind_Some in H as (pts1 & H1 & H).
  apply bind_Some in H as (pts2 & H2 & [= <-]).
  rewrite <- (list_insert_id routes (Z.to_nat (edgeIdx seg)) route) at 1 by done.
  apply Forall2_insert; [done|].
  assert ((0 <= segIdx seg)%Z /\ length pts1 = length (Points route) /\
          head pts1 = head (Points route) /\ last pts1 = last (Points route))
    as (Hseg & Hl1 & Hh1 & Ht1).
  { destruct (segIdx seg =? 0)%Z eqn:E0; simpl in H1.
    - injection H1 as <-. split; [lia|done].
    - apply addAt_frame in H1 as (? & ? & Hh & Ht).
      split; [done|]. split; [done|]. split; [apply Hh|apply Ht]; lia. }
  unfold sameEnds. simpl. split; [done|].
  destruct (segIdx seg + 1 =? Z.of_nat (length (Points route)) - 1)%Z eqn:E1; simpl in H2.
  - injection H2 as <-. done.
  - apply addAt_frame in H2 as (_ & Hl2 & Hh & Ht).
    rewrite Hl2, Hh, Ht by lia. done.
Qed.

Lemma applyNudgeOffsets_frame routes bundle offsets routes' :
  applyNudgeOffsets routes bundle offsets = Some routes' -> Forall2 sameEnds routes routes'.
Proof.
  unfold applyNudgeOffsets.
  assert (Forall2 sameEnds routes routes) as Hrefl
    by (apply Forall_Forall2_diag, Forall_forall; intros; apply sameEnds_refl).
  revert Hrefl. generalize routes at 2 3 as acc.
  induction (segments bundle) as [|seg segs IH]; intros acc Hacc H; simpl in H.
  - by injection H as <-.
  - apply bind_Some in H as (acc' & Hseg & H). apply (IH acc'); [|done].
    apply nudgeSegment_frame in Hseg.
    eapply Forall2_trans; [|done..]. intros ???. apply sameEnds_trans.
Qed.

End Nudging.

(** ** The ends of a route *)

Section RouteEnds.

Import d2wueortho.
Local Open Scope float_scope.

(** A route whose end lies within tolerance of the point before it, which in
    turn lies within tolerance of the column of the start: the end is
    dropped and the point before it is moved onto the column. *)
Definition driftRoute : list Point :=
  [mkPoint 0 0; mkPoint 0 10; mkPoint 0.4 20; mkPoint 0.8 20.4].

Example simplify_drift :
  deduped driftRoute = [mkPoint 0 0; mkPoint 0 10; mkPoint 0.4 20] /\
  simplifyRoute driftRoute = [mkPoint 0 0; mkPoint 0 20].
Proof. split; reflexivity. Qed.

Lemma last_cons_cons {A} (a b : A) l : last (a :: b :: l) = last (b :: l).
Proof. done. Qed.

(** The first pass ends on the end of the route, or on a point that the end
    is within tolerance of on both axes. *)
Lemma dedupe_last points : forall prev q e,
  last (prev :: dedupe prev points) = Some q ->
  last (prev :: points) = Some e ->
  q = e \/ near2 e q = true.
Proof.
  induction points as [|p rest IH]; intros prev q e; cbn [dedupe].
  - intros [= <-] [= <-]. by left.
  - rewrite (last_cons_cons prev p rest).
    destruct (nearEq (X p) (X prev)) eqn:Hx; cbn [negb orb].
    + destruct (nearEq (Y p) (Y prev)) eqn:Hy; cbn [negb].
      * destruct rest as [|p' rest'].
        -- cbn [dedupe]. intros [= <-] [= <-]. right. unfold near2. by rewrite Hx, Hy.
        -- rewrite (last_cons_cons p p' rest'), <- (last_cons_cons prev p' rest'). apply IH.
      * rewrite (last_cons_cons prev p _). apply IH.
    + rewrite (last_cons_cons prev p _). apply IH.
Qed.

(** The first pass on a route with one more point [e]: [e] is dropped when
    it is within tolerance, on both axes, of the point the pass ends on. *)
Lemma dedupe_snoc l : forall prev e,
  dedupe prev (l ++ [e]) =
  dedupe prev l ++ (if near2 e (default prev (last (dedupe prev l))) then [] else [e]).
Proof.
  induction l as [|p l IH]; intros prev e; cbn [app dedupe].
  - unfold near2. cbn [last default].
    by destruct (nearEq (X e) (X prev)), (nearEq (Y e) (Y prev)).
  - destruct (negb (nearEq (X p) (X prev)) || negb (nearEq (Y p) (Y prev))).
    + rewrite IH. cbn [app].
      assert (default prev (last (p :: dedupe p l)) = default p (last (dedupe p l))) as ->; [|done].
      destruct (dedupe p l) as [|d ds]; [done|]. rewrite last_cons_cons.
      by destruct (proj2 (last_is_Some (d :: ds)) ltac:(done)) as [x ->].
    + apply IH.
Qed.

Lemma deduped_snoc front e q' :
  last (deduped front) = Some q' ->
  deduped (front ++ [e]) = if near2 e q' then deduped front else deduped front ++ [e].
Proof.
  destruct front as [|p0 rest]; [done|]. unfold deduped. cbn [app]. intros Hq.
  rewrite dedupe_snoc.
  assert (default p0 (last (dedupe p0 rest)) = q') as ->.
  { destruct (dedupe p0 rest) as [|d ds]; [by injection Hq|].
    rewrite last_cons_cons in Hq. by rewrite Hq. }
  destruct (near2 e q'); [by rewrite app_nil_r|done].
Qed.

(** The second pass ends on the last point of the first pass, snapped to the
    point kept before it. *)
Lemma secondPass_end l : forall prev q,
  last l = Some q ->
  exists front prev', prev :: secondPass prev l = front ++ [prev'; snapToPrev prev' q].
Proof.
  induction l as [|curr tl IH]; intros prev q; [done|].
  destruct tl as [|next tl'].
  - intros [= <-]. by exists [], prev.
  - rewrite (last_cons_cons curr next tl'). intros Hq.
    change (secondPass prev (curr :: next :: tl')) with
      (if collinear prev curr next then secondPass prev (next :: tl')
       else let curr' := snapToNext (snapToPrev prev curr) next in
            curr' :: secondPass curr' (next :: tl')).
    destruct (collinear prev curr next); [by apply IH|].
    cbv zeta.
    destruct (IH (snapToNext (snapToPrev prev curr) next) q Hq) as (front & prev' & ->).
    by exists (prev :: front), prev'.
Qed.

Lemma dedupe_nonempty_last prev points : is_Some (last (prev :: dedupe prev points)).
Proof. destruct (dedupe prev points) eqn:E; [by eexists|]. rewrite last_cons_cons.
  apply (last_is_Some). done. Qed.

(** C1, amended: [applyNudgeOffsets] keeps the first and the last point of
    every route, and [simplifyRoute] keeps the first point.  The end [e] of
    a route is moved by [simplifyRoute] in two steps: the first pass drops
    [e] exactly when it is within tolerance, on both axes, of the point [q]
    that the pass has ended on before, and then still ends on [q]; when
    more than two points are left, the route ends on [q] snapped to the
    point [prev] that is kept before it: the x of [q] becomes that of
    [prev] when the two are within tolerance, else its y becomes that of
    [prev] when those are. *)
Theorem route_endpoints_frame :
  (forall r, head (simplifyRoute r) = head r) /\
  (forall front e q',
     last (deduped front) = Some q' ->
     deduped (front ++ [e]) = if near2 e q' then deduped front else deduped front ++ [e]) /\
  (forall r e, last r = Some e ->
     exists q,
       last (deduped r) = Some q /\
       (q = e \/ near2 e q = true) /\
       ((length (deduped r) <= 2)%nat -> simplifyRoute r = deduped r) /\
       ((2 < length (deduped r))%nat ->
        exists front prev, simplifyRoute r = front ++ [prev; snapToPrev prev q])) /\
  (forall prev q,
     snapToPrev prev q =
       if nearEq (X prev) (X q) then mkPoint (X prev) (Y q)
       else if nearEq (Y prev) (Y q) then mkPoint (X q) (Y prev)
       else q) /\
  (forall routes bundle offsets routes',
     applyNudgeOffsets routes bundle offsets = Some routes' ->
     Forall2 sameEnds routes routes').
Proof.
  split; [apply simplifyRoute_first|]. split; [apply deduped_snoc|].
  split; [|split; [|apply applyNudgeOffsets_frame]].
  - intros r e He. destruct r as [|p0 rest]; [done|].
    destruct (dedupe_nonempty_last p0 rest) as [q Hq].
    exists q. unfold deduped. split; [done|]. split; [by apply (dedupe_last rest p0)|].
    unfold simplifyRoute.
    destruct rest as [|p1 rest]; [split; [done|simpl; lia]|].
    destruct (Nat.leb_spec (length (p0 :: dedupe p0 (p1 :: rest))) 2) as [Hle|Hgt].
    + split; [done|lia].
    + split; [lia|]. intros _. apply secondPass_end.
      destruct (dedupe p0 (p1 :: rest)) as [|d1 ds] eqn:Ed; [simpl in Hgt; lia|].
      by rewrite last_cons_cons in Hq.
  - intros prev q. unfold snapToPrev. by destruct q.
Qed.

Lemma route_endpoints_frame_witness :
  applyNudgeOffsets corridorRoutes corridorBundle corridorOffsets
  = Some [mkRoute 0 [mkPoint 0 0; mkPoint 45 0; mkPoint 45 100; mkPoint 100 100];
          mkRoute 1 [mkPoint 0 10; mkPoint 55 10; mkPoint 55 90; mkPoint 100 90]]
  /\ Forall2 sameEnds corridorRoutes
       [mkRoute 0 [mkPoint 0 0; mkPoint 45 0; mkPoint 45 100; mkPoint 100 100];
        mkRoute 1 [mkPoint 0 10; mkPoint 55 10; mkPoint 55 90; mkPoint 100 90]]
  /\ exists q,
       last (deduped driftRoute) = Some q /\
       (q = mkPoint 0.8 20.4 \/ near2 (mkPoint 0.8 20.4) q = true) /\
       ((length (deduped driftRoute) <= 2)%nat -> simplifyRoute driftRoute = deduped driftRoute) /\
       ((2 < length (deduped driftRoute))%nat ->
        exists front prev, simplifyRoute driftRoute = front ++ [prev; snapToPrev prev q]).
Proof.
  assert (applyNudgeOffsets corridorRoutes corridorBundle corridorOffsets
          = Some [mkRoute 0 [mkPoint 0 0; mkPoint 45 0; mkPoint 45 100; mkPoint 100 100];
                  mkRoute 1 [mkPoint 0 10; mkPoint 55 10; mkPoint 55 90; mkPoint 100 90]])
    as H by (vm_compute; reflexivity).
  split; [exact H|].
  split; [exact (proj2 (proj2 (proj2 (proj2 route_endpoints_frame))) _ _ _ _ H)|].
  exact (proj1 (proj2 (proj2 route_endpoints_frame)) driftRoute (mkPoint 0.8 20.4) eq_refl).
Defined.

End RouteEnds.

(** ** The sorts meet the contract of [sort.Slice] *)

Section Sorting.

Import gosort.

Context {A : Type} (less : A -> A -> bool).

Lemma insertLeft_perm x racc : Permutation (x :: racc) (insertLeft less x racc).
Proof.
  induction racc as [|y r IH]; simpl; [done|].
  destruct (less x y); [|done].
  rewrite <- IH. apply perm_swap.
Qed.

Lemma insertionSort_perm l : Permutation l (insertionSort A less l).
Proof.
  unfold insertionSort. rewrite <- Permutation_rev.
  assert (forall racc, Permutation (racc ++ l) (foldl (fun racc x => insertLeft less x racc) racc l))
    as H; [|exact (H [])].
  induction l as [|x l IH]; intros racc; simpl; [by rewrite app_nil_r|].
  rewrite <- IH, <- insertLeft_perm. simpl. symmetry. apply Permutation_middle.
Qed.

(** The prefix kept by [insertionSort], last element first: no element is
    less than one further down. *)
Definition descending (racc : list A) : Prop :=
  StronglySorted (fun a b => less a b = false) racc.

Lemma insertLeft_descending (l : list A) x racc :
  strictWeakOn less l -> x ∈ l -> (forall y, y ∈ racc -> y ∈ l) ->
  descending racc -> descending (insertLeft less x racc).
Proof.
  intros (Hirr & Htr & Hneg) Hx. induction racc as [|y r IH]; intros Hin Hd; simpl.
  - repeat constructor.
  - inversion Hd as [|? ? Hr Hy]; subst.
    assert (y ∈ l) as Hyl by (apply Hin; by left).
    assert (forall z, z ∈ r -> z ∈ l) as Hrl by (intros; apply Hin; by right).
    destruct (less x y) eqn:Hxy.
    + constructor; [by apply IH|].
      rewrite Forall_forall. intros z Hz.
      rewrite <- insertLeft_perm in Hz. apply elem_of_cons in Hz as [->|Hz].
      * destruct (less y x) eqn:Hyx; [|done].
        pose proof (Hirr x Hx) as Hxx. by rewrite (Htr x y x Hx Hyl Hx Hxy Hyx) in Hxx.
      * rewrite Forall_forall in Hy. by apply Hy.
    + constructor; [done|]. constructor; [done|].
      rewrite Forall_forall in Hy |- *. intros z Hz.
      apply (Hneg x y z); auto.
Qed.

Lemma sorted_snoc (R : A -> A -> Prop) k y :
  StronglySorted R k -> Forall (fun z => R z y) k -> StronglySorted R (k ++ [y]).
Proof.
  induction 1 as [|z k Hk IH Hz]; intros Hy; simpl.
  - repeat constructor.
  - inversion Hy; subst. constructor; [by apply IH|].
    rewrite Forall_app. split; [done|]. by repeat constructor.
Qed.

Lemma descending_rev racc : descending racc -> sortedBy less (rev racc).
Proof.
  unfold descending, sortedBy. induction 1 as [|y r Hr IH Hy]; simpl; [constructor|].
  apply sorted_snoc; [done|]. by apply Forall_rev.
Qed.

Lemma insertionSort_sorted l : strictWeakOn less l -> sortedBy less (insertionSort A less l).
Proof.
  intros Hswo. unfold insertionSort. apply descending_rev.
  assert (forall k racc, (forall y, y ∈ k -> y ∈ l) -> (forall y, y ∈ racc -> y ∈ l) ->
            descending racc ->
            descending (foldl (fun racc x => insertLeft less x racc) racc k)) as H.
  { induction k as [|x k IH]; intros racc Hk Hracc Hd; simpl; [done|].
    apply IH.
    - intros; apply Hk; by right.
    - intros y Hy. rewrite <- insertLeft_perm in Hy.
      apply elem_of_cons in Hy as [->|Hy]; [apply Hk; by left|by apply Hracc].
    - eapply insertLeft_descending; eauto. apply Hk; by left. }
  apply H; [done|by intros ? ?%elem_of_nil|constructor].
Qed.

End Sorting.

Lemma insertionSort_contract : gosort.sortContract gosort.insertionSort.
Proof.
  intros A less l. split; [apply insertionSort_perm|apply insertionSort_sorted].
Qed.

(** ** Routing order *)

Section Order.

Import gosort.
Local Open Scope float_scope.

(** An edge that is routed before another one: its class is not the later
    one, and within one class it is not the shorter of the two. *)
Definition routedBefore (a b : edgePriority) : Prop :=
  (priority a <= priority b)%Z /\ (priority a = priority b -> (dist a <? dist b) = false).

(** How the priority record of edge [i] reads the ports of the edge. *)
Definition describes (ports : PortAssignment) (i : nat) (p : edgePriority) : Prop :=
  exists src dst,
    SrcPorts ports !! i = Some src /\ DstPorts ports !! i = Some dst /\
    idx p = Z.of_nat i /\
    priority p = (if sameAxis src dst then 0 else 1)%Z /\
    dist p = abs (X (Pos src) - X (Pos dst)) + abs (Y (Pos src) - Y (Pos dst)).

Definition portAt (side : Direction) (x y : float) : Port := mkPort 0 0 side (mkPoint x y) true.

(** Three edges: a crossing one of length 30, and two direct ones of length
    50 and 80. *)
Definition threePorts : PortAssignment :=
  mkPA [portAt DirRight 0 0; portAt DirBottom 0 0; portAt DirLeft 0 0]
       [portAt DirTop 10 20; portAt DirTop 0 50; portAt DirRight (-80) 0].

(** Two direct edges of the same length. *)
Definition tiedPorts : PortAssignment :=
  mkPA [portAt DirBottom 0 0; portAt DirBottom 100 0]
       [portAt DirTop 0 50; portAt DirTop 100 50].

Definition someEdge : Edge := mkEdgeG 0 1 "" None [].

Lemma prioLess_routedBefore a b : prioLess b a = false -> routedBefore a b.
Proof.
  unfold prioLess, routedBefore.
  destruct (priority b =? priority a)%Z eqn:E; simpl.
  - apply Z.eqb_eq in E. intros H. split; [lia|done].
  - apply Z.eqb_neq in E. intros H%Z.ltb_ge. split; lia.
Qed.

Lemma sortedBy_routedBefore l : sortedBy prioLess l -> StronglySorted routedBefore l.
Proof.
  unfold sortedBy. induction 1 as [|a l Hl IH Ha]; constructor; [done|].
  eapply Forall_impl; [exact Ha|]. intros b ?. by apply prioLess_routedBefore.
Qed.

Lemma edgePriorityOf_describes ports i p : edgePriorityOf ports i = Some p -> describes ports i p.
Proof.
  unfold edgePriorityOf. intros H.
  apply bind_Some in H as (src & Hs & H). apply bind_Some in H as (dst & Hd & [= <-]).
  exists src, dst. done.
Qed.

Lemma prioritiesOf_describes ports edges prios :
  prioritiesOf ports edges = Some prios ->
  length prios = length edges /\
  forall i p, prios !! i = Some p -> describes ports i p.
Proof.
  unfold prioritiesOf. intros H. apply mapM_Some in H.
  split; [by rewrite <- (Forall2_length _ _ _ H), length_seq|].
  intros i p Hp. destruct (Forall2_lookup_r _ _ _ _ _ H Hp) as (j & Hj & Hjp).
  apply lookup_seq in Hj as [-> _]. by apply edgePriorityOf_describes.
Qed.

End Order.

(** ** The Dijkstra search *)

Section Dijkstra.

Local Open Scope float_scope.

(** The expansion of a popped state [cur]: the loop over the edges of its
    node, run on the search state [st]. *)
Definition expand (rg : RoutingGraph) (srcNode : Z) (cur : DijkstraState) (st : Search) : Search :=
  foldl (relax srcNode cur) st (default [] (Adj rg !! NodeID cur)).

Lemma pqSwap_elem pq i j s : s ∈ pqSwap pq i j -> s ∈ pq.
Proof.
  unfold pqSwap. destruct (pq !! i) as [a|] eqn:Ha; [|done].
  destruct (pq !! j) as [b|] eqn:Hb; [|done].
  intros Hs. apply list_elem_of_lookup in Hs as [k Hk].
  destruct (decide (k = j)) as [->|Hj].
  - rewrite list_lookup_insert_eq in Hk.
    + injection Hk as <-. by eapply list_elem_of_lookup_2.
    + rewrite length_insert. by eapply lookup_lt_Some.
  - rewrite list_lookup_insert_ne in Hk by done.
    destruct (decide (k = i)) as [->|Hi].
    + rewrite list_lookup_insert_eq in Hk by (by eapply lookup_lt_Some).
      injection Hk as <-. by eapply list_elem_of_lookup_2.
    + rewrite list_lookup_insert_ne in Hk by done. by eapply list_elem_of_lookup_2.
Qed.

Lemma up_elem fuel pq j s : s ∈ up fuel pq j -> s ∈ pq.
Proof.
  revert pq j. induction fuel as [|fuel IH]; intros pq j; simpl; [done|].
  destruct (_ || _); [done|]. intros Hs%IH. by eapply pqSwap_elem.
Qed.

Lemma heapPush_elem pq x s : s ∈ heapPush pq x -> s = x \/ s ∈ pq.
Proof.
  unfold heapPush. intros Hs%up_elem. apply elem_of_app in Hs as [?|Hs]; [by right|].
  apply list_elem_of_singleton in Hs. by left.
Qed.

(** A run on a square of four nodes: the search returns the cheaper of the
    two paths from node 0 to node 3. *)
Definition squareGraph : RoutingGraph :=
  mkGraph [mkNode 0 (mkPoint 0 0); mkNode 1 (mkPoint 10 0);
           mkNode 2 (mkPoint 0 5); mkNode 3 (mkPoint 10 5)]
    (list_to_map
       [(0%Z, [mkEdge 0 1 10 Horizontal; mkEdge 0 2 5 Vertical]);
        (1%Z, [mkEdge 1 0 10 Horizontal; mkEdge 1 3 7 Vertical]);
        (2%Z, [mkEdge 2 3 10 Horizontal; mkEdge 2 0 5 Vertical]);
        (3%Z, [mkEdge 3 2 10 Horizontal; mkEdge 3 1 7 Vertical])]).

Example dijkstra_square : dijkstraRoute 20 squareGraph 0 3 = Some [2; 3]%Z.
Proof. vm_compute. reflexivity. Qed.

End Dijkstra.

(** ** Port spreading of the standalone router *)

Section Spreading.

Import d2wueortho gosort.
Local Open Scope float_scope.

(** The position [facePoint] computes for port [i] of [n] on face [f]: the
    corner gap is 12, or 0 on a face shorter than 24. *)
Definition spreadPoint (obj : Object) (f : face) (i n : nat) : Point :=
  let t := (floatOfNat i + 1) / (floatOfNat n + 1) in
  let span := match f with
              | faceTop | faceBottom => Width obj
              | faceLeft | faceRight => Height obj
              end in
  let gap := if span - 2 * 12 <? 0 then 0 else 12 in
  let usable := if span - 2 * 12 <? 0 then span else span - 2 * 12 in
  match f with
  | faceTop => mkPoint (X (TopLeft obj) + gap + usable * t) (Y (TopLeft obj))
  | faceBottom => mkPoint (X (TopLeft obj) + gap + usable * t) (Y (TopLeft obj) + Height obj)
  | faceLeft => mkPoint (X (TopLeft obj)) (Y (TopLeft obj) + gap + usable * t)
  | faceRight => mkPoint (X (TopLeft obj) + Width obj) (Y (TopLeft obj) + gap + usable * t)
  end.

(** A hub 40 wide below two satellites, and the two ports on its top face. *)
Definition hubStore : Store :=
  {[ 0%nat := mkObject None [] (mkPoint 0 100) 40 40;
     1%nat := mkObject None [] (mkPoint (-100) 0) 40 40;
     2%nat := mkObject None [] (mkPoint 100 0) 40 40 ]}.

Definition hubPorts : list portInfo :=
  [mkPortInfo (mkEdgeG 2 0 "" None []) 0 faceTop None false;
   mkPortInfo (mkEdgeG 1 0 "" None []) 0 faceTop None false].

Lemma facePoint_spread obj f i n :
  facePoint obj f ((floatOfNat i + 1) / (floatOfNat n + 1)) cornerGap minClearance n
  = spreadPoint obj f i n.
Proof.
  unfold facePoint, spreadPoint, cornerGap.
  destruct f; cbv zeta.
  - by destruct (Height obj - 2 * 12 <? 0).
  - by destruct (Height obj - 2 * 12 <? 0).
  - by destruct (Width obj - 2 * 12 <? 0).
  - by destruct (Width obj - 2 * 12 <? 0).
Qed.

End Spreading.

(** ** Alignment of the ports of direct edges *)

Section Alignment.

Import gosort.
Local Open Scope float_scope.

Definition verticalPair (src dst : Port) : Prop :=
  (Side src = DirBottom /\ Side dst = DirTop) \/ (Side src = DirTop /\ Side dst = DirBottom).

Definition horizontalPair (src dst : Port) : Prop :=
  (Side src = DirRight /\ Side dst = DirLeft) \/ (Side src = DirLeft /\ Side dst = DirRight).

(** The boxes share a column (a row), and the midpoint of what they share. *)
Definition overlapX (a b : Rect) : bool := goMax (Left a) (Left b) <? goMin (Right a) (Right b).
Definition overlapY (a b : Rect) : bool := goMax (Top a) (Top b) <? goMin (Bottom a) (Bottom b).
Definition midX (a b : Rect) : float := (goMax (Left a) (Left b) + goMin (Right a) (Right b)) / 2.
Definition midY (a b : Rect) : float := (goMax (Top a) (Top b) + goMin (Bottom a) (Bottom b)) / 2.

(** [x] lies in the inner 10%-90% of the box. *)
Definition innerX (box : Rect) (x : float) : bool :=
  (Left box + RW box * 0.1 <=? x) && (x <=? Left box + RW box * 0.9).
Definition innerY (box : Rect) (y : float) : bool :=
  (Top box + RH box * 0.1 <=? y) && (y <=? Top box + RH box * 0.9).

Definition withX (p : Port) (x : float) : Port :=
  mkPort (NodeIdx p) (PEdgeIdx p) (Side p) (setX (Pos p) x) (IsSrc p).
Definition withY (p : Port) (y : float) : Port :=
  mkPort (NodeIdx p) (PEdgeIdx p) (Side p) (setY (Pos p) y) (IsSrc p).

(** A box 100 wide and, 350 below it, a box shifted 95 to the right: they
    share the columns 95 to 100. *)
Definition shiftedBoxes : list Rect := [mkRect 0 0 100 50; mkRect 95 400 100 50].
Definition shiftedEdges : list Edge := [mkEdgeG 0 1 "" None []].
Definition shiftedIndex : gmap ObjId Z := {[ 0%nat := 0%Z; 1%nat := 1%Z ]}.

(** Two boxes in one column, the lower one 20 to the right. *)
Definition columnBoxes : list Rect := [mkRect 0 0 100 50; mkRect 20 400 100 50].

Lemma verticalPair_decide src dst :
  verticalPair src dst ->
  bool_decide (Side src = DirBottom /\ Side dst = DirTop) ||
  bool_decide (Side src = DirTop /\ Side dst = DirBottom) = true /\
  bool_decide (Side src = DirRight /\ Side dst = DirLeft) ||
  bool_decide (Side src = DirLeft /\ Side dst = DirRight) = false.
Proof. destruct src as [? ? [] ? ?], dst as [? ? [] ? ?]; intros [[? ?]|[? ?]]; done. Qed.

Lemma horizontalPair_decide src dst :
  horizontalPair src dst ->
  bool_decide (Side src = DirBottom /\ Side dst = DirTop) ||
  bool_decide (Side src = DirTop /\ Side dst = DirBottom) = false /\
  bool_decide (Side src = DirRight /\ Side dst = DirLeft) ||
  bool_decide (Side src = DirLeft /\ Side dst = DirRight) = true.
Proof. destruct src as [? ? [] ? ?], dst as [? ? [] ? ?]; intros [[? ?]|[? ?]]; done. Qed.

Lemma alignPair_vertical srcBox dstBox src dst :
  verticalPair src dst ->
  alignPair srcBox dstBox src dst =
  if overlapX srcBox dstBox && (innerX srcBox (midX srcBox dstBox) && innerX dstBox (midX srcBox dstBox))
  then (withX src (midX srcBox dstBox), withX dst (midX srcBox dstBox))
  else (src, dst).
Proof.
  intros Hv. destruct (verticalPair_decide _ _ Hv) as [Hvb Hhb].
  unfold alignPair, overlapX, innerX, midX, withX. rewrite Hvb. cbv zeta.
  destruct (goMax (Left srcBox) (Left dstBox) <? goMin (Right srcBox) (Right dstBox)); simpl;
    repeat match goal with
           | |- context [PrimFloat.leb ?a ?b] => destruct (PrimFloat.leb a b)
           end; simpl; by rewrite Hhb.
Qed.

Lemma alignPair_horizontal srcBox dstBox src dst :
  horizontalPair src dst ->
  alignPair srcBox dstBox src dst =
  if overlapY srcBox dstBox && (innerY srcBox (midY srcBox dstBox) && innerY dstBox (midY srcBox dstBox))
  then (withY src (midY srcBox dstBox), withY dst (midY srcBox dstBox))
  else (src, dst).
Proof.
  intros Hh. destruct (horizontalPair_decide _ _ Hh) as [Hvb Hhb].
  unfold alignPair, overlapY, innerY, midY, withY. rewrite Hvb, Hhb. cbv zeta.
  destruct (goMax (Top srcBox) (Top dstBox) <? goMin (Bottom srcBox) (Bottom dstBox)); simpl;
    repeat match goal with
           | |- context [PrimFloat.leb ?a ?b] => destruct (PrimFloat.leb a b)
           end; done.
Qed.

Lemma alignLoop_lookup boxes srcs dsts srcs' dsts' i src dst :
  alignLoop boxes srcs dsts = Some (srcs', dsts') ->
  srcs !! i = Some src -> dsts !! i = Some dst ->
  exists srcBox dstBox,
    index boxes (NodeIdx src) = Some srcBox /\ index boxes (NodeIdx dst) = Some dstBox /\
    srcs' !! i = Some (alignPair srcBox dstBox src dst).1 /\
    dsts' !! i = Some (alignPair srcBox dstBox src dst).2.
Proof.
  revert dsts srcs' dsts' i. induction srcs as [|s srcs IH]; intros dsts srcs' dsts' i; [done|].
  destruct dsts as [|d dsts]; [done|]. simpl. intros H.
  apply bind_Some in H as (srcBox & Hsb & H). apply bind_Some in H as (dstBox & Hdb & H).
  apply bind_Some in H as ([rs rd] & Hrest & H).
  destruct (alignPair srcBox dstBox s d) as [s' d'] eqn:Hp. injection H as <- <-.
  destruct i as [|i]; simpl.
  - intros [= <-] [= <-]. exists srcBox, dstBox. by rewrite Hp.
  - intros Hs Hd. by eapply IH.
Qed.

(** C8, amended: for an edge with a Bottom/Top or Top/Bottom port pair whose
    boxes share a column, both ports get the x of the midpoint of the shared
    columns when that midpoint lies in the inner 10%-90% of both boxes, and
    both ports stay where they are when it does not; likewise with y for a
    Left/Right pair whose boxes share a row. *)
Theorem alignNearlyAlignedPorts_guarded boxes pa pa' i src dst :
  alignNearlyAlignedPorts boxes pa = Some pa' ->
  SrcPorts pa !! i = Some src -> DstPorts pa !! i = Some dst ->
  exists srcBox dstBox,
    index boxes (NodeIdx src) = Some srcBox /\ index boxes (NodeIdx dst) = Some dstBox /\
    (verticalPair src dst -> overlapX srcBox dstBox = true ->
     (SrcPorts pa' !! i, DstPorts pa' !! i) =
     if innerX srcBox (midX srcBox dstBox) && innerX dstBox (midX srcBox dstBox)
     then (Some (withX src (midX srcBox dstBox)), Some (withX dst (midX srcBox dstBox)))
     else (Some src, Some dst)) /\
    (horizontalPair src dst -> overlapY srcBox dstBox = true ->
     (SrcPorts pa' !! i, DstPorts pa' !! i) =
     if innerY srcBox (midY srcBox dstBox) && innerY dstBox (midY srcBox dstBox)
     then (Some (withY src (midY srcBox dstBox)), Some (withY dst (midY srcBox dstBox)))
     else (Some src, Some dst)).
Proof.
  unfold alignNearlyAlignedPorts. intros H Hs Hd.
  apply bind_Some in H as ([srcs' dsts'] & Hloop & [= <-]).
  destruct (alignLoop_lookup _ _ _ _ _ _ _ _ Hloop Hs Hd) as (srcBox & dstBox & Hsb & Hdb & Hs' & Hd').
  exists srcBox, dstBox. split; [done|]. split; [done|]. simpl. rewrite Hs', Hd'. split.
  - intros Hv Ho. rewrite (alignPair_vertical _ _ _ _ Hv), Ho. simpl. by destruct (_ && _).
  - intros Hh Ho. rewrite (alignPair_horizontal _ _ _ _ Hh), Ho. simpl. by destruct (_ && _).
Qed.

Lemma alignNearlyAlignedPorts_guarded_witness :
  alignNearlyAlignedPorts columnBoxes
    (mkPA [mkPort 0 0 DirBottom (mkPoint 50 50) true] [mkPort 1 0 DirTop (mkPoint 70 400) false])
  = Some (mkPA [mkPort 0 0 DirBottom (mkPoint 60 50) true] [mkPort 1 0 DirTop (mkPoint 60 400) false])
  /\ midX (mkRect 0 0 100 50) (mkRect 20 400 100 50) = 60.
Proof.
  assert (alignNearlyAlignedPorts columnBoxes
            (mkPA [mkPort 0 0 DirBottom (mkPoint 50 50) true]
                  [mkPort 1 0 DirTop (mkPoint 70 400) false])
          = Some (mkPA [mkPort 0 0 DirBottom (mkPoint 60 50) true]
                       [mkPort 1 0 DirTop (mkPoint 60 400) false])) as H
    by (vm_compute; reflexivity).
  split; [exact H|].
  destruct (alignNearlyAlignedPorts_guarded _ _ _ 0%nat _ _ H eq_refl eq_refl)
    as (srcBox & dstBox & Hsb & Hdb & Hv & _).
  injection Hsb as <-. injection Hdb as <-.
  specialize (Hv (or_introl (conj eq_refl eq_refl)) eq_refl).
  vm_compute in Hv. vm_compute. congruence.
Defined.

(** The port assignment of an edge between the two [shiftedBoxes]: a
    Bottom/Top pair, the boxes share the columns 95 to 100, and the ports
    stay at the middle of their own box, 95 apart; the midpoint 97.5 is
    outside the inner range of both boxes. *)
Lemma alignNearlyAlignedPorts_leaves_unaligned :
  assignPorts insertionSort shiftedBoxes shiftedEdges shiftedIndex
  = Some (mkPA [mkPort 0 0 DirBottom (mkPoint 50 50) true]
               [mkPort 1 0 DirTop (mkPoint 145 400) false]) /\
  overlapX (mkRect 0 0 100 50) (mkRect 95 400 100 50) = true /\
  midX (mkRect 0 0 100 50) (mkRect 95 400 100 50) = 97.5 /\
  alignNearlyAlignedPorts shiftedBoxes
    (mkPA [mkPort 0 0 DirBottom (mkPoint 50 50) true] [mkPort 1 0 DirTop (mkPoint 145 400) false])
  = Some (mkPA [mkPort 0 0 DirBottom (mkPoint 50 50) true]
               [mkPort 1 0 DirTop (mkPoint 145 400) false]).
Proof. repeat split; vm_compute; reflexivity. Qed.

End Alignment.

(** ** [RouteEdges]: errors and edge labels *)

Section RouteEdgesProps.

Import gosort.
Local Open Scope float_scope.

Variable sortSlice : forall A : Type, (A -> A -> bool) -> list A -> list A.
Variable findChannels : list Rect -> Rect -> list Channel.
Variable buildRoutingGraph : list Channel -> PortAssignment -> list Rect -> Rect -> RoutingGraph.
Variable nudgeRoutes : list EdgeRoute -> list Channel -> list Rect -> list (list Point).
Variable traceToShape : Store -> Edge -> list Point -> list Point.
Variable fuel : nat.

Abbreviation RouteEdges_ :=
  (RouteEdges sortSlice findChannels buildRoutingGraph nudgeRoutes traceToShape fuel).

(** The label position [RouteEdges] leaves on an edge. *)
Definition labelTarget (e : Edge) : option string :=
  if String.eqb (LabelValue e) "" then LabelPosition e else Some label.InsideMiddleCenter.

(** An edge before and after [RouteEdges]: same endpoints and label text,
    the label position is the one the label text asks for. *)
Definition relabelled (e e' : Edge) : Prop :=
  Src e' = Src e /\ Dst e' = Dst e /\ LabelValue e' = LabelValue e /\
  LabelPosition e' = labelTarget e.

(** The same, for an edge the final loop may not have reached yet. *)
Definition relabelling (e e' : Edge) : Prop :=
  Src e' = Src e /\ Dst e' = Dst e /\ LabelValue e' = LabelValue e /\
  (LabelPosition e' = LabelPosition e \/ LabelPosition e' = labelTarget e).

(** Two boxes side by side, an edge with a label and an explicit label
    position, and an edge without label text. *)
Definition twoBoxes : Store :=
  {[ 0%nat := mkObject None [] (mkPoint 0 0) 100 60;
     1%nat := mkObject None [] (mkPoint 200 0) 100 60 ]}.

Definition labelledEdges : list Edge :=
  [mkEdgeG 0 1 "calls" (Some label.OutsideTopCenter) [];
   mkEdgeG 1 0 "" (Some label.OutsideTopCenter) []].

(** Stand-ins for the stages that are parameters: no channel, a routing
    graph without nodes, no nudging, no clipping. *)
Definition noChannels (boxes : list Rect) (bbox : Rect) : list Channel := [].
Definition emptyGraph (channels : list Channel) (ports : PortAssignment) (boxes : list Rect)
    (bbox : Rect) : RoutingGraph := mkGraph [] ∅.
Definition noNudge (routes : list EdgeRoute) (channels : list Channel) (boxes : list Rect)
    : list (list Point) := [].
Definition noTrace (g : Store) (e : Edge) (pts : list Point) : list Point := pts.

Lemma endpoints_nonempty e edges : endpoints (e :: edges) <> [].
Proof.
  unfold endpoints. simpl.
  assert (forall es (acc : list ObjId * gset ObjId), acc.1 <> [] ->
            (foldl (fun (acc : list ObjId * gset ObjId) e =>
                      let '(objs, seen) := acc in
                      let '(objs, seen) :=
                        if bool_decide (Src e ∈ seen) then (objs, seen)
                        else (objs ++ [Src e], {[Src e]} ∪ seen) in
                      if bool_decide (Dst e ∈ seen) then (objs, seen)
                      else (objs ++ [Dst e], {[Dst e]} ∪ seen)) acc es).1 <> []) as H.
  { induction es as [|x es IH]; intros [objs seen] Hne; simpl; [done|].
    apply IH. simpl in Hne.
    destruct (bool_decide (Src x ∈ seen)); destruct (bool_decide (Dst x ∈ _)); simpl;
      try done; by destruct objs. }
  apply H. rewrite bool_decide_eq_false_2 by set_solver.
  by destruct (bool_decide (Dst e ∈ _)).
Qed.

(** With edges to route, the gathered object list is never empty: the
    error is a branch that no call takes. *)
Lemma collectObjects_nonempty g e edges objs :
  collectObjects g (e :: edges) = Some objs -> objs <> [].
Proof.
  unfold collectObjects. intros H. apply bind_Some in H as ([p|] & _ & H).
  - apply bind_Some in H as (po & _ & H).
    destruct (0 <? length (ChildrenArray po))%nat eqn:E; injection H as <-.
    + apply Nat.ltb_lt in E. destruct (ChildrenArray po); simpl in E; [lia|done].
    + apply endpoints_nonempty.
  - injection H as <-. apply endpoints_nonempty.
Qed.

(** C9: called with no edge, [RouteEdges] succeeds and returns the (empty)
    edge list as it is; called with edges, it returns an error exactly when
    the gathered object list is empty, and the error is the descriptive one. *)
Theorem RouteEdges_error_iff (g : Store) :
  RouteEdges_ g [] = Some (Ok []) /\
  forall e edges out,
    RouteEdges_ g (e :: edges) = Some out ->
    ((exists msg, out = Err msg) <-> collectObjects g (e :: edges) = Some []) /\
    (forall msg, out = Err msg -> msg = "grid router: no objects found"%string).
Proof.
  split; [done|]. intros e edges out H. unfold RouteEdges in H.
  apply bind_Some in H as (objs & Hobjs & H). destruct objs as [|o objs].
  - injection H as <-. split; [split; eauto|]. by intros msg [= <-].
  - apply bind_Some in H as (boxes & _ & H). apply bind_Some in H as (ports & _ & H).
    apply bind_Some in H as (routes & _ & H). apply fmap_Some in H as (es & _ & ->).
    split; [|done]. split; [by intros [msg ?]|]. rewrite Hobjs. done.
Qed.

Lemma setRouteAt_Some routes i r routes' :
  setRouteAt routes i r = Some routes' ->
  (0 <= i < Z.of_nat (length routes))%Z /\ routes' = <[Z.to_nat i := r]> routes.
Proof.
  unfold setRouteAt. destruct (_ || _) eqn:E; [done|]. intros [= <-].
  apply orb_false_iff in E as [E1%Z.ltb_ge E2%Z.leb_gt]. done.
Qed.

Lemma routeOne_routes ports st i st' :
  routeOne fuel ports st i = Some st' ->
  (0 <= i < Z.of_nat (length (rs_routes st)))%Z /\
  exists pts, rs_routes st' = <[Z.to_nat i := mkRoute i pts]> (rs_routes st).
Proof.
  unfold routeOne. intros H.
  apply bind_Some in H as (srcPort & _ & H). apply bind_Some in H as (dstPort & _ & H).
  cbv zeta in H. destruct (_ || _).
  - apply bind_Some in H as (routes & Hr%setRouteAt_Some & [= <-]).
    destruct Hr as [? ->]. eauto.
  - apply bind_Some in H as (rg1 & _ & H). apply bind_Some in H as (path & _ & H).
    apply bind_Some in H as (rg2 & _ & H). destruct path as [|n path].
    + apply bind_Some in H as (routes & Hr%setRouteAt_Some & [= <-]).
      destruct Hr as [? ->]. eauto.
    + apply bind_Some in H as (inner & _ & H).
      apply bind_Some in H as (routes & Hr%setRouteAt_Some & [= <-]).
      destruct Hr as [? ->]. eauto.
Qed.

(** Every edge index the loop of [routeAllEdges] has gone through owns a
    route. *)
Lemma routeLoop_covers ports order st st' :
  foldM (routeOne fuel ports) st order = Some st' ->
  length (rs_routes st') = length (rs_routes st) /\
  (forall i, (0 <= i)%Z ->
     (exists r, rs_routes st !! Z.to_nat i = Some r /\ EdgeIdx r = i) \/ i ∈ order ->
     exists r, rs_routes st' !! Z.to_nat i = Some r /\ EdgeIdx r = i).
Proof.
  revert st. induction order as [|j order IH]; intros st H; simpl in H.
  - injection H as <-. split; [done|]. intros i _ [?|?%elem_of_nil]; done.
  - apply bind_Some in H as (st1 & H1 & H).
    apply routeOne_routes in H1 as [Hj [pts Hst1]].
    destruct (IH _ H) as [Hlen Hcov]. rewrite Hlen, Hst1, length_insert. split; [done|].
    intros i Hi Hcase. apply Hcov; [done|].
    destruct (decide (i = j)) as [->|Hne].
    + left. exists (mkRoute j pts). rewrite Hst1. split; [|done].
      apply list_lookup_insert_eq. lia.
    + destruct Hcase as [(r & Hr & Hidx)|Hin].
      * left. exists r. rewrite Hst1. split; [|done].
        rewrite list_lookup_insert_ne by lia. done.
      * right. apply elem_of_cons in Hin as [?|?]; done.
Qed.

Lemma prioritiesOf_idx ports edges prios :
  prioritiesOf ports edges = Some prios -> idx <$> prios = Z.of_nat <$> seq 0 (length edges).
Proof.
  intros H. destruct (prioritiesOf_describes _ _ _ H) as [Hlen Hd].
  apply list_eq. intros i. rewrite !list_lookup_fmap.
  destruct (prios !! i) as [p|] eqn:Hp; simpl.
  - destruct (Hd i p Hp) as (_ & _ & _ & _ & -> & _).
    apply lookup_lt_Some in Hp. rewrite lookup_seq_lt by lia. done.
  - apply lookup_ge_None in Hp. rewrite lookup_seq_ge by lia. done.
Qed.

Lemma routeAllEdges_covers rg ports edges routes :
  sortContract sortSlice ->
  routeAllEdges sortSlice fuel rg ports edges = Some routes ->
  length routes = length edges /\
  forall k, (k < length edges)%nat ->
    exists r, routes !! k = Some r /\ EdgeIdx r = Z.of_nat k.
Proof.
  intros Hsort H. unfold routeAllEdges in H.
  apply bind_Some in H as (order & Horder & H). apply bind_Some in H as (st & Hloop & [= <-]).
  apply routeLoop_covers in Hloop as [Hlen Hcov]. simpl in Hlen.
  rewrite length_replicate in Hlen. split; [done|]. intros k Hk.
  destruct (Hcov (Z.of_nat k)) as (r & Hr & Hidx); [lia| |].
  - right. unfold edgeRoutingOrder in Horder.
    apply bind_Some in Horder as (prios & Hprios & [= <-]).
    destruct (Hsort _ prioLess prios) as [Hperm _]. rewrite <- Hperm.
    rewrite (prioritiesOf_idx _ _ _ Hprios).
    apply list_elem_of_fmap. exists k. split; [done|]. apply elem_of_seq. lia.
  - rewrite Nat2Z.id in Hr. eauto.
Qed.

Lemma relabelling_target e0 e : relabelling e0 e -> labelTarget e = labelTarget e0.
Proof.
  intros (_ & _ & Hv & Hp). unfold labelTarget. rewrite Hv.
  destruct (String.eqb (LabelValue e0) "") eqn:E; [|done].
  destruct Hp as [->| ->]; [done|]. unfold labelTarget. by rewrite E.
Qed.

Lemma applyRoute_edges g es route es' :
  applyRoute traceToShape g es route = Some es' ->
  exists e r,
    index es (EdgeIdx route) = Some e /\
    es' = <[Z.to_nat (EdgeIdx route) :=
              setLabelPosition (setRoute e r) (labelTarget e)]> es.
Proof.
  unfold applyRoute. intros H. apply bind_Some in H as (e & He & H).
  apply bind_Some in H as (r & _ & [= <-]). exists e, r. split; [done|].
  f_equal. unfold labelTarget. simpl.
  destruct (String.eqb (LabelValue e) ""); simpl; [|done]. by destruct e.
Qed.

Lemma applyRoutes_relabel g routes es0 es es' :
  Forall2 relabelling es0 es ->
  foldM (applyRoute traceToShape g) es routes = Some es' ->
  Forall2 relabelling es0 es' /\
  forall k e0 e',
    es0 !! k = Some e0 -> es' !! k = Some e' ->
    (exists e, es !! k = Some e /\ LabelPosition e = labelTarget e0) \/
    (exists route, route ∈ routes /\ EdgeIdx route = Z.of_nat k) ->
    LabelPosition e' = labelTarget e0.
Proof.
  revert es. induction routes as [|route routes IH]; intros es Hrel H; simpl in H.
  - injection H as <-. split; [done|].
    intros k e0 e' H0 H' [(e & He & Hl)|(route & Hr%elem_of_nil & _)]; [|done].
    by simplify_eq.
  - apply bind_Some in H as (es1 & H1 & H).
    apply applyRoute_edges in H1 as (e & r & He & ->).
    apply index_Some in He as [Hidx He].
    destruct (Forall2_lookup_r _ _ _ _ _ Hrel He) as (e0r & H0r & (Hs & Hd & Hv & Hp)).
    assert (Forall2 relabelling es0
              (<[Z.to_nat (EdgeIdx route) := setLabelPosition (setRoute e r) (labelTarget e)]> es))
      as Hrel1.
    { rewrite <- (list_insert_id es0 _ _ H0r). apply Forall2_insert; [done|].
      unfold relabelling. simpl. repeat split; try done.
      right. by apply relabelling_target. }
    destruct (IH _ Hrel1 H) as [Hfin Hpos]. split; [done|].
    intros k e0 e' H0 H' Hcase. apply (Hpos k e0 e' H0 H').
    destruct (decide (k = Z.to_nat (EdgeIdx route))) as [->|Hne].
    + left. eexists. split.
      * apply list_lookup_insert_eq. by eapply lookup_lt_Some.
      * simpl. simplify_eq. by apply relabelling_target.
    + destruct Hcase as [(e1 & He1 & Hl)|(rt & Hrt & Hk)].
      * left. exists e1. by rewrite list_lookup_insert_ne.
      * right. exists rt. split; [|done].
        apply elem_of_cons in Hrt as [->|?]; [|done]. lia.
Qed.

(** C10: after a successful call every edge has its endpoints and label text
    unchanged; an edge with label text has the label position
    inside-middle-center, whatever it was before, and an edge without label
    text keeps its label position. *)
Theorem RouteEdges_label_positions (g : Store) (edges edges' : list Edge) :
  sortContract sortSlice ->
  RouteEdges_ g edges = Some (Ok edges') ->
  Forall2 relabelled edges edges'.
Proof.
  intros Hsort H. destruct edges as [|e edges].
  { injection H as <-. constructor. }
  unfold RouteEdges in H.
  apply bind_Some in H as (objs & _ & H). destruct objs as [|o objs]; [done|].
  apply bind_Some in H as (boxes & _ & H). apply bind_Some in H as (ports & _ & H).
  apply bind_Some in H as (routes & Hroutes & H). apply fmap_Some in H as (es & Hes & [= <-]).
  destruct (routeAllEdges_covers _ _ _ _ Hsort Hroutes) as [Hlen Hcov].
  assert (Forall2 relabelling (e :: edges) (e :: edges)) as Hrefl.
  { apply Forall_Forall2_diag, Forall_forall. intros x _. unfold relabelling. tauto. }
  destruct (applyRoutes_relabel _ _ _ _ _ Hrefl Hes) as [Hfin Hpos].
  apply Forall2_same_length_lookup. split; [by eapply Forall2_length|].
  intros k e0 e' H0 H'.
  destruct (Forall2_lookup_lr _ _ _ _ _ _ Hfin H0 H') as (Hs & Hd & Hv & _).
  repeat split; try done. apply (Hpos k e0 e' H0 H'). right.
  destruct (Hcov k) as (r & Hr & Hidx); [by eapply lookup_lt_Some|].
  eexists. split.
  - apply list_elem_of_lookup. exists k. rewrite list_lookup_imap, Hr. done.
  - exact Hidx.
Qed.

End RouteEdgesProps.

Lemma RouteEdges_label_positions_witness :
  RouteEdges gosort.insertionSort noChannels emptyGraph noNudge noTrace 10 twoBoxes labelledEdges
  = Some (Ok [mkEdgeG 0 1 "calls" (Some label.InsideMiddleCenter)
                [mkPoint 100 30; mkPoint 200 30];
              mkEdgeG 1 0 "" (Some label.OutsideTopCenter)
                [mkPoint 200 30; mkPoint 100 30]])
  /\ Forall2 relabelled labelledEdges
       [mkEdgeG 0 1 "calls" (Some label.InsideMiddleCenter) [mkPoint 100 30; mkPoint 200 30];
        mkEdgeG 1 0 "" (Some label.OutsideTopCenter) [mkPoint 200 30; mkPoint 100 30]].
Proof.
  assert (RouteEdges gosort.insertionSort noChannels emptyGraph noNudge noTrace 10
            twoBoxes labelledEdges
          = Some (Ok [mkEdgeG 0 1 "calls" (Some label.InsideMiddleCenter)
                        [mkPoint 100 30; mkPoint 200 30];
                      mkEdgeG 1 0 "" (Some label.OutsideTopCenter)
                        [mkPoint 200 30; mkPoint 100 30]])) as H
    by (vm_compute; reflexivity).
  split; [exact H|].
  exact (RouteEdges_label_positions _ _ _ _ _ _ _ _ _ insertionSort_contract H).
Defined.

Example RouteEdges_no_edges :
  RouteEdges gosort.insertionSort noChannels emptyGraph noNudge noTrace 10 twoBoxes []
  = Some (Ok []).
Proof. reflexivity. Qed.

(** ** Crossing penalties *)

Section Penalties.

Local Open Scope float_scope.

Definition bumpEdge (delta : float -> float) (e : RoutingGraphEdge) : RoutingGraphEdge :=
  setWeight e (delta (Weight e)).

(** The edge [rg.Adj[n][i]] of a cell [(n, i)]. *)
Definition cellAt (adj : gmap Z (list RoutingGraphEdge)) (c : Z * nat) : option RoutingGraphEdge :=
  adj !! c.1 ≫= (fun l => l !! c.2).

(** What the passes read of the adjacency lists besides the weights. *)
Definition shape (l : list RoutingGraphEdge) : list (Z * Z) := (fun e => (From e, To e)) <$> l.
Definition skel (adj : gmap Z (list RoutingGraphEdge)) : gmap Z (list (Z * Z)) := shape <$> adj.

(** The cells whose weight one run of the loop body changes: the cell itself
    and the first reverse edge, when the edge of the cell crosses a routed
    segment. *)
Definition targets (nodes : list RoutingGraphNode) (routed : list routedSeg)
    (adj : gmap Z (list RoutingGraphEdge)) (c : Z * nat) : option (list (Z * nat)) :=
  edge ← cellAt adj c;
  if negb (From edge =? c.1)%Z then Some []
  else
    fromN ← index nodes (From edge);
    toN ← index nodes (To edge);
    cross ← crossesRouted nodes (NPos fromN) (NPos toN) routed;
    if (cross : bool) then
      match findRev (default [] (adj !! To edge)) (From edge) (To edge) with
      | Some ri => Some [c; (To edge, ri)]
      | None => Some [c]
      end
    else Some [].

Definition bumpAll (delta : float -> float) (T : list (Z * nat))
    (adj : gmap Z (list RoutingGraphEdge)) : gmap Z (list RoutingGraphEdge) :=
  foldl (fun a c => bump delta a c.1 c.2) adj T.

(** The cells a pass over the keys [keys] penalises, each as often as it is
    penalised. *)
Definition penalisedCells (keys : list Z) (rg : RoutingGraph) (routed : list routedSeg)
    : option (list (Z * nat)) :=
  match routed with
  | [] => Some []
  | _ => @concat _ <$> mapM (targets (Nodes rg) routed (Adj rg)) (cellsOf (Adj rg) keys)
  end.

(** How often the cell [c] occurs in [T]. *)
Definition hits (c : Z * nat) (T : list (Z * nat)) : nat := length (filter (fun t => t = c) T).

(** A horizontal edge between nodes 0 and 1, crossed by the vertical edge
    between nodes 2 and 3; [width] is the length of the horizontal edge. *)
Definition crossGraph (width : float) : RoutingGraph :=
  mkGraph [mkNode 0 (mkPoint 0 0); mkNode 1 (mkPoint width 0);
           mkNode 2 (mkPoint 5 (-5)); mkNode 3 (mkPoint 5 5)]
    (list_to_map
       [(0%Z, [mkEdge 0 1 width Horizontal]); (1%Z, [mkEdge 1 0 width Horizontal]);
        (2%Z, [mkEdge 2 3 10 Vertical]); (3%Z, [mkEdge 3 2 10 Vertical])]).

Lemma shape_alter delta i l : shape (alter (bumpEdge delta) i l) = shape l.
Proof.
  unfold shape. apply list_eq. intros j. rewrite !list_lookup_fmap.
  destruct (decide (i = j)) as [->|Hne].
  - rewrite list_lookup_alter_eq. by destruct (l !! j).
  - by rewrite list_lookup_alter_ne.
Qed.

Lemma skel_bump delta adj n i : skel (bump delta adj n i) = skel adj.
Proof.
  unfold skel, bump. apply map_eq. intros m. rewrite !lookup_fmap.
  destruct (decide (n = m)) as [->|Hne].
  - rewrite lookup_alter_eq. destruct (adj !! m); simpl; [|done].
    f_equal. apply shape_alter.
  - by rewrite lookup_alter_ne.
Qed.

Lemma skel_bumpAll delta T adj : skel (bumpAll delta T adj) = skel adj.
Proof.
  revert adj. induction T as [|t T IH]; intros adj; [done|].
  change (bumpAll delta (t :: T) adj) with (bumpAll delta T (bump delta adj t.1 t.2)).
  by rewrite IH, skel_bump.
Qed.

Lemma skel_lookup adj adj' n :
  skel adj = skel adj' -> shape (default [] (adj !! n)) = shape (default [] (adj' !! n)).
Proof.
  intros H. assert (skel adj !! n = skel adj' !! n) as Hn by (by rewrite H).
  unfold skel in Hn. rewrite !lookup_fmap in Hn.
  destruct (adj !! n), (adj' !! n); simpl in *; congruence.
Qed.

Lemma skel_dom adj adj' : skel adj = skel adj' -> dom adj = dom adj'.
Proof. intros H. rewrite <- (dom_fmap_L shape adj), <- (dom_fmap_L shape adj'). by f_equal. Qed.

Lemma skel_cellAt adj adj' c :
  skel adj = skel adj' ->
  (fun e => (From e, To e)) <$> cellAt adj c = (fun e => (From e, To e)) <$> cellAt adj' c.
Proof.
  intros H. assert (skel adj !! c.1 = skel adj' !! c.1) as Hn by (by rewrite H).
  unfold skel in Hn. rewrite !lookup_fmap in Hn. unfold cellAt.
  destruct (adj !! c.1) as [l|], (adj' !! c.1) as [l'|]; simpl in *; try done.
  injection Hn as Hn. unfold shape in Hn.
  assert (((fun e => (From e, To e)) <$> l) !! c.2 = ((fun e => (From e, To e)) <$> l') !! c.2)
    as Hc by (by rewrite Hn).
  by rewrite !list_lookup_fmap in Hc.
Qed.

Lemma findRev_shape l l' a b : shape l = shape l' -> findRev l a b = findRev l' a b.
Proof.
  revert l'. induction l as [|e l IH]; intros [|e' l'] H; try done.
  injection H as Hf Ht Hl. simpl. rewrite Hf, Ht. by rewrite (IH l').
Qed.

Lemma cellsOf_skel adj adj' keys : skel adj = skel adj' -> cellsOf adj keys = cellsOf adj' keys.
Proof.
  intros H. unfold cellsOf. apply list_bind_ext; [|done]. intros n.
  assert (length (default [] (adj !! n)) = length (default [] (adj' !! n))) as ->; [|done].
  rewrite <- (length_fmap (fun e => (From e, To e)) (default [] (adj !! n))).
  rewrite <- (length_fmap (fun e => (From e, To e)) (default [] (adj' !! n))).
  f_equal. by apply skel_lookup.
Qed.

Lemma targets_skel nodes routed adj adj' c :
  skel adj = skel adj' -> targets nodes routed adj c = targets nodes routed adj' c.
Proof.
  intros H. unfold targets. pose proof (skel_cellAt _ _ c H) as Hc.
  destruct (cellAt adj c) as [e|], (cellAt adj' c) as [e'|]; simpl in *; try done.
  injection Hc as Hf Ht. rewrite Hf, Ht.
  by rewrite (findRev_shape _ _ _ _ (skel_lookup _ _ (To e') H)).
Qed.

Lemma penaliseCell_targets delta nodes routed adj n ei :
  penaliseCell delta nodes routed adj n ei
  = (fun T => bumpAll delta T adj) <$> targets nodes routed adj (n, ei).
Proof.
  unfold penaliseCell, targets, cellAt. simpl.
  destruct (adj !! n ≫= _) as [edge|]; simpl; [|done].
  destruct (negb _); [done|].
  destruct (index nodes (From edge)) as [fromN|]; simpl; [|done].
  destruct (index nodes (To edge)) as [toN|]; simpl; [|done].
  destruct (crossesRouted _ _ _ _) as [[|]|]; simpl; [|done|done].
  rewrite (findRev_shape _ (default [] (adj !! To edge)) _ _)
    by (apply skel_lookup, skel_bump).
  by destruct (findRev _ _ _).
Qed.

Lemma bumpAll_app delta T1 T2 adj :
  bumpAll delta (T1 ++ T2) adj = bumpAll delta T2 (bumpAll delta T1 adj).
Proof. apply foldl_app. Qed.

Lemma penaliseCells_targets delta nodes routed adj0 adj cells :
  skel adj = skel adj0 ->
  penaliseCells delta nodes routed adj cells
  = (fun T => bumpAll delta T adj) <$> (@concat _ <$> mapM (targets nodes routed adj0) cells).
Proof.
  revert adj. induction cells as [|c cells IH]; intros adj Hs; [done|].
  unfold penaliseCells in *. simpl.
  destruct c as [n ei]. simpl. rewrite penaliseCell_targets.
  rewrite (targets_skel _ _ _ _ _ Hs).
  destruct (targets nodes routed adj0 (n, ei)) as [T1|]; simpl; [|done].
  rewrite IH by (by rewrite skel_bumpAll).
  destruct (mapM _ cells) as [Ts|]; simpl; [|done].
  by rewrite bumpAll_app.
Qed.

Lemma cellAt_bump delta adj n i c :
  cellAt (bump delta adj n i) c
  = (if decide ((n, i) = c) then bumpEdge delta else id) <$> cellAt adj c.
Proof.
  unfold cellAt, bump. destruct c as [m j]. simpl.
  destruct (decide (n = m)) as [->|Hn].
  - rewrite lookup_alter_eq. destruct (adj !! m) as [l|]; simpl; [|done].
    destruct (decide (i = j)) as [->|Hi].
    + rewrite list_lookup_alter_eq. by rewrite decide_True.
    + rewrite list_lookup_alter_ne by done.
      rewrite decide_False by congruence. by destruct (l !! j).
  - rewrite lookup_alter_ne by done. rewrite decide_False by congruence.
    by destruct (adj !! m ≫= _).
Qed.

Lemma cellAt_bumpAll delta T adj c :
  cellAt (bumpAll delta T adj) c = Nat.iter (hits c T) (bumpEdge delta) <$> cellAt adj c.
Proof.
  revert adj. induction T as [|t T IH]; intros adj.
  - simpl. by destruct (cellAt adj c).
  - change (bumpAll delta (t :: T) adj) with (bumpAll delta T (bump delta adj t.1 t.2)).
    rewrite IH, cellAt_bump. unfold hits. rewrite filter_cons.
    destruct t as [n i]. simpl.
    destruct (decide ((n, i) = c)) as [Heq|Hne]; destruct (cellAt adj c) as [e|]; simpl;
      try done.
    f_equal. symmetry. apply (Nat.iter_succ_r _ (bumpEdge delta) e).
Qed.

Lemma iter_bumpEdge delta k e :
  Nat.iter k (bumpEdge delta) e = setWeight e (Nat.iter k delta (Weight e)).
Proof.
  induction k as [|k IH]; simpl; [by destruct e|]. by rewrite IH.
Qed.

Lemma mapM_Permutation {A B} (f : A -> option B) l l' k :
  Permutation l l' -> mapM f l = Some k -> exists k', mapM f l' = Some k' /\ Permutation k k'.
Proof.
  intros Hp. revert k. induction Hp as [|x l l' Hp IH|x y l|l1 l2 l3 H12 IH12 H23 IH23]; intros k Hk.
  - eauto.
  - simpl in Hk. apply bind_Some in Hk as (b & Hb & Hk).
    apply bind_Some in Hk as (k0 & Hk0 & [= <-]).
    destruct (IH _ Hk0) as (k' & Hk' & Hperm). exists (b :: k'). simpl.
    rewrite Hb, Hk'. simpl. split; [done|]. by constructor.
  - simpl in Hk. apply bind_Some in Hk as (by_ & Hy & Hk).
    apply bind_Some in Hk as (k1 & Hk1 & [= <-]).
    apply bind_Some in Hk1 as (bx & Hx & Hk1). apply bind_Some in Hk1 as (k0 & Hk0 & [= <-]).
    exists (bx :: by_ :: k0). simpl. rewrite Hx, Hy, Hk0. simpl. split; [done|]. apply perm_swap.
  - destruct (IH12 _ Hk) as (k2 & Hk2 & Hp2). destruct (IH23 _ Hk2) as (k3 & Hk3 & Hp3).
    exists k3. split; [done|]. by etrans.
Qed.

Lemma concat_Permutation {A} (k k' : list (list A)) :
  Permutation k k' -> Permutation (concat k) (concat k').
Proof.
  induction 1 as [|x l l' Hp IH|x y l|l1 l2 l3 H12 IH12 H23 IH23]; simpl.
  - done.
  - by rewrite IH.
  - rewrite !app_assoc. by rewrite (Permutation_app_comm x y).
  - by etrans.
Qed.

Lemma cellsOf_Permutation adj keys keys' :
  Permutation keys keys' -> Permutation (cellsOf adj keys) (cellsOf adj keys').
Proof.
  unfold cellsOf. induction 1 as [|x l l' Hp IH|x y l|l1 l2 l3 H12 IH12 H23 IH23]; simpl.
  - done.
  - by rewrite IH.
  - rewrite !app_assoc. apply Permutation_app_tail, Permutation_app_comm.
  - by etrans.
Qed.

Lemma hits_Permutation c T T' : Permutation T T' -> hits c T = hits c T'.
Proof. intros Hp. unfold hits. by rewrite Hp. Qed.

Lemma penalise_targets delta keys rg routed :
  penalise delta keys rg routed
  = (fun T => mkGraph (Nodes rg) (bumpAll delta T (Adj rg))) <$> penalisedCells keys rg routed.
Proof.
  unfold penalise, penalisedCells. destruct routed as [|rs routed]; [by destruct rg|].
  rewrite (penaliseCells_targets _ _ _ (Adj rg)) by done.
  by destruct (mapM _ _).
Qed.

Lemma penalisedCells_Permutation keys keys' rg rg' routed T :
  Permutation keys keys' -> Nodes rg' = Nodes rg -> skel (Adj rg') = skel (Adj rg) ->
  penalisedCells keys rg routed = Some T ->
  exists T', penalisedCells keys' rg' routed = Some T' /\ Permutation T T'.
Proof.
  intros Hp Hn Hs. unfold penalisedCells. destruct routed as [|rs routed]; [eauto|].
  intros H. apply fmap_Some in H as (Ts & HTs & ->).
  rewrite Hn, (cellsOf_skel _ _ _ Hs).
  destruct (mapM_Permutation _ _ _ _ (cellsOf_Permutation (Adj rg) _ _ Hp) HTs)
    as (Ts' & HTs' & Hperm).
  exists (concat Ts'). split; [|by apply concat_Permutation].
  rewrite (mapM_ext _ (targets (Nodes rg) (rs :: routed) (Adj rg)))
    by (intros c; by apply targets_skel).
  by rewrite HTs'.
Qed.

(** C3, amended: when the add pass succeeds, the remove pass over the same
    keys (in any order) succeeds too; the graph keeps its nodes, its keys
    and the endpoints and orientation of every edge, and the weight of every
    cell has had the penalty added and then subtracted as often as the cell
    was penalised.  A cell that no crossing touches keeps its weight; for
    the others the weight is restored up to the rounding of these float64
    additions and subtractions. *)
Theorem crossing_penalties_add_remove keys keys' rg routed rg1 :
  Permutation keys keys' ->
  addCrossingPenaltiesIn keys rg routed = Some rg1 ->
  exists T rg2,
    penalisedCells keys rg routed = Some T /\
    removeCrossingPenaltiesIn keys' rg1 routed = Some rg2 /\
    Nodes rg2 = Nodes rg /\ dom (Adj rg2) = dom (Adj rg) /\
    forall c,
      cellAt (Adj rg2) c
      = (fun e => setWeight e
                    (Nat.iter (hits c T) (fun w => w - crossingPenalty)
                       (Nat.iter (hits c T) (fun w => w + crossingPenalty) (Weight e))))
        <$> cellAt (Adj rg) c.
Proof.
  intros Hp Hadd. unfold addCrossingPenaltiesIn, removeCrossingPenaltiesIn in *.
  rewrite penalise_targets in Hadd. apply fmap_Some in Hadd as (T & HT & ->).
  set (rg1 := mkGraph (Nodes rg) (bumpAll _ T (Adj rg))).
  destruct (penalisedCells_Permutation keys keys' rg rg1 routed T Hp eq_refl
              (skel_bumpAll _ _ _) HT) as (T' & HT' & HTT').
  exists T, (mkGraph (Nodes rg1) (bumpAll (fun w => w - crossingPenalty) T' (Adj rg1))).
  split; [done|]. split; [by rewrite penalise_targets, HT'|]. split; [done|]. split.
  - simpl. apply skel_dom. by rewrite !skel_bumpAll.
  - intros c. simpl. rewrite !cellAt_bumpAll, <- (hits_Permutation c _ _ HTT').
    destruct (cellAt (Adj rg) c) as [e|]; simpl; [|done].
    by rewrite !iter_bumpEdge.
Qed.

Lemma crossing_penalties_add_remove_witness :
  addCrossingPenaltiesIn [0; 1; 2; 3]%Z (crossGraph 10) [mkSeg 2 3]
  = Some (mkGraph (Nodes (crossGraph 10))
            (list_to_map
               [(0%Z, [mkEdge 0 1 1010 Horizontal]); (1%Z, [mkEdge 1 0 1010 Horizontal]);
                (2%Z, [mkEdge 2 3 10 Vertical]); (3%Z, [mkEdge 3 2 10 Vertical])]))
  /\ exists T rg2,
       penalisedCells [0; 1; 2; 3]%Z (crossGraph 10) [mkSeg 2 3] = Some T /\
       removeCrossingPenaltiesIn [3; 2; 1; 0]%Z
         (mkGraph (Nodes (crossGraph 10))
            (list_to_map
               [(0%Z, [mkEdge 0 1 1010 Horizontal]); (1%Z, [mkEdge 1 0 1010 Horizontal]);
                (2%Z, [mkEdge 2 3 10 Vertical]); (3%Z, [mkEdge 3 2 10 Vertical])]))
         [mkSeg 2 3] = Some rg2 /\
       Nodes rg2 = Nodes (crossGraph 10) /\ dom (Adj rg2) = dom (Adj (crossGraph 10)) /\
       forall c,
         cellAt (Adj rg2) c
         = (fun e => setWeight e
                       (Nat.iter (hits c T) (fun w => w - crossingPenalty)
                          (Nat.iter (hits c T) (fun w => w + crossingPenalty) (Weight e))))
           <$> cellAt (Adj (crossGraph 10)) c.
Proof.
  assert (addCrossingPenaltiesIn [0; 1; 2; 3]%Z (crossGraph 10) [mkSeg 2 3]
          = Some (mkGraph (Nodes (crossGraph 10))
                    (list_to_map
                       [(0%Z, [mkEdge 0 1 1010 Horizontal]); (1%Z, [mkEdge 1 0 1010 Horizontal]);
                        (2%Z, [mkEdge 2 3 10 Vertical]); (3%Z, [mkEdge 3 2 10 Vertical])])))
    as H by (vm_compute; reflexivity).
  split; [exact H|].
  refine (crossing_penalties_add_remove [0; 1; 2; 3]%Z [3; 2; 1; 0]%Z _ _ _ _ H).
  change [3; 2; 1; 0]%Z with (rev [0; 1; 2; 3]%Z). apply Permutation_rev.
Defined.

(** The horizontal edge of length 10.1 is crossed by the routed segment:
    after the two passes its weight is 10.100000000000023. *)
Lemma crossing_penalties_not_restored :
  exists rg1 rg2,
    addCrossingPenalties (crossGraph 10.1) [mkSeg 2 3] = Some rg1 /\
    removeCrossingPenalties rg1 [mkSeg 2 3] = Some rg2 /\
    Weight <$> cellAt (Adj (crossGraph 10.1)) (0%Z, 0%nat) = Some 10.1 /\
    Weight <$> cellAt (Adj rg1) (0%Z, 0%nat) = Some 1010.1 /\
    Weight <$> cellAt (Adj rg2) (0%Z, 0%nat) = Some 10.100000000000023 /\
    Weight <$> cellAt (Adj rg2) (0%Z, 0%nat) <> Weight <$> cellAt (Adj (crossGraph 10.1)) (0%Z, 0%nat).
Proof.
  eexists _, _. split; [vm_compute; reflexivity|]. split; [vm_compute; reflexivity|].
  repeat split; try (vm_compute; reflexivity). vm_compute. intros [=].
Qed.

End Penalties.

(** ** Grid placement of the standalone router *)

Section GridPlacement.

Import d2wueortho.

(** The adjacency lists [gridPlacement] builds, after deduplication. *)
Definition adjOf (objects : list ObjId) (edges : list Edge) : list (list nat) :=
  let objIndex : gmap ObjId nat :=
    foldl (fun m io => <[io.2 := io.1]> m) ∅ (imap (fun i o => (i, o)) objects) in
  dedupeAdj <$> (buildAdj (length objects) objIndex edges).1.

Definition outgoingOf (objects : list ObjId) (edges : list Edge) : gset (nat * nat) :=
  let objIndex : gmap ObjId nat :=
    foldl (fun m io => <[io.2 := io.1]> m) ∅ (imap (fun i o => (i, o)) objects) in
  (buildAdj (length objects) objIndex edges).2.

(** The normalisation that ends [gridPlacement]. *)
Definition normalize (n : nat) (pl : gmap nat gridCell) : gridInfo :=
  let minRow := minOver row pl in
  let minCol := minOver col pl in
  let norm i := let c := cellOf pl i in mkCell (row c - minRow) (col c - minCol) in
  mkInfo (foldl (fun m i => <[i := norm i]> m) ∅ (seq 0 n))
         (foldl (fun m i => <[norm i := i]> m) ∅ (seq 0 n)).

(** Manhattan distance of two cells. *)
Definition dist1 (a b : gridCell) : Z := Z.abs (row a - row b) + Z.abs (col a - col b).

(** The cells [findBestCell] can answer around the origin. *)
Definition nearOrigin (c : gridCell) : Prop :=
  (Z.abs (row c) <= 20 /\ Z.abs (col c) <= 20) \/ c = mkCell 0 100.

(** The cells within five steps of those. *)
Definition reach : list gridCell :=
  (r ← seqZ (-25) 51; c ← seqZ (-25) 51; [mkCell r c]) ++
  (r ← seqZ (-5) 11; c ← seqZ 95 11; [mkCell r c]).

Definition starObjects (k : nat) : list ObjId := seq 0 (S k).
Definition starEdges (k : nat) : list Edge := (fun i => mkEdgeG 0 i "" None []) <$> seq 1 k.

Lemma gridPlacement_unfold sortSlice objects edges dir :
  objects <> [] ->
  gridPlacement sortSlice objects edges dir =
    let n := length objects in
    let adj := adjOf objects edges in
    let degree := length <$> adj in
    let start := pickStart degree in
    st1 ← bfsLoop sortSlice n adj degree (outgoingOf objects edges) (bfsDirs dir)
                  (Z.max 2 (ceilSqrt (Z.of_nat n)))
                  (mkBfs {[start := mkCell 0 0]} {[mkCell 0 0]} {[start]} [start]);
    let st2 := foldl placeDisconnected st1 (seq 0 n) in
    Some (normalize n (localImprove (b_placement st2) (b_occupied st2) adj n 5).1).
Proof.
  intros Hne. destruct objects as [|o objects]; [done|].
  unfold gridPlacement, adjOf, outgoingOf, normalize.
  destruct (buildAdj _ _ _) as [adj0 outgoing].
  cbv zeta. cbn [fst snd].
  destruct (bfsLoop _ _ _ _ _ _ _ _) as [st1|]; [|reflexivity].
  cbn [mbind option_bind].
  destruct (localImprove _ _ _ _ _) as [pl occ]. reflexivity.
Qed.

(** *** The range of [findBestCell] *)

Lemma abs_Zabs x : abs x = Z.abs x.
Proof. unfold abs. destruct (Z.ltb_spec x 0); lia. Qed.

Lemma firstSome_Some {A B} (f : A -> option B) l b :
  firstSome f l = Some b -> exists a, a ∈ l /\ f a = Some b.
Proof.
  induction l as [|a l IH]; simpl; [done|].
  destruct (f a) eqn:E.
  - intros [= ->]. exists a. split; [left|done].
  - intros H. destruct (IH H) as (a' & ? & ?). exists a'. split; [by right|done].
Qed.

Lemma scanRing_range center ok radius c :
  scanRing center ok radius = Some c ->
  Z.abs (row c - row center) <= radius /\ Z.abs (col c - col center) <= radius.
Proof.
  unfold scanRing. intros H.
  apply firstSome_Some in H as (dr & Hdr & H).
  apply firstSome_Some in H as (dc & Hdc & H).
  apply elem_of_seqZ in Hdr. apply elem_of_seqZ in Hdc.
  destruct (_ && _); [done|].
  destruct (ok _); [|done]. injection H as <-. simpl. lia.
Qed.

Lemma orElse_ind {A} (P : A -> Prop) (a : option A) (rest : A) :
  (forall c, a = Some c -> P c) -> P rest ->
  P (match a with Some c => c | None => rest end).
Proof. destruct a; auto. Qed.

Lemma findBestCell_range center occ dirs maxCols :
  (forall d, d ∈ dirs -> Z.abs (row d) <= 20 /\ Z.abs (col d) <= 20) ->
  let c := findBestCell center occ dirs maxCols in
  (Z.abs (row c - row center) <= 20 /\ Z.abs (col c - col center) <= 20) \/
  c = mkCell (row center) (col center + 100).
Proof.
  intros Hd. cbv zeta.
  set (P := fun c : gridCell =>
    (Z.abs (row c - row center) <= 20 /\ Z.abs (col c - col center) <= 20) \/
    c = mkCell (row center) (col center + 100)).
  change (P (findBestCell center occ dirs maxCols)).
  unfold findBestCell. cbv zeta.
  apply (orElse_ind P).
  { intros c E. apply firstSome_Some in E as (d & Hin & E). cbv zeta in E.
    case_match; [|done]. injection E as <-. left. specialize (Hd d Hin). simpl. lia. }
  apply (orElse_ind P).
  { intros c E. apply firstSome_Some in E as (d & Hin & E). cbv zeta in E.
    case_match; [|done]. injection E as <-. left. specialize (Hd d Hin). simpl. lia. }
  apply (orElse_ind P).
  { intros c E. apply firstSome_Some in E as (r & Hin & E). apply elem_of_seqZ in Hin.
    apply scanRing_range in E. left. lia. }
  apply (orElse_ind P).
  { intros c E. apply firstSome_Some in E as (r & Hin & E). apply elem_of_seqZ in Hin.
    apply scanRing_range in E. left. lia. }
  by right.
Qed.

Lemma firstSome_None {A B} (f : A -> option B) l :
  (forall a, a ∈ l -> f a = None) -> firstSome f l = None.
Proof.
  induction l as [|a l IH]; intros H; simpl; [done|].
  rewrite (H a) by left. apply IH. intros b Hb. apply H. by right.
Qed.

(** When the neighbours and the twenty rings around [center] are occupied,
    [findBestCell] answers the cell 100 columns away, occupied or not. *)
Lemma findBestCell_fallback center occ dirs maxCols :
  (forall d, d ∈ dirs -> addCell center d ∈ occ) ->
  (forall dr dc, Z.abs dr <= 20 -> Z.abs dc <= 20 ->
     mkCell (row center + dr) (col center + dc) ∈ occ) ->
  findBestCell center occ dirs maxCols = mkCell (row center) (col center + 100).
Proof.
  intros Hd Hr. unfold findBestCell. cbv zeta.
  assert (forall ok, (forall c, c ∈ occ -> ok c = false) ->
            firstSome (scanRing center ok) (seqZ 2 19) = None) as Hring.
  { intros ok Hok. apply firstSome_None. intros r Hin. apply elem_of_seqZ in Hin.
    unfold scanRing. apply firstSome_None. intros dr Hdr. apply elem_of_seqZ in Hdr.
    apply firstSome_None. intros dc Hdc. apply elem_of_seqZ in Hdc.
    destruct (_ && _); [done|]. rewrite Hok; [done|]. apply Hr; lia. }
  rewrite firstSome_None.
  2:{ intros d Hin. cbv zeta. by rewrite (bool_decide_eq_true_2 _ (Hd d Hin)). }
  rewrite firstSome_None.
  2:{ intros d Hin. cbv zeta. by rewrite (bool_decide_eq_true_2 _ (Hd d Hin)). }
  rewrite Hring by (intros c Hc; by rewrite (bool_decide_eq_true_2 _ Hc)).
  rewrite Hring by (intros c Hc; by rewrite (bool_decide_eq_true_2 _ Hc)).
  reflexivity.
Qed.

Lemma bfsDirs_unit dir d :
  d ∈ bfsDirs dir \/ d ∈ reverseDirs (bfsDirs dir) ->
  Z.abs (row d) <= 20 /\ Z.abs (col d) <= 20.
Proof.
  unfold bfsDirs.
  destruct (String.eqb dir "down"); [|destruct (String.eqb dir "up");
    [|destruct (String.eqb dir "left")]];
  simpl; intros [H|H];
  repeat (apply elem_of_cons in H as [->|H]); try (simpl; lia);
  by apply elem_of_nil in H.
Qed.


(** *** The search on a hub graph *)

Section Hub.

Variable sortSlice : forall A : Type, (A -> A -> bool) -> list A -> list A.
Hypothesis sortSlice_perm : forall A (less : A -> A -> bool) l, Permutation l (sortSlice A less l).

Variables (adj : list (list nat)) (degree : list nat) (outgoing : gset (nat * nat)).
Variables (dir : string) (maxCols : Z) (start : nat) (leaves : list nat).

Hypothesis adj_start : adj !! start = Some leaves.
Hypothesis adj_leaf : forall i l x, i <> start -> adj !! i = Some l -> x ∈ l -> x = start.

(** Every visited node has a cell, and the cell is one [findBestCell]
    answers around the origin. *)
Definition placed (st : Bfs) : Prop :=
  forall i, i ∈ b_visited st -> exists c, b_placement st !! i = Some c /\ nearOrigin c.

Lemma placeNeighbor_placed st nb :
  placed st ->
  let st' := placeNeighbor outgoing (bfsDirs dir) maxCols start (mkCell 0 0) st nb in
  placed st' /\ nb ∈ b_visited st' /\ b_visited st ⊆ b_visited st' /\
  (length (b_queue st') <= S (length (b_queue st)))%nat /\
  (forall x, x ∈ b_queue st' -> x ∈ b_queue st \/ x ∉ b_visited st).
Proof.
  intros Hpl. unfold placeNeighbor. cbv zeta.
  destruct (bool_decide_reflect (nb ∈ b_visited st)) as [Hv|Hv].
  { repeat split; auto. }
  simpl. repeat split.
  - intros i Hi. simpl in *. destruct (decide (i = nb)) as [->|Hne].
    + rewrite lookup_insert_eq. eexists. split; [done|].
      match goal with |- nearOrigin (findBestCell ?c ?o ?d ?m) =>
        pose proof (findBestCell_range c o d m) as Hr end.
      unfold nearOrigin. simpl in Hr.
      destruct Hr as [Hr|Hr].
      * intros d Hd. apply (bfsDirs_unit dir). destruct (bool_decide _); auto.
      * left. lia.
      * right. exact Hr.
    + rewrite lookup_insert_ne by done. apply Hpl.
      apply elem_of_union in Hi as [Hi|Hi]; [|done].
      by apply elem_of_singleton in Hi.
  - apply elem_of_union; left. by apply elem_of_singleton.
  - intros x Hx. apply elem_of_union. by right.
  - rewrite length_app. simpl. lia.
  - intros x Hx. apply elem_of_app in Hx as [Hx|Hx]; [by left|].
    apply list_elem_of_singleton in Hx as ->. by right.
Qed.

Lemma placeNeighbors_placed l st :
  placed st ->
  let st' := foldl (placeNeighbor outgoing (bfsDirs dir) maxCols start (mkCell 0 0)) st l in
  placed st' /\ (forall nb, nb ∈ l -> nb ∈ b_visited st') /\ b_visited st ⊆ b_visited st' /\
  (length (b_queue st') <= length (b_queue st) + length l)%nat /\
  (forall x, x ∈ b_queue st' -> x ∈ b_queue st \/ x ∉ b_visited st).
Proof.
  revert st. induction l as [|nb l IH]; intros st Hpl; cbv zeta.
  { simpl. repeat split; auto. - intros nb H. by apply elem_of_nil in H. - lia. }
  simpl.
  destruct (placeNeighbor_placed st nb Hpl) as (H1 & H2 & H3 & H4 & H5).
  destruct (IH _ H1) as (I1 & I2 & I3 & I4 & I5).
  repeat split.
  - exact I1.
  - intros x Hx. apply elem_of_cons in Hx as [->|Hx]; [by apply I3|by apply I2].
  - intros x Hx. by apply I3, H3.
  - lia.
  - intros x Hx. destruct (I5 x Hx) as [Hq|Hq]; [by apply H5|].
    right. intros Hv. by apply Hq, H3.
Qed.

Lemma filter_nil {A} (f : A -> bool) (l : list A) :
  (forall x, x ∈ l -> f x = false) -> List.filter f l = [].
Proof.
  induction l as [|a l IH]; intros H; simpl; [done|].
  rewrite (H a) by left. apply IH. intros x Hx. apply H. by right.
Qed.

(** Once the neighbours of the start are in the queue, the search only
    empties it. *)
Lemma bfsLoop_drain q : forall fuel st,
  b_queue st = q ->
  (forall x, x ∈ q -> x <> start) ->
  start ∈ b_visited st ->
  (length q <= fuel)%nat ->
  bfsLoop sortSlice fuel adj degree outgoing (bfsDirs dir) maxCols st
  = Some (mkBfs (b_placement st) (b_occupied st) (b_visited st) []).
Proof.
  induction q as [|cur q IH]; intros fuel [pl occ vis qu] Hq Hne Hs Hf; simpl in *; subst qu.
  { destruct fuel; reflexivity. }
  destruct fuel as [|fuel]; [lia|]. simpl.
  rewrite filter_nil.
  2:{ intros x Hx. destruct (adj !! cur) as [l|] eqn:E; simpl in Hx.
      - rewrite (adj_leaf cur l x) by (auto; apply Hne; left).
        by rewrite bool_decide_eq_true_2.
      - by apply elem_of_nil in Hx. }
  rewrite (Permutation_nil (sortSlice_perm _ _ [])). simpl.
  apply (IH fuel (mkBfs pl occ vis q)); simpl; auto.
  - intros x Hx. apply Hne. by right.
  - lia.
Qed.

Lemma bfsLoop_hub n :
  (length leaves < n)%nat ->
  exists st,
    bfsLoop sortSlice n adj degree outgoing (bfsDirs dir) maxCols
      (mkBfs {[start := mkCell 0 0]} {[mkCell 0 0]} {[start]} [start]) = Some st /\
    placed st /\ start ∈ b_visited st /\
    forall i, i ∈ leaves -> i ∈ b_visited st.
Proof.
  intros Hn. destruct n as [|n]; [lia|]. simpl.
  rewrite adj_start. simpl.
  unfold cellOf. rewrite lookup_singleton_eq. simpl.
  set (nbs := List.filter _ leaves).
  set (sorted := sortSlice _ _ nbs).
  set (st1 := mkBfs _ _ _ []).
  assert (placed st1) as Hpl.
  { intros i Hi. simpl in Hi. apply elem_of_singleton in Hi as ->. simpl.
    rewrite lookup_singleton_eq. eexists; split; [done|]. left. simpl. lia. }
  destruct (placeNeighbors_placed sorted st1 Hpl) as (H1 & H2 & H3 & H4 & H5).
  set (st2 := foldl _ st1 sorted) in *.
  assert (start ∈ b_visited st2) as Hs by (apply H3; simpl; set_solver).
  eexists. split.
  - apply (bfsLoop_drain (b_queue st2)); auto.
    + intros x Hx ->. destruct (H5 _ Hx) as [H|H]; simpl in H.
      * by apply elem_of_nil in H.
      * set_solver.
    + simpl in H4. assert (length sorted = length nbs) as Hlen.
      { symmetry. apply Permutation_length, sortSlice_perm. }
      assert (length nbs <= length leaves)%nat by apply List.filter_length_le.
      lia.
  - simpl. repeat split; auto.
    intros i Hi. destruct (decide (i = start)) as [->|Hne]; [done|].
    apply H2. unfold sorted. rewrite <- sortSlice_perm.
    unfold nbs. apply list_elem_of_In, filter_In. split; [by apply list_elem_of_In|].
    rewrite bool_decide_eq_false_2; [done|set_solver].
Qed.

End Hub.


Lemma placeDisconnected_visited l st :
  (forall i, i ∈ l -> i ∈ b_visited st) -> foldl placeDisconnected st l = st.
Proof.
  induction l as [|i l IH]; intros H; simpl; [done|].
  unfold placeDisconnected at 2. rewrite bool_decide_eq_true_2 by (apply H; left).
  apply IH. intros j Hj. apply H. by right.
Qed.

(** *** [localImprove] moves a node one step in a pass *)

Lemma cellOf_insert pl i c j :
  cellOf (<[i := c]> pl) j = if decide (i = j) then c else cellOf pl j.
Proof.
  unfold cellOf. destruct (decide (i = j)) as [->|Hne].
  - by rewrite lookup_insert_eq.
  - by rewrite lookup_insert_ne.
Qed.

Lemma tryMoves_step adj i orig dirs : forall st,
  (forall d, d ∈ dirs -> dist1 (addCell orig d) orig <= 1) ->
  cellOf (i_placement st) i = orig ->
  let st' := tryMoves adj i orig st dirs in
  (forall j, j <> i -> cellOf (i_placement st') j = cellOf (i_placement st) j) /\
  dist1 (cellOf (i_placement st') i) orig <= 1.
Proof.
  induction dirs as [|d dirs IH]; intros st Hd Ho; cbv zeta; simpl.
  { split; [done|]. rewrite Ho. unfold dist1. lia. }
  assert (forall d', d' ∈ dirs -> dist1 (addCell orig d') orig <= 1) as Hd'
    by (intros d' H; apply Hd; by right).
  destruct (bool_decide _); [by apply IH|].
  destruct (_ <? _).
  { simpl. split.
    - intros j Hj. rewrite cellOf_insert. by destruct (decide (i = j)).
    - rewrite cellOf_insert. destruct (decide (i = i)); [|done]. apply Hd. left. }
  match goal with |- context [tryMoves _ _ _ ?s _] => destruct (IH s Hd') as [I1 I2] end.
  { simpl. rewrite cellOf_insert. by destruct (decide (i = i)). }
  split; [|exact I2].
  intros j Hj. rewrite (I1 j Hj). simpl. rewrite !cellOf_insert.
  by destruct (decide (i = j)).
Qed.

Lemma unitDirs_step orig d : d ∈ unitDirs -> dist1 (addCell orig d) orig <= 1.
Proof.
  unfold unitDirs. intros H.
  repeat (apply elem_of_cons in H as [->|H]); try (unfold dist1; simpl; lia).
  by apply elem_of_nil in H.
Qed.

Lemma movePass_step adj l : forall st,
  NoDup l ->
  let st' := foldl (fun st i => tryMoves adj i (cellOf (i_placement st) i) st unitDirs) st l in
  forall j, (j ∉ l -> cellOf (i_placement st') j = cellOf (i_placement st) j) /\
            dist1 (cellOf (i_placement st') j) (cellOf (i_placement st) j) <= 1.
Proof.
  induction l as [|i l IH]; intros st Hnd; cbv zeta.
  { intros j. simpl. split; [done|]. unfold dist1. lia. }
  cbn [foldl]. apply NoDup_cons in Hnd as [Hi Hnd].
  destruct (tryMoves_step adj i (cellOf (i_placement st) i) unitDirs st
              (unitDirs_step _) eq_refl) as [T1 T2].
  intros j.
  destruct (IH (tryMoves adj i (cellOf (i_placement st) i) st unitDirs) Hnd j) as [I1 I2].
  split.
  - intros Hj. rewrite I1 by (intros H; apply Hj; by right).
    apply T1. intros ->. apply Hj. left.
  - destruct (decide (j = i)) as [->|Hne].
    + by rewrite I1.
    + by rewrite <- (T1 j Hne).
Qed.

Lemma trySwap_other adj st i j k :
  k <> i -> k <> j ->
  cellOf (i_placement (trySwap adj st (i, j))) k = cellOf (i_placement st) k.
Proof.
  intros Hi Hj. unfold trySwap.
  destruct (bool_decide _); [done|].
  destruct (_ <? _); simpl; rewrite !cellOf_insert;
    repeat (destruct (decide _); try done); congruence.
Qed.

Lemma swapPass_other adj n st k :
  (30 <= k)%nat ->
  cellOf (i_placement (swapPass adj n st)) k = cellOf (i_placement st) k.
Proof.
  intros Hk. unfold swapPass.
  set (pairs := _ ≫= _).
  assert (forall i j, (i, j) ∈ pairs -> i <> k /\ j <> k) as Hp.
  { intros i j H. unfold pairs in H.
    apply list_elem_of_bind in H as (i' & H & Hi).
    apply list_elem_of_fmap in H as (j' & [= -> ->] & Hj).
    apply elem_of_seq in Hi. apply elem_of_seq in Hj. lia. }
  clearbody pairs. revert st. induction pairs as [|[i j] pairs IH]; intros st; simpl; [done|].
  rewrite IH by (intros i' j' H; apply Hp; by right).
  destruct (Hp i j) as [? ?]; [left|]. by apply trySwap_other.
Qed.

Lemma improveLoop_near adj n iters : forall pl occ k,
  (30 <= k)%nat ->
  dist1 (cellOf (improveLoop iters adj n pl occ).1 k) (cellOf pl k) <= Z.of_nat iters.
Proof.
  induction iters as [|iters IH]; intros pl occ k Hk; simpl.
  { unfold dist1. lia. }
  set (st0 := mkImprove pl occ _ false).
  pose proof (proj2 (movePass_step adj (seq 0 n) st0 (NoDup_seq 0 n) k)) as Hm.
  fold (movePass adj n st0) in Hm. simpl in Hm.
  pose proof (swapPass_other adj n (movePass adj n st0) k Hk) as Hs.
  destruct (improved _).
  - specialize (IH (i_placement (swapPass adj n (movePass adj n st0)))
                   (i_occupied (swapPass adj n (movePass adj n st0))) k Hk).
    rewrite Hs in IH. unfold dist1 in *. lia.
  - simpl. rewrite Hs. unfold dist1 in *. lia.
Qed.

Lemma localImprove_near pl occ adj n iters k :
  (30 <= k)%nat ->
  dist1 (cellOf (localImprove pl occ adj n iters).1 k) (cellOf pl k) <= Z.of_nat iters.
Proof.
  intros Hk. unfold localImprove. destruct (n <=? 2)%nat.
  - simpl. unfold dist1. lia.
  - by apply improveLoop_near.
Qed.

(** *** The final placement *)

Lemma foldl_insert_lookup {V} (f : nat -> V) l : forall (m : gmap nat V) i,
  i ∈ l -> foldl (fun m i => <[i := f i]> m) m l !! i = Some (f i).
Proof.
  induction l as [|x l IH]; intros m i Hi; simpl.
  { by apply elem_of_nil in Hi. }
  destruct (decide (i ∈ l)) as [Hl|Hl]; [by apply IH|].
  apply elem_of_cons in Hi as [->|Hi]; [|done].
  clear IH. revert m. induction l as [|y l IH]; intros m; simpl.
  - by rewrite lookup_insert_eq.
  - rewrite insert_insert_ne; [apply IH|].
    + intros H. apply Hl. by right.
    + intros ->. apply Hl. left.
Qed.

Lemma normalize_lookup n pl i :
  (i < n)%nat ->
  placement (normalize n pl) !! i
  = Some (mkCell (row (cellOf pl i) - minOver row pl) (col (cellOf pl i) - minOver col pl)).
Proof.
  intros Hi. unfold normalize. simpl.
  apply (foldl_insert_lookup
           (fun i => mkCell (row (cellOf pl i) - minOver row pl)
                            (col (cellOf pl i) - minOver col pl))).
  apply elem_of_seq. lia.
Qed.

Lemma reach_length : length reach = 2722%nat.
Proof. reflexivity. Qed.

Lemma reach_near c x : nearOrigin c -> dist1 x c <= 5 -> x ∈ reach.
Proof.
  intros Hc Hx. unfold reach, dist1 in *. destruct x as [r k]. simpl in Hx.
  apply elem_of_app. destruct Hc as [[Hr Hk]| ->]; [left|right]; simpl in Hx;
    apply list_elem_of_bind; exists r;
    (split; [|apply elem_of_seqZ; lia]);
    apply list_elem_of_bind; exists k;
    (split; [|apply elem_of_seqZ; lia]); left.
Qed.

(** Two elements of a list that is longer than the list of the values [f]
    takes on it have the same value. *)
Lemma pigeonhole {A B} `{EqDecision B} (f : A -> B) (l : list A) (k : list B) :
  (forall x, x ∈ l -> f x ∈ k) -> (length k < length l)%nat -> NoDup l ->
  exists x y, x ∈ l /\ y ∈ l /\ x <> y /\ f x = f y.
Proof.
  intros Hk Hlen Hnd.
  assert (~ NoDup (f <$> l)) as Hdup.
  { intros H. apply (NoDup_submseteq _ k) in H.
    - apply submseteq_length in H. rewrite length_fmap in H. lia.
    - intros y Hy. apply list_elem_of_fmap in Hy as (x & -> & Hx). by apply Hk. }
  clear Hk Hlen. induction l as [|x l IH]; simpl in *.
  { destruct Hdup. constructor. }
  apply NoDup_cons in Hnd as [Hx Hnd].
  destruct (decide (f x ∈ f <$> l)) as [Hin|Hin].
  - apply list_elem_of_fmap in Hin as (y & Hy & Hin).
    exists x, y. repeat split; [left|by right| |done]. intros ->. done.
  - destruct IH as (a & b & Ha & Hb & Hab & Hf); auto.
    + intros H. apply Hdup. apply NoDup_cons. done.
    + exists a, b. repeat split; auto; by right.
Qed.


(** *** The star: a hub and [k] leaves *)

Lemma imap_seq_pair n : forall s,
  imap (fun i o => ((s + i)%nat, o)) (seq s n) = (fun j => (j, j)) <$> seq s n.
Proof.
  induction n as [|n IH]; intros s; [done|].
  simpl. rewrite Nat.add_0_r. f_equal.
  rewrite <- IH. apply imap_ext. intros i x _. simpl. f_equal. lia.
Qed.

Lemma objIndex_seq n i :
  (i < n)%nat ->
  foldl (fun (m : gmap ObjId nat) io => <[io.2 := io.1]> m) ∅
        (imap (fun i o => (i, o)) (seq 0 n)) !! i = Some i.
Proof.
  intros Hi. pose proof (imap_seq_pair n 0) as H. simpl in H.
  rewrite H, foldl_fmap. simpl.
  apply (foldl_insert_lookup (fun i => i)). apply elem_of_seq. lia.
Qed.

Lemma alter_leaf (j m : nat) :
  alter (fun l : list nat => l ++ [0%nat]) j (replicate j [0%nat] ++ replicate (S m) [])
  = replicate (S j) [0%nat] ++ replicate m [].
Proof.
  transitivity ((replicate j [0%nat] ++ [[0%nat]]) ++ replicate m ([] : list nat)).
  - rewrite alter_app_r_alt by (rewrite length_replicate; lia).
    rewrite length_replicate, Nat.sub_diag, <- app_assoc. reflexivity.
  - by rewrite <- replicate_S_end.
Qed.

Lemma buildAdj_star k j :
  (j <= k)%nat ->
  (buildAdj (S k)
     (foldl (fun (m : gmap ObjId nat) io => <[io.2 := io.1]> m) ∅
            (imap (fun i o => (i, o)) (seq 0 (S k))))
     (starEdges j)).1
  = seq 1 j :: (replicate j [0%nat] ++ replicate (k - j) []).
Proof.
  set (objIndex := foldl _ ∅ _).
  assert (forall i, (i < S k)%nat -> objIndex !! i = Some i) as Hidx
    by (intros i; apply objIndex_seq).
  clearbody objIndex.
  unfold buildAdj, starEdges. rewrite foldl_fmap. simpl Src. simpl Dst.
  induction j as [|j IH]; intros Hj.
  { simpl. by rewrite Nat.sub_0_r. }
  rewrite (seq_S j 1), foldl_snoc.
  specialize (IH ltac:(lia)).
  set (acc := foldl _ _ (seq 1 j)) in *. clearbody acc.
  rewrite !Hidx by lia.
  rewrite bool_decide_eq_false_2 by lia.
  cbn [fst]. rewrite IH.
  replace (k - j)%nat with (S (k - S j)) by lia.
  change (alter ?f 0%nat (?x :: ?l)) with (f x :: l).
  change (alter ?f (1 + j)%nat (?x :: ?l)) with (x :: alter f j l).
  by rewrite alter_leaf.
Qed.

Lemma dedupeAdj_NoDup l : NoDup l -> dedupeAdj l = l.
Proof.
  unfold dedupeAdj. intros Hnd.
  assert (forall xs (seen : gset nat),
    (forall x, x ∈ seen <-> x ∈ xs) -> NoDup (xs ++ l) ->
    (foldl (fun (acc : list nat * gset nat) nb =>
              if bool_decide (nb ∈ acc.2) then acc else (acc.1 ++ [nb], {[nb]} ∪ acc.2))
           (xs, seen) l).1 = xs ++ l) as H.
  { clear Hnd. induction l as [|a l IH]; intros xs seen Hs Hnd; simpl.
    { by rewrite app_nil_r. }
    rewrite bool_decide_eq_false_2.
    2:{ rewrite Hs. apply NoDup_app in Hnd as (_ & Hnd & _). intros H.
        apply (Hnd a H). left. }
    rewrite IH.
    - by rewrite <- app_assoc.
    - intros x. rewrite elem_of_union, elem_of_singleton, elem_of_app,
        list_elem_of_singleton, Hs. tauto.
    - by rewrite <- app_assoc. }
  apply (H [] ∅); [|done].
  intros x. split; intros Hx; [by apply elem_of_empty in Hx|by apply elem_of_nil in Hx].
Qed.

Lemma adjOf_star k :
  adjOf (starObjects k) (starEdges k) = seq 1 k :: replicate k [0%nat].
Proof.
  unfold adjOf, starObjects. rewrite length_seq, buildAdj_star by lia.
  rewrite Nat.sub_diag, app_nil_r. simpl.
  rewrite dedupeAdj_NoDup by apply NoDup_seq.
  by rewrite fmap_replicate.
Qed.

Lemma pickStart_loop best m : forall start i,
  (1 <= best)%nat ->
  (foldl (fun (acc : nat * nat * nat) d =>
            let '(start, best, i) := acc in
            if (best <? d)%nat then (i, d, S i) else (start, best, S i))
         (start, best, i) (replicate m 1%nat)).1.1 = start.
Proof.
  induction m as [|m IH]; intros start i Hb; [done|].
  cbn [replicate foldl]. rewrite (proj2 (Nat.ltb_ge best 1)) by lia. by apply IH.
Qed.

Lemma pickStart_star k :
  (1 <= k)%nat -> pickStart (length <$> (seq 1 k :: replicate k [0%nat])) = 0%nat.
Proof.
  intros Hk. unfold pickStart.
  rewrite fmap_cons, fmap_replicate, length_seq.
  cbn [tail lookup list_lookup default length].
  by apply pickStart_loop.
Qed.

(** C5, the divergence: on the star of a hub and more than 2751 leaves two
    nodes of the placement [gridPlacement] returns have the same cell.  The
    cells [findBestCell] answers for the leaves are the 1676 cells of its
    spiral around the hub and the one cell 100 columns away, which it does
    not check; [localImprove] moves a node of index 30 or more by at most
    five steps, and the cells within five steps of those are fewer than the
    nodes. *)
Theorem gridPlacement_star_collision sortSlice k dir :
  gosort.sortContract sortSlice ->
  (2752 <= k)%nat ->
  exists gi i j c,
    gridPlacement sortSlice (starObjects k) (starEdges k) dir = Some gi /\
    i <> j /\ placement gi !! i = Some c /\ placement gi !! j = Some c.
Proof.
  intros Hsort Hk.
  rewrite gridPlacement_unfold by (unfold starObjects; simpl; discriminate). cbv zeta.
  rewrite adjOf_star, pickStart_star by lia.
  assert (length (starObjects k) = S k) as -> by apply length_seq.
  destruct (bfsLoop_hub sortSlice (fun A less l => proj1 (Hsort A less l))
              (seq 1 k :: replicate k [0%nat])
              (length <$> (seq 1 k :: replicate k [0%nat]))
              (outgoingOf (starObjects k) (starEdges k)) dir
              (Z.max 2 (ceilSqrt (Z.of_nat (S k)))) 0%nat (seq 1 k) eq_refl)
    with (n := S k) as (st & -> & Hpl & Hs & Hv).
  { intros i l x Hi Hl Hx. destruct i as [|i]; [done|]. simpl in Hl.
    apply lookup_replicate in Hl as [-> _]. by apply list_elem_of_singleton in Hx. }
  { rewrite length_seq. lia. }
  cbn [mbind option_bind].
  assert (forall i, (i < S k)%nat -> i ∈ b_visited st) as Hall.
  { intros i Hi. destruct i as [|i]; [done|]. apply Hv, elem_of_seq. lia. }
  rewrite placeDisconnected_visited
    by (intros i Hi; apply elem_of_seq in Hi; apply Hall; lia).
  set (pl := (localImprove _ _ _ _ _).1).
  destruct (pigeonhole (cellOf pl) (seq 30 (S k - 30)) reach) as (x & y & Hx & Hy & Hxy & Hc).
  - intros x Hx. apply elem_of_seq in Hx.
    destruct (Hpl x) as (c & Hc & Hnear); [apply Hall; lia|].
    apply (reach_near c); [done|].
    replace c with (cellOf (b_placement st) x) by (unfold cellOf; by rewrite Hc).
    apply (localImprove_near _ _ _ _ 5). lia.
  - rewrite reach_length, length_seq. lia.
  - apply NoDup_seq.
  - apply elem_of_seq in Hx. apply elem_of_seq in Hy.
    eexists _, x, y, _. split; [reflexivity|]. split; [done|].
    rewrite !normalize_lookup by lia. by rewrite Hc.
Qed.

End GridPlacement.

Lemma gridPlacement_star_collision_witness :
  exists gi i j c,
    d2wueortho.gridPlacement gosort.insertionSort (starObjects 2752) (starEdges 2752) EmptyString
      = Some gi /\
    i <> j /\ d2wueortho.placement gi !! i = Some c /\ d2wueortho.placement gi !! j = Some c.
Proof.
  apply gridPlacement_star_collision.
  - apply insertionSort_contract.
  - apply Nat.leb_le. reflexivity.
Defined.

(** * Further properties *)

(** ** The order of [float64] *)


Ltac sf_cases :=
  repeat match goal with
  | |- context [Pos.compare_cont Eq ?a ?b] =>
      change (Pos.compare_cont Eq a b) with (Pos.compare a b)
  end;
  repeat match goal with
  | |- context [Z.compare ?a ?b] => destruct (Z.compare_spec a b)
  | |- context [Pos.compare ?a ?b] => destruct (Pos.compare_spec a b)
  end; simpl; try done; try lia.

Lemma SFltb_trans x y z : SFltb x y = true -> SFltb y z = true -> SFltb x z = true.
Proof.
  unfold SFltb, SFcompare.
  destruct x as [sx|sx| |sx mx ex], y as [sy|sy| |sy my ey], z as [sz|sz| |sz mz ez];
    try destruct sx; try destruct sy; try destruct sz; simpl; try done; sf_cases.
Qed.

Lemma ltb_trans (x y z : float) :
  PrimFloat.ltb x y = true -> PrimFloat.ltb y z = true -> PrimFloat.ltb x z = true.
Proof. rewrite !FloatAxioms.ltb_spec. apply SFltb_trans. Qed.

Lemma SFltb_asym x y : SFltb x y = true -> SFltb y x = false.
Proof.
  unfold SFltb, SFcompare.
  destruct x as [sx|sx| |sx mx ex], y as [sy|sy| |sy my ey];
    try destruct sx; try destruct sy; simpl; try done; sf_cases.
Qed.

Lemma ltb_asym (x y : float) : PrimFloat.ltb x y = true -> PrimFloat.ltb y x = false.
Proof. rewrite !FloatAxioms.ltb_spec. apply SFltb_asym. Qed.

Lemma ltb_irrefl (x : float) : PrimFloat.ltb x x = false.
Proof. destruct (PrimFloat.ltb x x) eqn:E; [|done]. by rewrite (ltb_asym _ _ E) in E. Qed.

(** [<] is a strict weak order apart from NaN: incomparability is transitive
    on numbers. *)
Lemma SFltb_negtrans x y z :
  y <> S754_nan ->
  SFltb x y = false -> SFltb y z = false -> SFltb x z = false.
Proof.
  unfold SFltb, SFcompare.
  destruct x as [sx|sx| |sx mx ex], y as [sy|sy| |sy my ey], z as [sz|sz| |sz mz ez];
    try destruct sx; try destruct sy; try destruct sz; simpl; try done; intros _; sf_cases.
Qed.

(** ** Port sides *)

Section Sides.

Local Open Scope float_scope.

Definition oppositeSide (d : Direction) : Direction :=
  match d with
  | DirTop => DirBottom | DirBottom => DirTop | DirLeft => DirRight | DirRight => DirLeft
  end.

Definition horizontalSide (d : Direction) : bool :=
  match d with DirLeft | DirRight => true | _ => false end.

(** The offsets of the centers that [determineSides] compares. *)
Definition offsetX (src dst : Rect) : float := CenterX dst - CenterX src.
Definition offsetY (src dst : Rect) : float := CenterY dst - CenterY src.

(** One offset strictly dominates and the other is at most a quarter of it. *)
Definition straightOffsets (src dst : Rect) : bool :=
  let ax := abs (offsetX src dst) in
  let ay := abs (offsetY src dst) in
  if ay <? ax then negb (ax * 0.25 <? ay)
  else if ax <? ay then negb (ay * 0.25 <? ax)
  else false.

(** [determineSides] never answers the same side twice.  The two sides are
    opposite exactly when one offset of the centers strictly dominates and
    the other is at most a quarter of it; in every other case (also when
    neither offset dominates) one side is horizontal and the other
    vertical.  The source leaves by the top or the bottom exactly when the
    vertical offset strictly dominates. *)
Theorem determineSides_shape (src dst : Rect) :
  let sides := determineSides src dst in
  sides.1 <> sides.2 /\
  (sides.2 = oppositeSide sides.1 <-> straightOffsets src dst = true) /\
  (horizontalSide sides.2 = negb (horizontalSide sides.1) <-> straightOffsets src dst = false) /\
  (horizontalSide sides.1 = false <->
   (abs (offsetY src dst) <? abs (offsetX src dst)) = false /\
   (abs (offsetX src dst) <? abs (offsetY src dst)) = true).
Proof.
  unfold determineSides, straightOffsets, offsetX, offsetY. cbv zeta.
  repeat match goal with
  | |- context [PrimFloat.ltb ?a ?b] => destruct (PrimFloat.ltb a b)
  end; simpl; repeat split; try done; try tauto; try (intros [? ?]; done).
Qed.

(** A self-loop leaves by a side of its node that has the fewest ports, the
    first such side in the order top, right, bottom, left, and comes back
    by the next side clockwise. *)
Theorem selfLoopSides_least (nodeIdx : Z) (sideCount : gmap nodeSideKey Z) :
  (forall s, countOf sideCount nodeIdx s <= MaxInt)%Z ->
  let sides := selfLoopSides nodeIdx sideCount in
  sides.2 = nextSide sides.1 /\ sides.1 <> sides.2 /\
  forall s,
    (countOf sideCount nodeIdx sides.1 <= countOf sideCount nodeIdx s)%Z /\
    ((sideNum s < sideNum sides.1)%Z ->
     (countOf sideCount nodeIdx sides.1 < countOf sideCount nodeIdx s)%Z \/
     countOf sideCount nodeIdx s = MaxInt).
Proof.
  intros Hmax. unfold selfLoopSides. cbv zeta. simpl.
  pose proof (Hmax DirTop). pose proof (Hmax DirRight).
  pose proof (Hmax DirBottom). pose proof (Hmax DirLeft).
  repeat match goal with
  | |- context [Z.ltb ?a ?b] =>
      lazymatch b with
      | context [Z.ltb] => fail
      | _ => destruct (Z.ltb_spec a b); simpl
      end
  end; (split; [done|]); (split; [done|]); intros []; simpl; lia.
Qed.

(** A node with one port on its top and two on its right. *)
Definition busyCorner : gmap nodeSideKey Z := <[(0%Z, 1%Z) := 2%Z]> (<[(0%Z, 0%Z) := 1%Z]> ∅).

Lemma selfLoopSides_least_witness :
  selfLoopSides 0 busyCorner = (DirBottom, DirLeft) /\
  let sides := selfLoopSides 0 busyCorner in
  sides.2 = nextSide sides.1 /\ sides.1 <> sides.2 /\
  forall s,
    (countOf busyCorner 0 sides.1 <= countOf busyCorner 0 s)%Z /\
    ((sideNum s < sideNum sides.1)%Z ->
     (countOf busyCorner 0 sides.1 < countOf busyCorner 0 s)%Z \/
     countOf busyCorner 0 s = MaxInt).
Proof.
  split; [reflexivity|].
  apply selfLoopSides_least. intros []; vm_compute; discriminate.
Defined.

End Sides.

(** ** Nearest node and crossing segments *)

Section Nearest.

(** The loop of [FindNearest] from index [i] on. *)
Lemma FindNearest_loop p rest : forall bestID bestDist i seen,
  0 <= bestID < i ->
  i = Z.of_nat (length seen) ->
  (exists n, seen !! Z.to_nat bestID = Some n /\ bestDist = distSq (NPos n) p) ->
  (forall n, n ∈ seen -> PrimFloat.ltb (distSq (NPos n) p) bestDist = false) ->
  let r := (foldl (fun (acc : Z * float * Z) n =>
                let '(bestID, bestDist, i) := acc in
                let d := distSq (NPos n) p in
                if PrimFloat.ltb d bestDist then (i, d, (i + 1)%Z) else (bestID, bestDist, (i + 1)%Z))
             (bestID, bestDist, i) rest).1.1 in
  0 <= r < Z.of_nat (length (seen ++ rest)) /\
  exists n, (seen ++ rest) !! Z.to_nat r = Some n /\
    forall m, m ∈ seen ++ rest -> PrimFloat.ltb (distSq (NPos m) p) (distSq (NPos n) p) = false.
Proof.
  induction rest as [|x rest IH]; intros bestID bestDist i seen Hb Hi (n & Hn & Hd) Hmin; cbv zeta.
  { simpl. rewrite app_nil_r. split; [lia|]. exists n. split; [done|]. by rewrite <- Hd. }
  cbn [foldl].
  replace (seen ++ x :: rest) with ((seen ++ [x]) ++ rest) by (by rewrite <- app_assoc).
  destruct (PrimFloat.ltb (distSq (NPos x) p) bestDist) eqn:E.
  - apply IH.
    + lia.
    + rewrite length_app. simpl. lia.
    + exists x. split; [|done]. rewrite lookup_app_r by lia.
      replace (Z.to_nat i - length seen)%nat with 0%nat by lia. done.
    + intros m Hm. apply elem_of_app in Hm as [Hm|Hm].
      * destruct (PrimFloat.ltb (distSq (NPos m) p) (distSq (NPos x) p)) eqn:E2; [|done].
        pose proof (Hmin m Hm) as Hx. by rewrite (ltb_trans _ _ _ E2 E) in Hx.
      * apply list_elem_of_singleton in Hm as ->. apply ltb_irrefl.
  - apply IH.
    + lia.
    + rewrite length_app. simpl. lia.
    + exists n. split; [|done]. apply lookup_app_l_Some. done.
    + intros m Hm. apply elem_of_app in Hm as [Hm|Hm]; [by apply Hmin|].
      apply list_elem_of_singleton in Hm as ->. done.
Qed.

(** [FindNearest] answers -1 on a graph without nodes and otherwise the
    index of a node of the graph that no node is strictly nearer than. *)
Theorem FindNearest_nearest (rg : RoutingGraph) (p : Point) :
  (Nodes rg = [] /\ FindNearest rg p = -1) \/
  (0 <= FindNearest rg p < Z.of_nat (length (Nodes rg)) /\
   exists n, index (Nodes rg) (FindNearest rg p) = Some n /\
     forall m, m ∈ Nodes rg ->
       PrimFloat.ltb (distSq (NPos m) p) (distSq (NPos n) p) = false).
Proof.
  unfold FindNearest. destruct (Nodes rg) as [|n0 rest]; [by left|]. right.
  destruct (FindNearest_loop p rest 0 (distSq (NPos n0) p) 1 [n0]) as (Hr & n & Hn & Hmin).
  - lia.
  - done.
  - by exists n0.
  - intros n Hn. apply list_elem_of_singleton in Hn as ->. apply ltb_irrefl.
  - simpl in *. split; [lia|]. exists n. split; [|done].
    unfold index. destruct (Z.ltb_spec
      (foldl (fun (acc : Z * float * Z) n =>
                let '(bestID, bestDist, i) := acc in
                if PrimFloat.ltb (distSq (NPos n) p) bestDist
                then (i, distSq (NPos n) p, (i + 1)%Z) else (bestID, bestDist, (i + 1)%Z))
             (0, distSq (NPos n0) p, 1) rest).1.1 0); [lia|done].
Qed.

End Nearest.

Section Crossing.

Local Open Scope float_scope.

(** The test [segmentsCross] makes of a segment: its ends are within 0.5 of
    the same height. *)
Definition nearlyHorizontal (p q : Point) : bool := abs (Y p - Y q) <? 0.5.

(** Two segments cross in either order; two segments that are both nearly
    horizontal, or both not, never cross, and so no segment crosses itself. *)
Theorem segmentsCross_symmetric (a1 a2 b1 b2 : Point) :
  segmentsCross a1 a2 b1 b2 = segmentsCross b1 b2 a1 a2 /\
  (nearlyHorizontal a1 a2 = nearlyHorizontal b1 b2 -> segmentsCross a1 a2 b1 b2 = false) /\
  segmentsCross a1 a2 a1 a2 = false.
Proof.
  unfold segmentsCross, nearlyHorizontal. cbv zeta.
  destruct (abs (Y a1 - Y a2) <? 0.5), (abs (Y b1 - Y b2) <? 0.5); simpl; repeat split; done.
Qed.

End Crossing.

(** ** The priority queue and the length of routes *)

Section Heap.

Lemma pqSwap_perm pq i j : pqSwap pq i j ≡ₚ pq.
Proof.
  unfold pqSwap. destruct (pq !! i) as [a|] eqn:Ha; [|done].
  destruct (pq !! j) as [b|] eqn:Hb; [|done].
  apply Permutation_inj. split; [by rewrite !length_insert|].
  exists (fun x => if decide (x = j) then i else if decide (x = i) then j else x). split.
  - intros x y. repeat case_decide; intros; subst; congruence.
  - intros x. pose proof (lookup_lt_Some _ _ _ Ha). pose proof (lookup_lt_Some _ _ _ Hb).
    destruct (decide (x = j)) as [->|Hj].
    + rewrite list_lookup_insert_eq by (by rewrite length_insert). done.
    + rewrite list_lookup_insert_ne by done.
      destruct (decide (x = i)) as [->|Hi].
      * by rewrite list_lookup_insert_eq.
      * by rewrite list_lookup_insert_ne.
Qed.

Lemma up_perm fuel : forall pq j, up fuel pq j ≡ₚ pq.
Proof.
  induction fuel as [|fuel IH]; intros pq j; simpl; [done|].
  destruct (_ || _); [done|]. rewrite IH. apply pqSwap_perm.
Qed.

Lemma down_perm fuel : forall pq i n, down fuel pq i n ≡ₚ pq.
Proof.
  induction fuel as [|fuel IH]; intros pq i n; simpl; [done|].
  destruct (_ <=? _)%nat; [done|]. destruct (negb _); [done|].
  rewrite IH. apply pqSwap_perm.
Qed.

Lemma heapPush_perm pq x : heapPush pq x ≡ₚ x :: pq.
Proof. unfold heapPush. rewrite up_perm. symmetry. apply Permutation_cons_append. Qed.

Lemma heapPop_None pq : heapPop pq = None <-> pq = [].
Proof.
  unfold heapPop. cbv zeta.
  set (pq1 := down _ _ _ _).
  assert (length pq1 = length pq) as Hlen
    by (apply Permutation_length; unfold pq1; by rewrite down_perm, pqSwap_perm).
  split.
  - intros H. destruct (pq1 !! (length pq - 1)%nat) eqn:E; [done|].
    apply lookup_ge_None in E. destruct pq; [done|]. simpl in *. lia.
  - intros ->. reflexivity.
Qed.

Lemma heapPop_perm pq x pq' : heapPop pq = Some (x, pq') -> pq ≡ₚ x :: pq'.
Proof.
  unfold heapPop. cbv zeta.
  set (pq1 := down _ _ _ _).
  assert (pq1 ≡ₚ pq) as Hp by (unfold pq1; by rewrite down_perm, pqSwap_perm).
  destruct (pq1 !! (length pq - 1)%nat) as [item|] eqn:E; [|done].
  simpl. intros [= <- <-]. transitivity pq1; [by symmetry|].
  pose proof (take_drop_middle pq1 _ _ E) as Hmid.
  rewrite drop_ge in Hmid by (rewrite (Permutation_length Hp); lia).
  rewrite <- Hmid at 1. symmetry. apply Permutation_cons_append.
Qed.

(** The queue of the search is a bag of states: [heap.Push] adds the state,
    [heap.Pop] takes one state out and leaves the others, and only the
    empty queue has nothing to pop. *)
Theorem heap_keeps_states :
  (forall pq x, heapPush pq x ≡ₚ x :: pq) /\
  (forall pq, heapPop pq = None <-> pq = []) /\
  (forall pq x pq', heapPop pq = Some (x, pq') -> pq ≡ₚ x :: pq').
Proof.
  split; [apply heapPush_perm|]. split; [apply heapPop_None|apply heapPop_perm].
Qed.

End Heap.

Section SimplifyLength.

Lemma dedupe_length prev l : (length (dedupe prev l) <= length l)%nat.
Proof.
  revert prev. induction l as [|p l IH]; intros prev; simpl; [done|].
  destruct (_ || _); simpl.
  - specialize (IH p). lia.
  - specialize (IH prev). lia.
Qed.

Lemma secondPass_length l : forall prev,
  (length (secondPass prev l) <= length l)%nat /\ (l <> [] -> secondPass prev l <> []).
Proof.
  induction l as [|curr tl IH]; intros prev; [done|].
  destruct tl as [|next tl'].
  - simpl. split; [lia|done].
  - change (secondPass prev (curr :: next :: tl')) with
      (if collinear prev curr next then secondPass prev (next :: tl')
       else let curr' := snapToNext (snapToPrev prev curr) next in
            curr' :: secondPass curr' (next :: tl')).
    destruct (collinear prev curr next).
    + destruct (IH prev) as [I1 I2]. split; [simpl in *; lia|]. intros _. by apply I2.
    + cbv zeta. destruct (IH (snapToNext (snapToPrev prev curr) next)) as [I1 I2].
      split; [simpl in *; lia|done].
Qed.

(** [simplifyRoute] never makes a route longer and never empties one; it
    keeps at least two points exactly when the route has two points that are
    not within tolerance of each other on both axes (the first pass keeps
    two). *)
Theorem simplifyRoute_shorter (r : list Point) :
  (length (simplifyRoute r) <= length r)%nat /\
  (length (simplifyRoute r) = 0%nat <-> r = []) /\
  ((2 <= length (simplifyRoute r))%nat <-> (2 <= length (deduped r))%nat).
Proof.
  destruct r as [|p0 [|p1 rest]]; [simpl; repeat split; try done; lia| simpl; repeat split; try done; lia|].
  unfold simplifyRoute, deduped.
  pose proof (dedupe_length p0 (p1 :: rest)) as Hd.
  destruct (length (p0 :: dedupe p0 (p1 :: rest)) <=? 2)%nat eqn:E.
  - simpl in *. repeat split; try done; lia.
  - apply Nat.leb_gt in E.
    destruct (secondPass_length (dedupe p0 (p1 :: rest)) p0) as [H1 H2].
    assert (secondPass p0 (dedupe p0 (p1 :: rest)) <> []) as Hne.
    { apply H2. intros H0. rewrite H0 in E. simpl in E. lia. }
    destruct (secondPass p0 (dedupe p0 (p1 :: rest))) eqn:Es; [done|].
    simpl in *. repeat split; try done; lia.
Qed.

End SimplifyLength.

(** ** Paths of the search *)

Section DijkstraPaths.

(** The graph has an edge from node [a] to node [b]. *)
Definition edgeTo (rg : RoutingGraph) (a b : Z) : Prop :=
  exists e, e ∈ default [] (Adj rg !! a) /\ To e = b.

(** Every node of the list is joined to the next by an edge of the graph. *)
Fixpoint linked (rg : RoutingGraph) (l : list Z) : Prop :=
  match l with
  | a :: ((b :: _) as rest) => edgeTo rg a b /\ linked rg rest
  | _ => True
  end.

Variables (rg : RoutingGraph) (srcNode : Z).

(** A state key that is the source or has a recorded parent. *)
Definition rooted (par : gmap stateKey stateKey) (k : stateKey) : Prop :=
  k.1 = srcNode \/ is_Some (par !! k).

(** The parents of the search follow edges of the graph back to the source,
    and every queued state has one. *)
Definition searchOK (st : Search) : Prop :=
  (forall k p, parent st !! k = Some p -> edgeTo rg p.1 k.1 /\ rooted (parent st) p) /\
  (forall s, s ∈ pq st -> rooted (parent st) (NodeID s, SDirection s)).

Lemma rooted_insert par k p q : rooted par q -> rooted (<[k := p]> par) q.
Proof.
  intros [H|H]; [by left|]. right. apply lookup_insert_is_Some.
  destruct (decide (k = q)); [by left|by right].
Qed.

Lemma relax_ok cur st edge :
  edge ∈ default [] (Adj rg !! NodeID cur) ->
  rooted (parent st) (NodeID cur, SDirection cur) ->
  searchOK st ->
  searchOK (relax srcNode cur st edge) /\
  rooted (parent (relax srcNode cur st edge)) (NodeID cur, SDirection cur).
Proof.
  intros He Hcur [Hpar Hpq].
  assert (searchOK (mkSearch (<[(To edge, EOrientation edge) := newState srcNode cur edge]> (best st))
            (<[(To edge, EOrientation edge) := (NodeID cur, SDirection cur)]> (parent st))
            (visited st) (heapPush (pq st) (newState srcNode cur edge))) /\
          rooted (<[(To edge, EOrientation edge) := (NodeID cur, SDirection cur)]> (parent st))
                 (NodeID cur, SDirection cur)) as Hnew.
  { split; [|by apply rooted_insert]. split; simpl.
    - intros k p Hk. apply lookup_insert_Some in Hk as [[<- <-]|[Hne Hk]].
      + split; [by exists edge|by apply rooted_insert].
      + destruct (Hpar k p Hk). split; [done|by apply rooted_insert].
    - intros s Hs. apply heapPush_elem in Hs.
      destruct Hs as [->|Hs].
      + right. simpl. rewrite lookup_insert_eq. eauto.
      + apply rooted_insert. by apply Hpq. }
  unfold relax. cbv zeta. destruct (bool_decide _); [done|].
  destruct (best st !! _) as [b|]; [destruct (negb _); [done|]|]; exact Hnew.
Qed.

Lemma expand_ok cur st :
  rooted (parent st) (NodeID cur, SDirection cur) ->
  searchOK st ->
  searchOK (foldl (relax srcNode cur) st (default [] (Adj rg !! NodeID cur))).
Proof.
  assert (forall edges st,
    (forall e, e ∈ edges -> e ∈ default [] (Adj rg !! NodeID cur)) ->
    rooted (parent st) (NodeID cur, SDirection cur) -> searchOK st ->
    searchOK (foldl (relax srcNode cur) st edges)) as H.
  { induction edges as [|e edges IH]; intros st0 Hin Hcur Hok; simpl; [done|].
    destruct (relax_ok cur st0 e) as [H1 H2]; auto; [apply Hin; left|].
    apply IH; auto. intros e' He'. apply Hin. by right. }
  intros Hcur Hok. by apply H.
Qed.

Lemma reconstructPath_linked par fuel : forall cur acc path,
  (forall k p, par !! k = Some p -> edgeTo rg p.1 k.1 /\ rooted par p) ->
  rooted par cur ->
  linked rg (cur.1 :: acc) ->
  reconstructPath fuel par cur srcNode acc = Some path ->
  linked rg (srcNode :: path) /\ exists pre, path = pre ++ acc.
Proof.
  induction fuel as [|fuel IH]; intros cur acc path Hpar Hcur Hl; simpl.
  - destruct (Z.eqb_spec cur.1 srcNode) as [E|E]; [|done].
    intros [= <-]. rewrite <- E. split; [done|by exists []].
  - destruct (Z.eqb_spec cur.1 srcNode) as [E|E].
    { intros [= <-]. rewrite <- E. split; [done|by exists []]. }
    destruct Hcur as [?|[prev Hprev]]; [done|]. rewrite Hprev.
    destruct (Hpar _ _ Hprev) as [He Hr].
    intros H. apply IH in H as [H1 [pre ->]]; auto.
    + split; [done|]. exists (pre ++ [cur.1]). by rewrite <- app_assoc.
    + split; done.
Qed.

Lemma dijkstraLoop_linked dstNode fuel : forall st path,
  srcNode <> dstNode ->
  searchOK st ->
  dijkstraLoop fuel rg srcNode dstNode st = Some path ->
  path = [] \/ (last path = Some dstNode /\ linked rg (srcNode :: path)).
Proof.
  induction fuel as [|fuel IH]; intros st path Hne Hok; simpl; [done|].
  destruct (heapPop (pq st)) as [[cur pq']|] eqn:Hpop; [|intros [= <-]; by left].
  pose proof (heapPop_perm _ _ _ Hpop) as Hperm.
  destruct Hok as [Hpar Hpq].
  assert (rooted (parent st) (NodeID cur, SDirection cur)) as Hcur.
  { apply Hpq. rewrite Hperm. left. }
  assert (forall s, s ∈ pq' -> rooted (parent st) (NodeID s, SDirection s)) as Hpq'.
  { intros s Hs. apply Hpq. rewrite Hperm. by right. }
  destruct (bool_decide _).
  { apply IH; [done|]. split; done. }
  destruct (Z.eqb_spec (NodeID cur) dstNode) as [E|E].
  - simpl. destruct (Z.eqb_spec (NodeID cur) srcNode) as [E2|E2]; [congruence|].
    destruct Hcur as [?|[prev Hprev]]; [done|]. rewrite Hprev.
    destruct (Hpar _ _ Hprev) as [He Hr].
    intros H. apply reconstructPath_linked in H as [H1 [pre ->]]; auto.
    + right. split; [|done]. simpl. rewrite E. apply last_snoc.
    + simpl. done.
  - apply IH; [done|]. apply expand_ok; [done|]. split; done.
Qed.

(** A path [dijkstraRoute] returns is the source alone when source and
    destination are the same node, is empty when the search found none, and
    otherwise ends at the destination and follows edges of the routing
    graph all the way from the source. *)
Theorem dijkstraRoute_follows_edges fuel dstNode path :
  dijkstraRoute fuel rg srcNode dstNode = Some path ->
  (srcNode = dstNode /\ path = [srcNode]) \/
  (srcNode <> dstNode /\
   (path = [] \/ (last path = Some dstNode /\ linked rg (srcNode :: path)))).
Proof.
  unfold dijkstraRoute. destruct (Z.eqb_spec srcNode dstNode) as [E|E].
  - intros [= <-]. by left.
  - intros H. right. split; [done|]. apply (dijkstraLoop_linked dstNode fuel (seed srcNode) _ E); [|done].
    split; [done|]. intros s Hs. left.
    unfold seed in Hs. simpl in Hs.
    apply heapPush_elem in Hs as [->|Hs]; [done|].
    apply heapPush_elem in Hs as [->|Hs]; [done|]. by apply elem_of_nil in Hs.
Qed.

End DijkstraPaths.

Lemma dijkstraRoute_follows_edges_witness :
  dijkstraRoute 20 squareGraph 0 3 = Some [2; 3] /\
  ((0 = 3 /\ [2; 3] = [0]) \/
   (0 <> 3 /\
    ([2; 3] = [] \/ (last [2; 3] = Some 3 /\ linked squareGraph (0 :: [2; 3]))))).
Proof.
  assert (dijkstraRoute 20 squareGraph 0 3 = Some [2; 3]) as H by (vm_compute; reflexivity).
  split; [exact H|]. exact (dijkstraRoute_follows_edges squareGraph 0 20 3 [2; 3] H).
Defined.

(** ** The search ends *)

Section DijkstraEnds.

Variables (rg : RoutingGraph) (srcNode : Z).

(** Every edge of the adjacency lists. *)
Definition allEdges : list RoutingGraphEdge := concat ((map_to_list (Adj rg)).*2).

(** The state keys the search can meet: the two seeds and the far end of
    every edge with the orientation of the edge. *)
Definition searchKeys : gset stateKey :=
  {[ (srcNode, Horizontal); (srcNode, Vertical) ]} ∪
  list_to_set ((fun e => (To e, EOrientation e)) <$> allEdges).

(** Rounds of the loop of [dijkstraRoute] that are enough: a key is
    expanded once and queues at most one state for each edge. *)
Definition searchBound : nat :=
  S (2 + S (length allEdges) * size searchKeys + size searchKeys).

Definition keyOf (s : DijkstraState) : stateKey := (NodeID s, SDirection s).

(** The chain of parents from [k] stays in [V] and ends within [n]
    steps. *)
Fixpoint anchored (V : gset stateKey) (par : gmap stateKey stateKey) (n : nat) (k : stateKey)
    : Prop :=
  k.1 = srcNode \/
  match n with
  | O => False
  | S m =>
      match par !! k with
      | None => True
      | Some p => p ∈ V /\ anchored V par m p
      end
  end.

Lemma anchored_S V par n : forall k, anchored V par n k -> anchored V par (S n) k.
Proof.
  induction n as [|n IH]; intros k [H|H]; [by left|done|by left|].
  right. destruct (par !! k) as [p|]; [|done]. destruct H as [Hp H]. split; [done|by apply IH].
Qed.

Lemma anchored_grow V V' par n : forall k,
  V ⊆ V' -> anchored V par n k -> anchored V' par n k.
Proof.
  induction n as [|n IH]; intros k HV [H|H]; [by left|done|by left|].
  right. simpl in *. destruct (par !! k) as [p|]; [|done]. destruct H as [Hp H].
  split; [by apply HV|by apply IH].
Qed.

Lemma anchored_insert V par n key p0 : forall k,
  key ∉ V -> k <> key -> anchored V par n k -> anchored V (<[key := p0]> par) n k.
Proof.
  induction n as [|n IH]; intros k Hkey Hk [H|H]; [by left|done|by left|].
  right. simpl in *. rewrite lookup_insert_ne by done.
  destruct (par !! k) as [p|]; [|done]. destruct H as [Hp H].
  split; [done|]. apply IH; [done| |done]. intros ->. done.
Qed.

Lemma reconstructPath_total V par n : forall fuel k acc,
  (n <= fuel)%nat -> anchored V par n k ->
  exists path, reconstructPath fuel par k srcNode acc = Some path.
Proof.
  induction n as [|n IH]; intros fuel k acc Hf [H|H]; try done.
  - destruct fuel; simpl; rewrite (proj2 (Z.eqb_eq _ _) H); eauto.
  - destruct fuel; simpl; rewrite (proj2 (Z.eqb_eq _ _) H); eauto.
  - destruct fuel as [|fuel]; [lia|]. simpl.
    destruct (k.1 =? srcNode); [eauto|].
    simpl in H. destruct (par !! k) as [p|]; [|eauto].
    destruct H as [_ H]. apply IH; [lia|done].
Qed.

Definition searchInv (st : Search) : Prop :=
  visited st ⊆ searchKeys /\
  (forall s, s ∈ pq st -> keyOf s ∈ searchKeys) /\
  (forall k p, parent st !! k = Some p -> p ∈ visited st) /\
  (forall k, k ∈ visited st -> anchored (visited st) (parent st) (size (visited st)) k).

Lemma edge_key node e :
  e ∈ default [] (Adj rg !! node) -> (To e, EOrientation e) ∈ searchKeys.
Proof.
  intros He. destruct (Adj rg !! node) as [l|] eqn:E; simpl in He; [|by apply elem_of_nil in He].
  apply elem_of_union. right. apply elem_of_list_to_set, list_elem_of_fmap.
  exists e. split; [done|]. unfold allEdges. apply list_elem_of_In, in_concat. exists l.
  split; [|by apply list_elem_of_In]. apply list_elem_of_In, list_elem_of_fmap.
  exists (node, l). split; [done|]. by apply elem_of_map_to_list.
Qed.

Lemma concat_length_elem {A} (l : list A) ls : l ∈ ls -> (length l <= length (concat ls))%nat.
Proof.
  induction ls as [|l' ls IH]; intros H; [by apply elem_of_nil in H|].
  simpl. rewrite length_app. apply elem_of_cons in H as [->|H]; [lia|]. specialize (IH H). lia.
Qed.

Lemma degree_bound node :
  (length (default [] (Adj rg !! node)) <= length allEdges)%nat.
Proof.
  destruct (Adj rg !! node) as [l|] eqn:E; simpl; [|lia].
  assert (l ∈ (map_to_list (Adj rg)).*2) as Hl.
  { apply list_elem_of_fmap. exists (node, l). split; [done|]. by apply elem_of_map_to_list. }
  by apply concat_length_elem.
Qed.

Lemma relax_inv cur st edge :
  edge ∈ default [] (Adj rg !! NodeID cur) ->
  keyOf cur ∈ visited st ->
  searchInv st ->
  let st' := relax srcNode cur st edge in
  searchInv st' /\ visited st' = visited st /\ (length (pq st') <= S (length (pq st)))%nat.
Proof.
  intros He Hcur (I1 & I2 & I3 & I4). cbv zeta.
  assert (searchInv st /\ visited st = visited st /\ (length (pq st) <= S (length (pq st)))%nat)
    as Hsame by (split; [done|split; [done|lia]]).
  set (ns := newState srcNode cur edge). set (newKey := (To edge, EOrientation edge)).
  assert (newKey ∉ visited st ->
          let st' := mkSearch (<[newKey := ns]> (best st))
                              (<[newKey := (NodeID cur, SDirection cur)]> (parent st))
                              (visited st) (heapPush (pq st) ns) in
          searchInv st' /\ visited st' = visited st /\
          (length (pq st') <= S (length (pq st)))%nat) as Hnew.
  { intros Hout. cbv zeta. split; [|split; [done|]].
    - split; [done|]. split; [|split]; simpl.
      + intros s Hs. rewrite heapPush_perm in Hs. apply elem_of_cons in Hs as [->|Hs]; [|auto].
        by eapply edge_key.
      + intros k p Hk. apply lookup_insert_Some in Hk as [[_ <-]|[_ Hk]]; [done|eauto].
      + intros k Hk. apply anchored_insert; [done| |auto]. intros ->. done.
    - simpl. by rewrite (Permutation_length (heapPush_perm _ _)). }
  unfold relax. fold ns newKey. cbv zeta.
  destruct (decide (newKey ∈ visited st)) as [Hin|Hout].
  { by rewrite bool_decide_eq_true_2. }
  rewrite bool_decide_eq_false_2 by done.
  destruct (best st !! newKey) as [b|]; [destruct (negb _); [done|]|]; by apply Hnew.
Qed.

Lemma expand_inv cur edges : forall st,
  (forall e, e ∈ edges -> e ∈ default [] (Adj rg !! NodeID cur)) ->
  keyOf cur ∈ visited st ->
  searchInv st ->
  let st' := foldl (relax srcNode cur) st edges in
  searchInv st' /\ visited st' = visited st /\
  (length (pq st') <= length edges + length (pq st))%nat.
Proof.
  induction edges as [|e edges IH]; intros st Hin Hcur Hinv; cbv zeta; cbn [foldl].
  { split; [done|]. split; [done|]. simpl. lia. }
  destruct (relax_inv cur st e) as (H1 & H2 & H3); [apply Hin; left|done|done|].
  destruct (IH (relax srcNode cur st e)) as (J1 & J2 & J3);
    [intros e' He'; apply Hin; by right|by rewrite H2|done|].
  split; [done|]. split; [by rewrite J2|]. simpl. cbv zeta in *. lia.
Qed.

Lemma dijkstraLoop_total dstNode fuel : forall st,
  searchInv st ->
  (length (pq st) + S (length allEdges) * size searchKeys + size searchKeys
   < fuel + S (length allEdges) * size (visited st))%nat ->
  exists path, dijkstraLoop fuel rg srcNode dstNode st = Some path.
Proof.
  set (W := S (length allEdges)).
  induction fuel as [|fuel IH]; intros st Hinv Hfuel.
  { destruct Hinv as (I1 & _). apply subseteq_size in I1.
    assert (W * size (visited st) <= W * size searchKeys)%nat by (apply Nat.mul_le_mono_l; lia).
    lia. }
  simpl. destruct (heapPop (pq st)) as [[cur pq']|] eqn:Hpop; [|eauto].
  pose proof (heapPop_perm _ _ _ Hpop) as Hperm.
  pose proof (Permutation_length Hperm) as Hlen. simpl in Hlen.
  destruct Hinv as (I1 & I2 & I3 & I4).
  assert (keyOf cur ∈ searchKeys) as HcurK by (apply I2; rewrite Hperm; left).
  assert (forall s, s ∈ pq' -> keyOf s ∈ searchKeys) as I2'
    by (intros s Hs; apply I2; rewrite Hperm; by right).
  fold (keyOf cur).
  destruct (decide (keyOf cur ∈ visited st)) as [Hin|Hout].
  { rewrite bool_decide_eq_true_2 by done. apply IH; [done|]. simpl. lia. }
  rewrite bool_decide_eq_false_2 by done.
  set (V' := {[keyOf cur]} ∪ visited st).
  assert (size V' = S (size (visited st))) as HsV.
  { unfold V'. rewrite size_union, size_singleton; [done|]. 
    intros x Hx1 Hx2. apply elem_of_singleton in Hx1 as ->. done. }
  assert (V' ⊆ searchKeys) as HV'.
  { intros x Hx. apply elem_of_union in Hx as [Hx|Hx]; [|by apply I1].
    by apply elem_of_singleton in Hx as ->. }
  pose proof (subseteq_size _ _ HV') as HsK.
  assert (searchInv (mkSearch (best st) (parent st) V' pq')) as Hinv1.
  { split; [done|]. split; [done|]. split; simpl.
    - intros k p Hk. apply elem_of_union. right. eauto.
    - intros k Hk. rewrite HsV. apply elem_of_union in Hk as [Hk|Hk].
      + apply elem_of_singleton in Hk as ->. right.
        destruct (parent st !! keyOf cur) as [p|] eqn:Hp; [|done].
        pose proof (I3 _ _ Hp) as HpV. split; [apply elem_of_union; by right|].
        apply (anchored_grow (visited st)); [apply union_subseteq_r|auto].
      + apply anchored_S, (anchored_grow (visited st)); [apply union_subseteq_r|auto]. }
  destruct (NodeID cur =? dstNode).
  - simpl. apply (reconstructPath_total V' (parent st) (size V') (S fuel) (keyOf cur) []).
    + assert (W * size (visited st) <= W * size searchKeys)%nat
        by (apply Nat.mul_le_mono_l; lia). lia.
    + destruct Hinv1 as (_ & _ & _ & H4). apply H4. apply elem_of_union. left.
      by apply elem_of_singleton.
  - destruct (expand_inv cur (default [] (Adj rg !! NodeID cur))
                (mkSearch (best st) (parent st) V' pq')) as (E1 & E2 & E3);
      [done|apply elem_of_union; left; by apply elem_of_singleton|done|].
    apply IH; [done|]. rewrite E2. simpl in E3 |- *. rewrite HsV.
    pose proof (degree_bound (NodeID cur)).
    rewrite Nat.mul_succ_r. fold W. lia.
Qed.

(** [dijkstraRoute] ends: after [searchBound] rounds of its loop at the
    latest it has answered, with a path or with none. *)
Theorem dijkstraRoute_terminates dstNode fuel :
  (searchBound <= fuel)%nat ->
  exists path, dijkstraRoute fuel rg srcNode dstNode = Some path.
Proof.
  intros Hfuel. unfold dijkstraRoute. destruct (srcNode =? dstNode); [eauto|].
  apply dijkstraLoop_total.
  - split; [done|]. split; [|split; [done|done]].
    intros s Hs. unfold seed in Hs. cbn [foldl] in Hs. unfold seedOne in Hs. cbn [pq] in Hs.
    rewrite !heapPush_perm in Hs.
    apply elem_of_union. left.
    apply elem_of_cons in Hs as [->|Hs]; [set_solver|].
    apply elem_of_cons in Hs as [->|Hs]; [set_solver|]. by apply elem_of_nil in Hs.
  - unfold seed. cbn [foldl]. unfold seedOne. cbn [pq visited].
    rewrite (Permutation_length (heapPush_perm _ _)). cbn [length].
    rewrite (Permutation_length (heapPush_perm _ _)). cbn [length].
    rewrite size_empty, Nat.mul_0_r. unfold searchBound in Hfuel. lia.
Qed.

End DijkstraEnds.

Lemma dijkstraRoute_terminates_witness :
  (searchBound squareGraph 0 <= 200)%nat /\
  exists path, dijkstraRoute 200 squareGraph 0 3 = Some path.
Proof.
  assert (searchBound squareGraph 0 <= 200)%nat as H by (apply Nat.leb_le; vm_compute; reflexivity).
  split; [exact H|]. exact (dijkstraRoute_terminates squareGraph 0 3 200 H).
Defined.

(** ** Seeds and expansion of the search *)

Section DijkstraExpansion.

(** The key under which the state built for [edge] is recorded. *)
Definition edgeKey (edge : RoutingGraphEdge) : stateKey := (To edge, EOrientation edge).

(** Node [b] is reached from node [a] along edges of the graph. *)
Inductive connected (rg : RoutingGraph) (a : Z) : Z -> Prop :=
  | connected_here : connected rg a a
  | connected_edge b c : connected rg a b -> edgeTo rg b c -> connected rg a c.

Variables (rg : RoutingGraph) (srcNode : Z).

(** A key the search has met: expanded already, or waiting in the queue. *)
Definition known (st : Search) (k : stateKey) : Prop :=
  k ∈ visited st \/ exists s, s ∈ pq st /\ keyOf s = k.

Lemma relax_visited cur st edge : visited (relax srcNode cur st edge) = visited st.
Proof.
  unfold relax. cbv zeta. destruct (bool_decide _); [done|].
  by destruct (best st !! _) as [b|]; [destruct (negb _)|].
Qed.

Lemma relax_keeps cur st edge s : s ∈ pq st -> s ∈ pq (relax srcNode cur st edge).
Proof.
  intros Hs. unfold relax. cbv zeta. destruct (bool_decide _); [done|].
  destruct (best st !! _) as [b|]; [destruct (negb _); [done|]|];
    cbn [pq]; rewrite heapPush_perm; by right.
Qed.

Lemma foldl_relax_visited cur edges : forall st,
  visited (foldl (relax srcNode cur) st edges) = visited st.
Proof.
  induction edges as [|e edges IH]; intros st; cbn [foldl]; [done|].
  by rewrite IH, relax_visited.
Qed.

Lemma foldl_relax_keeps cur edges s : forall st,
  s ∈ pq st -> s ∈ pq (foldl (relax srcNode cur) st edges).
Proof.
  induction edges as [|e edges IH]; intros st Hs; cbn [foldl]; [done|].
  by apply IH, relax_keeps.
Qed.

(** What one pass of the loop body does for [edge]: nothing when the key of
    the edge is expanded already or holds a state that the new one is not
    better than; otherwise the new state is recorded and queued. *)
Lemma relax_cases cur st edge :
  (relax srcNode cur st edge = st /\
   (edgeKey edge ∈ visited st \/
    exists b, best st !! edgeKey edge = Some b /\
              Less (newState srcNode cur edge) b = false)) \/
  ((edgeKey edge ∉ visited st) /\
   (best st !! edgeKey edge = None \/
    exists b, best st !! edgeKey edge = Some b /\
              Less (newState srcNode cur edge) b = true) /\
   best (relax srcNode cur st edge) = <[edgeKey edge := newState srcNode cur edge]> (best st) /\
   parent (relax srcNode cur st edge) = <[edgeKey edge := keyOf cur]> (parent st) /\
   visited (relax srcNode cur st edge) = visited st /\
   pq (relax srcNode cur st edge) ≡ₚ newState srcNode cur edge :: pq st).
Proof.
  unfold relax, edgeKey. cbv zeta.
  destruct (decide ((To edge, EOrientation edge) ∈ visited st)) as [Hin|Hout].
  { rewrite bool_decide_eq_true_2 by done. left. split; [done|by left]. }
  rewrite bool_decide_eq_false_2 by done.
  destruct (best st !! (To edge, EOrientation edge)) as [b|] eqn:Hb.
  - destruct (Less (newState srcNode cur edge) b) eqn:Hl; cbn [negb].
    + right. split; [done|]. split; [right; by exists b|].
      repeat split; try done. cbn [pq]. apply heapPush_perm.
    + left. split; [done|]. right. by exists b.
  - right. split; [done|]. split; [by left|].
    repeat split; try done. cbn [pq]. apply heapPush_perm.
Qed.

(** The records of a key after the loop over [edges]: left as they were, or
    those of an edge of the list with that key, whose state is queued. *)
Lemma foldl_relax_records cur edges k : forall st,
  let st' := foldl (relax srcNode cur) st edges in
  (best st' !! k = best st !! k /\ parent st' !! k = parent st !! k) \/
  (exists e, e ∈ edges /\ edgeKey e = k /\ (k ∉ visited st) /\
     best st' !! k = Some (newState srcNode cur e) /\
     parent st' !! k = Some (keyOf cur) /\
     newState srcNode cur e ∈ pq st').
Proof.
  induction edges as [|e0 edges IH]; intros st; cbv zeta; cbn [foldl]; [by left|].
  destruct (IH (relax srcNode cur st e0)) as [[Hb Hp]|(e & He & Hk & Hv & Hb & Hp & Hq)].
  - destruct (relax_cases cur st e0) as [[Hst _]|(Hv & _ & Hb1 & Hp1 & _ & Hq1)];
      [rewrite Hst in *; by left|].
    destruct (decide (edgeKey e0 = k)) as [E|E].
    + right. exists e0. split; [by left|]. split; [done|]. split; [by rewrite <- E|].
      rewrite Hb, Hp, Hb1, Hp1, E, !lookup_insert_eq. split; [done|]. split; [done|].
      apply foldl_relax_keeps. rewrite Hq1. by left.
    + left. by rewrite Hb, Hp, Hb1, Hp1, !lookup_insert_ne.
  - right. exists e. split; [by right|]. rewrite relax_visited in Hv. done.
Qed.

(** Every edge of the list whose key is not yet expanded is taken up: its
    key is recorded with the state of an edge of the list, or the state of
    the edge is not better than the one the key already had. *)
Lemma foldl_relax_expands cur edges : forall st e,
  e ∈ edges -> edgeKey e ∉ visited st ->
  let st' := foldl (relax srcNode cur) st edges in
  (exists e', e' ∈ edges /\ edgeKey e' = edgeKey e /\
     best st' !! edgeKey e = Some (newState srcNode cur e') /\
     parent st' !! edgeKey e = Some (keyOf cur) /\
     newState srcNode cur e' ∈ pq st') \/
  (exists b, best st !! edgeKey e = Some b /\ best st' !! edgeKey e = Some b /\
     parent st' !! edgeKey e = parent st !! edgeKey e /\
     Less (newState srcNode cur e) b = false).
Proof.
  induction edges as [|e0 edges IH]; intros st e He Hv; cbv zeta; cbn [foldl];
    [by apply elem_of_nil in He|].
  apply elem_of_cons in He as [->|He].
  - destruct (foldl_relax_records cur edges (edgeKey e0) (relax srcNode cur st e0))
      as [[Hb Hp]|(e & He & Hk & _ & Hb & Hp & Hq)].
    + destruct (relax_cases cur st e0) as [[Hst [?|(b & Hb0 & Hl)]]|(_ & _ & Hb1 & Hp1 & _ & Hq1)];
        [done| |].
      * rewrite Hst in *. right. exists b. by rewrite Hb, Hp.
      * left. exists e0. split; [by left|]. split; [done|].
        rewrite Hb, Hp, Hb1, Hp1, !lookup_insert_eq. split; [done|]. split; [done|].
        apply foldl_relax_keeps. rewrite Hq1. by left.
    + left. exists e. split; [by right|]. done.
  - destruct (IH (relax srcNode cur st e0) e He) as
      [(e' & He' & Hk & Hb & Hp & Hq)|(b & Hb1 & Hb & Hp & Hl)];
      [by rewrite relax_visited| |].
    + left. exists e'. split; [by right|]. done.
    + destruct (relax_cases cur st e0) as [[Hst _]|(_ & _ & Hb0 & Hp0 & _ & Hq0)].
      * rewrite Hst in *. right. by exists b.
      * destruct (decide (edgeKey e0 = edgeKey e)) as [E|E].
        -- left. exists e0. split; [by left|]. split; [done|].
           rewrite Hb0, <- E, lookup_insert_eq in Hb1. injection Hb1 as <-.
           rewrite <- E in Hb, Hp |- *. rewrite Hb, Hp, Hp0, lookup_insert_eq.
           split; [done|]. split; [done|].
           apply foldl_relax_keeps. rewrite Hq0. by left.
        -- right. exists b. rewrite Hb0, lookup_insert_ne in Hb1 by done.
           rewrite Hp0, lookup_insert_ne in Hp by done. done.
Qed.

(** The queue after the loop over [edges]: the states it held, and new
    states of edges of the list whose key is not expanded. *)
Lemma foldl_relax_queue cur edges s : forall st,
  s ∈ pq (foldl (relax srcNode cur) st edges) ->
  s ∈ pq st \/
  exists e, e ∈ edges /\ (edgeKey e ∉ visited st) /\ s = newState srcNode cur e.
Proof.
  induction edges as [|e0 edges IH]; intros st; cbn [foldl]; [by left|].
  intros Hs. apply IH in Hs as [Hs|(e & He & Hv & ->)].
  - destruct (relax_cases cur st e0) as [[Hst _]|(Hv & _ & _ & _ & _ & Hq)].
    + rewrite Hst in Hs. by left.
    + rewrite Hq in Hs. apply elem_of_cons in Hs as [->|Hs]; [|by left].
      right. exists e0. split; [by left|done].
  - right. exists e. rewrite relax_visited in Hv. split; [by right|done].
Qed.

(** *** The search finds the destination *)

Variable dstNode : Z.

(** Every recorded key has been met, the edges of every expanded key lead to
    keys that have been met, and no expanded key is at the destination. *)
Definition searchMet (st : Search) : Prop :=
  (forall k, is_Some (best st !! k) -> known st k) /\
  (forall k e, k ∈ visited st -> e ∈ default [] (Adj rg !! k.1) -> known st (edgeKey e)) /\
  (forall k, k ∈ visited st -> k.1 <> dstNode) /\
  known st (srcNode, Horizontal).

Lemma known_relax cur st edge k : known st k -> known (relax srcNode cur st edge) k.
Proof.
  intros [H|(s & Hs & Hk)]; [left; by rewrite relax_visited|].
  right. exists s. split; [by apply relax_keeps|done].
Qed.

Lemma known_foldl cur edges k : forall st,
  known st k -> known (foldl (relax srcNode cur) st edges) k.
Proof.
  induction edges as [|e edges IH]; intros st H; cbn [foldl]; [done|].
  by apply IH, known_relax.
Qed.

Lemma relax_met cur st edge :
  (forall k, is_Some (best st !! k) -> known st k) ->
  (forall k, is_Some (best (relax srcNode cur st edge) !! k) ->
             known (relax srcNode cur st edge) k) /\
  known (relax srcNode cur st edge) (edgeKey edge).
Proof.
  intros J1.
  destruct (relax_cases cur st edge) as [[Hst Hwhy]|(Hv & _ & Hb & Hp & Hvis & Hq)];
    cbv zeta in *.
  - rewrite Hst. split; [done|]. destruct Hwhy as [?|(b & Hb & _)]; [by left|].
    apply J1. by rewrite Hb.
  - assert (known (relax srcNode cur st edge) (edgeKey edge)) as Hnew.
    { right. exists (newState srcNode cur edge). split; [rewrite Hq; by left|done]. }
    split; [|done]. intros k Hk. rewrite Hb in Hk.
    apply lookup_insert_is_Some in Hk as [<-|[_ Hk]]; [done|].
    by apply known_relax, J1.
Qed.

Lemma foldl_relax_met cur edges : forall st,
  (forall k, is_Some (best st !! k) -> known st k) ->
  let st' := foldl (relax srcNode cur) st edges in
  (forall k, is_Some (best st' !! k) -> known st' k) /\
  (forall e, e ∈ edges -> known st' (edgeKey e)).
Proof.
  induction edges as [|e0 edges IH]; intros st J1; cbv zeta; cbn [foldl].
  { split; [done|]. by intros e ?%elem_of_nil. }
  destruct (relax_met cur st e0 J1) as [J1' Hk0].
  destruct (IH _ J1') as [H1 H2]. split; [done|].
  intros e He. apply elem_of_cons in He as [->|He]; [by apply known_foldl|by apply H2].
Qed.

Lemma reconstructPath_suffix par fuel : forall cur acc path,
  reconstructPath fuel par cur srcNode acc = Some path -> exists pre, path = pre ++ acc.
Proof.
  induction fuel as [|fuel IH]; intros cur acc path; simpl.
  - destruct (cur.1 =? srcNode); [|done]. intros [= <-]. by exists [].
  - destruct (cur.1 =? srcNode); [intros [= <-]; by exists []|].
    destruct (par !! cur) as [prev|].
    + intros (pre & ->)%IH. exists (pre ++ [cur.1]). by rewrite <- app_assoc.
    + intros [= <-]. by exists [cur.1].
Qed.

Lemma met_empty st :
  searchMet st -> pq st = [] -> forall n, connected rg srcNode n -> exists o, (n, o) ∈ visited st.
Proof.
  intros (J1 & J2 & J3 & J4) Hpq.
  assert (forall k, known st k -> k ∈ visited st) as Hall.
  { intros k [H|(s & Hs & _)]; [done|]. rewrite Hpq in Hs. by apply elem_of_nil in Hs. }
  induction 1 as [|b c Hab [o Ho] (e & He & <-)].
  - exists Horizontal. by apply Hall.
  - exists (EOrientation e). apply Hall. by apply (J2 (b, o)).
Qed.

Lemma dijkstraLoop_finds fuel : forall st path,
  srcNode <> dstNode ->
  connected rg srcNode dstNode ->
  searchMet st ->
  dijkstraLoop fuel rg srcNode dstNode st = Some path -> path <> [].
Proof.
  induction fuel as [|fuel IH]; intros st path Hne Hcon Hmet; simpl; [done|].
  destruct (heapPop (pq st)) as [[cur pq']|] eqn:Hpop.
  2:{ apply heapPop_None in Hpop. intros _.
      destruct (met_empty st Hmet Hpop dstNode Hcon) as [o Ho].
      destruct Hmet as (_ & _ & J3 & _). by destruct (J3 _ Ho). }
  pose proof (heapPop_perm _ _ _ Hpop) as Hperm.
  destruct Hmet as (J1 & J2 & J3 & J4).
  fold (keyOf cur).
  destruct (decide (keyOf cur ∈ visited st)) as [Hin|Hout].
  { rewrite bool_decide_eq_true_2 by done. apply IH; [done|done|].
    assert (forall k, known st k -> known (mkSearch (best st) (parent st) (visited st) pq') k)
      as Hmono.
    { intros k [H|(s & Hs & Hk)]; [by left|]. rewrite Hperm in Hs.
      apply elem_of_cons in Hs as [->|Hs]; [left; by rewrite <- Hk|].
      right. by exists s. }
    split; [|split; [|split]]; cbn [best visited].
    - intros k Hk. by apply Hmono, J1.
    - intros k e Hk He. apply Hmono. by apply (J2 k).
    - done.
    - by apply Hmono. }
  rewrite bool_decide_eq_false_2 by done.
  set (st1 := mkSearch (best st) (parent st) ({[keyOf cur]} ∪ visited st) pq').
  assert (forall k, known st k -> known st1 k) as Hmono.
  { intros k [H|(s & Hs & Hk)]; [left; apply elem_of_union; by right|]. rewrite Hperm in Hs.
    apply elem_of_cons in Hs as [->|Hs].
    - left. apply elem_of_union. left. by apply elem_of_singleton.
    - right. by exists s. }
  destruct (Z.eqb_spec (NodeID cur) dstNode) as [E|E].
  - destruct (Z.eqb_spec (NodeID cur) srcNode) as [E2|E2]; [congruence|].
    destruct (parent st !! keyOf cur) as [prev|].
    + intros H. apply reconstructPath_suffix in H as [pre ->]. by destruct pre.
    + by intros [= <-].
  - apply IH; [done|done|].
    destruct (foldl_relax_met cur (default [] (Adj rg !! NodeID cur)) st1) as [H1 H2].
    { intros k Hk. by apply Hmono, J1. }
    split; [done|]. split; [|split].
    + intros k e Hk He. rewrite foldl_relax_visited in Hk. cbn [visited st1] in Hk.
      apply elem_of_union in Hk as [Hk|Hk].
      * apply elem_of_singleton in Hk as ->. by apply H2.
      * apply known_foldl, Hmono. by apply (J2 k).
    + intros k Hk. rewrite foldl_relax_visited in Hk. cbn [visited st1] in Hk.
      apply elem_of_union in Hk as [Hk|Hk]; [|by apply J3].
      apply elem_of_singleton in Hk as ->. done.
    + by apply known_foldl, Hmono.
Qed.

Lemma seed_pq : pq (seed srcNode) = [seedState srcNode Horizontal; seedState srcNode Vertical].
Proof. reflexivity. Qed.

Lemma seed_met : searchMet (seed srcNode).
Proof.
  assert (forall o, known (seed srcNode) (srcNode, o)) as Hk.
  { intros o. right. exists (seedState srcNode o). split; [|done].
    rewrite seed_pq. destruct o; [left|right; left]. }
  split; [|split; [|split]]; [|done|done|apply Hk].
  intros k Hb. unfold seed in Hb. cbn [foldl] in Hb. unfold seedOne in Hb. cbn [best] in Hb.
  apply lookup_insert_is_Some in Hb as [<-|[_ Hb]]; [apply Hk|].
  apply lookup_insert_is_Some in Hb as [<-|[_ Hb]]; [apply Hk|].
  rewrite lookup_empty in Hb. by destruct Hb.
Qed.

Lemma seed_ok : searchOK rg srcNode (seed srcNode).
Proof.
  split; [done|]. intros s Hs. left. rewrite seed_pq in Hs.
  apply elem_of_cons in Hs as [->|Hs]; [done|].
  apply elem_of_cons in Hs as [->|Hs]; [done|]. by apply elem_of_nil in Hs.
Qed.

Lemma seed_inv : searchInv rg srcNode (seed srcNode).
Proof.
  split; [done|]. split; [|split; [done|done]].
  intros s Hs. rewrite seed_pq in Hs. unfold searchKeys. apply elem_of_union. left.
  apply elem_of_cons in Hs as [->|Hs]; [set_solver|].
  apply elem_of_cons in Hs as [->|Hs]; [set_solver|]. by apply elem_of_nil in Hs.
Qed.

Lemma dijkstraRoute_finds fuel :
  srcNode <> dstNode ->
  connected rg srcNode dstNode ->
  (searchBound rg srcNode <= fuel)%nat ->
  exists path,
    dijkstraRoute fuel rg srcNode dstNode = Some path /\
    last path = Some dstNode /\ linked rg (srcNode :: path).
Proof.
  intros Hne Hcon Hfuel. unfold dijkstraRoute. rewrite (proj2 (Z.eqb_neq _ _) Hne).
  destruct (dijkstraLoop_total rg srcNode dstNode fuel (seed srcNode)) as [path Hpath].
  { apply seed_inv. }
  { rewrite seed_pq. unfold seed. cbn [foldl]. unfold seedOne. cbn [visited length].
    rewrite size_empty, Nat.mul_0_r. unfold searchBound in Hfuel. lia. }
  exists path. split; [done|].
  destruct (dijkstraLoop_linked rg srcNode dstNode fuel _ _ Hne seed_ok Hpath) as [->|H];
    [|done].
  by destruct (dijkstraLoop_finds fuel _ _ Hne Hcon seed_met Hpath).
Qed.

End DijkstraExpansion.

Section DijkstraClaim.

Local Open Scope float_scope.

(** C2: [dijkstraRoute] with distinct source and destination runs its loop
    from the seeded search, which holds exactly the two states of the
    source, one per orientation, of length 0 and with 0 bends, recorded and
    queued.  A round of the loop pops a state; when the state is not yet
    expanded and not at the destination the round expands it along the
    edges of its node, one after the other: the new state of an edge is
    recorded, with the popped state as parent, and queued, unless the key of
    the edge is expanded already or holds a state that the new one is not
    better than.  So the key of every edge of the node that is not expanded
    yet ends up recorded, with the popped state as parent and the recorded
    state queued, unless the state of the edge is not better than the one
    recorded before; nothing else is recorded or queued.  The new state of
    an edge has the length of the popped state plus the weight of the edge,
    is entered with the orientation of the edge, and has one more bend
    exactly when that orientation differs from the one the popped state was
    entered with and the popped state is not at the source.  With these
    steps the search reaches every destination that is connected to the
    source. *)
Theorem dijkstra_seeds_and_expansion :
  (forall fuel rg srcNode dstNode,
     srcNode <> dstNode ->
     dijkstraRoute fuel rg srcNode dstNode = dijkstraLoop fuel rg srcNode dstNode (seed srcNode)) /\
  (forall srcNode,
     let sH := mkState srcNode 0 0 Horizontal (-1) in
     let sV := mkState srcNode 0 0 Vertical (-1) in
     pq (seed srcNode) = [sH; sV] /\
     best (seed srcNode) = <[(srcNode, Vertical) := sV]> {[(srcNode, Horizontal) := sH]} /\
     parent (seed srcNode) = ∅ /\ visited (seed srcNode) = ∅) /\
  (forall fuel rg srcNode dstNode st,
     match heapPop (pq st) with
     | None => dijkstraLoop (S fuel) rg srcNode dstNode st = Some []
     | Some (cur, pq') =>
         (keyOf cur ∈ visited st ->
          dijkstraLoop (S fuel) rg srcNode dstNode st
          = dijkstraLoop fuel rg srcNode dstNode
              (mkSearch (best st) (parent st) (visited st) pq')) /\
         (keyOf cur ∉ visited st -> NodeID cur = dstNode ->
          dijkstraLoop (S fuel) rg srcNode dstNode st
          = reconstructPath (S fuel) (parent st) (keyOf cur) srcNode []) /\
         (keyOf cur ∉ visited st -> NodeID cur <> dstNode ->
          dijkstraLoop (S fuel) rg srcNode dstNode st
          = dijkstraLoop fuel rg srcNode dstNode
              (expand rg srcNode cur
                 (mkSearch (best st) (parent st) ({[keyOf cur]} ∪ visited st) pq')))
     end) /\
  (forall rg srcNode cur st,
     expand rg srcNode cur st
     = foldl (relax srcNode cur) st (default [] (Adj rg !! NodeID cur))) /\
  (forall srcNode cur st edge,
     let ns := newState srcNode cur edge in
     let st' := relax srcNode cur st edge in
     (st' = st /\
      (edgeKey edge ∈ visited st \/
       exists b, best st !! edgeKey edge = Some b /\ Less ns b = false)) \/
     ((edgeKey edge ∉ visited st) /\
      (best st !! edgeKey edge = None \/
       exists b, best st !! edgeKey edge = Some b /\ Less ns b = true) /\
      best st' = <[edgeKey edge := ns]> (best st) /\
      parent st' = <[edgeKey edge := keyOf cur]> (parent st) /\
      visited st' = visited st /\
      pq st' ≡ₚ ns :: pq st)) /\
  (forall rg srcNode cur st edge,
     edge ∈ default [] (Adj rg !! NodeID cur) ->
     edgeKey edge ∉ visited st ->
     let st' := expand rg srcNode cur st in
     (exists e', e' ∈ default [] (Adj rg !! NodeID cur) /\ edgeKey e' = edgeKey edge /\
        best st' !! edgeKey edge = Some (newState srcNode cur e') /\
        parent st' !! edgeKey edge = Some (keyOf cur) /\
        newState srcNode cur e' ∈ pq st') \/
     (exists b, best st !! edgeKey edge = Some b /\ best st' !! edgeKey edge = Some b /\
        parent st' !! edgeKey edge = parent st !! edgeKey edge /\
        Less (newState srcNode cur edge) b = false)) /\
  (forall rg srcNode cur st,
     let st' := expand rg srcNode cur st in
     visited st' = visited st /\
     (forall k,
        (best st' !! k = best st !! k /\ parent st' !! k = parent st !! k) \/
        (exists e, e ∈ default [] (Adj rg !! NodeID cur) /\ edgeKey e = k /\ (k ∉ visited st) /\
           best st' !! k = Some (newState srcNode cur e) /\
           parent st' !! k = Some (keyOf cur) /\
           newState srcNode cur e ∈ pq st')) /\
     (forall s, s ∈ pq st -> s ∈ pq st') /\
     (forall s, s ∈ pq st' ->
        s ∈ pq st \/
        exists e, e ∈ default [] (Adj rg !! NodeID cur) /\ (edgeKey e ∉ visited st) /\
                  s = newState srcNode cur e)) /\
  (forall srcNode cur edge,
     let s := newState srcNode cur edge in
     NodeID s = To edge /\
     Length s = Length cur + Weight edge /\
     SDirection s = EOrientation edge /\
     Parent s = NodeID cur /\
     (EOrientation edge <> SDirection cur /\ NodeID cur <> srcNode ->
      Bends s = (Bends cur + 1)%Z) /\
     (~ (EOrientation edge <> SDirection cur /\ NodeID cur <> srcNode) ->
      Bends s = Bends cur)) /\
  (forall fuel rg srcNode dstNode,
     srcNode <> dstNode ->
     connected rg srcNode dstNode ->
     (searchBound rg srcNode <= fuel)%nat ->
     exists path,
       dijkstraRoute fuel rg srcNode dstNode = Some path /\
       last path = Some dstNode /\ linked rg (srcNode :: path)).
Proof.
  split.
  { intros fuel rg srcNode dstNode Hne. unfold dijkstraRoute.
    by rewrite (proj2 (Z.eqb_neq _ _) Hne). }
  split; [intros; repeat split; reflexivity|].
  split.
  { intros fuel rg srcNode dstNode st. cbn [dijkstraLoop].
    destruct (heapPop (pq st)) as [[cur pq']|]; [|done]. unfold keyOf.
    split; [|split].
    - intros Hvis. by rewrite bool_decide_eq_true_2.
    - intros Hvis E. rewrite bool_decide_eq_false_2 by done.
      by rewrite (proj2 (Z.eqb_eq _ _) E).
    - intros Hvis Hne. rewrite bool_decide_eq_false_2 by done.
      by rewrite (proj2 (Z.eqb_neq _ _) Hne). }
  split; [done|].
  split; [intros srcNode cur st edge; apply relax_cases|].
  split.
  { intros rg srcNode cur st edge He Hv. by apply foldl_relax_expands. }
  split.
  { intros rg srcNode cur st. cbv zeta. unfold expand.
    split; [apply foldl_relax_visited|]. split; [intros k; apply foldl_relax_records|].
    split; [intros s; apply foldl_relax_keeps|intros s; apply foldl_relax_queue]. }
  split.
  { intros srcNode cur edge. simpl. repeat split.
    - intros [Ho Hn]. apply Z.eqb_neq in Hn. rewrite Hn. simpl.
      by rewrite bool_decide_eq_false_2.
    - intros Hnot. destruct (NodeID cur =? srcNode)%Z eqn:E; simpl; [done|].
      apply Z.eqb_neq in E.
      rewrite bool_decide_eq_true_2; [done|].
      destruct (decide (EOrientation edge = SDirection cur)); [done|]. by destruct Hnot. }
  intros fuel rg srcNode dstNode. apply dijkstraRoute_finds.
Qed.

(** On the square the search from node 0 reaches node 3, which is two edges
    away. *)
Example dijkstra_square_connected : connected squareGraph 0 3.
Proof.
  apply (connected_edge _ _ 1); [apply (connected_edge _ _ 0); [constructor|]|].
  - exists (mkEdge 0 1 10 Horizontal). split; [|done]. vm_compute. by left.
  - exists (mkEdge 1 3 7 Vertical). split; [|done]. vm_compute. right. by left.
Qed.

Lemma dijkstra_seeds_and_expansion_witness :
  (0 <> 3)%Z /\ connected squareGraph 0 3 /\ (searchBound squareGraph 0 <= 200)%nat /\
  exists path,
    dijkstraRoute 200 squareGraph 0 3 = Some path /\
    last path = Some 3%Z /\ linked squareGraph (0%Z :: path).
Proof.
  assert (searchBound squareGraph 0 <= 200)%nat as H
    by (apply Nat.leb_le; vm_compute; reflexivity).
  assert (0 <> 3)%Z as Hne by done.
  split; [exact Hne|]. split; [exact dijkstra_square_connected|]. split; [exact H|].
  exact (proj2 (proj2 (proj2 (proj2 (proj2 (proj2 (proj2 (proj2
           dijkstra_seeds_and_expansion)))))))
           200%nat squareGraph 0%Z 3%Z Hne dijkstra_square_connected H).
Defined.

End DijkstraClaim.

(** ** Steps of the grid placement *)

Section PlacementSteps.

Import d2wueortho.

Lemma pickStart_loop_max rest : forall seen start best,
  seen !! start = Some best ->
  (forall j d, seen !! j = Some d -> (d <= best)%nat /\ ((j < start)%nat -> (d < best)%nat)) ->
  let r := (foldl (fun (acc : nat * nat * nat) d =>
                     let '(start, best, i) := acc in
                     if (best <? d)%nat then (i, d, S i) else (start, best, S i))
                  (start, best, length seen) rest).1.1 in
  exists m, (seen ++ rest) !! r = Some m /\
    forall j d, (seen ++ rest) !! j = Some d -> (d <= m)%nat /\ ((j < r)%nat -> (d < m)%nat).
Proof.
  induction rest as [|x rest IH]; intros seen start best Hs Hmax; cbv zeta.
  { simpl. rewrite app_nil_r. by exists best. }
  cbn [foldl].
  replace (seen ++ x :: rest) with ((seen ++ [x]) ++ rest) by (by rewrite <- app_assoc).
  pose proof (lookup_lt_Some _ _ _ Hs) as Hlt.
  destruct (Nat.ltb_spec best x) as [E|E].
  - replace (S (length seen)) with (length (seen ++ [x])) by (rewrite length_app; simpl; lia).
    apply IH.
    + rewrite lookup_app_r by lia. by rewrite Nat.sub_diag.
    + intros j d Hj. apply lookup_app_Some in Hj as [Hj|[Hge Hj]].
      * destruct (Hmax j d Hj). split; [lia|]. intros _. lia.
      * apply list_lookup_singleton_Some in Hj as [? ->]. split; [lia|lia].
  - replace (S (length seen)) with (length (seen ++ [x])) by (rewrite length_app; simpl; lia).
    apply IH.
    + by apply lookup_app_l_Some.
    + intros j d Hj. apply lookup_app_Some in Hj as [Hj|[Hge Hj]].
      * by apply Hmax.
      * apply list_lookup_singleton_Some in Hj as [? ->]. split; [lia|lia].
Qed.

(** The search starts from a node of the largest degree, the first of them. *)
Theorem pickStart_max (degree : list nat) (i d : nat) :
  degree !! i = Some d ->
  exists m, degree !! pickStart degree = Some m /\ (d <= m)%nat /\
            ((i < pickStart degree)%nat -> (d < m)%nat).
Proof.
  intros Hi. unfold pickStart. destruct degree as [|d0 rest]; [done|].
  cbn [tail lookup list_lookup default].
  destruct (pickStart_loop_max rest [d0] 0%nat d0) as (m & Hm & Hmax).
  - done.
  - intros j d' Hj. apply list_lookup_singleton_Some in Hj as [-> ->]. split; lia.
  - simpl in *. exists m. split; [done|]. by apply Hmax.
Qed.

Lemma pickStart_max_witness :
  pickStart [1; 3; 2; 3]%nat = 1%nat /\
  exists m, [1; 3; 2; 3]%nat !! pickStart [1; 3; 2; 3]%nat = Some m /\ (3 <= m)%nat /\
            ((3 < pickStart [1; 3; 2; 3]%nat)%nat -> (3 < m)%nat).
Proof.
  split; [reflexivity|]. apply (pickStart_max [1; 3; 2; 3]%nat 3 3). reflexivity.
Defined.

Lemma minmax_sym a b : minmax a b = minmax b a.
Proof.
  unfold minmax. destruct (Z.ltb_spec b a), (Z.ltb_spec a b); try done; try lia.
  by replace a with b by lia.
Qed.

Lemma abs_sym a b : abs (a - b) = abs (b - a).
Proof. unfold abs. destruct (Z.ltb_spec (a - b) 0), (Z.ltb_spec (b - a) 0); lia. Qed.

(** The cost of an edge does not depend on its direction. *)
Theorem costForEdge_symmetric (occupied : gset gridCell) (ci cj : gridCell) :
  costForEdge occupied ci cj = costForEdge occupied cj ci.
Proof.
  unfold costForEdge. cbv zeta.
  rewrite (abs_sym (row ci) (row cj)), (abs_sym (col ci) (col cj)).
  destruct (_ <=? 1); [done|].
  rewrite (minmax_sym (col ci) (col cj)), (minmax_sym (row ci) (row cj)).
  destruct (minmax (col cj) (col ci)) as [minC maxC].
  destruct (minmax (row cj) (row ci)) as [minR maxR].
  rewrite (Z.eqb_sym (row ci) (row cj)), (Z.eqb_sym (col ci) (col cj)).
  destruct (Z.eqb_spec (row cj) (row ci)) as [Er|Er]; [by rewrite Er|].
  destruct (Z.eqb_spec (col cj) (col ci)) as [Ec|Ec]; [by rewrite Ec|].
  f_equal.
  repeat match goal with |- context [existsb ?f ?l] => destruct (existsb f l) end; done.
Qed.

(** Whatever the direction attribute, [bfsDirs] lists the four unit steps,
    each once.  [reverseDirs] undoes itself; on the list of [bfsDirs] it
    puts the step against the flow first, where the list already has it, so
    the reversed list has that step twice and the step with the flow not at
    all. *)
Theorem bfsDirs_unit_steps (dir : string) :
  bfsDirs dir ≡ₚ unitDirs /\
  (forall dirs, reverseDirs (reverseDirs dirs) = dirs) /\
  exists d rest,
    bfsDirs dir = d :: rest /\
    (d ∉ reverseDirs (bfsDirs dir)) /\
    mkCell (- row d) (- col d) ∈ rest.
Proof.
  split; [|split].
  - unfold bfsDirs, unitDirs.
    destruct (String.eqb dir "down"); [|destruct (String.eqb dir "up");
      [|destruct (String.eqb dir "left")]].
    + apply (Permutation_inj). split; [done|].
      exists (fun i => match i with 0 => 1 | 1 => 0 | 2 => 3 | 3 => 2 | n => n end)%nat.
      split; [intros [|[|[|[|x]]]] [|[|[|[|y]]]]; simpl; congruence|].
      by intros [|[|[|[|x]]]].
    + apply (Permutation_inj). split; [done|].
      exists (fun i => match i with 0 => 3 | 1 => 0 | 2 => 1 | 3 => 2 | n => n end)%nat.
      split; [intros [|[|[|[|x]]]] [|[|[|[|y]]]]; simpl; congruence|].
      by intros [|[|[|[|x]]]].
    + apply (Permutation_inj). split; [done|].
      exists (fun i => match i with 0 => 2 | 1 => 1 | 2 => 0 | 3 => 3 | n => n end)%nat.
      split; [intros [|[|[|[|x]]]] [|[|[|[|y]]]]; simpl; congruence|].
      by intros [|[|[|[|x]]]].
    + done.
  - intros [|[r c] rest]; [done|]. simpl. by rewrite !Z.opp_involutive.
  - unfold bfsDirs.
    destruct (String.eqb dir "down"); [|destruct (String.eqb dir "up");
      [|destruct (String.eqb dir "left")]]; eexists _, _; (split; [reflexivity|]);
      simpl; (split; [|repeat first [left | right]]);
      intros H; repeat (apply elem_of_cons in H as [[=]|H]); by apply elem_of_nil in H.
Qed.


Lemma firstSome_None_inv {A B} (f : A -> option B) l :
  firstSome f l = None -> forall a, a ∈ l -> f a = None.
Proof.
  induction l as [|x l IH]; intros H a Ha; [by apply elem_of_nil in Ha|].
  simpl in H. destruct (f x) eqn:E; [done|].
  apply elem_of_cons in Ha as [->|Ha]; [done|by apply IH].
Qed.

Lemma orElse_case {A} (P : A -> Prop) (a : option A) (rest : A) :
  (forall c, a = Some c -> P c) -> (a = None -> P rest) ->
  P (match a with Some c => c | None => rest end).
Proof. destruct a; auto. Qed.

(** The cells of the rings 2 to 20 around [center]. *)
Definition onRings (center c : gridCell) : Prop :=
  2 <= Z.max (Z.abs (row c - row center)) (Z.abs (col c - col center)) <= 20.

Lemma scanRing_Some center ok radius c :
  scanRing center ok radius = Some c ->
  ok c = true /\ Z.max (Z.abs (row c - row center)) (Z.abs (col c - col center)) = Z.abs radius.
Proof.
  unfold scanRing. intros H.
  apply firstSome_Some in H as (dr & Hdr & H).
  apply firstSome_Some in H as (dc & Hdc & H).
  apply elem_of_seqZ in Hdr. apply elem_of_seqZ in Hdc.
  rewrite !abs_Zabs in H.
  destruct (Z.eqb_spec (Z.abs dr) radius), (Z.eqb_spec (Z.abs dc) radius); simpl in H; try done;
    (destruct (ok _) eqn:Eok; [|done]); injection H as <-; simpl; (split; [done|]); lia.
Qed.

Lemma scanRings_None center ok c :
  firstSome (scanRing center ok) (seqZ 2 19) = None -> onRings center c -> ok c = false.
Proof.
  intros H [H1 H2].
  set (radius := Z.max (Z.abs (row c - row center)) (Z.abs (col c - col center))) in *.
  pose proof (firstSome_None_inv _ _ H radius) as Hr.
  rewrite elem_of_seqZ in Hr. specialize (Hr ltac:(lia)).
  unfold scanRing in Hr.
  pose proof (firstSome_None_inv _ _ Hr (row c - row center)) as Hdr.
  rewrite elem_of_seqZ in Hdr. specialize (Hdr ltac:(lia)).
  pose proof (firstSome_None_inv _ _ Hdr (col c - col center)) as Hdc.
  rewrite elem_of_seqZ in Hdc. specialize (Hdc ltac:(lia)).
  cbv beta in Hdc. rewrite !abs_Zabs in Hdc.
  replace (mkCell (row center + (row c - row center)) (col center + (col c - col center)))
    with c in Hdc by (destruct c; simpl; f_equal; lia).
  destruct (Z.eqb_spec (Z.abs (row c - row center)) radius),
           (Z.eqb_spec (Z.abs (col c - col center)) radius); simpl in Hdc;
    try (by destruct (ok c)); lia.
Qed.

(** [findBestCell] answers a free cell among the neighbours [dirs] and the
    rings 2 to 20 around [center] whenever one of them is free; only when
    all of them are occupied does it answer the cell 100 columns to the
    right, which it does not look up. *)
Theorem findBestCell_free_or_fallback center (occupied : gset gridCell) dirs maxCols :
  let c := findBestCell center occupied dirs maxCols in
  ((c ∉ occupied) /\ ((exists d, d ∈ dirs /\ c = addCell center d) \/ onRings center c)) \/
  (c = mkCell (row center) (col center + 100) /\
   (forall d, d ∈ dirs -> addCell center d ∈ occupied) /\
   (forall c', onRings center c' -> c' ∈ occupied)).
Proof.
  cbv zeta.
  set (P := fun c : gridCell =>
    ((c ∉ occupied) /\ ((exists d, d ∈ dirs /\ c = addCell center d) \/ onRings center c)) \/
    (c = mkCell (row center) (col center + 100) /\
     (forall d, d ∈ dirs -> addCell center d ∈ occupied) /\
     (forall c', onRings center c' -> c' ∈ occupied))).
  change (P (findBestCell center occupied dirs maxCols)).
  unfold findBestCell. cbv zeta.
  apply (orElse_case P).
  { intros c E. apply firstSome_Some in E as (d & Hin & E). cbv zeta in E.
    destruct (negb _) eqn:Ef; simpl in E; [|done]. destruct (_ <? _); [|done].
    injection E as <-. left. split; [|left; eauto].
    apply negb_true_iff, bool_decide_eq_false in Ef. done. }
  intros _. apply (orElse_case P).
  { intros c E. apply firstSome_Some in E as (d & Hin & E). cbv zeta in E.
    destruct (negb _) eqn:Ef; [|done]. injection E as <-. left. split; [|left; eauto].
    apply negb_true_iff, bool_decide_eq_false in Ef. done. }
  intros E2. apply (orElse_case P).
  { intros c E. apply firstSome_Some in E as (r & Hin & E). apply elem_of_seqZ in Hin.
    apply scanRing_Some in E as [Hok Hr]. left.
    apply andb_true_iff in Hok as [Hok _].
    apply negb_true_iff, bool_decide_eq_false in Hok. split; [done|]. right.
    unfold onRings. lia. }
  intros _. apply (orElse_case P).
  { intros c E. apply firstSome_Some in E as (r & Hin & E). apply elem_of_seqZ in Hin.
    apply scanRing_Some in E as [Hok Hr]. left.
    apply negb_true_iff, bool_decide_eq_false in Hok. split; [done|]. right.
    unfold onRings. lia. }
  intros E4. right. split; [done|]. split.
  - intros d Hd. pose proof (firstSome_None_inv _ _ E2 d Hd) as H. cbv beta zeta in H.
    destruct (decide (addCell center d ∈ occupied)) as [|Hn]; [done|].
    by rewrite bool_decide_eq_false_2 in H.
  - intros c' Hc'. pose proof (scanRings_None _ _ _ E4 Hc') as H. cbv beta in H.
    destruct (decide (c' ∈ occupied)) as [|Hn]; [done|].
    by rewrite bool_decide_eq_false_2 in H.
Qed.

(** [findFirstFree] answers a free cell of the square of radius 50 around
    the origin whenever one is free; when the square is full it answers the
    cell of row 0 whose column is the number of occupied cells, without
    looking it up. *)
Theorem findFirstFree_free_or_fallback (occupied : gset gridCell) :
  let c := findFirstFree occupied in
  ((c ∉ occupied) /\ Z.abs (row c) <= 50 /\ Z.abs (col c) <= 50) \/
  (c = mkCell 0 (Z.of_nat (size occupied)) /\
   forall c', Z.abs (row c') <= 50 -> Z.abs (col c') <= 50 -> c' ∈ occupied).
Proof.
  cbv zeta. unfold findFirstFree. cbv zeta.
  destruct (firstSome _ (seqZ 0 51)) as [c|] eqn:E.
  - left. apply firstSome_Some in E as (radius & Hr & E). apply elem_of_seqZ in Hr.
    apply firstSome_Some in E as (r & Hrow & E). apply elem_of_seqZ in Hrow.
    apply firstSome_Some in E as (k & Hcol & E). apply elem_of_seqZ in Hcol.
    destruct (negb _) eqn:Ef; [|done]. injection E as <-.
    apply negb_true_iff, bool_decide_eq_false in Ef. cbn [row col]. split; [done|]. lia.
  - right. split; [done|]. intros [r k] Hr Hk. cbn [row col] in Hr, Hk.
    pose proof (firstSome_None_inv _ _ E 50) as H1.
    rewrite elem_of_seqZ in H1. specialize (H1 ltac:(lia)).
    pose proof (firstSome_None_inv _ _ H1 r) as H2.
    rewrite elem_of_seqZ in H2. specialize (H2 ltac:(lia)).
    pose proof (firstSome_None_inv _ _ H2 k) as H3.
    rewrite elem_of_seqZ in H3. specialize (H3 ltac:(lia)).
    cbv beta in H3. destruct (decide (mkCell r k ∈ occupied)) as [|Hn]; [done|].
    by rewrite bool_decide_eq_false_2 in H3.
Qed.

(** In [localImprove] a node of index 30 or more is only moved by the move
    pass, one step in an iteration, so it ends within [maxIters] steps of
    where it was; with two nodes or fewer nothing moves. *)
Theorem localImprove_bounded placement (occupied : gset gridCell) adj n maxIters :
  (forall k, (30 <= k)%nat ->
     dist1 (cellOf (localImprove placement occupied adj n maxIters).1 k) (cellOf placement k)
     <= Z.of_nat maxIters) /\
  ((n <= 2)%nat -> localImprove placement occupied adj n maxIters = (placement, occupied)).
Proof.
  split; [intros k Hk; by apply localImprove_near|].
  intros Hn. unfold localImprove. by rewrite (proj2 (Nat.leb_le n 2) Hn).
Qed.

End PlacementSteps.

(** ** The grid placement answers *)

Section PlacementTotal.

Import d2wueortho.

(** *** The adjacency lists hold node indices *)

Lemma foldl_insert_values {K V} `{Countable K} (l : list (V * K)) : forall (m : gmap K V) k v,
  foldl (fun m io => <[io.2 := io.1]> m) m l !! k = Some v ->
  m !! k = Some v \/ (v, k) ∈ l.
Proof.
  induction l as [|[v0 k0] l IH]; intros m k v Hk; simpl in *; [by left|].
  apply IH in Hk as [Hk|Hk]; [|right; by right].
  apply lookup_insert_Some in Hk as [[<- <-]|[_ Hk]]; [right; left|by left].
Qed.

Lemma objIndex_bounded (objects : list ObjId) o i :
  foldl (fun (m : gmap ObjId nat) io => <[io.2 := io.1]> m) ∅
        (imap (fun i o => (i, o)) objects) !! o = Some i ->
  (i < length objects)%nat.
Proof.
  intros H. apply foldl_insert_values in H as [H|H]; [done|].
  apply list_elem_of_lookup in H as [j Hj]. rewrite list_lookup_imap in Hj.
  destruct (objects !! j) eqn:E; [|done]. injection Hj as <- <-.
  by eapply lookup_lt_Some.
Qed.

Definition boundedAdj (n : nat) (adj : list (list nat)) : Prop :=
  length adj = n /\ forall i l x, adj !! i = Some l -> x ∈ l -> (x < n)%nat.

Lemma buildAdj_bounded n (objIndex : gmap ObjId nat) edges :
  (forall o i, objIndex !! o = Some i -> (i < n)%nat) ->
  boundedAdj n (buildAdj n objIndex edges).1.
Proof.
  intros Hidx. unfold buildAdj.
  assert (boundedAdj n (replicate n ([] : list nat), (∅ : gset (nat * nat))).1) as H0.
  { split; [apply length_replicate|]. intros i l x Hl Hx.
    apply lookup_replicate in Hl as [-> _]. by apply elem_of_nil in Hx. }
  revert H0. generalize (replicate n ([] : list nat), (∅ : gset (nat * nat))).
  induction edges as [|e edges IH]; intros acc Hacc; [done|].
  simpl. apply IH.
  destruct (objIndex !! Src e) as [si|] eqn:Es; [|done].
  destruct (objIndex !! Dst e) as [di|] eqn:Ed; [|done].
  destruct (bool_decide (si = di)); [done|]. simpl.
  destruct Hacc as [Hlen Hb]. split; [by rewrite !length_alter|].
  intros i l x Hl Hx.
  rewrite list_lookup_alter in Hl. destruct (decide (di = i)) as [->|Hdi].
  - apply fmap_Some in Hl as (l0 & Hl0 & ->).
    apply elem_of_app in Hx as [Hx|Hx]; [|apply list_elem_of_singleton in Hx as ->; eauto].
    rewrite list_lookup_alter in Hl0. destruct (decide (si = i)) as [->|Hsi].
    + apply fmap_Some in Hl0 as (l1 & Hl1 & ->).
      apply elem_of_app in Hx as [Hx|Hx]; [eauto|apply list_elem_of_singleton in Hx as ->; eauto].
    + eauto.
  - rewrite list_lookup_alter in Hl. destruct (decide (si = i)) as [->|Hsi].
    + apply fmap_Some in Hl as (l1 & Hl1 & ->).
      apply elem_of_app in Hx as [Hx|Hx]; [eauto|apply list_elem_of_singleton in Hx as ->; eauto].
    + eauto.
Qed.

Lemma dedupeAdj_elem l x : x ∈ dedupeAdj l -> x ∈ l.
Proof.
  unfold dedupeAdj.
  assert (forall (acc : list nat * gset nat),
    x ∈ (foldl (fun (acc : list nat * gset nat) nb =>
                  if bool_decide (nb ∈ acc.2) then acc else (acc.1 ++ [nb], {[nb]} ∪ acc.2))
               acc l).1 -> x ∈ acc.1 \/ x ∈ l) as H.
  { induction l as [|a l IH]; intros acc Hx; simpl in *; [by left|].
    apply IH in Hx as [Hx|Hx]; [|right; by right].
    destruct (bool_decide _); [by left|]. simpl in Hx.
    apply elem_of_app in Hx as [Hx|Hx]; [by left|].
    apply list_elem_of_singleton in Hx as ->. right. left. }
  intros Hx. apply H in Hx as [Hx|Hx]; [by apply elem_of_nil in Hx|done].
Qed.

Lemma adjOf_bounded objects edges : boundedAdj (length objects) (adjOf objects edges).
Proof.
  unfold adjOf.
  destruct (buildAdj_bounded (length objects) _ edges (objIndex_bounded objects)) as [Hlen Hb].
  split; [by rewrite length_fmap|].
  intros i l x Hl Hx. apply list_lookup_fmap_Some in Hl as (l0 & -> & Hl0).
  apply dedupeAdj_elem in Hx. eauto.
Qed.

Lemma pickStart_lt degree : degree <> [] -> (pickStart degree < length degree)%nat.
Proof.
  intros Hne. destruct degree as [|d0 rest]; [done|].
  unfold pickStart. cbn [tail lookup list_lookup default].
  destruct (pickStart_loop_max rest [d0] 0%nat d0) as (m & Hm & _).
  - done.
  - intros j d' Hj. apply list_lookup_singleton_Some in Hj as [-> ->]. split; lia.
  - by eapply lookup_lt_Some.
Qed.

(** *** The search ends within its bound *)

Section Search.

Variable sortSlice : forall A : Type, (A -> A -> bool) -> list A -> list A.
Hypothesis sortSlice_perm : forall A (less : A -> A -> bool) l, Permutation l (sortSlice A less l).

Variables (n : nat) (adj : list (list nat)) (degree : list nat) (outgoing : gset (nat * nat)).
Variables (dirs : list gridCell) (maxCols : Z).

Hypothesis adj_bounded : forall i l x, adj !! i = Some l -> x ∈ l -> (x < n)%nat.

(** Visited nodes are node indices and have a cell; queued nodes are
    visited. *)
Definition bfsInv (st : Bfs) : Prop :=
  (forall i, i ∈ b_visited st -> (i < n)%nat /\ is_Some (b_placement st !! i)) /\
  (forall x, x ∈ b_queue st -> x ∈ b_visited st).

Definition grows (st st' : Bfs) : Prop :=
  b_visited st ⊆ b_visited st' /\
  (forall i, is_Some (b_placement st !! i) -> is_Some (b_placement st' !! i)).

Lemma grows_refl st : grows st st.
Proof. by split. Qed.

Lemma grows_trans st1 st2 st3 : grows st1 st2 -> grows st2 st3 -> grows st1 st3.
Proof.
  intros [H1 H1'] [H2 H2']. split; [intros x Hx; by apply H2, H1|intros i Hi; by apply H2', H1'].
Qed.

Lemma visited_size st : bfsInv st -> (size (b_visited st) <= n)%nat.
Proof.
  intros [Hv _]. rewrite <- (size_set_seq (C:=gset nat) 0 n).
  apply subseteq_size. intros i Hi. apply elem_of_set_seq. destruct (Hv i Hi). lia.
Qed.

Lemma placeNeighbor_inv cur curCell st nb :
  (nb < n)%nat -> bfsInv st ->
  let st' := placeNeighbor outgoing dirs maxCols cur curCell st nb in
  bfsInv st' /\ grows st st' /\ nb ∈ b_visited st' /\
  (length (b_queue st') + size (b_visited st) = length (b_queue st) + size (b_visited st'))%nat.
Proof.
  intros Hnb [Hv Hq]. unfold placeNeighbor. cbv zeta.
  destruct (decide (nb ∈ b_visited st)) as [Hin|Hin].
  { rewrite bool_decide_eq_true_2 by done. split; [by split|]. split; [apply grows_refl|]. by split. }
  rewrite bool_decide_eq_false_2 by done. simpl.
  split; [split; simpl|split; [split; simpl|split; simpl]].
  - intros i Hi. apply elem_of_union in Hi as [Hi|Hi].
    + apply elem_of_singleton in Hi as ->. split; [done|]. rewrite lookup_insert_eq. eauto.
    + split; [by apply Hv|]. apply lookup_insert_is_Some'. right. by apply Hv.
  - intros x Hx. apply elem_of_app in Hx as [Hx|Hx].
    + apply elem_of_union. right. by apply Hq.
    + apply list_elem_of_singleton in Hx as ->. apply elem_of_union. left.
      by apply elem_of_singleton.
  - intros i Hi. apply elem_of_union. by right.
  - intros i Hi. apply lookup_insert_is_Some'. by right.
  - apply elem_of_union. left. by apply elem_of_singleton.
  - rewrite length_app, size_union, size_singleton; [simpl; lia|].
    intros x Hx1 Hx2. apply elem_of_singleton in Hx1 as ->. done.
Qed.

Lemma placeNeighbors_inv cur curCell l : forall st,
  (forall x, x ∈ l -> (x < n)%nat) -> bfsInv st ->
  let st' := foldl (placeNeighbor outgoing dirs maxCols cur curCell) st l in
  bfsInv st' /\ grows st st' /\
  (length (b_queue st') + size (b_visited st) = length (b_queue st) + size (b_visited st'))%nat.
Proof.
  induction l as [|nb l IH]; intros st Hl Hinv; cbv zeta; simpl.
  { split; [done|]. split; [apply grows_refl|done]. }
  destruct (placeNeighbor_inv cur curCell st nb) as (H1 & H2 & _ & H3);
    [apply Hl; left|done|].
  destruct (IH (placeNeighbor outgoing dirs maxCols cur curCell st nb)) as (I1 & I2 & I3);
    [intros x Hx; apply Hl; by right|done|].
  split; [done|]. split; [by eapply grows_trans|]. cbv zeta in H3, I3. lia.
Qed.

Lemma bfsLoop_total fuel : forall st,
  bfsInv st ->
  (length (b_queue st) + n <= fuel + size (b_visited st))%nat ->
  exists st', bfsLoop sortSlice fuel adj degree outgoing dirs maxCols st = Some st' /\
              bfsInv st' /\ grows st st'.
Proof.
  induction fuel as [|fuel IH]; intros [pl occ vis q] Hinv Hfuel.
  - pose proof (visited_size _ Hinv) as Hsz. simpl in *.
    destruct q; [|simpl in Hfuel; lia]. exists (mkBfs pl occ vis []).
    split; [done|]. split; [done|apply grows_refl].
  - destruct q as [|cur q]; [exists (mkBfs pl occ vis []); split; [done|]; split; [done|apply grows_refl]|].
    simpl.
    set (nbs := List.filter _ _). set (sorted := sortSlice _ _ nbs).
    set (st1 := mkBfs pl occ vis q).
    assert (bfsInv st1) as Hinv1.
    { destruct Hinv as [Hv Hq]. split; [done|]. intros x Hx. apply Hq. simpl. by right. }
    assert (forall x, x ∈ sorted -> (x < n)%nat) as Hsorted.
    { intros x Hx. unfold sorted in Hx. rewrite <- sortSlice_perm in Hx.
      unfold nbs in Hx. apply list_elem_of_In, filter_In in Hx as [Hx _].
      apply list_elem_of_In in Hx. simpl in Hx.
      destruct (adj !! cur) as [l|] eqn:E; simpl in Hx; [eauto|by apply elem_of_nil in Hx]. }
    destruct (placeNeighbors_inv cur (cellOf pl cur) sorted st1 Hsorted Hinv1)
      as (H1 & H2 & H3).
    cbv zeta in H3. simpl in H3. simpl in Hfuel.
    destruct (IH _ H1) as (st' & -> & I1 & I2); [lia|].
    exists st'. split; [done|]. split; [done|]. by eapply grows_trans.
Qed.

End Search.

Lemma placeDisconnected_all l : forall st,
  (forall i, i ∈ b_visited st -> is_Some (b_placement st !! i)) ->
  let st' := foldl placeDisconnected st l in
  (forall i, i ∈ b_visited st' -> is_Some (b_placement st' !! i)) /\
  (forall i, i ∈ b_visited st -> i ∈ b_visited st') /\
  (forall i, i ∈ l -> i ∈ b_visited st').
Proof.
  induction l as [|x l IH]; intros st Hst; cbv zeta; simpl.
  { split; [done|]. split; [done|]. intros i Hi. by apply elem_of_nil in Hi. }
  assert ((forall i, i ∈ b_visited (placeDisconnected st x) ->
             is_Some (b_placement (placeDisconnected st x) !! i)) /\
          (forall i, i ∈ b_visited st -> i ∈ b_visited (placeDisconnected st x)) /\
          x ∈ b_visited (placeDisconnected st x)) as (H1 & H2 & H3).
  { unfold placeDisconnected. destruct (decide (x ∈ b_visited st)) as [Hin|Hin].
    - rewrite bool_decide_eq_true_2 by done. auto.
    - rewrite bool_decide_eq_false_2 by done. simpl. repeat split.
      + intros i Hi. apply lookup_insert_is_Some'.
        apply elem_of_union in Hi as [Hi|Hi]; [left; by apply elem_of_singleton in Hi|].
        right. by apply Hst.
      + intros i Hi. apply elem_of_union. by right.
      + apply elem_of_union. left. by apply elem_of_singleton. }
  destruct (IH _ H1) as (I1 & I2 & I3). split; [done|]. split; [intros i Hi; by apply I2, H2|].
  intros i Hi. apply elem_of_cons in Hi as [->|Hi]; [by apply I2|by apply I3].
Qed.

(** *** [localImprove] keeps every node placed *)

Lemma tryMoves_dom adj i orig dirs k : forall st,
  is_Some (i_placement st !! k) -> is_Some (i_placement (tryMoves adj i orig st dirs) !! k).
Proof.
  induction dirs as [|d dirs IH]; intros st Hk; simpl; [done|].
  destruct (bool_decide _); [by apply IH|].
  destruct (_ <? _); simpl.
  - apply lookup_insert_is_Some'. by right.
  - apply IH. simpl. apply lookup_insert_is_Some'. right.
    apply lookup_insert_is_Some'. by right.
Qed.

Lemma localImprove_dom pl occ adj n iters k :
  is_Some (pl !! k) -> is_Some ((localImprove pl occ adj n iters).1 !! k).
Proof.
  unfold localImprove. destruct (n <=? 2)%nat; [done|].
  revert pl occ. induction iters as [|iters IH]; intros pl occ Hk; simpl; [done|].
  set (st0 := mkImprove pl occ _ false).
  assert (is_Some (i_placement (movePass adj n st0) !! k)) as Hm.
  { unfold movePass. generalize (seq 0 n). intros l. revert Hk.
    change pl with (i_placement st0). generalize st0.
    induction l as [|i l IHl]; intros st Hst; cbn [foldl]; [done|].
    apply IHl. by apply tryMoves_dom. }
  assert (is_Some (i_placement (swapPass adj n (movePass adj n st0)) !! k)) as Hs.
  { unfold swapPass. generalize (i ← seq 0 (n `min` 30); (fun j => (i, j)) <$> seq (S i) (n `min` 30 - S i)).
    intros l. revert Hm. generalize (movePass adj n st0).
    induction l as [|[i j] l IHl]; intros st Hst; cbn [foldl]; [done|].
    apply IHl. unfold trySwap. destruct (bool_decide _); [done|].
    destruct (_ <? _); simpl; repeat (apply lookup_insert_is_Some'; right); done. }
  destruct (improved _); [by apply IH|done].
Qed.

(** *** Normalisation *)

Lemma minOver_le f (pl : gmap nat gridCell) i c : pl !! i = Some c -> minOver f pl <= f c.
Proof.
  unfold minOver. revert i c.
  apply (map_fold_weak_ind (fun r (m : gmap nat gridCell) => forall i c, m !! i = Some c -> r <= f c)).
  - intros i c H. by rewrite lookup_empty in H.
  - intros k c0 m r Hk IH i c Hi.
    apply lookup_insert_Some in Hi as [[<- <-]|[_ Hi]].
    + destruct (Z.ltb_spec (f c0) r); lia.
    + specialize (IH i c Hi). destruct (Z.ltb_spec (f c0) r); lia.
Qed.

Lemma foldl_insert_absent {V} (f : nat -> V) l : forall (m : gmap nat V) i,
  i ∉ l -> foldl (fun m i => <[i := f i]> m) m l !! i = m !! i.
Proof.
  induction l as [|x l IH]; intros m i Hi; simpl; [done|].
  rewrite IH by (intros H; apply Hi; by right).
  apply lookup_insert_ne. intros ->. apply Hi. left.
Qed.

Lemma occupied_last (g : nat -> gridCell) n c i :
  foldl (fun (m : gmap gridCell nat) i => <[g i := i]> m) ∅ (seq 0 n) !! c = Some i <->
  (i < n)%nat /\ g i = c /\ forall j, (j < n)%nat -> g j = c -> (j <= i)%nat.
Proof.
  revert i. induction n as [|n IH]; intros i.
  - simpl. rewrite lookup_empty. split; [done|]. intros [H _]. lia.
  - rewrite seq_S, foldl_snoc. simpl. destruct (decide (g n = c)) as [Hc|Hc].
    + rewrite <- Hc, lookup_insert_eq. split.
      * intros [= <-]. split; [lia|]. split; [done|]. intros j Hj _. lia.
      * intros (Hi & _ & Hmax). f_equal. specialize (Hmax n ltac:(lia) eq_refl). lia.
    + rewrite lookup_insert_ne by done. rewrite IH. split.
      * intros (Hi & Hg & Hmax). split; [lia|]. split; [done|].
        intros j Hj Hgj. destruct (decide (j = n)) as [->|]; [done|]. apply Hmax; [lia|done].
      * intros (Hi & Hg & Hmax). destruct (decide (i = n)) as [->|]; [done|].
        split; [lia|]. split; [done|]. intros j Hj. apply Hmax. lia.
Qed.

Lemma normalize_placement n pl i c :
  placement (normalize n pl) !! i = Some c <->
  (i < n)%nat /\
  c = mkCell (row (cellOf pl i) - minOver row pl) (col (cellOf pl i) - minOver col pl).
Proof.
  destruct (decide (i < n)%nat) as [Hi|Hi].
  - rewrite normalize_lookup by done. split; [intros [= <-]; done|intros [_ ->]; done].
  - unfold normalize. simpl. rewrite foldl_insert_absent.
    + rewrite lookup_empty. split; [done|]. by intros [? _].
    + intros H. apply elem_of_seq in H. lia.
Qed.

(** [gridPlacement] answers for every graph: each object gets a cell with
    non-negative coordinates, no other index is placed, and the [occupied]
    index records for each cell the greatest index placed on it. *)
Theorem gridPlacement_total sortSlice objects edges dir :
  gosort.sortContract sortSlice ->
  exists gi,
    gridPlacement sortSlice objects edges dir = Some gi /\
    (forall i, (i < length objects)%nat ->
       exists c, placement gi !! i = Some c /\ 0 <= row c /\ 0 <= col c) /\
    (forall i, (length objects <= i)%nat -> placement gi !! i = None) /\
    (forall c i, occupied gi !! c = Some i <->
       placement gi !! i = Some c /\
       forall j, placement gi !! j = Some c -> (j <= i)%nat).
Proof.
  intros Hsort.
  destruct (decide (objects = [])) as [->|Hne].
  { exists (mkInfo ∅ ∅). split; [done|]. simpl. split; [intros i Hi; lia|]. split; [done|].
    intros c i. rewrite !lookup_empty. split; [done|]. by intros [H _]. }
  rewrite gridPlacement_unfold by done. cbv zeta.
  set (n := length objects). set (adj := adjOf objects edges).
  destruct (adjOf_bounded objects edges) as [Hlen Hb]. fold n adj in Hlen, Hb.
  set (start := pickStart (length <$> adj)).
  assert (start < n)%nat as Hstart.
  { unfold start. rewrite <- Hlen, <- (length_fmap length adj). apply pickStart_lt.
    intros H. apply (f_equal length) in H. rewrite length_fmap, Hlen in H.
    unfold n in H. destruct objects; [done|simpl in H; lia]. }
  set (st0 := mkBfs _ _ _ _).
  destruct (bfsLoop_total sortSlice (fun A less l => proj1 (Hsort A less l)) n adj
              (length <$> adj) (outgoingOf objects edges) (bfsDirs dir)
              (Z.max 2 (ceilSqrt (Z.of_nat n))) Hb n st0) as (st1 & -> & [Hv _] & _).
  { split; simpl.
    - intros i Hi. apply elem_of_singleton in Hi as ->. split; [done|].
      rewrite lookup_singleton_eq. eauto.
    - intros x Hx. apply list_elem_of_singleton in Hx as ->. by apply elem_of_singleton. }
  { unfold st0. cbn [b_queue b_visited length]. rewrite size_singleton. lia. }
  cbn [mbind option_bind].
  destruct (placeDisconnected_all (seq 0 n) st1) as (Hp & _ & Hall).
  { intros i Hi. by apply Hv. }
  set (st2 := foldl placeDisconnected st1 (seq 0 n)) in *.
  set (pl := (localImprove (b_placement st2) (b_occupied st2) adj n 5).1).
  assert (forall i, (i < n)%nat -> is_Some (pl !! i)) as Hpl.
  { intros i Hi. apply localImprove_dom, Hp, Hall, elem_of_seq. lia. }
  eexists. split; [reflexivity|].
  pose proof (normalize_placement n pl) as Hnorm.
  split; [|split].
  - intros i Hi. eexists. split; [by apply normalize_lookup|].
    destruct (Hpl i Hi) as [c Hc]. unfold cellOf. rewrite Hc. simpl.
    pose proof (minOver_le row pl i c Hc). pose proof (minOver_le col pl i c Hc). lia.
  - intros i Hi. destruct (placement (normalize n pl) !! i) eqn:E; [|done].
    apply Hnorm in E as [E _]. lia.
  - intros c i. unfold normalize at 1. cbn [occupied]. rewrite occupied_last. split.
    + intros (Hi & Hg & Hmax). split; [apply Hnorm; by split|].
      intros j Hj. apply Hnorm in Hj as [Hj ->]. apply Hmax; [done|]. by rewrite <- Hg.
    + intros [Hi Hmax]. apply Hnorm in Hi as [Hi ->]. split; [done|]. split; [done|].
      intros j Hj Hg. apply Hmax, Hnorm. split; [done|]. by rewrite <- Hg.
Qed.

Lemma gridPlacement_total_witness :
  exists gi,
    gridPlacement gosort.insertionSort [0%nat; 1%nat] [] EmptyString = Some gi /\
    (forall i, (i < 2)%nat ->
       exists c, placement gi !! i = Some c /\ 0 <= row c /\ 0 <= col c) /\
    (forall i, (2 <= i)%nat -> placement gi !! i = None) /\
    (forall c i, occupied gi !! c = Some i <->
       placement gi !! i = Some c /\
       forall j, placement gi !! j = Some c -> (j <= i)%nat).
Proof.
  apply (gridPlacement_total gosort.insertionSort [0%nat; 1%nat] [] EmptyString).
  apply insertionSort_contract.
Defined.

End PlacementTotal.

(** ** Local improvement keeps the cells apart *)

Section ImproveCells.

Import d2wueortho.

(** The first [n] nodes have a cell, [occupied] holds every cell of the
    placement, and no two nodes share a cell. *)
Definition apart (n : nat) (pl : gmap nat gridCell) (occ : gset gridCell) : Prop :=
  (forall i, (i < n)%nat -> is_Some (pl !! i)) /\
  (forall i c, pl !! i = Some c -> c ∈ occ) /\
  (forall i j c, pl !! i = Some c -> pl !! j = Some c -> i = j).

Lemma tryMoves_apart adj n i dirs : forall st,
  (i < n)%nat ->
  apart n (i_placement st) (i_occupied st) ->
  let st' := tryMoves adj i (cellOf (i_placement st) i) st dirs in
  apart n (i_placement st') (i_occupied st').
Proof.
  intros st Hi Hap. cbv zeta.
  destruct (proj1 Hap i Hi) as [orig Horig].
  assert (cellOf (i_placement st) i = orig) as -> by (unfold cellOf; by rewrite Horig).
  revert st Hap Horig.
  induction dirs as [|d dirs IH]; intros st Hap Horig; simpl; [done|].
  destruct (decide (addCell orig d ∈ i_occupied st)) as [Hin|Hout].
  { rewrite bool_decide_eq_true_2 by done. by apply IH. }
  rewrite bool_decide_eq_false_2 by done.
  destruct Hap as (Hdom & Hocc & Hinj).
  destruct (_ <? _); simpl.
  - split; [|split].
    + intros k Hk. apply lookup_insert_is_Some'. right. by apply Hdom.
    + intros k c Hk. apply lookup_insert_Some in Hk as [[<- <-]|[Hne Hk]].
      * apply elem_of_union. left. by apply elem_of_singleton.
      * apply elem_of_union. right. apply elem_of_difference. split; [by eapply Hocc|].
        intros Hc%elem_of_singleton. subst c. apply Hne. by eapply Hinj.
    + intros k j c Hk Hj.
      apply lookup_insert_Some in Hk as [[<- <-]|[Hnk Hk]];
        apply lookup_insert_Some in Hj as [[<- Hc]|[Hnj Hj]]; try done.
      * exfalso. apply Hout. by eapply Hocc.
      * exfalso. subst c. apply Hout. by eapply Hocc.
      * by eapply Hinj.
  - apply IH; simpl.
    + split; [|split].
      * intros k Hk. rewrite insert_insert_eq. apply lookup_insert_is_Some'. right. by apply Hdom.
      * intros k c Hk. rewrite insert_insert_eq in Hk.
        apply lookup_insert_Some in Hk as [[<- <-]|[Hne Hk]].
        -- apply elem_of_union. left. by apply elem_of_singleton.
        -- apply elem_of_union. right. apply elem_of_difference. split.
           ++ apply elem_of_union. right. apply elem_of_difference. split; [by eapply Hocc|].
              intros Hc%elem_of_singleton. subst c. apply Hne. by eapply Hinj.
           ++ intros Hc%elem_of_singleton. subst c. apply Hout. by eapply Hocc.
      * intros k j c. rewrite insert_insert_eq, (insert_id _ i orig) by done. apply Hinj.
    + rewrite insert_insert_eq. apply lookup_insert_eq.
Qed.

Lemma trySwap_apart adj n st i j :
  (i < n)%nat -> (j < n)%nat -> i <> j ->
  apart n (i_placement st) (i_occupied st) ->
  apart n (i_placement (trySwap adj st (i, j))) (i_occupied (trySwap adj st (i, j))).
Proof.
  intros Hi Hj Hij Hap. unfold trySwap.
  destruct (proj1 Hap i Hi) as [ci Hci]. destruct (proj1 Hap j Hj) as [cj Hcj].
  assert (cellOf (i_placement st) i = ci) as -> by (unfold cellOf; by rewrite Hci).
  assert (cellOf (i_placement st) j = cj) as -> by (unfold cellOf; by rewrite Hcj).
  destruct (bool_decide (ci = cj)); [done|].
  destruct Hap as (Hdom & Hocc & Hinj).
  destruct (_ <? _); simpl.
  - split; [|split].
    + intros k Hk. do 2 (apply lookup_insert_is_Some'; right). by apply Hdom.
    + intros k c Hk. apply lookup_insert_Some in Hk as [[<- <-]|[Hnj Hk]]; [by eapply Hocc|].
      apply lookup_insert_Some in Hk as [[<- <-]|[Hni Hk]]; by eapply Hocc.
    + intros k l c Hk Hl.
      apply lookup_insert_Some in Hk as [[<- <-]|[Hnj Hk]];
        [|apply lookup_insert_Some in Hk as [[<- <-]|[Hni Hk]]];
        (apply lookup_insert_Some in Hl as [[<- Hc]|[Hnj' Hl]];
         [|apply lookup_insert_Some in Hl as [[<- Hc]|[Hni' Hl]]]); try done.
      * exfalso. subst. apply Hij. by eapply Hinj.
      * exfalso. apply Hni'. by eapply Hinj.
      * exfalso. subst. apply Hij. by eapply Hinj.
      * exfalso. apply Hnj'. by eapply Hinj.
      * exfalso. subst c. apply Hni. by eapply Hinj.
      * exfalso. subst c. apply Hnj. by eapply Hinj.
      * by eapply Hinj.
  - assert (<[j:=cj]> (<[i:=ci]> (<[j:=ci]> (<[i:=cj]> (i_placement st)))) = i_placement st) as ->.
    { apply map_eq. intros k. destruct (decide (k = j)) as [->|Hkj].
      - by rewrite lookup_insert_eq.
      - rewrite lookup_insert_ne by done. destruct (decide (k = i)) as [->|Hki].
        + by rewrite lookup_insert_eq.
        + by rewrite !lookup_insert_ne by done. }
    done.
Qed.

Lemma movePass_apart adj n st :
  apart n (i_placement st) (i_occupied st) ->
  apart n (i_placement (movePass adj n st)) (i_occupied (movePass adj n st)).
Proof.
  unfold movePass.
  assert (forall l st, (forall i, i ∈ l -> (i < n)%nat) ->
            apart n (i_placement st) (i_occupied st) ->
            let st' := foldl (fun st i => tryMoves adj i (cellOf (i_placement st) i) st unitDirs)
                             st l in
            apart n (i_placement st') (i_occupied st')) as H.
  { induction l as [|i l IH]; intros st0 Hl Hap; cbv zeta; cbn [foldl]; [done|].
    apply IH; [intros k Hk; apply Hl; by right|].
    apply tryMoves_apart; [apply Hl; left|done]. }
  intros Hap. apply H; [|done]. intros i Hi. apply elem_of_seq in Hi. lia.
Qed.

Lemma swapPass_apart adj n st :
  apart n (i_placement st) (i_occupied st) ->
  apart n (i_placement (swapPass adj n st)) (i_occupied (swapPass adj n st)).
Proof.
  unfold swapPass. cbv zeta.
  assert (forall l st, (forall ij, ij ∈ l -> (ij.1 < n)%nat /\ (ij.2 < n)%nat /\ ij.1 <> ij.2) ->
            apart n (i_placement st) (i_occupied st) ->
            apart n (i_placement (foldl (trySwap adj) st l))
                    (i_occupied (foldl (trySwap adj) st l))) as H.
  { induction l as [|[i j] l IH]; intros st0 Hl Hap; cbn [foldl]; [done|].
    apply IH; [intros k Hk; apply Hl; by right|].
    destruct (Hl (i, j)) as (Hi & Hj & Hij); [left|]. by apply trySwap_apart. }
  intros Hap. apply H; [|done]. intros [i j] Hij.
  apply list_elem_of_bind in Hij as (i' & Hj & Hi).
  apply list_elem_of_fmap in Hj as (j' & [= -> ->] & Hj).
  apply elem_of_seq in Hi, Hj. simpl. lia.
Qed.

Lemma improveLoop_apart adj n iters : forall placement occupied,
  apart n placement occupied ->
  apart n (improveLoop iters adj n placement occupied).1
          (improveLoop iters adj n placement occupied).2.
Proof.
  induction iters as [|iters IH]; intros placement occupied Hap; simpl; [done|].
  set (st0 := mkImprove placement occupied _ false).
  pose proof (swapPass_apart adj n _ (movePass_apart adj n st0 Hap)) as H.
  destruct (improved _); [by apply IH|done].
Qed.

(** [localImprove] moves a node only onto a free cell and swaps only nodes
    on different cells: when the nodes stand on cells of their own, all in
    [occupied], they still do afterwards. *)
Theorem localImprove_apart placement occupied adj n maxIters :
  apart n placement occupied ->
  apart n (localImprove placement occupied adj n maxIters).1
          (localImprove placement occupied adj n maxIters).2.
Proof.
  intros Hap. unfold localImprove. destruct (n <=? 2)%nat; [done|].
  destruct Hap as (Hdom & Hocc & Hinj).
  apply improveLoop_apart. split; [exact Hdom|]. split; [exact Hocc|exact Hinj].
Qed.

Lemma localImprove_apart_witness :
  let pl : gmap nat gridCell :=
    <[2%nat := mkCell 0 2]> (<[1%nat := mkCell 0 1]> {[0%nat := mkCell 0 0]}) in
  let occ : gset gridCell := {[mkCell 0 0; mkCell 0 1; mkCell 0 2]} in
  apart 3 (localImprove pl occ [[1%nat]; [0%nat; 2%nat]; [1%nat]] 3 5).1
          (localImprove pl occ [[1%nat]; [0%nat; 2%nat]; [1%nat]] 3 5).2.
Proof.
  intros pl occ.
  assert (forall i c, pl !! i = Some c -> (i < 3)%nat /\ c = mkCell 0 (Z.of_nat i)) as Hpl.
  { intros i c Hi. unfold pl in Hi.
    apply lookup_insert_Some in Hi as [[<- <-]|[? Hi]]; [split; [lia|done]|].
    apply lookup_insert_Some in Hi as [[<- <-]|[? Hi]]; [split; [lia|done]|].
    apply lookup_singleton_Some in Hi as [<- <-]. split; [lia|done]. }
  apply localImprove_apart. split; [|split].
  - intros i Hi. destruct i as [|[|[|i]]]; [eexists; vm_compute; reflexivity..|lia].
  - intros i c Hi. apply Hpl in Hi as [Hi ->].
    destruct i as [|[|[|i]]]; [..|lia]; unfold occ; set_solver.
  - intros i j c Hi Hj. apply Hpl in Hi as [_ ->]. apply Hpl in Hj as [_ Hj].
    injection Hj as Hj. lia.
Defined.

End ImproveCells.

(** ** Cells of their own *)

Section PlacementDistinct.

Import d2wueortho.

(** *** Room on the rings *)

(** The steps from a center to the cells of its rings 2 to 20. *)
Definition ringSteps : list gridCell :=
  dr ← seqZ (-20) 41;
  dc ← seqZ (-20) 41;
  if (2 <=? Z.max (Z.abs dr) (Z.abs dc)) then [mkCell dr dc] else [].

Lemma ringSteps_length : length ringSteps = 1672%nat.
Proof. vm_compute. reflexivity. Qed.

Lemma NoDup_bind_disjoint {A B} (f : A -> list B) (l : list A) :
  NoDup l -> (forall a, NoDup (f a)) ->
  (forall a b x, a <> b -> x ∈ f a -> x ∈ f b -> False) ->
  NoDup (l ≫= f).
Proof.
  intros Hl Hf Hdis. induction Hl as [|a l Ha Hl IH]; [constructor|].
  change ((a :: l) ≫= f) with (f a ++ (l ≫= f)).
  apply NoDup_app. split; [apply Hf|]. split; [|done].
  intros x Hx Hx'. apply list_elem_of_bind in Hx' as (b & Hxb & Hb).
  apply (Hdis a b x); [|done|done]. intros ->. done.
Qed.

Lemma ringSteps_NoDup : NoDup ringSteps.
Proof.
  unfold ringSteps. apply NoDup_bind_disjoint.
  - apply NoDup_seqZ.
  - intros dr. apply NoDup_bind_disjoint.
    + apply NoDup_seqZ.
    + intros dc. destruct (_ <=? _); [apply NoDup_singleton|constructor].
    + intros a b x Hab Ha Hb.
      destruct (2 <=? _); [|by apply elem_of_nil in Ha].
      destruct (2 <=? _); [|by apply elem_of_nil in Hb].
      apply list_elem_of_singleton in Ha, Hb. congruence.
  - intros a b x Hab Ha Hb.
    apply list_elem_of_bind in Ha as (dc & Ha & _). apply list_elem_of_bind in Hb as (dc' & Hb & _).
    destruct (2 <=? _); [|by apply elem_of_nil in Ha].
    destruct (2 <=? _); [|by apply elem_of_nil in Hb].
    apply list_elem_of_singleton in Ha, Hb. congruence.
Qed.

Lemma ringSteps_onRings center d : d ∈ ringSteps -> onRings center (addCell center d).
Proof.
  unfold ringSteps. intros H.
  apply list_elem_of_bind in H as (dr & H & Hdr). apply list_elem_of_bind in H as (dc & H & Hdc).
  apply elem_of_seqZ in Hdr, Hdc.
  destruct (Z.leb_spec 2 (Z.max (Z.abs dr) (Z.abs dc))); [|by apply elem_of_nil in H].
  apply list_elem_of_singleton in H as ->. unfold onRings, addCell. simpl. lia.
Qed.

(** Fewer than 1672 occupied cells leave a cell of the rings free. *)
Lemma ring_free center (occ : gset gridCell) :
  (size occ < 1672)%nat -> exists c, onRings center c /\ c ∉ occ.
Proof.
  intros Hsize.
  destruct (decide (Forall (fun d => addCell center d ∈ occ) ringSteps)) as [Hall|Hex].
  - exfalso.
    assert (NoDup (addCell center <$> ringSteps)) as Hnd.
    { apply NoDup_fmap_2; [|apply ringSteps_NoDup].
      intros [r1 c1] [r2 c2] [= H1 H2]. f_equal; lia. }
    assert (list_to_set (addCell center <$> ringSteps) ⊆ occ) as Hsub.
    { intros c Hc. apply elem_of_list_to_set, list_elem_of_fmap in Hc as (d & -> & Hd).
      rewrite Forall_forall in Hall. by apply Hall. }
    apply subseteq_size in Hsub.
    rewrite size_list_to_set, length_fmap, ringSteps_length in Hsub by done. lia.
  - apply not_Forall_Exists in Hex; [|intros d; apply _].
    apply Exists_exists in Hex as (d & Hd & Hfree).
    exists (addCell center d). split; [|done]. by apply ringSteps_onRings.
Qed.

Lemma findBestCell_free center (occ : gset gridCell) dirs maxCols :
  (size occ < 1672)%nat -> findBestCell center occ dirs maxCols ∉ occ.
Proof.
  intros Hsize. destruct (ring_free center occ Hsize) as (c' & Hring & Hfree).
  unfold findBestCell. cbv zeta.
  apply (orElse_case (fun c => c ∉ occ)).
  { intros c E. apply firstSome_Some in E as (d & Hin & E). cbv zeta in E.
    destruct (negb _) eqn:Ef; simpl in E; [|done]. destruct (_ <? _); [|done].
    injection E as <-. by apply negb_true_iff, bool_decide_eq_false in Ef. }
  intros _. apply (orElse_case (fun c => c ∉ occ)).
  { intros c E. apply firstSome_Some in E as (d & Hin & E). cbv zeta in E.
    destruct (negb _) eqn:Ef; [|done]. injection E as <-.
    by apply negb_true_iff, bool_decide_eq_false in Ef. }
  intros _. apply (orElse_case (fun c => c ∉ occ)).
  { intros c E. apply firstSome_Some in E as (r & Hin & E).
    apply scanRing_Some in E as [Hok _]. apply andb_true_iff in Hok as [Hok _].
    by apply negb_true_iff, bool_decide_eq_false in Hok. }
  intros _. apply (orElse_case (fun c => c ∉ occ)).
  { intros c E. apply firstSome_Some in E as (r & Hin & E).
    apply scanRing_Some in E as [Hok _].
    by apply negb_true_iff, bool_decide_eq_false in Hok. }
  intros E4. exfalso. pose proof (scanRings_None _ _ _ E4 Hring) as H. cbv beta in H.
  by rewrite bool_decide_eq_false_2 in H.
Qed.

Lemma findFirstFree_free (occ : gset gridCell) :
  (size occ < 1672)%nat -> findFirstFree occ ∉ occ.
Proof.
  intros Hsize. destruct (ring_free (mkCell 0 0) occ Hsize) as ([r k] & Hring & Hfree).
  unfold onRings in Hring. cbn [row col] in Hring.
  unfold findFirstFree. cbv zeta.
  destruct (firstSome _ (seqZ 0 51)) as [c|] eqn:E.
  - apply firstSome_Some in E as (radius & Hr & E).
    apply firstSome_Some in E as (r' & Hrow & E).
    apply firstSome_Some in E as (k' & Hcol & E).
    destruct (negb _) eqn:Ef; [|done]. injection E as <-.
    by apply negb_true_iff, bool_decide_eq_false in Ef.
  - exfalso.
    pose proof (firstSome_None_inv _ _ E 50) as H1.
    rewrite elem_of_seqZ in H1. specialize (H1 ltac:(lia)).
    pose proof (firstSome_None_inv _ _ H1 r) as H2.
    rewrite elem_of_seqZ in H2. specialize (H2 ltac:(lia)).
    pose proof (firstSome_None_inv _ _ H2 k) as H3.
    rewrite elem_of_seqZ in H3. specialize (H3 ltac:(lia)).
    cbv beta in H3. by rewrite bool_decide_eq_false_2 in H3.
Qed.

(** *** The placement steps keep the cells apart *)

(** Only visited nodes are placed, [occupied] holds their cells, no two
    share a cell, and there are no more occupied cells than visited
    nodes. *)
Definition tidy (st : Bfs) : Prop :=
  (forall i, is_Some (b_placement st !! i) -> i ∈ b_visited st) /\
  (forall i c, b_placement st !! i = Some c -> c ∈ b_occupied st) /\
  (forall i j c, b_placement st !! i = Some c -> b_placement st !! j = Some c -> i = j) /\
  (size (b_occupied st) <= size (b_visited st))%nat.

Lemma place_tidy n st nb cell :
  (n <= 1672)%nat -> (nb < n)%nat ->
  (forall i, i ∈ b_visited st -> (i < n)%nat) -> tidy st ->
  (nb ∉ b_visited st) ->
  ((size (b_occupied st) < 1672)%nat -> cell ∉ b_occupied st) ->
  forall q, tidy (mkBfs (<[nb := cell]> (b_placement st)) ({[cell]} ∪ b_occupied st)
                        ({[nb]} ∪ b_visited st) q).
Proof.
  intros Hn Hnb Hinv (T1 & T2 & T3 & T4) Hout Hcell q.
  assert (size ({[nb]} ∪ b_visited st) = S (size (b_visited st))) as HsV.
  { rewrite size_union, size_singleton; [done|].
    intros x Hx1 Hx2. apply elem_of_singleton in Hx1 as ->. done. }
  assert (size ({[nb]} ∪ b_visited st) <= n)%nat as HsN.
  { rewrite <- (size_set_seq (C:=gset nat) 0 n). apply subseteq_size.
    intros x Hx. apply elem_of_set_seq. apply elem_of_union in Hx as [Hx|Hx].
    - apply elem_of_singleton in Hx as ->. lia.
    - specialize (Hinv x Hx). lia. }
  assert (cell ∉ b_occupied st) as Hfree by (apply Hcell; lia).
  split; [|split; [|split]]; simpl.
  - intros i Hi. apply lookup_insert_is_Some in Hi as [->|[_ Hi]].
    + apply elem_of_union. left. by apply elem_of_singleton.
    + apply elem_of_union. right. by apply T1.
  - intros i c Hi. apply lookup_insert_Some in Hi as [[_ <-]|[_ Hi]].
    + apply elem_of_union. left. by apply elem_of_singleton.
    + apply elem_of_union. right. by eapply T2.
  - intros i j c Hi Hj.
    apply lookup_insert_Some in Hi as [[<- <-]|[Hni Hi]];
      apply lookup_insert_Some in Hj as [[<- Hc]|[Hnj Hj]]; try done.
    + exfalso. apply Hfree. by eapply T2.
    + exfalso. subst c. apply Hfree. by eapply T2.
    + by eapply T3.
  - rewrite HsV, size_union, size_singleton; [lia|].
    intros x Hx1 Hx2. apply elem_of_singleton in Hx1 as ->. done.
Qed.

Lemma placeNeighbor_tidy n outgoing dirs maxCols cur curCell st nb :
  (n <= 1672)%nat -> (nb < n)%nat -> bfsInv n st -> tidy st ->
  tidy (placeNeighbor outgoing dirs maxCols cur curCell st nb).
Proof.
  intros Hn Hnb Hinv Ht. unfold placeNeighbor.
  destruct (decide (nb ∈ b_visited st)) as [Hin|Hout].
  { by rewrite bool_decide_eq_true_2. }
  rewrite bool_decide_eq_false_2 by done. cbv zeta.
  apply (place_tidy n); try done; [|apply findBestCell_free].
  intros i Hi. destruct Hinv as [Hv _]. by destruct (Hv i Hi).
Qed.

Lemma placeNeighbors_tidy n outgoing dirs maxCols cur curCell l : forall st,
  (n <= 1672)%nat -> (forall x, x ∈ l -> (x < n)%nat) -> bfsInv n st -> tidy st ->
  tidy (foldl (placeNeighbor outgoing dirs maxCols cur curCell) st l).
Proof.
  induction l as [|nb l IH]; intros st Hn Hl Hinv Ht; cbn [foldl]; [done|].
  destruct (placeNeighbor_inv n outgoing dirs maxCols cur curCell st nb) as (H1 & _);
    [apply Hl; left|done|].
  apply IH; [done|intros x Hx; apply Hl; by right|done|].
  apply (placeNeighbor_tidy n); [done|apply Hl; left|done|done].
Qed.

Lemma bfsLoop_tidy sortSlice n adj degree outgoing dirs maxCols fuel : forall st st',
  (forall A (less : A -> A -> bool) l, Permutation l (sortSlice A less l)) ->
  (forall i l x, adj !! i = Some l -> x ∈ l -> (x < n)%nat) ->
  (n <= 1672)%nat ->
  bfsLoop sortSlice fuel adj degree outgoing dirs maxCols st = Some st' ->
  bfsInv n st -> tidy st -> tidy st'.
Proof.
  induction fuel as [|fuel IH]; intros [pl occ vis q] st' Hperm Hadj Hn H Hinv Ht.
  - simpl in H. destruct q; [|done]. by injection H as <-.
  - destruct q as [|cur q]; [simpl in H; by injection H as <-|].
    simpl in H.
    set (nbs := List.filter _ _) in H. set (sorted := sortSlice _ _ nbs) in H.
    set (st1 := mkBfs pl occ vis q) in H.
    assert (bfsInv n st1) as Hinv1.
    { destruct Hinv as [Hv Hq]. split; [done|]. intros x Hx. apply Hq. simpl. by right. }
    assert (forall x, x ∈ sorted -> (x < n)%nat) as Hsorted.
    { intros x Hx. unfold sorted in Hx. rewrite <- Hperm in Hx.
      unfold nbs in Hx. apply list_elem_of_In, filter_In in Hx as [Hx _].
      apply list_elem_of_In in Hx. simpl in Hx.
      destruct (adj !! cur) as [l|] eqn:E; simpl in Hx; [eauto|by apply elem_of_nil in Hx]. }
    destruct (placeNeighbors_inv n outgoing dirs maxCols cur (cellOf pl cur) sorted st1
                Hsorted Hinv1) as (H1 & _).
    apply (IH _ _ Hperm Hadj Hn H H1).
    apply (placeNeighbors_tidy n); done.
Qed.

Lemma placeDisconnected_tidy n l : forall st,
  (n <= 1672)%nat -> (forall x, x ∈ l -> (x < n)%nat) ->
  (forall i, i ∈ b_visited st -> (i < n)%nat) -> tidy st ->
  tidy (foldl placeDisconnected st l).
Proof.
  induction l as [|x l IH]; intros st Hn Hl Hv Ht; cbn [foldl]; [done|].
  assert (x < n)%nat as Hx by (apply Hl; left).
  apply IH; [done|intros y Hy; apply Hl; by right| |].
  - intros i Hi. unfold placeDisconnected in Hi.
    destruct (bool_decide (x ∈ b_visited st)); [by apply Hv|]. simpl in Hi.
    apply elem_of_union in Hi as [Hi|Hi]; [by apply elem_of_singleton in Hi as ->|by apply Hv].
  - unfold placeDisconnected.
    destruct (decide (x ∈ b_visited st)) as [Hin|Hout].
    { by rewrite bool_decide_eq_true_2. }
    rewrite bool_decide_eq_false_2 by done. cbv zeta.
    apply (place_tidy n); try done. apply findFirstFree_free.
Qed.

(** With at most 1672 objects [gridPlacement] gives every object a cell of
    its own, and [occupied] is the inverse of [placement]: the rings
    around a placed node then always have a free cell, so the unchecked
    fallback cell is never used. *)
Theorem gridPlacement_distinct sortSlice objects edges dir gi :
  gosort.sortContract sortSlice ->
  (length objects <= 1672)%nat ->
  gridPlacement sortSlice objects edges dir = Some gi ->
  (forall i j c, placement gi !! i = Some c -> placement gi !! j = Some c -> i = j) /\
  (forall c i, occupied gi !! c = Some i <-> placement gi !! i = Some c).
Proof.
  intros Hsort Hn H.
  destruct (decide (objects = [])) as [->|Hne].
  { injection H as <-. simpl. split; [intros i j c Hi; by rewrite lookup_empty in Hi|].
    intros c i. by rewrite !lookup_empty. }
  rewrite gridPlacement_unfold in H by done. cbv zeta in H.
  set (n := length objects) in *. set (adj := adjOf objects edges) in *.
  destruct (adjOf_bounded objects edges) as [Hlen Hb]. fold n adj in Hlen, Hb.
  set (start := pickStart (length <$> adj)) in *.
  assert (start < n)%nat as Hstart.
  { unfold start. rewrite <- Hlen, <- (length_fmap length adj). apply pickStart_lt.
    intros E. apply (f_equal length) in E. rewrite length_fmap, Hlen in E.
    unfold n in E. destruct objects; [done|simpl in E; lia]. }
  apply bind_Some in H as (st1 & Hloop & [= <-]).
  set (st0 := mkBfs _ _ _ _) in Hloop.
  assert (bfsInv n st0) as Hinv0.
  { split; simpl.
    - intros i Hi. apply elem_of_singleton in Hi as ->. split; [done|].
      rewrite lookup_singleton_eq. eauto.
    - intros x Hx. apply list_elem_of_singleton in Hx as ->. by apply elem_of_singleton. }
  assert (tidy st0) as Ht0.
  { split; [|split; [|split]]; unfold st0; cbn [b_placement b_occupied b_visited].
    - intros i [c Hi]. apply lookup_singleton_Some in Hi as [<- _]. by apply elem_of_singleton.
    - intros i c Hi. apply lookup_singleton_Some in Hi as [_ <-]. by apply elem_of_singleton.
    - intros i j c Hi Hj. apply lookup_singleton_Some in Hi as [<- _].
      by apply lookup_singleton_Some in Hj as [<- _].
    - by rewrite !size_singleton. }
  pose proof (fun A less l => proj1 (Hsort A less l)) as Hperm.
  destruct (bfsLoop_total sortSlice Hperm n adj (length <$> adj) (outgoingOf objects edges)
              (bfsDirs dir) (Z.max 2 (ceilSqrt (Z.of_nat n))) Hb n st0 Hinv0)
    as (st1' & Hloop' & [Hv _] & _).
  { unfold st0. cbn [b_queue b_visited length]. rewrite size_singleton. lia. }
  rewrite Hloop in Hloop'. injection Hloop' as <-.
  pose proof (bfsLoop_tidy _ _ _ _ _ _ _ _ _ _ Hperm Hb Hn Hloop Hinv0 Ht0) as Ht1.
  destruct (placeDisconnected_all (seq 0 n) st1) as (Hp & _ & Hall).
  { intros i Hi. by apply Hv. }
  pose proof (placeDisconnected_tidy n (seq 0 n) st1 Hn) as Ht2.
  destruct Ht2 as (_ & T2 & T3 & _);
    [intros x Hx; apply elem_of_seq in Hx; lia|intros i Hi; by apply Hv|done|].
  set (st2 := foldl placeDisconnected st1 (seq 0 n)) in *.
  assert (apart n (b_placement st2) (b_occupied st2)) as Hap.
  { split; [|split; [exact T2|exact T3]]. intros i Hi. apply Hp, Hall, elem_of_seq. lia. }
  assert (apart n (localImprove (b_placement st2) (b_occupied st2) adj n 5).1
                  (localImprove (b_placement st2) (b_occupied st2) adj n 5).2)
    as (Hdom & _ & Hinj).
  { unfold localImprove. destruct (n <=? 2)%nat; [done|]. by apply improveLoop_apart. }
  set (pl := (localImprove (b_placement st2) (b_occupied st2) adj n 5).1) in *.
  assert (forall i j c, placement (normalize n pl) !! i = Some c ->
                        placement (normalize n pl) !! j = Some c -> i = j) as Hdistinct.
  { intros i j c Hi Hj. apply normalize_placement in Hi as [Hi ->].
    apply normalize_placement in Hj as [Hj [= Hr Hc]].
    destruct (Hdom i Hi) as [ci Hci]. destruct (Hdom j Hj) as [cj Hcj].
    unfold cellOf in Hr, Hc. rewrite Hci, Hcj in Hr, Hc. simpl in Hr, Hc.
    apply (Hinj i j ci); [done|]. rewrite Hcj. f_equal. destruct ci, cj. simpl in *.
    f_equal; lia. }
  split; [exact Hdistinct|].
  intros c i. unfold normalize at 1. cbn [occupied]. rewrite occupied_last. split.
  - intros (Hi & Hg & _). apply normalize_placement. by split.
  - intros Hi. pose proof Hi as Hi'. apply normalize_placement in Hi' as [Hlt ->].
    split; [done|]. split; [done|]. intros j Hj Hg.
    assert (j = i) as ->; [|done]. eapply Hdistinct; [|exact Hi].
    apply normalize_placement. split; [done|]. by rewrite <- Hg.
Qed.

End PlacementDistinct.

Lemma gridPlacement_distinct_witness :
  exists gi,
    d2wueortho.gridPlacement gosort.insertionSort [0%nat; 1%nat] [] EmptyString = Some gi /\
    (forall i j c, d2wueortho.placement gi !! i = Some c ->
                   d2wueortho.placement gi !! j = Some c -> i = j) /\
    (forall c i, d2wueortho.occupied gi !! c = Some i <-> d2wueortho.placement gi !! i = Some c).
Proof.
  destruct (d2wueortho.gridPlacement gosort.insertionSort [0%nat; 1%nat] [] EmptyString)
    as [gi|] eqn:E; [|by vm_compute in E].
  exists gi. split; [done|].
  apply (gridPlacement_distinct gosort.insertionSort [0%nat; 1%nat] [] EmptyString gi).
  - apply insertionSort_contract.
  - apply Nat.leb_le. reflexivity.
  - exact E.
Defined.

(** ** Faces and routes of the grid router *)

Section Faces.

Import d2wueortho.

Definition horizontalFace (f : face) : bool :=
  match f with faceLeft | faceRight => true | _ => false end.

(** [oppositeFace] pairs the faces up: it undoes itself, never answers the
    face it was given and keeps the axis; [perpendicularFace] answers a face
    of the other axis. *)
Theorem oppositeFace_involutive (f : face) :
  oppositeFace (oppositeFace f) = f /\ oppositeFace f <> f /\
  horizontalFace (oppositeFace f) = horizontalFace f /\
  horizontalFace (perpendicularFace f) = negb (horizontalFace f).
Proof. by destruct f. Qed.

Lemma absInt_Zabs x : absInt x = Z.abs x.
Proof. unfold absInt. destruct (Z.ltb_spec x 0); lia. Qed.

(** [selectFaces] always answers a pair of opposite faces: the source
    leaves by the face that looks at the destination along the dominant
    axis (the vertical one when the offsets are equal) and the destination
    is entered by the opposite face.  For two different cells the edge in
    the other direction gets the same two faces, swapped. *)
Theorem selectFaces_opposite (srcCell dstCell : gridCell) :
  let faces := selectFaces srcCell dstCell in
  let dc := col dstCell - col srcCell in
  let dr := row dstCell - row srcCell in
  faces.2 = oppositeFace faces.1 /\
  (horizontalFace faces.1 = true <-> dr = 0 \/ Z.abs dr < Z.abs dc) /\
  (faces.1 = faceRight -> 0 < dc \/ srcCell = dstCell) /\
  (faces.1 = faceLeft -> dc < 0) /\
  (faces.1 = faceBottom -> 0 < dr) /\
  (faces.1 = faceTop -> dr < 0) /\
  (srcCell <> dstCell -> selectFaces dstCell srcCell = (faces.2, faces.1)).
Proof.
  destruct srcCell as [r1 c1], dstCell as [r2 c2].
  unfold selectFaces. cbv zeta. rewrite !absInt_Zabs. simpl.
  destruct (Z.eqb_spec (r2 - r1) 0), (Z.eqb_spec (c2 - c1) 0),
           (Z.eqb_spec (r1 - r2) 0), (Z.eqb_spec (c1 - c2) 0); try lia; simpl;
  repeat match goal with
  | |- context [Z.ltb ?a ?b] => destruct (Z.ltb_spec a b); try lia; simpl
  end;
  repeat split; try done; try lia; try (intros; lia);
  try (intros _; right; f_equal; lia);
  try (intros H; exfalso; apply H; f_equal; lia).
Qed.

End Faces.

Section Routes.

Import d2wueortho.

(** Every segment of the route is horizontal or vertical: consecutive
    points have the same [X] or the same [Y]. *)
Fixpoint orthogonalRoute (r : list Point) : Prop :=
  match r with
  | p :: ((q :: _) as rest) => (X p = X q \/ Y p = Y q) /\ orthogonalRoute rest
  | _ => True
  end.

(** Every node index of the cells is an index of [info.objects]. *)
Definition validCells (cells : list (gridCell * nat)) (px : gridPixels) : Prop :=
  forall ci, ci ∈ cells -> (ci.2 < length (objects px))%nat.

(** Whether the node of one occupied cell is crossed. *)
Definition cellCrossed (route : list Point) (px : gridPixels) (srcCell dstCell : gridCell)
    (ci : gridCell * nat) : bool :=
  negb (bool_decide (ci.1 = srcCell) || bool_decide (ci.1 = dstCell)) &&
  match objects px !! ci.2 with
  | Some obj => anySegmentIntersects route (nodeBox obj 4)
  | None => false
  end.

Lemma routeCrossesNodeIn_exists cells route px srcCell dstCell :
  validCells cells px ->
  routeCrossesNodeIn cells route px srcCell dstCell
  = Some (existsb (cellCrossed route px srcCell dstCell) cells).
Proof.
  induction cells as [|[cell idx] cells IH]; intros Hv; [done|].
  assert (validCells cells px) as Hv' by (intros ci Hci; apply Hv; by right).
  simpl. unfold cellCrossed at 1. simpl.
  destruct (_ || _); simpl; [by apply IH|].
  destruct (lookup_lt_is_Some_2 (objects px) idx) as [obj Hobj]; [apply (Hv (cell, idx)); left|].
  rewrite Hobj. simpl. destruct (anySegmentIntersects _ _); [done|by apply IH].
Qed.

Lemma existsb_Permutation {A} (f : A -> bool) l l' :
  l ≡ₚ l' -> existsb f l = existsb f l'.
Proof.
  induction 1 as [|x l l' _ IH|x y l|l l' l'' _ IH1 _ IH2]; simpl.
  - done.
  - by rewrite IH.
  - destruct (f x), (f y); done.
  - by rewrite IH1.
Qed.

(** When every occupied cell holds the index of a node, [routeCrossesNode]
    does not panic and its answer is the same in whatever order the map
    [info.occupied] is walked: whether some node other than the two ends
    has a segment of the route through its box. *)
Theorem routeCrossesNode_any_order cells cells' route px srcCell dstCell :
  cells ≡ₚ cells' ->
  validCells cells px ->
  routeCrossesNodeIn cells' route px srcCell dstCell
  = Some (existsb (cellCrossed route px srcCell dstCell) cells) /\
  routeCrossesNodeIn cells' route px srcCell dstCell
  = routeCrossesNodeIn cells route px srcCell dstCell.
Proof.
  intros Hp Hv.
  assert (validCells cells' px) as Hv' by (intros ci Hci; apply Hv; by rewrite Hp).
  rewrite !routeCrossesNodeIn_exists by done.
  by rewrite (existsb_Permutation _ _ _ Hp).
Qed.

(** Two nodes side by side in one row. *)
Definition pairPixels : gridPixels :=
  mkPixels ∅ ∅ ∅ ∅
    [mkObject None [] (mkPoint 0 0) 10 10; mkObject None [] (mkPoint 100 0) 10 10].

Definition pairCells : list (gridCell * nat) := [(mkCell 0 0, 0%nat); (mkCell 0 1, 1%nat)].

Definition pairInfo : gridInfo :=
  mkInfo (<[1%nat := mkCell 0 1]> {[0%nat := mkCell 0 0]})
         (<[mkCell 0 1 := 1%nat]> {[mkCell 0 0 := 0%nat]}).

Lemma pairCells_valid : validCells pairCells pairPixels.
Proof.
  intros ci Hci. unfold pairCells in Hci.
  apply elem_of_cons in Hci as [->|Hci]; [simpl; lia|].
  apply list_elem_of_singleton in Hci as ->. simpl. lia.
Defined.

Lemma pairInfo_valid : validCells (map_to_list (occupied pairInfo)) pairPixels.
Proof.
  intros [c i] Hci. apply elem_of_map_to_list in Hci. simpl in Hci.
  apply lookup_insert_Some in Hci as [[_ <-]|[_ Hci]]; [simpl; lia|].
  apply lookup_singleton_Some in Hci as [_ <-]. simpl. lia.
Defined.

Lemma routeCrossesNode_any_order_witness :
  routeCrossesNodeIn (rev pairCells) [mkPoint 10 5; mkPoint 100 5] pairPixels
                     (mkCell 0 0) (mkCell 0 1)
  = Some (existsb (cellCrossed [mkPoint 10 5; mkPoint 100 5] pairPixels
                               (mkCell 0 0) (mkCell 0 1)) pairCells) /\
  routeCrossesNodeIn (rev pairCells) [mkPoint 10 5; mkPoint 100 5] pairPixels
                     (mkCell 0 0) (mkCell 0 1)
  = routeCrossesNodeIn pairCells [mkPoint 10 5; mkPoint 100 5] pairPixels
                       (mkCell 0 0) (mkCell 0 1).
Proof.
  apply routeCrossesNode_any_order.
  - apply Permutation_rev.
  - apply pairCells_valid.
Defined.

(** [constructRoute] answers a route from the source port to the
    destination port of two, three or four points.  A route of three or
    four points has only horizontal and vertical segments; the two-point
    route is the straight line, tried only in a shared row or column.  When
    the route crosses a node it is the last resort, the Z-route through the
    channel for the destination face. *)
Theorem constructRoute_shape srcPort dstPort srcFace dstFace srcCell dstCell info px :
  validCells (map_to_list (occupied info)) px ->
  exists route,
    constructRoute srcPort dstPort srcFace dstFace srcCell dstCell info px = Some route /\
    head route = Some srcPort /\ last route = Some dstPort /\
    (2 <= length route <= 4)%nat /\
    (length route = 2%nat \/ orthogonalRoute route) /\
    (length route = 2%nat -> row srcCell = row dstCell \/ col srcCell = col dstCell) /\
    (routeCrossesNode route info px srcCell dstCell = Some true ->
     route = buildZRoute srcPort dstPort dstFace srcCell dstCell px).
Proof.
  intros Hv. unfold constructRoute. cbv zeta.
  assert (forall r, exists b, routeCrossesNode r info px srcCell dstCell = Some b) as Hc
    by (intros r; unfold routeCrossesNode; rewrite routeCrossesNodeIn_exists by done; eauto).
  assert (forall f, orthogonalRoute (buildZRoute srcPort dstPort f srcCell dstCell px) /\
                    head (buildZRoute srcPort dstPort f srcCell dstCell px) = Some srcPort /\
                    last (buildZRoute srcPort dstPort f srcCell dstCell px) = Some dstPort /\
                    length (buildZRoute srcPort dstPort f srcCell dstCell px) = 4%nat) as Hz
    by (intros []; simpl; tauto).
  assert (exists b, (if (row srcCell =? row dstCell) || (col srcCell =? col dstCell)
                     then negb <$> routeCrossesNode [srcPort; dstPort] info px srcCell dstCell
                     else Some false) = Some b /\
                    (b = true -> (row srcCell = row dstCell \/ col srcCell = col dstCell) /\
                       routeCrossesNode [srcPort; dstPort] info px srcCell dstCell = Some false))
    as (b0 & -> & Hb0).
  { destruct (Z.eqb_spec (row srcCell) (row dstCell)) as [Er|Er]; simpl.
    - destruct (Hc [srcPort; dstPort]) as [b ->]. exists (negb b). split; [done|].
      destruct b; [done|]. auto.
    - destruct (Z.eqb_spec (col srcCell) (col dstCell)) as [Ec|Ec]; simpl.
      + destruct (Hc [srcPort; dstPort]) as [b ->]. exists (negb b). split; [done|].
        destruct b; [done|]. auto.
      + exists false. split; [done|]. done. }
  simpl. destruct b0.
  { destruct (Hb0 eq_refl) as [Hrc Hcross]. eexists. split; [reflexivity|].
    simpl. repeat split; try done; try lia; auto.
    intros H. congruence. }
  set (bends := match srcFace with
                | faceTop | faceBottom => _
                | _ => _ end).
  assert (exists bp ba, bends = (bp, ba) /\
            orthogonalRoute [srcPort; bp; dstPort] /\ orthogonalRoute [srcPort; ba; dstPort])
    as (bp & ba & -> & Hbp & Hba).
  { unfold bends. destruct srcFace; eexists _, _; (split; [reflexivity|]); simpl; tauto. }
  destruct (Hc [srcPort; bp; dstPort]) as [c1 Hc1]. rewrite Hc1. simpl.
  destruct c1; simpl.
  2:{ eexists. split; [reflexivity|]. simpl. repeat split; try done; try lia; auto.
      intros H. congruence. }
  destruct (Hc [srcPort; ba; dstPort]) as [c2 Hc2]. rewrite Hc2. simpl.
  destruct c2; simpl.
  2:{ eexists. split; [reflexivity|]. simpl. repeat split; try done; try lia; auto.
      intros H. congruence. }
  destruct (Hc (buildZRoute srcPort dstPort dstFace srcCell dstCell px)) as [c3 Hc3].
  rewrite Hc3. simpl. destruct c3; simpl.
  2:{ destruct (Hz dstFace) as (Z1 & Z2 & Z3 & Z4).
      eexists. split; [reflexivity|]. rewrite Z4. repeat split; try done; try lia; auto. }
  destruct (Hc (buildZRoute srcPort dstPort (perpendicularFace dstFace) srcCell dstCell px))
    as [c4 Hc4].
  rewrite Hc4. simpl. destruct c4; simpl.
  2:{ destruct (Hz (perpendicularFace dstFace)) as (Z1 & Z2 & Z3 & Z4).
      eexists. split; [reflexivity|]. rewrite Z4. repeat split; try done; try lia; auto.
      intros H. congruence. }
  destruct (Hc (buildZRoute srcPort dstPort (oppositeFace (perpendicularFace dstFace))
                  srcCell dstCell px)) as [c5 Hc5].
  rewrite Hc5. simpl. destruct c5; simpl.
  2:{ destruct (Hz (oppositeFace (perpendicularFace dstFace))) as (Z1 & Z2 & Z3 & Z4).
      eexists. split; [reflexivity|]. rewrite Z4. repeat split; try done; try lia; auto.
      intros H. congruence. }
  destruct (Hz dstFace) as (Z1 & Z2 & Z3 & Z4).
  eexists. split; [reflexivity|]. rewrite Z4. repeat split; try done; try lia; auto.
Qed.

Lemma constructRoute_shape_witness :
  exists route,
    constructRoute (mkPoint 10 5) (mkPoint 100 5) faceRight faceLeft
                   (mkCell 0 0) (mkCell 0 1) pairInfo pairPixels = Some route /\
    head route = Some (mkPoint 10 5) /\ last route = Some (mkPoint 100 5) /\
    (2 <= length route <= 4)%nat /\
    (length route = 2%nat \/ orthogonalRoute route) /\
    (length route = 2%nat ->
     row (mkCell 0 0) = row (mkCell 0 1) \/ col (mkCell 0 0) = col (mkCell 0 1)) /\
    (routeCrossesNode route pairInfo pairPixels (mkCell 0 0) (mkCell 0 1) = Some true ->
     route = buildZRoute (mkPoint 10 5) (mkPoint 100 5) faceLeft
                         (mkCell 0 0) (mkCell 0 1) pairPixels).
Proof.
  apply constructRoute_shape. apply pairInfo_valid.
Defined.

End Routes.

(** ** Overlapping segments *)

Section Overlapping.

Import d2wueortho.

(** The segments whose flag is not set. *)
Fixpoint unused (used : list bool) (segs : list edgeSegment) : list edgeSegment :=
  match used, segs with
  | u :: used, s :: segs => if u then unused used segs else s :: unused used segs
  | _, _ => []
  end.

Lemma unused_mark used : forall j segs s,
  used !! j = Some false -> segs !! j = Some s ->
  unused used segs ≡ₚ s :: unused (<[j := true]> used) segs.
Proof.
  induction used as [|u used IH]; intros j segs s Hu Hs; [done|].
  destruct segs as [|s0 segs]; [done|].
  destruct j as [|j]; simpl in *.
  - injection Hu as ->. by injection Hs as ->.
  - destruct u; [by apply IH|].
    rewrite (IH j segs s Hu Hs). apply perm_swap.
Qed.

Lemma unused_fresh (segs : list edgeSegment) : unused (replicate (length segs) false) segs = segs.
Proof. induction segs as [|s segs IH]; simpl; [done|by rewrite IH]. Qed.

Lemma unused_none used : forall segs,
  (forall i, (i < length segs)%nat -> used !! i = Some true) -> unused used segs = [].
Proof.
  induction used as [|u used IH]; intros segs H; [done|].
  destruct segs as [|s segs]; [done|]. simpl.
  pose proof (H 0%nat ltac:(simpl; lia)) as H0. injection H0 as ->.
  apply IH. intros i Hi. apply (H (S i)). simpl. lia.
Qed.

Lemma set_flag_kept (used : list bool) i j :
  used !! i = Some true -> <[j := true]> used !! i = Some true.
Proof.
  intros H. destruct (decide (i = j)) as [->|Hne].
  - apply list_lookup_insert_eq. by eapply lookup_lt_Some.
  - by rewrite list_lookup_insert_ne.
Qed.

Definition groupOK (segs : list edgeSegment) (st st' : list edgeSegment * list bool * float) : Prop :=
  st'.1.1 <> [] /\
  st'.1.1 ++ unused st'.1.2 segs ≡ₚ st.1.1 ++ unused st.1.2 segs /\
  length st'.1.2 = length st.1.2 /\
  forall i, st.1.2 !! i = Some true -> st'.1.2 !! i = Some true.

Lemma joinGroup_step segs st j : st.1.1 <> [] -> groupOK segs st (joinGroup segs st j).
Proof.
  destruct st as [[group used] groupMax]. intros Hne. simpl in Hne.
  assert (groupOK segs (group, used, groupMax) (group, used, groupMax)) as Hrefl by done.
  unfold joinGroup.
  destruct (used !! j) as [[]|] eqn:Hu; try done.
  destruct (segs !! j) as [s|] eqn:Hs; [|done].
  destruct (PrimFloat.ltb _ _); [|done].
  split; [by destruct group|]. simpl. split; [|split].
  - rewrite <- app_assoc. simpl. by rewrite (unused_mark used j segs s).
  - apply length_insert.
  - intros i Hi. by apply set_flag_kept.
Qed.

Lemma joinGroup_keeps segs l : forall st,
  st.1.1 <> [] -> groupOK segs st (foldl (joinGroup segs) st l).
Proof.
  induction l as [|j l IH]; intros st Hne; [done|].
  cbn [foldl].
  destruct (joinGroup_step segs st j Hne) as (H1 & H2 & H3 & H4).
  destruct (IH _ H1) as (I1 & I2 & I3 & I4).
  split; [done|]. split; [by rewrite I2|]. split; [by rewrite I3|].
  intros i Hi. by apply I4, H4.
Qed.

Lemma startGroup_keeps segs i groups used :
  (i < length segs)%nat -> length used = length segs ->
  let r := startGroup segs (groups, used) i in
  concat r.1 ++ unused r.2 segs ≡ₚ concat groups ++ unused used segs /\
  (Forall (fun g => g <> []) groups -> Forall (fun g => g <> []) r.1) /\
  length r.2 = length segs /\
  r.2 !! i = Some true /\
  forall k, used !! k = Some true -> r.2 !! k = Some true.
Proof.
  intros Hi Hlen. cbv zeta. unfold startGroup.
  destruct (lookup_lt_is_Some_2 used i ltac:(lia)) as [u Hu].
  destruct (lookup_lt_is_Some_2 segs i Hi) as [s Hs].
  rewrite Hu, Hs. destruct u; [done|].
  pose proof (joinGroup_keeps segs (seq (S i) (length segs - S i))
                ([s], <[i := true]> used, rangeMax s) ltac:(done)) as H.
  destruct (foldl _ _ _) as [[group used'] groupMax].
  destruct H as (H1 & H2 & H3 & H4). simpl in *.
  split; [|split; [|split; [|split]]].
  - rewrite concat_app. simpl. rewrite app_nil_r, <- app_assoc, H2.
    by rewrite (unused_mark used i segs s).
  - intros Hg. apply Forall_app. split; [done|]. by constructor.
  - by rewrite H3, length_insert.
  - apply H4, list_lookup_insert_eq. by eapply lookup_lt_Some.
  - intros k Hk. by apply H4, set_flag_kept.
Qed.

Lemma startGroups_keeps segs l : forall groups used,
  (forall i, i ∈ l -> (i < length segs)%nat) -> length used = length segs ->
  Forall (fun g => g <> []) groups ->
  let r := foldl (startGroup segs) (groups, used) l in
  concat r.1 ++ unused r.2 segs ≡ₚ concat groups ++ unused used segs /\
  Forall (fun g => g <> []) r.1 /\
  (forall i, i ∈ l -> r.2 !! i = Some true) /\
  forall k, used !! k = Some true -> r.2 !! k = Some true.
Proof.
  induction l as [|i l IH]; intros groups used Hl Hlen Hg; cbv zeta.
  { split; [done|]. split; [done|]. split; [|done]. intros i Hi. by apply elem_of_nil in Hi. }
  cbn [foldl].
  destruct (startGroup_keeps segs i groups used) as (H1 & H2 & H3 & H4 & H5);
    [apply Hl; left|done|].
  destruct (startGroup segs (groups, used) i) as [groups1 used1]. simpl in *.
  destruct (IH groups1 used1) as (I1 & I2 & I3 & I4);
    [intros k Hk; apply Hl; by right|done|by apply H2|].
  split; [by rewrite I1|]. split; [done|]. split; [|intros k Hk; by apply I4, H5].
  intros k Hk. apply elem_of_cons in Hk as [->|Hk]; [by apply I4|by apply I3].
Qed.

(** [findOverlappingSegments] loses and repeats no segment: the groups
    together are a rearrangement of the input, and no group is empty. *)
Theorem findOverlappingSegments_partition sortSlice segs :
  gosort.sortContract sortSlice ->
  concat (findOverlappingSegments sortSlice segs) ≡ₚ segs /\
  Forall (fun g => g <> []) (findOverlappingSegments sortSlice segs) /\
  (length (findOverlappingSegments sortSlice segs) <= length segs)%nat /\
  (findOverlappingSegments sortSlice segs = [] <-> segs = []).
Proof.
  intros Hsort. unfold findOverlappingSegments. cbv zeta.
  set (sorted := sortSlice _ _ segs).
  assert (segs ≡ₚ sorted) as Hperm by apply Hsort.
  destruct (startGroups_keeps sorted (seq 0 (length sorted)) [] (replicate (length sorted) false))
    as (H1 & H2 & H3 & _).
  { intros i Hi. apply elem_of_seq in Hi. lia. }
  { apply length_replicate. }
  { constructor. }
  set (r := foldl _ _ _) in *. simpl in H1.
  rewrite unused_fresh, (unused_none r.2) in H1.
  2:{ intros i Hi. apply H3, elem_of_seq. lia. }
  rewrite app_nil_r in H1.
  assert (concat r.1 ≡ₚ segs) as Hc by (by rewrite H1).
  assert (length r.1 <= length (concat r.1))%nat as Hle.
  { clear -H2. induction H2 as [|g gs Hg _ IH]; simpl; [done|].
    rewrite length_app. destruct g; [done|]. simpl in *. lia. }
  split; [done|]. split; [done|]. split; [by rewrite <- (Permutation_length Hc)|].
  split.
  - intros E. rewrite E in Hc. simpl in Hc. by apply Permutation_nil_l in Hc.
  - intros E. rewrite E in Hc. apply Permutation_length in Hc. simpl in Hc.
    rewrite Hc in Hle. clearbody r. destruct r.1; [done|simpl in Hle; lia].
Qed.

Lemma findOverlappingSegments_partition_witness :
  let segs := [mkSegment 0 0 Horizontal 5 0 10; mkSegment 1 0 Horizontal 5 20 30] in
  concat (findOverlappingSegments gosort.insertionSort segs) ≡ₚ segs /\
  Forall (fun g => g <> []) (findOverlappingSegments gosort.insertionSort segs) /\
  (length (findOverlappingSegments gosort.insertionSort segs) <= length segs)%nat /\
  (findOverlappingSegments gosort.insertionSort segs = [] <-> segs = []).
Proof.
  apply findOverlappingSegments_partition. apply insertionSort_contract.
Defined.

End Overlapping.

(** ** Sorted bounds *)

Section SortedBounds.


Lemma SFeqb_trans x y z : SFeqb x y = true -> SFeqb y z = true -> SFeqb x z = true.
Proof.
  unfold SFeqb, SFcompare.
  destruct x as [sx|sx| |sx mx ex], y as [sy|sy| |sy my ey], z as [sz|sz| |sz mz ez];
    try destruct sx; try destruct sy; try destruct sz; simpl; try done; sf_cases.
Qed.

Lemma SFeqb_ltb_trans x y z : SFeqb x y = true -> SFltb y z = true -> SFltb x z = true.
Proof.
  unfold SFeqb, SFltb, SFcompare.
  destruct x as [sx|sx| |sx mx ex], y as [sy|sy| |sy my ey], z as [sz|sz| |sz mz ez];
    try destruct sx; try destruct sy; try destruct sz; simpl; try done; sf_cases.
Qed.

Lemma SF_trichotomy x y :
  SFeqb x x = true -> SFeqb y y = true ->
  SFltb x y = false -> SFeqb x y = false -> SFltb y x = true.
Proof.
  unfold SFeqb, SFltb, SFcompare.
  destruct x as [sx|sx| |sx mx ex], y as [sy|sy| |sy my ey];
    try destruct sx; try destruct sy; simpl; try done; sf_cases.
Qed.

Lemma SFeqb_nan x : SFeqb x x = true -> x <> S754_nan.
Proof. by intros H ->. Qed.

Definition number (x : float) : Prop := is_nan x = false.

Lemma number_eqb x : number x -> PrimFloat.eqb x x = true.
Proof. unfold number, is_nan. by destruct (PrimFloat.eqb x x). Qed.

Lemma float64Less_number x y : number x -> float64Less x y = PrimFloat.ltb x y.
Proof. unfold float64Less. intros ->. simpl. apply orb_false_r. Qed.

Lemma float64Less_strictWeak (l : list float) :
  (forall v, v ∈ l -> number v) -> gosort.strictWeakOn float64Less l.
Proof.
  intros Hn. split; [|split].
  - intros a Ha. rewrite float64Less_number by auto. apply ltb_irrefl.
  - intros a b c Ha Hb Hc. rewrite !float64Less_number by auto. apply ltb_trans.
  - intros a b c Ha Hb Hc. rewrite !float64Less_number by auto.
    rewrite !FloatAxioms.ltb_spec. apply SFltb_negtrans.
    apply SFeqb_nan. rewrite <- FloatAxioms.eqb_spec. by apply number_eqb, Hn.
Qed.

Lemma SFeqb_sym x y : SFeqb x y = true -> SFeqb y x = true.
Proof.
  unfold SFeqb, SFcompare.
  destruct x as [sx|sx| |sx mx ex], y as [sy|sy| |sy my ey];
    try destruct sx; try destruct sy; simpl; try done; sf_cases.
Qed.

Lemma eqb_sym (x y : float) : PrimFloat.eqb x y = true -> PrimFloat.eqb y x = true.
Proof. rewrite !FloatAxioms.eqb_spec. apply SFeqb_sym. Qed.

Lemma eqb_trans (x y z : float) :
  PrimFloat.eqb x y = true -> PrimFloat.eqb y z = true -> PrimFloat.eqb x z = true.
Proof. rewrite !FloatAxioms.eqb_spec. apply SFeqb_trans. Qed.

Lemma eqb_ltb_trans (x y z : float) :
  PrimFloat.eqb x y = true -> PrimFloat.ltb y z = true -> PrimFloat.ltb x z = true.
Proof. rewrite !FloatAxioms.eqb_spec, !FloatAxioms.ltb_spec. apply SFeqb_ltb_trans. Qed.

Lemma trichotomy (x y : float) :
  number x -> number y ->
  PrimFloat.ltb x y = false -> PrimFloat.eqb x y = false -> PrimFloat.ltb y x = true.
Proof.
  intros Hx%number_eqb Hy%number_eqb. revert Hx Hy.
  rewrite !FloatAxioms.eqb_spec, !FloatAxioms.ltb_spec. apply SF_trichotomy.
Qed.

(** [a < b] on [float64]. *)
Definition below (a b : float) : Prop := PrimFloat.ltb a b = true.

Lemma uniqueFrom_sorted vals : forall prev e,
  PrimFloat.eqb e prev = true ->
  (forall v, v ∈ prev :: vals -> number v) ->
  StronglySorted (fun a b => float64Less b a = false) (prev :: vals) ->
  Sorted below (e :: uniqueFrom prev vals) /\
  (forall v, v ∈ prev :: vals ->
     exists w, w ∈ e :: uniqueFrom prev vals /\ PrimFloat.eqb v w = true) /\
  (forall w, w ∈ uniqueFrom prev vals -> w ∈ vals).
Proof.
  induction vals as [|v rest IH]; intros prev e He Hn Hs.
  { split; [by repeat constructor|]. split; [|done].
    intros v Hv. apply list_elem_of_singleton in Hv as ->.
    exists e. split; [left|by apply eqb_sym]. }
  assert (number v) as Hv by (apply Hn; right; left).
  assert (number prev) as Hp by (apply Hn; left).
  assert (forall x, x ∈ v :: rest -> number x) as Hn' by (intros x Hx; apply Hn; by right).
  apply StronglySorted_inv in Hs as [Hs Hhd].
  simpl. destruct (PrimFloat.eqb v prev) eqn:Evp; simpl.
  - destruct (IH v e) as (I1 & I2 & I3); [by eapply eqb_trans, eqb_sym|done|done|].
    split; [done|]. split.
    + intros x Hx. apply elem_of_cons in Hx as [->|Hx]; [|by apply I2].
      exists e. split; [left|by apply eqb_sym].
    + intros w Hw. right. by apply I3.
  - destruct (IH v v) as (I1 & I2 & I3); [by apply number_eqb|done|done|].
    split; [|split].
    + constructor; [done|]. constructor. unfold below.
      apply (eqb_ltb_trans e prev v He).
      apply trichotomy; [done|done| |done].
      rewrite Forall_forall in Hhd. specialize (Hhd v ltac:(left)).
      by rewrite float64Less_number in Hhd.
    + intros x Hx. apply elem_of_cons in Hx as [->|Hx].
      * exists e. split; [left|by apply eqb_sym].
      * destruct (I2 x Hx) as (w & Hw & Hxw). exists w. split; [by right|done].
    + intros w Hw. apply elem_of_cons in Hw as [->|Hw]; [left|right; by apply I3].
Qed.

(** On numbers [sortedUniqueFloats] answers a strictly increasing list: each
    answer is one of the values, and each value equals one of the answers
    ([-0] and [0] are equal). *)
Theorem sortedUniqueFloats_increasing sortSlice vals :
  gosort.sortContract sortSlice ->
  (forall v, v ∈ vals -> is_nan v = false) ->
  StronglySorted (fun a b => PrimFloat.ltb a b = true) (sortedUniqueFloats sortSlice vals) /\
  (forall w, w ∈ sortedUniqueFloats sortSlice vals -> w ∈ vals) /\
  (forall v, v ∈ vals ->
     exists w, w ∈ sortedUniqueFloats sortSlice vals /\ PrimFloat.eqb v w = true) /\
  (sortedUniqueFloats sortSlice vals = [] <-> vals = []).
Proof.
  intros Hsort Hn. unfold sortedUniqueFloats.
  destruct vals as [|v0 vals0] eqn:Ev.
  { split; [apply SSorted_nil|]. split; [done|]. split; [|done].
    intros v Hv. by apply elem_of_nil in Hv. }
  rewrite <- Ev in *. clear Ev.
  destruct (Hsort _ float64Less vals) as [Hperm Hsorted].
  specialize (Hsorted (float64Less_strictWeak vals Hn)).
  destruct (sortSlice _ float64Less vals) as [|s0 rest] eqn:Es.
  { apply Permutation_nil_r in Hperm. split; [apply SSorted_nil|].
    split; [intros w Hw; by apply elem_of_nil in Hw|].
    split; [|done]. intros v Hv. rewrite Hperm in Hv. by apply elem_of_nil in Hv. }
  assert (forall v, v ∈ s0 :: rest -> number v) as Hn'.
  { intros v Hv. apply Hn. by rewrite Hperm. }
  destruct (uniqueFrom_sorted rest s0 s0) as (H1 & H2 & H3);
    [apply number_eqb, Hn'; left|done|done|].
  split; [|split; [|split]].
  - apply Sorted_StronglySorted; [|done].
    intros a b c. apply ltb_trans.
  - intros w Hw. rewrite Hperm.
    apply elem_of_cons in Hw as [->|Hw]; [left|right; by apply H3].
  - intros v Hv. apply H2. by rewrite <- Hperm.
  - split; [done|]. intros ->. by apply Permutation_nil_l in Hperm.
Qed.

Lemma sortedUniqueFloats_increasing_witness :
  let vals := [2; 1; 2]%float in
  StronglySorted (fun a b => PrimFloat.ltb a b = true)
                 (sortedUniqueFloats gosort.insertionSort vals) /\
  (forall w, w ∈ sortedUniqueFloats gosort.insertionSort vals -> w ∈ vals) /\
  (forall v, v ∈ vals ->
     exists w, w ∈ sortedUniqueFloats gosort.insertionSort vals /\ PrimFloat.eqb v w = true) /\
  (sortedUniqueFloats gosort.insertionSort vals = [] <-> vals = []).
Proof.
  apply sortedUniqueFloats_increasing.
  - apply insertionSort_contract.
  - intros v Hv. repeat (apply elem_of_cons in Hv as [->|Hv]; [reflexivity|]).
    by apply elem_of_nil in Hv.
Defined.

End SortedBounds.

(** ** The routing order with the sort of the library *)

Section OrderOfEdges.

Import gosort.
Local Open Scope float_scope.

(** The port pairs of a direct edge. *)
Definition directPair (src dst : Direction) : Prop :=
  (src = DirBottom /\ dst = DirTop) \/ (src = DirTop /\ dst = DirBottom) \/
  (src = DirRight /\ dst = DirLeft) \/ (src = DirLeft /\ dst = DirRight).

(** The priority record of edge [i]: its index, class 0 for a direct pair and
    1 otherwise, and the Manhattan distance of its ports. *)
Definition ranks (ports : PortAssignment) (i : nat) (p : edgePriority) : Prop :=
  exists src dst,
    SrcPorts ports !! i = Some src /\ DstPorts ports !! i = Some dst /\
    idx p = Z.of_nat i /\
    ((priority p = 0%Z /\ directPair (Side src) (Side dst)) \/
     (priority p = 1%Z /\ ~ directPair (Side src) (Side dst))) /\
    dist p = abs (X (Pos src) - X (Pos dst)) + abs (Y (Pos src) - Y (Pos dst)).

Lemma sameAxis_direct src dst :
  if sameAxis src dst then directPair (Side src) (Side dst)
  else ~ directPair (Side src) (Side dst).
Proof.
  unfold sameAxis, directPair.
  destruct (Side src), (Side dst); vm_compute; try tauto;
    intros [[? ?]|[[? ?]|[[? ?]|[? ?]]]]; discriminate.
Qed.

Lemma describes_ranks ports i p : describes ports i p -> ranks ports i p.
Proof.
  intros (src & dst & Hs & Hd & Hi & Hp & Hdist). exists src, dst.
  split; [done|]. split; [done|]. split; [done|]. split; [|done].
  pose proof (sameAxis_direct src dst) as H. destruct (sameAxis src dst); [by left|by right].
Qed.

(** Twelve crossing edges of one length, then one direct edge. *)
Definition thirteenPorts : PortAssignment :=
  mkPA (replicate 12 (portAt DirRight 0 0) ++ [portAt DirBottom 0 0])
       (replicate 12 (portAt DirTop 10 20) ++ [portAt DirTop 0 50]).

Lemma prioLess_strictWeak (l : list edgePriority) :
  (forall p, p ∈ l -> number (dist p)) -> strictWeakOn prioLess l.
Proof.
  intros Hn. unfold prioLess. split; [|split].
  - intros a _. rewrite Z.eqb_refl. apply ltb_irrefl.
  - intros a b c _ _ _.
    destruct (Z.eqb_spec (priority a) (priority b)) as [Eab|Eab];
      destruct (Z.eqb_spec (priority b) (priority c)) as [Ebc|Ebc];
      destruct (Z.eqb_spec (priority a) (priority c)) as [Eac|Eac]; cbn [negb];
      rewrite ?Z.ltb_lt; try lia.
    intros H1 H2. by apply (ltb_trans _ (dist b)).
  - intros a b c _ Hb _.
    destruct (Z.eqb_spec (priority a) (priority b)) as [Eab|Eab];
      destruct (Z.eqb_spec (priority b) (priority c)) as [Ebc|Ebc];
      destruct (Z.eqb_spec (priority a) (priority c)) as [Eac|Eac]; cbn [negb];
      rewrite ?Z.ltb_ge; try lia.
    rewrite !FloatAxioms.ltb_spec. intros H1 H2.
    apply (SFltb_negtrans _ (Prim2SF (dist b))); [|done|done].
    apply SFeqb_nan. rewrite <- FloatAxioms.eqb_spec. by apply number_eqb, Hn.
Qed.

(** C6, amended: with any sort that meets the contract of [sort.Slice], the
    routing order is a rearrangement of the edge indices; when no port
    distance is NaN, the edges of the direct face pairs (Bottom/Top,
    Top/Bottom, Right/Left, Left/Right) come first in it and, within a
    class, no edge stands before a longer one.  The order of edges of one
    class and one length is left to the sort. *)
Theorem edgeRoutingOrder_sorted sortSlice ports edges order :
  sortContract sortSlice ->
  edgeRoutingOrder sortSlice ports edges = Some order ->
  Permutation (Z.of_nat <$> seq 0 (length edges)) order /\
  exists prios sorted,
    prioritiesOf ports edges = Some prios /\
    (forall i p, prios !! i = Some p -> ranks ports i p) /\
    order = idx <$> sorted /\ Permutation prios sorted /\
    ((forall p, p ∈ prios -> number (dist p)) -> StronglySorted routedBefore sorted).
Proof.
  intros Hsort Horder. unfold edgeRoutingOrder in Horder.
  apply bind_Some in Horder as (prios & Hprios & [= <-]).
  destruct (Hsort _ prioLess prios) as [Hperm Hsorted].
  split.
  { rewrite <- (prioritiesOf_idx _ _ _ Hprios). by apply fmap_Permutation. }
  exists prios, (sortSlice _ prioLess prios).
  split; [done|].
  split; [intros i p Hp; by apply describes_ranks, (proj2 (prioritiesOf_describes _ _ _ Hprios))|].
  split; [done|]. split; [done|].
  intros Hnum. by apply sortedBy_routedBefore, Hsorted, prioLess_strictWeak.
Qed.

Lemma edgeRoutingOrder_sorted_witness :
  sortContract insertionSort /\
  edgeRoutingOrder insertionSort threePorts [someEdge; someEdge; someEdge] = Some [2; 1; 0]%Z /\
  Permutation (Z.of_nat <$> seq 0 3) [2; 1; 0]%Z /\
  exists prios sorted,
    prioritiesOf threePorts [someEdge; someEdge; someEdge] = Some prios /\
    (forall i p, prios !! i = Some p -> ranks threePorts i p) /\
    [2; 1; 0]%Z = idx <$> sorted /\ Permutation prios sorted /\
    ((forall p, p ∈ prios -> number (dist p)) -> StronglySorted routedBefore sorted).
Proof.
  assert (edgeRoutingOrder insertionSort threePorts [someEdge; someEdge; someEdge]
          = Some [2; 1; 0]%Z) as Ho by (vm_compute; reflexivity).
  split; [exact insertionSort_contract|]. split; [exact Ho|].
  exact (edgeRoutingOrder_sorted insertionSort threePorts [someEdge; someEdge; someEdge]
           [2; 1; 0]%Z insertionSort_contract Ho).
Defined.

(** The sort of the library keeps the two tied edges of [tiedPorts] in
    place, as it does every slice of at most twelve elements that is sorted
    already.  Of thirteen edges, the first twelve tied and the last one
    direct, it routes the direct edge first and then edge 6 before edges 2
    to 5, edge 0 after them and edge 1 last: tied edges do not keep the
    order of their indices. *)
Lemma edgeRoutingOrder_not_stable :
  edgeRoutingOrder Slice tiedPorts [someEdge; someEdge] = Some [0; 1]%Z /\
  prioritiesOf thirteenPorts (replicate 13 someEdge)
    = Some (((fun i => mkPrio i 1 30) <$> seqZ 0 12) ++ [mkPrio 12 0 50]) /\
  edgeRoutingOrder Slice thirteenPorts (replicate 13 someEdge)
    = Some [12; 6; 2; 3; 4; 5; 0; 7; 8; 9; 10; 11; 1]%Z.
Proof. repeat split; vm_compute; reflexivity. Qed.

End OrderOfEdges.

(** ** Port spreading: the ports of a face and their clearance *)

Section SpreadingPorts.

Import d2wueortho gosort.
Local Open Scope float_scope.

(** The port [p] with its position set. *)
Definition placedAt (p : portInfo) (pos : Point) : portInfo :=
  mkPortInfo (p_edge p) (p_obj p) (p_face p) (Some pos) (isSource p).

(** The other end of the edge of a port, and the coordinate of an object
    along a face: x for the top and bottom faces, y for the left and right
    ones. *)
Definition otherEnd (p : portInfo) : ObjId :=
  if isSource p then Dst (p_edge p) else Src (p_edge p).

Definition centerAlong (f : face) (o : Object) : float :=
  match f with
  | faceTop | faceBottom => X (Center o)
  | faceLeft | faceRight => Y (Center o)
  end.

(** In the order of [sortAndSpreadPorts], [a] may stand before [b]: the
    neighbour of [b] is not before the neighbour of [a]. *)
Definition spreadBefore (g : Store) (f : face) (a b : portInfo) : Prop :=
  exists oa ob,
    g !! otherEnd a = Some oa /\ g !! otherEnd b = Some ob /\
    (centerAlong f ob <? centerAlong f oa) = false.

Lemma spreadKey_along g f p k :
  spreadKey g f p = Some k <-> exists o, g !! otherEnd p = Some o /\ k = centerAlong f o.
Proof.
  unfold spreadKey, otherEnd, neighborObj, centerAlong. split.
  - intros H. apply bind_Some in H as (o & Ho & [= <-]). exists o. split; [done|].
    by destruct f.
  - intros (o & Ho & ->). rewrite Ho. simpl. by destruct f.
Qed.

Definition keyLess (a b : float * portInfo) : bool := a.1 <? b.1.

Lemma keyLess_strictWeak (l : list (float * portInfo)) :
  (forall a, a ∈ l -> number a.1) -> strictWeakOn keyLess l.
Proof.
  intros Hn. unfold keyLess. split; [|split].
  - intros a _. apply ltb_irrefl.
  - intros a b c _ _ _. apply ltb_trans.
  - intros a b c _ Hb _. rewrite !FloatAxioms.ltb_spec. apply SFltb_negtrans.
    apply SFeqb_nan. rewrite <- FloatAxioms.eqb_spec. by apply number_eqb, Hn.
Qed.

Lemma keyed_ports (g : Store) (f : face) ports keyed :
  mapM (fun p => k ← spreadKey g f p; Some (k, p)) ports = Some keyed ->
  keyed.*2 = ports /\ forall a, a ∈ keyed -> spreadKey g f a.2 = Some a.1.
Proof.
  intros H. apply mapM_Some in H.
  induction H as [|p kp ports keyed Hp H [IH1 IH2]]; [split; [done|by intros ? ?%elem_of_nil]|].
  apply bind_Some in Hp as (k & Hk & [= <-]).
  split; [by rewrite fmap_cons, IH1|].
  intros a Ha. apply elem_of_cons in Ha as [->|Ha]; [done|by apply IH2].
Qed.

Lemma sorted_keys (g : Store) (f : face) (l : list (float * portInfo)) :
  (forall a, a ∈ l -> spreadKey g f a.2 = Some a.1) ->
  sortedBy keyLess l -> StronglySorted (spreadBefore g f) (l.*2).
Proof.
  intros Hk Hs. unfold sortedBy in Hs.
  induction Hs as [|a l Hl IH Ha]; [constructor|].
  rewrite fmap_cons. constructor.
  - apply IH. intros b Hb. apply Hk. by right.
  - rewrite Forall_fmap, Forall_forall. rewrite Forall_forall in Ha.
    intros b Hb.
    destruct (proj1 (spreadKey_along g f a.2 a.1)) as (oa & Hoa & Eoa); [apply Hk; by left|].
    destruct (proj1 (spreadKey_along g f b.2 b.1)) as (ob & Hob & Eob); [apply Hk; by right|].
    exists oa, ob. split; [done|]. split; [done|].
    rewrite <- Eoa, <- Eob. by apply Ha.
Qed.

Lemma Permutation_pair {A} (a b : A) l : Permutation [a; b] l -> l = [a; b] \/ l = [b; a].
Proof.
  intros H. pose proof (Permutation_length H) as Hlen.
  destruct l as [|x [|y [|z l]]]; try done.
  assert (a ∈ [x; y]) as Ha by (rewrite <- H; left).
  assert (b ∈ [x; y]) as Hb by (rewrite <- H; right; left).
  assert (x ∈ [a; b]) as Hx by (rewrite H; left).
  assert (y ∈ [a; b]) as Hy by (rewrite H; right; left).
  rewrite !elem_of_cons, elem_of_nil in Ha, Hb, Hx, Hy.
  destruct Hx as [->|[->|[]]], Hy as [->|[->|[]]]; auto.
  - destruct Hb as [->|[->|[]]]; auto.
  - destruct Ha as [->|[->|[]]]; auto.
Qed.

(** C7: with any sort that meets the contract of [sort.Slice],
    [sortAndSpreadPorts] returns the [N] ports of the face, rearranged by
    the position of their neighbours along the face (when no such coordinate
    is NaN),
    port [i] placed at parameter [t = (i+1)/(N+1)] of the usable span, which
    is the face less a corner gap of 12 at both ends, or the whole face
    when it is shorter than 24.  [facePoint] never reads the clearance or
    the number of ports it is given: on a face 40 wide, two ports stand
    16/3 apart, below the clearance of 8, between corner gaps that are still
    12. *)
Theorem sortAndSpreadPorts_positions sortSlice :
  sortContract sortSlice ->
  (forall g ports f out,
     sortAndSpreadPorts sortSlice g ports f = Some out ->
     ports <> [] ->
     exists sorted p0 obj,
       Permutation ports sorted /\
       ((forall p o, p ∈ ports -> g !! otherEnd p = Some o -> number (centerAlong f o)) ->
        StronglySorted (spreadBefore g f) sorted) /\
       head sorted = Some p0 /\ g !! p_obj p0 = Some obj /\
       out = imap (fun i p => placedAt p (spreadPoint obj f i (length ports))) sorted) /\
  (forall obj f t gap clearance clearance' n n',
     facePoint obj f t gap clearance n = facePoint obj f t gap clearance' n') /\
  (exists a b,
     (fmap (M:=list) p_pos <$> sortAndSpreadPorts sortSlice hubStore hubPorts faceTop)
       = Some [Some a; Some b] /\
     (12 <=? X a) = true /\ (X a <? X b) = true /\ (X b <=? 40 - 12) = true /\
     (X b - X a <? 8) = true).
Proof.
  intros Hsort. split; [|split].
  - intros g ports f out H Hne. unfold sortAndSpreadPorts in H.
    destruct ports as [|q ports]; [done|]. clear Hne.
    apply bind_Some in H as (keyed & Hkeyed & H). cbv zeta in H.
    apply bind_Some in H as (p0 & Hp0 & H).
    apply bind_Some in H as (obj & Hobj & [= <-]).
    destruct (keyed_ports _ _ _ _ Hkeyed) as [Hports Hkeys].
    destruct (Hsort _ (fun a b : float * portInfo => a.1 <? b.1) keyed) as [Hperm Hsorted].
    set (sortedK := sortSlice _ (fun a b : float * portInfo => a.1 <? b.1) keyed) in *.
    exists (sortedK.*2), p0, obj.
    split; [by rewrite <- Hports, Hperm|]. split; [|split; [|split]].
    + intros Hnum. apply sorted_keys.
      * intros a Ha. apply Hkeys. by rewrite Hperm.
      * apply Hsorted, keyLess_strictWeak. intros a Ha.
        destruct (proj1 (spreadKey_along g f a.2 a.1)) as (o & Ho & ->); [by apply Hkeys|].
        apply (Hnum a.2); [|done].
        rewrite <- Hports. apply list_elem_of_fmap. by exists a.
    + by rewrite head_lookup.
    + done.
    + apply imap_ext. intros i p _. unfold placedAt. by rewrite facePoint_spread.
  - intros obj f t gap clearance clearance' n n'. reflexivity.
  - unfold sortAndSpreadPorts, hubPorts.
    set (q1 := mkPortInfo (mkEdgeG 2 0 "" None []) 0 faceTop None false).
    set (q2 := mkPortInfo (mkEdgeG 1 0 "" None []) 0 faceTop None false).
    assert (mapM (fun p => k ← spreadKey hubStore faceTop p; Some (k, p)) [q1; q2]
            = Some [(120, q1); (-80, q2)]) as -> by (vm_compute; reflexivity).
    cbn [mbind option_bind]. cbv zeta.
    destruct (Hsort _ (fun a b : float * portInfo => a.1 <? b.1) [(120, q1); (-80, q2)])
      as [Hperm _].
    apply Permutation_pair in Hperm as [-> | ->];
      eexists _, _; (split; [vm_compute; reflexivity|]); repeat split; vm_compute; reflexivity.
Qed.

Lemma sortAndSpreadPorts_positions_witness :
  sortContract insertionSort /\
  exists a b,
    (fmap (M:=list) p_pos <$> sortAndSpreadPorts insertionSort hubStore hubPorts faceTop)
      = Some [Some a; Some b] /\
    (12 <=? X a) = true /\ (X a <? X b) = true /\ (X b <=? 40 - 12) = true /\
    (X b - X a <? 8) = true.
Proof.
  split; [exact insertionSort_contract|].
  exact (proj2 (proj2 (sortAndSpreadPorts_positions insertionSort insertionSort_contract))).
Defined.

End SpreadingPorts.

(** ** Port bookkeeping *)

Section PortBookkeeping.

Variable sortSlice : forall A : Type, (A -> A -> bool) -> list A -> list A.

(** What a port is attached to: everything but its position. *)
Definition attachment (p : Port) : Z * Z * Direction * bool :=
  (NodeIdx p, PEdgeIdx p, Side p, IsSrc p).

Definition attachments (pa : PortAssignment) :=
  (attachment <$> SrcPorts pa, attachment <$> DstPorts pa).

Lemma foldM_invariant {A B C} (f : A -> B -> option A) (P : A -> C) l : forall a a',
  (forall a x a', f a x = Some a' -> P a' = P a) ->
  foldM f a l = Some a' -> P a' = P a.
Proof.
  induction l as [|x l IH]; intros a a' Hf H; simpl in H; [by injection H as <-|].
  apply bind_Some in H as (a1 & H1 & H2).
  rewrite (IH _ _ Hf H2). by eapply Hf.
Qed.

Lemma alter_attachment (upd : Port -> Port) i (l : list Port) :
  (forall p, attachment (upd p) = attachment p) ->
  attachment <$> alter upd i l = attachment <$> l.
Proof.
  intros Hupd. revert i. induction l as [|p l IH]; intros i; [done|].
  destruct i as [|i]; simpl; [by rewrite Hupd|f_equal; apply IH].
Qed.

Lemma setPortPos_attachments pa r pos : attachments (setPortPos pa r pos) = attachments pa.
Proof.
  unfold attachments. destruct r; simpl; by rewrite alter_attachment.
Qed.

Lemma distributeAlongSide_attachments pa ports box side :
  attachments (distributeAlongSide pa ports box side) = attachments pa.
Proof.
  unfold distributeAlongSide. generalize (length ports).
  generalize (imap (fun i r => (i, r)) ports). intros l n. revert pa.
  induction l as [|[i r] l IH]; intros pa; simpl; [done|].
  by rewrite IH, setPortPos_attachments.
Qed.

Lemma distributePortsOnSides_attachments boxes pa pa' :
  distributePortsOnSides sortSlice boxes pa = Some pa' -> attachments pa' = attachments pa.
Proof.
  unfold distributePortsOnSides. intros H.
  apply bind_Some in H as (groups & _ & H).
  revert H. apply foldM_invariant.
  intros a [[nodeIdx s] ports] a' Hstep.
  apply bind_Some in Hstep as (box & _ & Hstep).
  apply bind_Some in Hstep as (sorted & _ & [= <-]).
  apply distributeAlongSide_attachments.
Qed.

Lemma alignPair_attachment srcBox dstBox src dst :
  attachment (alignPair srcBox dstBox src dst).1 = attachment src /\
  attachment (alignPair srcBox dstBox src dst).2 = attachment dst.
Proof.
  unfold alignPair.
  repeat match goal with
         | |- context [if ?b then _ else _] => destruct b
         end; simpl; done.
Qed.

Lemma alignLoop_attachments boxes srcs : forall dsts r,
  alignLoop boxes srcs dsts = Some r ->
  attachment <$> r.1 = attachment <$> srcs /\ attachment <$> r.2 = attachment <$> dsts.
Proof.
  induction srcs as [|s srcs IH]; intros dsts r H; simpl in H; [by injection H as <-|].
  destruct dsts as [|d dsts]; [done|].
  apply bind_Some in H as (srcBox & _ & H). apply bind_Some in H as (dstBox & _ & H).
  apply bind_Some in H as (rest & Hrest & H).
  destruct (alignPair_attachment srcBox dstBox s d) as [Hs Hd].
  destruct (alignPair srcBox dstBox s d) as [s' d']. injection H as <-.
  destruct (IH _ _ Hrest) as [I1 I2]. cbn [fst snd] in *. rewrite !fmap_cons.
  by rewrite Hs, Hd, I1, I2.
Qed.

(** The ports of edge [i] of [edges] as step 1 attaches them. *)
Definition attached (boxes : list Rect) (nodeIndex : gmap ObjId Z) (i : nat) (e : Edge)
    (s d : Port) : Prop :=
  let srcIdx := default 0 (nodeIndex !! Src e) in
  let dstIdx := default 0 (nodeIndex !! Dst e) in
  NodeIdx s = srcIdx /\ NodeIdx d = dstIdx /\
  PEdgeIdx s = Z.of_nat i /\ PEdgeIdx d = Z.of_nat i /\
  IsSrc s = true /\ IsSrc d = false /\
  exists srcBox dstBox,
    index boxes srcIdx = Some srcBox /\ index boxes dstIdx = Some dstBox /\
    (Src e <> Dst e -> (Side s, Side d) = determineSides srcBox dstBox) /\
    (Src e = Dst e -> Side d = nextSide (Side s)).

Lemma attached_attachment boxes nodeIndex i e s d s' d' :
  attachment s' = attachment s -> attachment d' = attachment d ->
  attached boxes nodeIndex i e s d -> attached boxes nodeIndex i e s' d'.
Proof.
  unfold attachment, attached. intros [= -> -> -> ->] [= -> -> -> ->]. done.
Qed.

Lemma assignSides_attached boxes nodeIndex edges : forall k srcs dsts sideCount r,
  foldM (assignSides boxes nodeIndex) (srcs, dsts, sideCount)
        (imap (fun i e => ((k + i)%nat, e)) edges) = Some r ->
  length srcs = k -> length dsts = k ->
  length r.1.1 = (k + length edges)%nat /\ length r.1.2 = (k + length edges)%nat /\
  (forall i, (i < k)%nat -> r.1.1 !! i = srcs !! i /\ r.1.2 !! i = dsts !! i) /\
  forall i e, edges !! i = Some e ->
    exists s d, r.1.1 !! (k + i)%nat = Some s /\ r.1.2 !! (k + i)%nat = Some d /\
                attached boxes nodeIndex (k + i) e s d.
Proof.
  induction edges as [|e edges IH]; intros k srcs dsts sideCount r H Hs Hd.
  { injection H as <-. simpl. split; [lia|]. split; [lia|done]. }
  cbn [imap] in H. cbn [foldM] in H.
  apply bind_Some in H as ([[srcs1 dsts1] sc1] & Hstep & H).
  unfold compose in H.
  rewrite (imap_ext _ (fun i e => ((S k + i)%nat, e))) in H
    by (intros; simpl; f_equal; lia).
  assert (exists s d, srcs1 = srcs ++ [s] /\ dsts1 = dsts ++ [d] /\
                      attached boxes nodeIndex k e s d)
    as (s & d & -> & -> & Hatt).
  { unfold assignSides in Hstep.
    apply bind_Some in Hstep as (srcBox & Hsb & Hstep).
    apply bind_Some in Hstep as (dstBox & Hdb & Hstep).
    rewrite Nat.add_0_r in Hstep.
    destruct (decide (Src e = Dst e)) as [Heq|Hne].
    - rewrite bool_decide_eq_true_2 in Hstep by done.
      unfold selfLoopSides in Hstep. injection Hstep as <- <- _.
      eexists _, _. split; [done|]. split; [done|]. unfold attached. simpl.
      rewrite <- Heq. repeat split; try done.
      exists srcBox, srcBox. by repeat split.
    - rewrite bool_decide_eq_false_2 in Hstep by done.
      destruct (determineSides srcBox dstBox) as [srcSide dstSide] eqn:Hsides.
      injection Hstep as <- <- _.
      eexists _, _. split; [done|]. split; [done|]. unfold attached. simpl.
      repeat split; try done.
      exists srcBox, dstBox. by repeat split. }
  destruct (IH (S k) _ _ _ _ H) as (I1 & I2 & I3 & I4);
    [rewrite length_app; simpl; lia|rewrite length_app; simpl; lia|].
  split; [simpl; lia|]. split; [simpl; lia|]. split; [|].
  - intros i Hi. destruct (I3 i ltac:(lia)) as [-> ->].
    by rewrite !lookup_app_l by lia.
  - intros i e' He'. destruct i as [|i]; simpl in He'.
    + injection He' as <-. rewrite Nat.add_0_r.
      destruct (I3 k ltac:(lia)) as [-> ->]. exists s, d.
      split; [by apply list_lookup_middle|]. split; [by apply list_lookup_middle|done].
    + destruct (I4 i e' He') as (s' & d' & Hs' & Hd' & Ha').
      exists s', d'. by rewrite <- Nat.add_succ_comm.
Qed.

Lemma fmap_lookup_attachment (l l' : list Port) i p :
  attachment <$> l' = attachment <$> l -> l !! i = Some p ->
  exists p', l' !! i = Some p' /\ attachment p' = attachment p.
Proof.
  intros Heq Hp. assert ((attachment <$> l') !! i = Some (attachment p)) as H
    by (by rewrite Heq, list_lookup_fmap, Hp).
  rewrite list_lookup_fmap in H. apply fmap_Some in H as (p' & Hp' & Ha). eauto.
Qed.

(** A port assignment has one source and one destination port for each
    edge, in the order of the edges.  Both carry the index of the edge, the
    source port is on the node of the edge's source, the destination port
    on the node of its destination, their sides are those of
    [determineSides] on the two boxes, and for a self-loop the destination
    side follows the source side clockwise. *)
Theorem assignPorts_attachments boxes edges nodeIndex pa :
  assignPorts sortSlice boxes edges nodeIndex = Some pa ->
  length (SrcPorts pa) = length edges /\ length (DstPorts pa) = length edges /\
  forall i e, edges !! i = Some e ->
    exists s d, SrcPorts pa !! i = Some s /\ DstPorts pa !! i = Some d /\
                attached boxes nodeIndex i e s d.
Proof.
  unfold assignPorts. intros H.
  apply bind_Some in H as ([[srcs dsts] sc] & Hfold & H).
  apply bind_Some in H as (pa1 & Hdist & Halign).
  rewrite (imap_ext _ (fun i e => ((0 + i)%nat, e))) in Hfold by done.
  apply assignSides_attached in Hfold as (H1 & H2 & _ & H4); [|done|done].
  apply distributePortsOnSides_attachments in Hdist. unfold attachments in Hdist.
  injection Hdist as Hs1 Hd1.
  unfold alignNearlyAlignedPorts in Halign.
  apply bind_Some in Halign as (r & Hloop & [= <-]).
  apply alignLoop_attachments in Hloop as [Hs2 Hd2].
  simpl in *. rewrite Hs1 in Hs2. rewrite Hd1 in Hd2.
  split; [|split].
  - by rewrite <- H1, <- (length_fmap attachment r.1), Hs2, length_fmap.
  - by rewrite <- H2, <- (length_fmap attachment r.2), Hd2, length_fmap.
  - intros i e He. destruct (H4 i e He) as (s & d & Hs & Hd & Ha).
    destruct (fmap_lookup_attachment _ _ _ _ Hs2 Hs) as (s' & Hs' & Has).
    destruct (fmap_lookup_attachment _ _ _ _ Hd2 Hd) as (d' & Hd' & Had).
    exists s', d'. split; [done|]. split; [done|]. by eapply attached_attachment.
Qed.

End PortBookkeeping.

Lemma assignPorts_attachments_witness :
  exists pa,
    assignPorts gosort.insertionSort shiftedBoxes shiftedEdges shiftedIndex = Some pa /\
    length (SrcPorts pa) = length shiftedEdges /\ length (DstPorts pa) = length shiftedEdges /\
    forall i e, shiftedEdges !! i = Some e ->
      exists s d, SrcPorts pa !! i = Some s /\ DstPorts pa !! i = Some d /\
                  attached shiftedBoxes shiftedIndex i e s d.
Proof.
  eexists. split; [vm_compute; reflexivity|].
  apply (assignPorts_attachments gosort.insertionSort shiftedBoxes shiftedEdges shiftedIndex).
  vm_compute. reflexivity.
Defined.

(** ** Ports on the border *)

Section PortsOnBorder.

Variable sortSlice : forall A : Type, (A -> A -> bool) -> list A -> list A.
Hypothesis sortSlice_perm : forall A (less : A -> A -> bool) l, Permutation l (sortSlice A less l).

Variable boxes : list Rect.

(** The point lies on the line of side [side] of the box. *)
Definition onSide (box : Rect) (side : Direction) (pos : Point) : Prop :=
  match side with
  | DirTop => Y pos = Top box
  | DirBottom => Y pos = Bottom box
  | DirLeft => X pos = Left box
  | DirRight => X pos = Right box
  end.

Definition onBorder (p : Port) : Prop :=
  exists box, index boxes (NodeIdx p) = Some box /\ onSide box (Side p) (Pos p).

Lemma sidePoint_onSide box side i n : onSide box side (sidePoint box side i n).
Proof. by destruct side. Qed.

Lemma sideOfNum_sideNum s : sideOfNum (sideNum s) = s.
Proof. by destruct s. Qed.

#[local] Instance portRef_eq_dec : EqDecision portRef.
Proof. solve_decision. Defined.

Definition moved (pos : Point) (p : Port) : Port :=
  mkPort (NodeIdx p) (PEdgeIdx p) (Side p) pos (IsSrc p).

Lemma getPort_setPortPos pa r0 pos r :
  getPort (setPortPos pa r0 pos) r =
  if decide (r0 = r) then moved pos <$> getPort pa r else getPort pa r.
Proof.
  destruct r0 as [i|i], r as [j|j]; unfold getPort, setPortPos; cbn [SrcPorts DstPorts];
    try (by rewrite decide_False).
  - rewrite list_lookup_alter. destruct (decide (i = j)) as [->|Hne].
    + by rewrite decide_True.
    + rewrite decide_False by congruence. done.
  - rewrite list_lookup_alter. destruct (decide (i = j)) as [->|Hne].
    + by rewrite decide_True.
    + rewrite decide_False by congruence. done.
Qed.

(** The key under which [groupPorts] files a port. *)
Definition refKey (pa : PortAssignment) (r : portRef) : option nodeSideKey :=
  p ← getPort pa r; Some (NodeIdx p, sideNum (Side p)).

Lemma distributeAlongSide_spread box side n (l : list (nat * portRef)) : forall pa r p',
  getPort (foldl (fun pa ir => setPortPos pa ir.2 (sidePoint box side ir.1 n)) pa l) r = Some p' ->
  exists p, getPort pa r = Some p /\ attachment p' = attachment p /\
            ((r ∉ l.*2) /\ Pos p' = Pos p \/ r ∈ l.*2 /\ onSide box side (Pos p')).
Proof.
  induction l as [|[i r0] l IH]; intros pa r p' H; cbn [foldl] in H.
  { exists p'. split; [done|]. split; [done|]. left. split; [apply not_elem_of_nil|done]. }
  apply IH in H as (p1 & H1 & Ha & Hpos). cbn [fst snd] in H1.
  rewrite getPort_setPortPos in H1. rewrite fmap_cons. cbn [snd].
  destruct (decide (r0 = r)) as [->|Hne].
  - apply fmap_Some in H1 as (p & Hp & ->). exists p. split; [done|]. split; [done|].
    right. split; [left|]. destruct Hpos as [[_ ->]|[_ Hon]]; [apply sidePoint_onSide|done].
  - exists p1. split; [done|]. split; [done|].
    destruct Hpos as [[Hout ->]|[Hin Hon]].
    + left. split; [|done]. intros Hin. apply elem_of_cons in Hin as [->|Hin]; done.
    + right. split; [by right|done].
Qed.

Lemma mapM_keyed {A B} (f : A -> option B) (l : list A) keyed :
  mapM (fun r => k ← f r; Some (k, r)) l = Some keyed -> keyed.*2 = l.
Proof.
  intros H. apply mapM_Some in H. induction H as [|r kr l keyed Hr _ IH]; [done|].
  apply bind_Some in Hr as (k & _ & [= <-]). rewrite fmap_cons. by rewrite IH.
Qed.

Lemma sortPorts_perm pa side ports sorted :
  sortPortsByNeighborAngle sortSlice boxes pa side ports = Some sorted -> sorted ≡ₚ ports.
Proof.
  unfold sortPortsByNeighborAngle. intros H.
  apply bind_Some in H as (keyed & Hk & [= <-]).
  apply mapM_keyed in Hk. rewrite <- Hk. apply fmap_Permutation. symmetry. apply sortSlice_perm.
Qed.

(** One round of the loop over [portsByNodeSide]. *)
Definition distributeGroup (pa : PortAssignment) (kv : nodeSideKey * list portRef)
    : option PortAssignment :=
  let '((nodeIdx, s), ports) := kv in
  box ← index boxes nodeIdx;
  sorted ← sortPortsByNeighborAngle sortSlice boxes pa (sideOfNum s) ports;
  Some (distributeAlongSide pa sorted box (sideOfNum s)).

Lemma distributeGroup_step pa key ports pa' :
  distributeGroup pa (key, ports) = Some pa' ->
  (forall r, r ∈ ports -> refKey pa r = Some key) ->
  attachments pa' = attachments pa /\
  forall r p', getPort pa' r = Some p' ->
    exists p, getPort pa r = Some p /\ attachment p' = attachment p /\
              (onBorder p -> onBorder p') /\ (r ∈ ports -> onBorder p').
Proof.
  destruct key as [nodeIdx s]. unfold distributeGroup. intros H Hkey.
  apply bind_Some in H as (box & Hbox & H). apply bind_Some in H as (sorted & Hsorted & [= <-]).
  split; [apply distributeAlongSide_attachments|].
  apply sortPorts_perm in Hsorted.
  intros r p' Hp'. unfold distributeAlongSide in Hp'.
  apply distributeAlongSide_spread in Hp' as (p & Hp & Ha & Hpos).
  exists p. split; [done|]. split; [done|].
  assert (r ∈ ports -> NodeIdx p' = nodeIdx /\ Side p' = sideOfNum s) as Hmine.
  { intros Hr. specialize (Hkey r Hr). unfold refKey in Hkey. rewrite Hp in Hkey.
    injection Hkey as <- <-. injection Ha as -> _ -> _. by rewrite sideOfNum_sideNum. }
  assert (r ∈ (imap (fun i r => (i, r)) sorted).*2 <-> r ∈ ports) as Hin.
  { rewrite <- Hsorted. clear.
    assert (forall k, (imap (fun i r => ((k + i)%nat, r)) sorted).*2 = sorted) as E.
    { induction sorted as [|x l IH]; intros k; [done|]. cbn [imap]. rewrite fmap_cons. cbn [snd].
      f_equal. rewrite <- (IH (S k)) at 2. f_equal. apply imap_ext. intros. simpl. f_equal. lia. }
    rewrite (imap_ext _ (fun i r => ((0 + i)%nat, r))) by done. by rewrite E. }
  rewrite Hin in Hpos. split.
  - intros (b & Hb & Hon). destruct Hpos as [[_ Hsame]|[Hr Hon']].
    + exists b. injection Ha as -> _ -> _. by rewrite Hsame.
    + destruct (Hmine Hr) as [Hn Hs]. exists box. rewrite Hn, Hs. done.
  - intros Hr. destruct Hpos as [[Hout _]|[_ Hon']]; [done|].
    destruct (Hmine Hr) as [Hn Hs]. exists box. rewrite Hn, Hs. done.
Qed.

Lemma refKey_attachments pa pa' r :
  attachments pa' = attachments pa -> refKey pa' r = refKey pa r.
Proof.
  unfold attachments, refKey. intros [= Hs Hd].
  assert (attachment <$> getPort pa' r = attachment <$> getPort pa r) as H.
  { destruct r as [i|i]; simpl; rewrite <- !list_lookup_fmap; by rewrite ?Hs, ?Hd. }
  destruct (getPort pa' r) as [p'|], (getPort pa r) as [p|]; simpl in *; try done.
  by injection H as -> _ -> _.
Qed.

Lemma distributeGroups_border G : forall pa pa',
  foldM distributeGroup pa G = Some pa' ->
  (forall key ports r, (key, ports) ∈ G -> r ∈ ports -> refKey pa r = Some key) ->
  attachments pa' = attachments pa /\
  forall r p', getPort pa' r = Some p' ->
    exists p, getPort pa r = Some p /\ attachment p' = attachment p /\
              (onBorder p -> onBorder p') /\
              ((exists key ports, (key, ports) ∈ G /\ r ∈ ports) -> onBorder p').
Proof.
  induction G as [|[key ports] G IH]; intros pa pa' H Hkeys; simpl in H.
  { injection H as <-. split; [done|]. intros r p Hp. exists p. split; [done|]. split; [done|].
    split; [done|]. intros (k & l & Hin & _). by apply elem_of_nil in Hin. }
  apply bind_Some in H as (pa1 & Hstep & H).
  apply distributeGroup_step in Hstep as [Ha1 Hstep]; [|intros r Hr; eapply Hkeys; [left|done]].
  apply IH in H as [Ha Hrest].
  2:{ intros k l r Hin Hr. rewrite (refKey_attachments _ _ _ Ha1). eapply Hkeys; [by right|done]. }
  split; [by rewrite Ha|].
  intros r p' Hp'. apply Hrest in Hp' as (p1 & Hp1 & Hat1 & Hkeep1 & Hin1).
  apply Hstep in Hp1 as (p & Hp & Hat & Hkeep & Hin).
  exists p. split; [done|]. split; [by rewrite Hat1|]. split; [by intros ?; apply Hkeep1, Hkeep|].
  intros (k & l & Hkl & Hr). apply elem_of_cons in Hkl as [[= -> ->]|Hkl].
  - by apply Hkeep1, Hin.
  - apply Hin1. eauto.
Qed.

Lemma groupPorts_covers pa refs : forall (m groups : gmap nodeSideKey (list portRef)),
  foldM (fun m r =>
           p ← getPort pa r;
           let key := (NodeIdx p, sideNum (Side p)) in
           Some (<[key := default [] (m !! key) ++ [r]]> m)) m refs = Some groups ->
  (forall key ports r, m !! key = Some ports -> r ∈ ports -> refKey pa r = Some key) ->
  (forall key ports r, groups !! key = Some ports -> r ∈ ports -> refKey pa r = Some key) /\
  (forall key ports r, m !! key = Some ports -> r ∈ ports ->
     exists ports', groups !! key = Some ports' /\ r ∈ ports') /\
  (forall r, r ∈ refs -> exists key ports, groups !! key = Some ports /\ r ∈ ports).
Proof.
  induction refs as [|r0 refs IH]; intros m groups H Hm; simpl in H.
  { injection H as <-. split; [done|]. split; [eauto|]. intros r Hr. by apply elem_of_nil in Hr. }
  apply bind_Some in H as (m1 & Hstep & H).
  apply bind_Some in Hstep as (p0 & Hp0 & [= <-]).
  set (key0 := (NodeIdx p0, sideNum (Side p0))) in *.
  apply IH in H as (I1 & I2 & I3).
  2:{ intros key ports r Hk Hr. apply lookup_insert_Some in Hk as [[<- <-]|[Hne Hk]]; [|eauto].
      apply elem_of_app in Hr as [Hr|Hr].
      - destruct (m !! key0) as [l|] eqn:E; simpl in Hr; [eauto|by apply elem_of_nil in Hr].
      - apply list_elem_of_singleton in Hr as ->. unfold refKey. by rewrite Hp0. }
  split; [done|]. split.
  - intros key ports r Hk Hr. destruct (decide (key = key0)) as [->|Hne].
    + apply (I2 key0 (default [] (m !! key0) ++ [r0])); [apply lookup_insert_eq|].
      rewrite Hk. simpl. apply elem_of_app. by left.
    + apply (I2 key ports); [by rewrite lookup_insert_ne|done].
  - intros r Hr. apply elem_of_cons in Hr as [->|Hr]; [|by apply I3].
    destruct (I2 key0 (default [] (m !! key0) ++ [r0]) r0) as (ports' & H1 & H2);
      [apply lookup_insert_eq|apply elem_of_app; right; left|]. eauto.
Qed.

Lemma distributePortsOnSides_border pa pa' :
  distributePortsOnSides sortSlice boxes pa = Some pa' ->
  forall r p', getPort pa' r = Some p' -> onBorder p'.
Proof.
  unfold distributePortsOnSides. intros H.
  apply bind_Some in H as (groups & Hg & H).
  apply groupPorts_covers in Hg as (G1 & _ & G3); [|intros key ports r Hk; by rewrite lookup_empty in Hk].
  change (foldM distributeGroup pa (map_to_list groups) = Some pa') in H.
  apply distributeGroups_border in H as [Ha Hall].
  2:{ intros key ports r Hin Hr. apply elem_of_map_to_list in Hin. eauto. }
  intros r p' Hp'. destruct (Hall r p' Hp') as (p & Hp & _ & _ & Hin). apply Hin.
  destruct (G3 r) as (key & ports & Hk & Hr).
  - apply elem_of_app. destruct r as [i|i]; simpl in Hp; [left|right];
      apply list_elem_of_fmap; exists i; (split; [done|]);
      apply elem_of_seq; apply lookup_lt_Some in Hp; lia.
  - exists key, ports. split; [by apply elem_of_map_to_list|done].
Qed.

Lemma alignPair_border srcBox dstBox src dst :
  index boxes (NodeIdx src) = Some srcBox -> index boxes (NodeIdx dst) = Some dstBox ->
  onBorder src -> onBorder dst ->
  onBorder (alignPair srcBox dstBox src dst).1 /\ onBorder (alignPair srcBox dstBox src dst).2.
Proof.
  intros Hsb Hdb (b1 & Hb1 & Hon1) (b2 & Hb2 & Hon2).
  rewrite Hsb in Hb1. injection Hb1 as <-. rewrite Hdb in Hb2. injection Hb2 as <-.
  unfold alignPair, onBorder.
  destruct src as [sn se ss sp si], dst as [dn de ds dp di]. simpl in *.
  destruct ss, ds; cbn [Side] in *;
    repeat first
      [ match goal with
        | |- context [bool_decide ?P] =>
            first [rewrite (bool_decide_eq_true_2 P) by (split; reflexivity)
                  |rewrite (bool_decide_eq_false_2 P) by (intros [? ?]; simpl in *; discriminate)]
        end
      | progress cbn [orb Side]
      | match goal with
        | |- context [if ?b then _ else _] =>
            lazymatch b with
            | context [bool_decide] => fail
            | _ => destruct b
            end
        end ];
    cbn [fst snd NodeIdx Side Pos]; split; eexists; (split; [eassumption|]);
    unfold onSide, setX, setY in *; cbn [X Y]; done.
Qed.

Lemma alignLoop_border srcs : forall dsts r,
  alignLoop boxes srcs dsts = Some r ->
  Forall onBorder srcs -> Forall onBorder dsts ->
  Forall onBorder r.1 /\ Forall onBorder r.2.
Proof.
  induction srcs as [|s srcs IH]; intros dsts r H Hs Hd; simpl in H; [by injection H as <-|].
  destruct dsts as [|d dsts]; [done|].
  apply bind_Some in H as (srcBox & Hsb & H). apply bind_Some in H as (dstBox & Hdb & H).
  apply bind_Some in H as (rest & Hrest & H).
  apply Forall_cons in Hs as [Hs0 Hs]. apply Forall_cons in Hd as [Hd0 Hd].
  destruct (alignPair_border srcBox dstBox s d Hsb Hdb Hs0 Hd0) as [H1 H2].
  destruct (alignPair srcBox dstBox s d) as [s' d']. injection H as <-.
  destruct (IH _ _ Hrest Hs Hd) as [I1 I2]. simpl. split; by constructor.
Qed.

End PortsOnBorder.

(** Every port of a port assignment lies on the border of the box of its
    node, on the line of its side: distribution puts it there and alignment
    moves it along that line only. *)
Theorem assignPorts_on_border sortSlice boxes edges nodeIndex pa p :
  gosort.sortContract sortSlice ->
  assignPorts sortSlice boxes edges nodeIndex = Some pa ->
  p ∈ SrcPorts pa ++ DstPorts pa ->
  exists box, index boxes (NodeIdx p) = Some box /\ onSide box (Side p) (Pos p).
Proof.
  intros Hsort H Hp. unfold assignPorts in H.
  apply bind_Some in H as (r0 & _ & H). apply bind_Some in H as (pa1 & Hdist & Halign).
  pose proof (distributePortsOnSides_border sortSlice
                (fun A less l => proj1 (Hsort A less l)) boxes _ _ Hdist) as Hb.
  unfold alignNearlyAlignedPorts in Halign.
  apply bind_Some in Halign as (r & Hloop & [= <-]).
  apply alignLoop_border in Hloop as [H1 H2].
  - simpl in Hp. rewrite Forall_forall in H1, H2.
    apply elem_of_app in Hp as [Hp|Hp]; [by apply H1|by apply H2].
  - apply Forall_forall. intros q Hq. apply list_elem_of_lookup in Hq as [i Hi].
    by apply (Hb (SrcRef i)).
  - apply Forall_forall. intros q Hq. apply list_elem_of_lookup in Hq as [i Hi].
    by apply (Hb (DstRef i)).
Qed.

Lemma assignPorts_on_border_witness :
  exists pa p,
    assignPorts gosort.insertionSort shiftedBoxes shiftedEdges shiftedIndex = Some pa /\
    p ∈ SrcPorts pa ++ DstPorts pa /\
    exists box, index shiftedBoxes (NodeIdx p) = Some box /\ onSide box (Side p) (Pos p).
Proof.
  eexists _, _. split; [vm_compute; reflexivity|]. split; [left|].
  eapply (assignPorts_on_border gosort.insertionSort shiftedBoxes shiftedEdges shiftedIndex).
  - apply insertionSort_contract.
  - vm_compute. reflexivity.
  - left.
Defined.

(** ** The gathered objects *)

Section Endpoints.

(** Body of the loop that gathers the endpoints. *)
Definition gather (acc : list ObjId * gset ObjId) (e : Edge) : list ObjId * gset ObjId :=
  let '(objs, seen) := acc in
  let '(objs, seen) :=
    if bool_decide (Src e ∈ seen) then (objs, seen)
    else (objs ++ [Src e], {[Src e]} ∪ seen) in
  if bool_decide (Dst e ∈ seen) then (objs, seen)
  else (objs ++ [Dst e], {[Dst e]} ∪ seen).

Lemma gather_once objs (seen : gset ObjId) o :
  NoDup objs -> (forall x, x ∈ seen <-> x ∈ objs) ->
  let r := if bool_decide (o ∈ seen) then (objs, seen) else (objs ++ [o], {[o]} ∪ seen) in
  NoDup r.1 /\ (forall x, x ∈ r.2 <-> x ∈ r.1) /\
  (forall x, x ∈ r.1 <-> x ∈ objs \/ x = o) /\
  exists rest, r.1 = objs ++ rest.
Proof.
  intros Hnd Hseen. cbv zeta.
  destruct (decide (o ∈ seen)) as [Hin|Hout].
  - rewrite bool_decide_eq_true_2 by done. simpl. split; [done|]. split; [done|]. split.
    + intros x. split; [by left|]. intros [Hx| ->]; [done|by apply Hseen].
    + exists []. by rewrite app_nil_r.
  - rewrite bool_decide_eq_false_2 by done. simpl. split; [|split; [|split]].
    + apply NoDup_app. split; [done|]. split; [|apply NoDup_singleton].
      intros x Hx Hx'. apply list_elem_of_singleton in Hx' as ->. by apply Hout, Hseen.
    + intros x. rewrite elem_of_union, elem_of_singleton, elem_of_app, list_elem_of_singleton, Hseen.
      tauto.
    + intros x. by rewrite elem_of_app, list_elem_of_singleton.
    + by exists [o].
Qed.

Lemma gather_fold edges : forall objs (seen : gset ObjId),
  NoDup objs -> (forall x, x ∈ seen <-> x ∈ objs) ->
  let r := foldl gather (objs, seen) edges in
  NoDup r.1 /\
  (forall x, x ∈ r.1 <-> x ∈ objs \/ exists e, e ∈ edges /\ (x = Src e \/ x = Dst e)) /\
  exists rest, r.1 = objs ++ rest.
Proof.
  induction edges as [|e edges IH]; intros objs seen Hnd Hseen; cbv zeta; cbn [foldl].
  { split; [done|]. split; [|exists []; by rewrite app_nil_r].
    intros x. split; [by left|]. intros [Hx|(e & He & _)]; [done|by apply elem_of_nil in He]. }
  unfold gather at 2 4 6.
  destruct (gather_once objs seen (Src e) Hnd Hseen) as (S1 & S2 & S3 & (r1 & S4)).
  destruct (if bool_decide (Src e ∈ seen) then _ else _) as [objs1 seen1]. simpl in *.
  destruct (gather_once objs1 seen1 (Dst e) S1 S2) as (D1 & D2 & D3 & (r2 & D4)).
  destruct (if bool_decide (Dst e ∈ seen1) then _ else _) as [objs2 seen2]. simpl in *.
  destruct (IH objs2 seen2 D1 D2) as (I1 & I2 & (r3 & I3)).
  split; [done|]. split.
  - intros x. rewrite I2, D3, S3. split.
    + intros [[[Hx| ->]| ->]|(e' & He' & Hx)]; [by left|right; exists e; split; [left|tauto]..|].
      right. exists e'. split; [by right|done].
    + intros [Hx|(e' & He' & Hx)]; [tauto|].
      apply elem_of_cons in He' as [->|He']; [tauto|]. right. by exists e'.
  - exists (r1 ++ r2 ++ r3). rewrite I3, D4, S4. by rewrite <- !app_assoc.
Qed.

Lemma buildNodeIndex_lookup (objs : list ObjId) :
  NoDup objs ->
  forall i o, objs !! i = Some o <-> buildNodeIndex objs !! o = Some (Z.of_nat i).
Proof.
  intros Hnd. unfold buildNodeIndex.
  assert (forall (l : list ObjId) (k : nat) (m : gmap ObjId Z) o v,
            NoDup l ->
            foldl (fun m io => <[io.2 := Z.of_nat io.1]> m) m
                  (imap (fun i o => ((k + i)%nat, o)) l) !! o = Some v <->
            (exists i, l !! i = Some o /\ v = Z.of_nat (k + i)) \/ ((o ∉ l) /\ m !! o = Some v)) as H.
  { induction l as [|x l IH]; intros k m o v Hl.
    - simpl. split; [intros H; right; split; [apply not_elem_of_nil|done]|].
      intros [(i & Hi & _)|[_ H]]; done.
    - apply NoDup_cons in Hl as [Hx Hl]. cbn [imap foldl]. unfold compose.
      rewrite (imap_ext _ (fun i o => ((S k + i)%nat, o))) by (intros; simpl; f_equal; lia).
      rewrite IH by done. simpl. split.
      + intros [(i & Hi & ->)|[Ho Hm]].
        * left. exists (S i). split; [done|]. f_equal; lia.
        * apply lookup_insert_Some in Hm as [[<- <-]|[Hne Hm]].
          -- left. exists 0%nat. split; [done|]. f_equal; lia.
          -- right. split; [|done]. intros Ho'. apply elem_of_cons in Ho' as [->|Ho']; done.
      + intros [(i & Hi & ->)|[Ho Hm]].
        * destruct i as [|i]; simpl in Hi.
          -- injection Hi as ->. right. split; [done|].
             rewrite lookup_insert_eq, Nat.add_0_r. done.
          -- left. exists i. split; [done|]. f_equal; lia.
        * right. split; [intros Ho'; apply Ho; by right|].
          rewrite lookup_insert_ne; [done|]. intros ->. apply Ho. left. }
  intros i o. rewrite (imap_ext _ (fun i o => ((0 + i)%nat, o))) by done.
  rewrite H by done. split.
  - intros Hi. left. by exists i.
  - intros [(j & Hj & Hij)|[_ Hm]]; [|done].
    assert (i = j) as -> by lia. done.
Qed.

(** The objects gathered from the edges when the parent gives none: every
    endpoint of every edge and nothing else, each once, and [nodeIndex]
    sends an object to its place in the list. *)
Theorem endpoints_indexed edges :
  NoDup (endpoints edges) /\
  (forall o, o ∈ endpoints edges <-> exists e, e ∈ edges /\ (o = Src e \/ o = Dst e)) /\
  (forall i o, endpoints edges !! i = Some o <->
               buildNodeIndex (endpoints edges) !! o = Some (Z.of_nat i)) /\
  (forall e, e ∈ edges ->
     exists i j, endpoints edges !! i = Some (Src e) /\ endpoints edges !! j = Some (Dst e) /\
                 (Src e <> Dst e -> i <> j)).
Proof.
  destruct (gather_fold edges [] ∅) as (H1 & H2 & _); [constructor|set_solver|].
  change (foldl gather ([], ∅) edges).1 with (endpoints edges) in *.
  assert (forall o, o ∈ endpoints edges <-> exists e, e ∈ edges /\ (o = Src e \/ o = Dst e)) as Hin.
  { intros o. rewrite H2. split; [intros [H|H]; [by apply elem_of_nil in H|done]|by right]. }
  split; [done|]. split; [done|]. split; [by apply buildNodeIndex_lookup|].
  intros e He.
  assert (Src e ∈ endpoints edges) as [i Hi]%list_elem_of_lookup by (apply Hin; eauto).
  assert (Dst e ∈ endpoints edges) as [j Hj]%list_elem_of_lookup by (apply Hin; eauto).
  exists i, j. split; [done|]. split; [done|]. intros Hne ->. congruence.
Qed.

End Endpoints.

(** ** Common parent and bounding box *)

Section CommonParent.

(** Both ends of the edge are objects of the graph with parent [parent]. *)
Definition childrenOf (g : Store) (parent : option ObjId) (e : Edge) : Prop :=
  exists s d, g !! Src e = Some s /\ g !! Dst e = Some d /\
              ObjParent s = parent /\ ObjParent d = parent.

Lemma commonParent_loop g parent edges r :
  foldr (fun e k =>
           s ← g !! Src e;
           d ← g !! Dst e;
           if negb (bool_decide (ObjParent s = parent)) || negb (bool_decide (ObjParent d = parent))
           then Some None else k)
        (Some parent) edges = Some (Some r) <->
  parent = Some r /\ forall e, e ∈ edges -> childrenOf g parent e.
Proof.
  induction edges as [|e edges IH]; simpl.
  { split; [intros [= ->]; split; [done|]; intros e He; by apply elem_of_nil in He|].
    by intros [-> _]. }
  split.
  - intros H. apply bind_Some in H as (s & Hs & H). apply bind_Some in H as (d & Hd & H).
    destruct (decide (ObjParent s = parent)) as [Hps|Hps];
      [rewrite (bool_decide_eq_true_2 _ Hps) in H|rewrite (bool_decide_eq_false_2 _ Hps) in H; done].
    destruct (decide (ObjParent d = parent)) as [Hpd|Hpd];
      [rewrite (bool_decide_eq_true_2 _ Hpd) in H|rewrite (bool_decide_eq_false_2 _ Hpd) in H; done].
    simpl in H. apply IH in H as [Hp Hall]. split; [done|].
    intros e' He'. apply elem_of_cons in He' as [->|He']; [by exists s, d|by apply Hall].
  - intros [Hp Hall]. destruct (Hall e) as (s & d & Hs & Hd & Hps & Hpd); [left|].
    rewrite Hs, Hd. simpl. rewrite !bool_decide_eq_true_2 by done. simpl.
    apply IH. split; [done|]. intros e' He'. apply Hall. by right.
Qed.

(** [findCommonParent] answers an object exactly when there is an edge and
    both ends of every edge are children of that object; without edges it
    answers nil. *)
Theorem findCommonParent_common g edges :
  (edges = [] -> findCommonParent g edges = Some None) /\
  forall p, findCommonParent g edges = Some (Some p) <->
            edges <> [] /\ forall e, e ∈ edges -> childrenOf g (Some p) e.
Proof.
  split; [by intros ->|]. intros p. unfold findCommonParent.
  destruct edges as [|e0 rest]; [split; [done|by intros [? _]]|].
  split.
  - intros H. apply bind_Some in H as (src0 & Hs0 & H).
    apply commonParent_loop in H as [Hp Hall]. split; [done|]. by rewrite <- Hp.
  - intros [_ Hall]. destruct (Hall e0) as (s & d & Hs & Hd & Hps & Hpd); [left|].
    rewrite Hs. cbn [mbind option_bind]. rewrite Hps. apply commonParent_loop.
    split; [done|]. exact Hall.
Qed.

End CommonParent.

Section BoundingBox.

Local Open Scope float_scope.

Lemma ltb_negtrans (x y z : float) :
  PrimFloat.ltb x y = false -> PrimFloat.ltb y z = false ->
  PrimFloat.ltb x z = false \/ forall w, PrimFloat.ltb w y = false /\ PrimFloat.ltb y w = false.
Proof.
  rewrite !FloatAxioms.ltb_spec. intros H1 H2.
  destruct (Prim2SF y) eqn:Ey; try (left; revert H1 H2; by apply SFltb_negtrans).
  right. intros w. rewrite !FloatAxioms.ltb_spec, Ey. unfold SFltb. simpl.
  by destruct (Prim2SF w).
Qed.

Section Running.

(** [less] is [<] or [>] on [float64]. *)
Variable less : float -> float -> bool.
Hypothesis less_irrefl : forall x, less x x = false.
Hypothesis less_trans : forall x y z, less x y = true -> less y z = true -> less x z = true.
Hypothesis less_negtrans : forall x y z,
  less x y = false -> less y z = false -> less x z = false \/ forall w, less w y = false.

Variable f : Rect -> float.

(** The loop that keeps the least (greatest) value seen. *)
Definition running (x0 : float) (l : list Rect) : float :=
  foldl (fun m b => if less (f b) m then f b else m) x0 l.

Lemma running_stuck l : forall x0, (forall w, less w x0 = false) -> running x0 l = x0.
Proof.
  induction l as [|a l IH]; intros x0 H; [done|]. unfold running. cbn [foldl].
  rewrite H. by apply IH.
Qed.

Lemma running_extreme l : forall x0,
  (running x0 l = x0 \/ exists b, b ∈ l /\ running x0 l = f b) /\
  less x0 (running x0 l) = false /\
  forall b, b ∈ l -> less (f b) (running x0 l) = false.
Proof.
  induction l as [|a l IH]; intros x0.
  { split; [by left|]. split; [apply less_irrefl|]. intros b Hb. by apply elem_of_nil in Hb. }
  unfold running. cbn [foldl]. fold (running (if less (f a) x0 then f a else x0) l).
  destruct (IH (if less (f a) x0 then f a else x0)) as (H1 & H2 & H3).
  destruct (less (f a) x0) eqn:E.
  - split; [|split].
    + right. destruct H1 as [->|(b & Hb & ->)]; [exists a; split; [left|done]|].
      exists b. split; [by right|done].
    + destruct (less x0 (running (f a) l)) eqn:E2; [|done].
      by rewrite (less_trans _ _ _ E E2) in H2.
    + intros b Hb. apply elem_of_cons in Hb as [->|Hb]; [done|by apply H3].
  - split; [|split; [done|]].
    + destruct H1 as [->|(b & Hb & ->)]; [by left|]. right. exists b. split; [by right|done].
    + intros b Hb. apply elem_of_cons in Hb as [->|Hb]; [|by apply H3].
      destruct (less_negtrans _ _ _ E H2) as [H|H]; [done|].
      by rewrite (running_stuck l x0 H).
Qed.

End Running.

Lemma computeBoundingBox_running b0 rest :
  computeBoundingBox (b0 :: rest) =
  let minX := running PrimFloat.ltb RX (RX b0) rest in
  let minY := running PrimFloat.ltb RY (RY b0) rest in
  let maxX := running (fun x y => PrimFloat.ltb y x) Right (Right b0) rest in
  let maxY := running (fun x y => PrimFloat.ltb y x) Bottom (Bottom b0) rest in
  mkRect (minX - 40) (minY - 40) ((maxX - minX) + 2 * 40) ((maxY - minY) + 2 * 40).
Proof.
  unfold computeBoundingBox, running.
  generalize (RX b0) (RY b0) (Right b0) (Bottom b0).
  induction rest as [|b rest IH]; intros x y r t; [done|]. cbn [foldl]. apply IH.
Qed.

(** [computeBoundingBox] answers the zero rectangle for no boxes.
    Otherwise its left edge is 40 left of the left edge of a box that no
    box is left of, its top edge 40 above the top of a box that no box is
    above, and its width and height span to a rightmost right edge and a
    lowest bottom edge, plus 80. *)
Theorem computeBoundingBox_extent boxes :
  (boxes = [] -> computeBoundingBox boxes = mkRect 0 0 0 0) /\
  (boxes <> [] ->
   exists l t r b,
     l ∈ boxes /\ t ∈ boxes /\ r ∈ boxes /\ b ∈ boxes /\
     computeBoundingBox boxes =
       mkRect (RX l - 40) (RY t - 40)
              ((Right r - RX l) + 2 * 40) ((Bottom b - RY t) + 2 * 40) /\
     forall x, x ∈ boxes ->
       PrimFloat.ltb (RX x) (RX l) = false /\ PrimFloat.ltb (RY x) (RY t) = false /\
       PrimFloat.ltb (Right r) (Right x) = false /\
       PrimFloat.ltb (Bottom b) (Bottom x) = false).
Proof.
  split; [by intros ->|]. intros Hne. destruct boxes as [|b0 rest]; [done|].
  rewrite computeBoundingBox_running. cbv zeta.
  assert (forall less f,
    (forall x, less x x = false) ->
    (forall x y z, less x y = true -> less y z = true -> less x z = true) ->
    (forall x y z, less x y = false -> less y z = false ->
                   less x z = false \/ forall w, less w y = false) ->
    exists c, c ∈ b0 :: rest /\ running less f (f b0) rest = f c /\
              forall x, x ∈ b0 :: rest -> less (f x) (f c) = false) as Hrun.
  { intros less f H1 H2 H3.
    destruct (running_extreme less H1 H2 H3 f rest (f b0)) as (E1 & E2 & E3).
    destruct E1 as [E1|(c & Hc & E1)].
    - exists b0. split; [left|]. split; [done|]. rewrite <- E1.
      intros x Hx. apply elem_of_cons in Hx as [->|Hx]; [done|by apply E3].
    - exists c. split; [by right|]. split; [done|]. rewrite <- E1.
      intros x Hx. apply elem_of_cons in Hx as [->|Hx]; [done|by apply E3]. }
  assert (forall x y z : float, PrimFloat.ltb x y = false -> PrimFloat.ltb y z = false ->
            PrimFloat.ltb x z = false \/ forall w, PrimFloat.ltb w y = false) as Hlt.
  { intros x y z H1 H2. destruct (ltb_negtrans x y z H1 H2) as [H|H]; [by left|].
    right. intros w. apply H. }
  assert (forall x y z : float, PrimFloat.ltb y x = false -> PrimFloat.ltb z y = false ->
            PrimFloat.ltb z x = false \/ forall w, PrimFloat.ltb y w = false) as Hgt.
  { intros x y z H1 H2. destruct (ltb_negtrans z y x H2 H1) as [H|H]; [by left|].
    right. intros w. apply H. }
  destruct (Hrun PrimFloat.ltb RX ltb_irrefl ltb_trans Hlt) as (l & Hl & -> & Hl').
  destruct (Hrun PrimFloat.ltb RY ltb_irrefl ltb_trans Hlt) as (t & Ht & -> & Ht').
  destruct (Hrun (fun x y => PrimFloat.ltb y x) Right ltb_irrefl
                 (fun x y z H1 H2 => ltb_trans z y x H2 H1) Hgt) as (r & Hr & -> & Hr').
  destruct (Hrun (fun x y => PrimFloat.ltb y x) Bottom ltb_irrefl
                 (fun x y z H1 H2 => ltb_trans z y x H2 H1) Hgt) as (b & Hb & -> & Hb').
  exists l, t, r, b. repeat (split; [done|]). intros x Hx. auto.
Qed.

End BoundingBox.

(** ** The routes of the edges *)

Section RoutesOfEdges.

Variable sortSlice : forall A : Type, (A -> A -> bool) -> list A -> list A.
Variable fuel : nat.

Definition portPoint (p : Port) : Point := mkPoint (X (Pos p)) (Y (Pos p)).

(** The route of edge [k]: from the source port of the edge, either
    straight to its destination port or through inner points, simplified. *)
Definition routeOf (rg : RoutingGraph) (ports : PortAssignment) (k : Z) (r : EdgeRoute) : Prop :=
  exists srcPort dstPort,
    index (SrcPorts ports) k = Some srcPort /\ index (DstPorts ports) k = Some dstPort /\
    EdgeIdx r = k /\
    head (Points r) = Some (portPoint srcPort) /\
    (Points r = [portPoint srcPort; portPoint dstPort] \/
     exists inner, inner <> [] /\
       (forall q, q ∈ inner -> exists n, n ∈ Nodes rg /\ q = NPos n) /\
       Points r = simplifyRoute ([portPoint srcPort] ++ inner ++ [portPoint dstPort])).

Lemma penalise_nodes delta keys rg routed rg' :
  penalise delta keys rg routed = Some rg' -> Nodes rg' = Nodes rg.
Proof.
  unfold penalise. destruct routed; [by intros [= <-]|].
  intros H. by apply fmap_Some in H as (adj & _ & ->).
Qed.

Lemma routeOne_routeOf ports st i st' :
  routeOne fuel ports st i = Some st' ->
  (0 <= i < Z.of_nat (length (rs_routes st)))%Z /\
  Nodes (rs_rg st') = Nodes (rs_rg st) /\
  exists r, routeOf (rs_rg st) ports i r /\ rs_routes st' = <[Z.to_nat i := r]> (rs_routes st).
Proof.
  unfold routeOne. intros H.
  apply bind_Some in H as (srcPort & Hs & H). apply bind_Some in H as (dstPort & Hd & H).
  cbv zeta in H.
  assert (routeOf (rs_rg st) ports i (mkRoute i (straightRoute srcPort dstPort))) as Hstraight.
  { exists srcPort, dstPort. repeat (split; [done|]). by left. }
  destruct (_ || _).
  - apply bind_Some in H as (routes & Hr%setRouteAt_Some & [= <-]).
    destruct Hr as [? ->]. eauto.
  - apply bind_Some in H as (rg1 & Hrg1%penalise_nodes & H).
    apply bind_Some in H as (path & _ & H).
    apply bind_Some in H as (rg2 & Hrg2%penalise_nodes & H).
    rewrite Hrg1 in Hrg2. destruct path as [|n path].
    + apply bind_Some in H as (routes & Hr%setRouteAt_Some & [= <-]).
      destruct Hr as [? ->]. eauto.
    + apply bind_Some in H as (inner & Hinner & H).
      apply bind_Some in H as (routes & Hr%setRouteAt_Some & [= <-]).
      destruct Hr as [? ->]. split; [done|]. split; [done|]. eexists. split; [|reflexivity].
      exists srcPort, dstPort. repeat (split; [done|]). split.
      * cbn [Points]. by rewrite simplifyRoute_first.
      * right. exists inner. apply mapM_Some in Hinner. split; [|split; [|done]].
        -- apply Forall2_length in Hinner. by destruct inner.
        -- intros q Hq. apply list_elem_of_lookup in Hq as [j Hj].
           destruct (Forall2_lookup_r _ _ _ _ _ Hinner Hj) as (nodeID & _ & Hn).
           apply fmap_Some in Hn as (nd & Hnd & ->). exists nd. split; [|done].
           rewrite <- Hrg2. unfold index in Hnd. destruct (_ <? _)%Z; [done|].
           by eapply list_elem_of_lookup_2.
Qed.

Lemma routeLoop_routeOf rg ports order : forall st st',
  foldM (routeOne fuel ports) st order = Some st' ->
  Nodes (rs_rg st) = Nodes rg ->
  forall i, (0 <= i)%Z ->
    (exists r, rs_routes st !! Z.to_nat i = Some r /\ routeOf rg ports i r) \/ i ∈ order ->
    exists r, rs_routes st' !! Z.to_nat i = Some r /\ routeOf rg ports i r.
Proof.
  induction order as [|j order IH]; intros st st' H Hnodes; simpl in H.
  - injection H as <-. intros i _ [?|?%elem_of_nil]; done.
  - apply bind_Some in H as (st1 & H1 & H).
    apply routeOne_routeOf in H1 as (Hj & Hn1 & rj & Hrj & Hst1).
    assert (routeOf rg ports j rj) as Hrj'.
    { destruct Hrj as (sp & dp & ? & ? & ? & ? & Hshape). exists sp, dp.
      repeat (split; [done|]). destruct Hshape as [?|(inner & ? & Hin & ?)]; [by left|].
      right. exists inner. split; [done|]. split; [|done]. by rewrite <- Hnodes. }
    intros i Hi Hcase. apply (IH _ _ H); [by rewrite Hn1|done|].
    destruct (decide (i = j)) as [->|Hne].
    + left. exists rj. rewrite Hst1. split; [|done]. apply list_lookup_insert_eq. lia.
    + destruct Hcase as [(r & Hr & Hof)|Hin].
      * left. exists r. rewrite Hst1. split; [|done].
        rewrite list_lookup_insert_ne by lia. done.
      * right. apply elem_of_cons in Hin as [?|?]; done.
Qed.

(** When [routeAllEdges] returns it has one route for each edge, at the
    index of the edge and carrying it.  The route starts at the source port
    of the edge; it is the two ports, or the simplified run from the source
    port through positions of nodes of the routing graph to the destination
    port. *)
Theorem routeAllEdges_routes rg ports edges routes :
  gosort.sortContract sortSlice ->
  routeAllEdges sortSlice fuel rg ports edges = Some routes ->
  length routes = length edges /\
  forall k, (k < length edges)%nat ->
    exists r, routes !! k = Some r /\ routeOf rg ports (Z.of_nat k) r.
Proof.
  intros Hsort H.
  split; [by eapply (routeAllEdges_covers sortSlice fuel)|].
  unfold routeAllEdges in H.
  apply bind_Some in H as (order & Horder & H). apply bind_Some in H as (st & Hloop & [= <-]).
  intros k Hk.
  destruct (routeLoop_routeOf rg _ _ _ _ Hloop eq_refl (Z.of_nat k)) as (r & Hr & Hof); [lia| |].
  - right. unfold edgeRoutingOrder in Horder.
    apply bind_Some in Horder as (prios & Hprios & [= <-]).
    destruct (Hsort _ prioLess prios) as [Hperm _]. rewrite <- Hperm.
    rewrite (prioritiesOf_idx _ _ _ Hprios).
    apply list_elem_of_fmap. exists k. split; [done|]. apply elem_of_seq. lia.
  - rewrite Nat2Z.id in Hr. eauto.
Qed.

End RoutesOfEdges.

(** An edge across the square graph, from its corner (0, 0) to its corner
    (10, 5). *)
Definition cornerPorts : PortAssignment :=
  mkPA [mkPort 0 0 DirRight (mkPoint 0 0) true] [mkPort 1 0 DirLeft (mkPoint 10 5) false].

Lemma routeAllEdges_routes_witness :
  exists routes,
    routeAllEdges gosort.insertionSort 20 squareGraph cornerPorts shiftedEdges = Some routes /\
    length routes = length shiftedEdges /\
    forall k, (k < length shiftedEdges)%nat ->
      exists r, routes !! k = Some r /\ routeOf squareGraph cornerPorts (Z.of_nat k) r.
Proof.
  eexists. split; [vm_compute; reflexivity|].
  apply (routeAllEdges_routes gosort.insertionSort 20 squareGraph cornerPorts shiftedEdges).
  - apply insertionSort_contract.
  - vm_compute. reflexivity.
Defined.
